(** * Ctranspiler.c: the lexer and the recursive-descent translator

    A shallow embedding of [src/Ctranspiler.c] and the properties its
    specification states about it.

    Conventions of the embedding.
    - A C string is the list of its characters; the terminating NUL is the
      end of the list, and reading the character under a pointer that
      stands at the end gives NUL ([peek]).  A list that holds a NUL
      character behaves like the C buffer it would be stored in: every
      loop of the lexer stops there.
    - [int] values (cursor, offsets, counts) are integers of [Z]; token
      arrays are far shorter than [2^31] elements, so that a count, and an
      index below it, is an [int].  The one sum that an argument can take
      above [INT_MAX], the index of [peek_at], has no value there
      ([Undefined]).
    - Reading a token array outside its bounds and writing past the end of
      a fixed [char] array are undefined behaviour in C: the embedding
      returns [Undefined] there.
    - [printf] appends to a text, the standard output.
    - Where [&&] or [||] joins two tests of the token under the cursor,
      both tests are made and then joined: the second reads the token the
      first has read, so making it where C skips it changes nothing.
    - The character classes of [<ctype.h>] are those of the C locale. *)


From Stdlib Require Import String Ascii List ZArith Lia Bool Arith FunInd.
Import ListNotations.

(* ================================================================== *)
(** * The program *)

(** ** Characters and C strings *)

Definition cstring := list ascii.

Definition str (s : string) : cstring := list_ascii_of_string s.

Definition NUL : ascii := "000"%char.

Definition nl : ascii := "010"%char.

Definition dquote : ascii := "034"%char.

Definition backslash : ascii := "\"%char.

(** [*current]: the character under the pointer, NUL at the end. *)
Definition peek (s : cstring) : ascii := hd NUL s.

Definition in_range (lo hi c : ascii) : bool :=
  ((N_of_ascii lo <=? N_of_ascii c) && (N_of_ascii c <=? N_of_ascii hi))%N.

Definition isspace (c : ascii) : bool :=
  in_range "009" "013" c || Ascii.eqb c " ".

Definition isdigit (c : ascii) : bool := in_range "0" "9" c.

Definition isalpha (c : ascii) : bool :=
  in_range "A" "Z" c || in_range "a" "z" c.

Definition isalnum (c : ascii) : bool := isalpha c || isdigit c.

Fixpoint cstring_eqb (a b : cstring) : bool :=
  match a, b with
  | [], [] => true
  | x :: a', y :: b' => Ascii.eqb x y && cstring_eqb a' b'
  | _, _ => false
  end.

(** [strchr(set, c) != NULL] for a character [c] that is not NUL. *)
Definition strchr (set : cstring) (c : ascii) : bool :=
  existsb (Ascii.eqb c) set.

(** ** Tokenizer section *)

Inductive TokenType : Type :=
| TOKEN_KEYWORD
| TOKEN_IDENTIFIER
| TOKEN_NUMBER
| TOKEN_LPAREN
| TOKEN_RPAREN
| TOKEN_LBRACE
| TOKEN_RBRACE
| TOKEN_EQUALS
| TOKEN_SEMICOLON
| TOKEN_COMMA
| TOKEN_PREPROCESSOR
| TOKEN_EOF
| TOKEN_UNKNOWN.

Definition TokenType_eqb (a b : TokenType) : bool :=
  match a, b with
  | TOKEN_KEYWORD, TOKEN_KEYWORD
  | TOKEN_IDENTIFIER, TOKEN_IDENTIFIER
  | TOKEN_NUMBER, TOKEN_NUMBER
  | TOKEN_LPAREN, TOKEN_LPAREN
  | TOKEN_RPAREN, TOKEN_RPAREN
  | TOKEN_LBRACE, TOKEN_LBRACE
  | TOKEN_RBRACE, TOKEN_RBRACE
  | TOKEN_EQUALS, TOKEN_EQUALS
  | TOKEN_SEMICOLON, TOKEN_SEMICOLON
  | TOKEN_COMMA, TOKEN_COMMA
  | TOKEN_PREPROCESSOR, TOKEN_PREPROCESSOR
  | TOKEN_EOF, TOKEN_EOF
  | TOKEN_UNKNOWN, TOKEN_UNKNOWN => true
  | _, _ => false
  end.

Definition keywords : list cstring :=
  [str "int"; str "void"; str "char"; str "for"; str "while"; str "if";
   str "else"; str "return"].

Record Token : Type := mkToken { type : TokenType; lexeme : cstring }.

(** The dynamic array [TokenList]: its elements in order; [count] is the
    length, and the capacity is an allocation detail. *)
Definition TokenList := list Token.

(** [add_token(list, type, lexeme, len)] copies the first [len] characters
    at [lexeme] and appends the token. *)
Definition add_token (list : TokenList) (ty : TokenType)
                     (lexeme : cstring) (len : nat) : TokenList :=
  list ++ [mkToken ty (firstn len lexeme)].

Definition is_keyword (s : cstring) : bool :=
  existsb (fun k => cstring_eqb k s) keywords.

(** The state of [tokenize] besides the pointer [current]: the token list
    built so far and what was printed. *)
Record LexState : Type := mkLexState {
  token_list : TokenList;
  lex_stdout : cstring
}.

(** [while (f( *current )) current++;] for a class [f] that excludes NUL. *)
Fixpoint skip_while (f : ascii -> bool) (s : cstring) : cstring :=
  match s with
  | [] => []
  | c :: r => if f c then skip_while f r else s
  end.

Definition not_eol (c : ascii) : bool :=
  negb (Ascii.eqb c nl) && negb (Ascii.eqb c NUL).

Definition is_word_char (c : ascii) : bool :=
  isalnum c || Ascii.eqb c "_".

(** The loop over the body of a string literal, entered after the opening
    quote: it stops at the closing quote or at the end of the buffer, and
    a backslash followed by a character skips both. *)
Fixpoint skip_string_body (s : cstring) : cstring :=
  match s with
  | [] => []
  | c :: r =>
      if Ascii.eqb c dquote || Ascii.eqb c NUL then s
      else if Ascii.eqb c backslash then
        match r with
        | [] => []
        | c2 :: r2 =>
            if negb (Ascii.eqb c2 NUL) then skip_string_body r2
            else skip_string_body r
        end
      else skip_string_body r
  end.

(** [current - start] for a pointer [current] that was advanced from
    [start]. *)
Definition ptr_diff (start current : cstring) : nat :=
  length start - length current.

Definition add (st : LexState) (ty : TokenType) (start : cstring)
               (len : nat) : LexState :=
  mkLexState (add_token (token_list st) ty start len) (lex_stdout st).

(** The part of the loop body after the operator block: single
    punctuation, numbers, words, string literals, unknown characters. *)
Definition tokenize_plain (current : cstring) (st : LexState)
  : cstring * LexState :=
  let c := peek current in
  if Ascii.eqb c "(" then (tl current, add st TOKEN_LPAREN current 1)
  else if Ascii.eqb c ")" then (tl current, add st TOKEN_RPAREN current 1)
  else if Ascii.eqb c "{" then (tl current, add st TOKEN_LBRACE current 1)
  else if Ascii.eqb c "}" then (tl current, add st TOKEN_RBRACE current 1)
  else if Ascii.eqb c "=" then (tl current, add st TOKEN_EQUALS current 1)
  else if Ascii.eqb c ";" then (tl current, add st TOKEN_SEMICOLON current 1)
  else if Ascii.eqb c "," then (tl current, add st TOKEN_COMMA current 1)
  else if isdigit c then
    let start := current in
    let current := skip_while isdigit current in
    (current, add st TOKEN_NUMBER start (ptr_diff start current))
  else if isalpha c || Ascii.eqb c "_" then
    let start := current in
    let current := skip_while is_word_char current in
    let len := ptr_diff start current in
    let temp := firstn len start in
    if is_keyword temp then (current, add st TOKEN_KEYWORD start len)
    else (current, add st TOKEN_IDENTIFIER start len)
  else if Ascii.eqb c dquote then
    let start := current in
    let current := skip_string_body (tl current) in
    let current := if Ascii.eqb (peek current) dquote then tl current
                   else current in
    (current, add st TOKEN_IDENTIFIER start (ptr_diff start current))
  else
    (tl current,
     mkLexState
       (add_token (token_list st) TOKEN_UNKNOWN current 1)
       (lex_stdout st ++ str "Tokenizer Error: Unknown character '"
          ++ [c] ++ str "'" ++ [nl])).

(** One turn of the [while ( *current != 0 )] loop, entered with a
    character that is not NUL. *)
Definition tokenize_step (current : cstring) (st : LexState)
  : cstring * LexState :=
  let c := peek current in
  if isspace c then (tl current, st)
  else if Ascii.eqb c "/" && Ascii.eqb (peek (tl current)) "/" then
    (skip_while not_eol current, st)
  else if Ascii.eqb c "#" then
    let start := current in
    let current := skip_while not_eol current in
    (current, add st TOKEN_PREPROCESSOR start (ptr_diff start current))
  else if strchr (str "><=!") c then
    let start := current in
    if (Ascii.eqb c ">" || Ascii.eqb c "<" || Ascii.eqb c "!"
        || Ascii.eqb c "=")
       && Ascii.eqb (peek (tl start)) "=" then
      (tl (tl current), add st TOKEN_IDENTIFIER start 2)
    else if Ascii.eqb c ">" || Ascii.eqb c "<" then
      (tl current, add st TOKEN_IDENTIFIER start 1)
    else tokenize_plain current st
  else tokenize_plain current st.

Fixpoint tokenize_loop (fuel : nat) (current : cstring) (st : LexState)
  : option LexState :=
  match fuel with
  | O => None
  | S fuel' =>
      if Ascii.eqb (peek current) NUL then Some st
      else let '(current', st') := tokenize_step current st in
           tokenize_loop fuel' current' st'
  end.

Definition eof_token : Token := mkToken TOKEN_EOF (str "EOF").

(** [tokenize(source)]: the token list and the text printed.  Every turn
    of the loop moves [current] forward, so as many turns as the buffer
    has characters, and one more for the exit test, are enough
    ([tokenize_total]). *)
Definition tokenize (source : cstring) : option (TokenList * cstring) :=
  match tokenize_loop (S (length source)) source (mkLexState [] []) with
  | Some st =>
      Some (add_token (token_list st) TOKEN_EOF (str "EOF") 3, lex_stdout st)
  | None => None
  end.

(** ** Parser section *)

Open Scope Z_scope.

(** The struct [Parser].  [output] is the text accumulated so far (the
    fields [output_capacity] and [output_size] are its allocated size and
    its length); [stdout] is the text printed by [printf]. *)
Record Parser : Type := mkParser {
  tokens : TokenList;
  current_token_pos : Z;
  output : cstring;
  stdout : cstring
}.

(** The result of running parser code: a value and the state left, or
    undefined behaviour, or a loop that was cut off. *)
Inductive outcome (A : Type) : Type :=
| Ret (a : A) (p : Parser)
| Undefined
| OutOfFuel.

Arguments Ret {A} a p.

Arguments Undefined {A}.

Arguments OutOfFuel {A}.

Definition M (A : Type) : Type := Parser -> outcome A.

Definition ret {A} (a : A) : M A := fun p => Ret a p.

Definition bind {A B} (m : M A) (k : A -> M B) : M B :=
  fun p => match m p with
           | Ret a p' => k a p'
           | Undefined => Undefined
           | OutOfFuel => OutOfFuel
           end.

Notation "x <- m ;; k" := (bind m (fun x => k))
  (at level 61, m at next level, right associativity).

Notation "m ;;; k" := (bind m (fun _ => k))
  (at level 61, right associativity).

(** [if (!c) return 0; k] *)
Definition require (c : M bool) (k : M bool) : M bool :=
  ok <- c ;; if ok then k else ret false.

Definition count (p : Parser) : Z := Z.of_nat (length (tokens p)).

(** [tokens.tokens[i]] *)
Definition token_at (l : TokenList) (i : Z) : option Token :=
  if (0 <=? i) && (i <? Z.of_nat (length l)) then nth_error l (Z.to_nat i)
  else None.

Definition read (i : Z) : M Token :=
  fun p => match token_at (tokens p) i with
           | Some t => Ret t p
           | None => Undefined
           end.

Definition printf (s : cstring) : M unit :=
  fun p => Ret tt (mkParser (tokens p) (current_token_pos p) (output p)
                            (stdout p ++ s)).

Definition append_output (s : cstring) : M unit :=
  fun p => Ret tt (mkParser (tokens p) (current_token_pos p) (output p ++ s)
                            (stdout p)).

Definition current_token : M Token :=
  fun p => read (current_token_pos p) p.

(** The largest [int]. *)
Definition INT_MAX : Z := 2147483647.

(** [peek_at(p, offset)].  The index [p->current_token_pos + offset] is a
    sum of two [int]s, which has no value above [INT_MAX]; the count is
    an [int] too, so a sum below it has one. *)
Definition peek_at (offset : Z) : M Token :=
  fun p =>
    if current_token_pos p + offset >=? count p then
      if current_token_pos p + offset <=? INT_MAX then read (count p - 1) p
      else Undefined
    else read (current_token_pos p + offset) p.

Definition set_pos (i : Z) : M unit :=
  fun p => Ret tt (mkParser (tokens p) i (output p) (stdout p)).

Definition advance : M Token :=
  fun p =>
    ((if current_token_pos p <? count p - 1
      then set_pos (current_token_pos p + 1) else ret tt) ;;;
     (fun p' => read (current_token_pos p' - 1) p')) p.

Definition match_ (ty : TokenType) : M bool :=
  t <- current_token ;; ret (TokenType_eqb (type t) ty).

Definition consume (ty : TokenType) (error_message : cstring) : M bool :=
  ok <- match_ ty ;;
  if ok then advance ;;; ret true
  else
    t <- current_token ;;
    printf (str "Parser Error: " ++ error_message ++ str ". Got '"
              ++ lexeme t ++ str "' instead." ++ [nl]) ;;;
    ret false.

(** [strncat(dst, src, n)] *)
Definition strncat (dst src : cstring) (n : nat) : cstring :=
  dst ++ firstn n src.

(** [strcat(dst, src)] into an array of [size] characters, and [sprintf]
    of the text [s] into one: the text and its NUL have to fit. *)
Definition strcat_into (size : nat) (dst src : cstring) : M cstring :=
  fun p => if (length (dst ++ src) <? size)%nat then Ret (dst ++ src) p
           else Undefined.

Definition sprintf_into (size : nat) (s : cstring) : M cstring :=
  fun p => if (length s <? size)%nat then Ret s p else Undefined.

(** The loop of [slurp_tokens_until], at most [n] turns of it.  It is
    entered with an empty text and a size that is not zero, and keeps
    the text shorter than [buffer_size]: the number of characters left,
    [buffer_size - strlen(buffer) - 1], is then the same in [size_t] and
    here. *)
Fixpoint slurp_loop (n : nat) (end_type : TokenType) (buffer : cstring)
                    (buffer_size : nat) : M cstring :=
  match n with
  | O => fun _ => OutOfFuel
  | S n' =>
      at_end <- match_ end_type ;;
      at_eof <- match_ TOKEN_EOF ;;
      if negb at_end && negb at_eof then
        let buffer :=
          if (0 <? length buffer)%nat
          then strncat buffer (str " ") (buffer_size - length buffer - 1)
          else buffer in
        t <- current_token ;;
        let buffer :=
          strncat buffer (lexeme t) (buffer_size - length buffer - 1) in
        advance ;;;
        slurp_loop n' end_type buffer buffer_size
      else ret buffer
  end.

(** [slurp_tokens_until(p, end_type, buffer, buffer_size)]; the value is
    the text left in [buffer].  [buffer[0] = 0] needs a buffer of one
    character at least; the text then stays below [buffer_size]
    characters, so that [buffer_size - strlen(buffer) - 1] does not wrap
    around.  The cursor moves at every turn but at the last token, so a
    loop that takes more turns than there are tokens never ends. *)
Definition slurp_tokens_until (end_type : TokenType) (buffer_size : nat)
  : M cstring :=
  fun p =>
    if (buffer_size =? 0)%nat then Undefined
    else slurp_loop (S (length (tokens p))) end_type [] buffer_size p.

Fixpoint offset_loop (n : nat) (paren_level offset : Z) : M Z :=
  match n with
  | O => fun _ => OutOfFuel
  | S n' =>
      fun p =>
        if (0 <? paren_level) && (current_token_pos p + offset <? count p)
        then
          (t <- peek_at offset ;;
           let paren_level :=
             if TokenType_eqb (type t) TOKEN_LPAREN then paren_level + 1
             else paren_level in
           let paren_level :=
             if TokenType_eqb (type t) TOKEN_RPAREN then paren_level - 1
             else paren_level in
           offset_loop n' paren_level (offset + 1)) p
        else Ret offset p
  end.

(** [get_offset_after_paren]: the offset grows at every turn and the loop
    ends when it reaches the end of the array. *)
Definition get_offset_after_paren : M Z :=
  at_paren <- match_ TOKEN_LPAREN ;;
  if negb at_paren then ret 0
  else fun p => offset_loop (S (length (tokens p))) 1 1 p.

(** The first loop of [parse_reversed_function_call]. *)
Fixpoint scan_args_loop (n : nat) (paren_level : Z) : M unit :=
  match n with
  | O => fun _ => OutOfFuel
  | S n' =>
      if 0 <? paren_level then
        at_eof <- match_ TOKEN_EOF ;;
        if negb at_eof then
          at_lparen <- match_ TOKEN_LPAREN ;;
          let paren_level := if at_lparen then paren_level + 1
                             else paren_level in
          at_rparen <- match_ TOKEN_RPAREN ;;
          let paren_level := if at_rparen then paren_level - 1
                             else paren_level in
          (if 0 <? paren_level then advance ;;; ret tt else ret tt) ;;;
          scan_args_loop n' paren_level
        else ret tt
      else ret tt
  end.

Definition get_pos : M Z := fun p => Ret (current_token_pos p) p.

(** Its second loop, [for (i = start_token_pos; i < end_token_pos; i++)]:
    the [n] turns it takes from [i], [n] being [end_token_pos - i]. *)
Fixpoint gather_args_loop (n : nat) (i end_token_pos : Z)
                          (args_buffer : cstring) : M cstring :=
  match n with
  | O => ret args_buffer
  | S n' =>
      t <- read i ;;
      let args_buffer :=
        strncat args_buffer (lexeme t) (1024 - length args_buffer - 1) in
      args_buffer <-
        (if i <? end_token_pos - 1 then
           pos <- get_pos ;;
           next <- peek_at (i - pos + 1) ;;
           ret (if negb (TokenType_eqb (type next) TOKEN_COMMA)
                then strncat args_buffer (str " ")
                       (1024 - length args_buffer - 1)
                else args_buffer)
         else ret args_buffer) ;;
      gather_args_loop n' (i + 1) end_token_pos args_buffer
  end.

Definition parse_reversed_function_call : M bool :=
  require (consume TOKEN_LPAREN (str "Expected '(' for function call")) (
  start_token_pos <- get_pos ;;
  (fun p => scan_args_loop (S (length (tokens p))) 1 p) ;;;
  end_token_pos <- get_pos ;;
  args_buffer <- gather_args_loop
                   (Z.to_nat (end_token_pos - start_token_pos))
                   start_token_pos end_token_pos [] ;;
  require (consume TOKEN_RPAREN
             (str "Expected ')' to end function call arguments")) (
  func_name <- current_token ;;
  require (consume TOKEN_IDENTIFIER (str "Expected function name")) (
  require (consume TOKEN_SEMICOLON
             (str "Expected ';' after function call")) (
  final_call <- sprintf_into 2048
                  (str "    " ++ lexeme func_name ++ str "(" ++ args_buffer
                     ++ str ");" ++ [nl]) ;;
  append_output final_call ;;;
  ret true)))).

Definition parse_variable_declaration : M bool :=
  value <- advance ;;
  require (consume TOKEN_EQUALS
             (str "Expected '=' after value in declaration")) (
  name <- current_token ;;
  require (consume TOKEN_IDENTIFIER
             (str "Expected identifier name for variable")) (
  ty <- current_token ;;
  require (consume TOKEN_KEYWORD
             (str "Expected type keyword for variable")) (
  require (consume TOKEN_SEMICOLON
             (str "Expected ';' after variable declaration")) (
  temp_buffer <- sprintf_into 512
                   (str "    " ++ lexeme ty ++ str " " ++ lexeme name
                      ++ str " = " ++ lexeme value ++ str ";" ++ [nl]) ;;
  append_output temp_buffer ;;;
  ret true)))).

(** The loops [while (!match(p, TOKEN_RBRACE) && !match(p, TOKEN_EOF))
    if (!parse_statement(p)) return 0;] of the bodies: [true] when the
    loop ends, [false] when a statement fails. *)
Fixpoint body_loop (stmt : M bool) (n : nat) : M bool :=
  match n with
  | O => fun _ => OutOfFuel
  | S n' =>
      at_rbrace <- match_ TOKEN_RBRACE ;;
      at_eof <- match_ TOKEN_EOF ;;
      if negb at_rbrace && negb at_eof then
        require stmt (body_loop stmt n')
      else ret true
  end.

(** The end of [parse_statement]: a statement that starts with a word is
    copied up to its semicolon; anything else is an error. *)
Definition parse_passthrough : M bool :=
  at_keyword <- match_ TOKEN_KEYWORD ;;
  at_identifier <- match_ TOKEN_IDENTIFIER ;;
  if at_keyword || at_identifier then
    line <- slurp_tokens_until TOKEN_SEMICOLON 1024 ;;
    ok <- consume TOKEN_SEMICOLON (str "Expected ';' after statement") ;;
    if ok then
      append_output (str "    ") ;;;
      append_output line ;;;
      append_output (str ";" ++ [nl]) ;;;
      ret true
    else ret false
  else
    t <- current_token ;;
    printf (str "Parser Error: Unrecognized statement starting with '"
              ++ lexeme t ++ str "'" ++ [nl]) ;;;
    ret false.

Section Statements.

(** [parse_statement], which the parsers of the control structures call
    back, and the number of turns granted to their loops. *)
Variable parse_statement : M bool.
Variable fuel : nat.

Definition parse_for_loop : M bool :=
  require (consume TOKEN_LPAREN
             (str "Expected '(' before for loop condition")) (
  condition <- slurp_tokens_until TOKEN_RPAREN 256 ;;
  require (consume TOKEN_RPAREN
             (str "Expected ')' after for loop condition")) (
  require (consume TOKEN_KEYWORD
             (str "Expected 'for' keyword after condition")) (
  temp_buffer <- sprintf_into 512
                   (str "    for (" ++ condition ++ str ") {" ++ [nl]) ;;
  append_output temp_buffer ;;;
  require (consume TOKEN_LBRACE
             (str "Expected '{' before for loop body")) (
  require (body_loop parse_statement fuel) (
  require (consume TOKEN_RBRACE
             (str "Expected '}' after for loop body")) (
  append_output (str "    }" ++ [nl]) ;;;
  ret true)))))).

Definition parse_while_loop : M bool :=
  require (consume TOKEN_LPAREN
             (str "Expected '(' before while loop condition")) (
  condition <- slurp_tokens_until TOKEN_RPAREN 256 ;;
  require (consume TOKEN_RPAREN
             (str "Expected ')' after while loop condition")) (
  require (consume TOKEN_KEYWORD
             (str "Expected 'while' keyword after condition")) (
  temp_buffer <- sprintf_into 512
                   (str "    while (" ++ condition ++ str ") {" ++ [nl]) ;;
  append_output temp_buffer ;;;
  require (consume TOKEN_LBRACE
             (str "Expected '{' before while loop body")) (
  require (body_loop parse_statement fuel) (
  require (consume TOKEN_RBRACE
             (str "Expected '}' after while loop body")) (
  append_output (str "    }" ++ [nl]) ;;;
  ret true)))))).

Definition parse_if_statement : M bool :=
  require (consume TOKEN_LPAREN
             (str "Expected '(' before if condition")) (
  condition <- slurp_tokens_until TOKEN_RPAREN 256 ;;
  require (consume TOKEN_RPAREN
             (str "Expected ')' after if condition")) (
  require (consume TOKEN_KEYWORD
             (str "Expected 'if' keyword after condition")) (
  temp_buffer <- sprintf_into 512
                   (str "    if (" ++ condition ++ str ") {" ++ [nl]) ;;
  append_output temp_buffer ;;;
  require (consume TOKEN_LBRACE (str "Expected '{' before if body")) (
  require (body_loop parse_statement fuel) (
  require (consume TOKEN_RBRACE (str "Expected '}' after if body")) (
  append_output (str "    }" ++ [nl]) ;;;
  at_keyword <- match_ TOKEN_KEYWORD ;;
  t <- current_token ;;
  if at_keyword && cstring_eqb (lexeme t) (str "else") then
    advance ;;;
    append_output (str "    else {" ++ [nl]) ;;;
    require (consume TOKEN_LBRACE (str "Expected '{' before else body")) (
    require (body_loop parse_statement fuel) (
    require (consume TOKEN_RBRACE (str "Expected '}' after else body")) (
    append_output (str "    }" ++ [nl]) ;;;
    ret true)))
  else ret true)))))).

(** The body of [parse_statement]. *)
Definition parse_statement_body : M bool :=
  at_number <- match_ TOKEN_NUMBER ;;
  if at_number then parse_variable_declaration
  else
    at_lparen <- match_ TOKEN_LPAREN ;;
    if at_lparen then
      offset <- get_offset_after_paren ;;
      token_after_paren <- peek_at offset ;;
      let call_or_passthrough : M bool :=
        if TokenType_eqb (type token_after_paren) TOKEN_IDENTIFIER then
          t <- peek_at (offset + 1) ;;
          if TokenType_eqb (type t) TOKEN_SEMICOLON
          then parse_reversed_function_call
          else parse_passthrough
        else parse_passthrough in
      if TokenType_eqb (type token_after_paren) TOKEN_KEYWORD then
        if cstring_eqb (lexeme token_after_paren) (str "for")
        then parse_for_loop
        else if cstring_eqb (lexeme token_after_paren) (str "while")
        then parse_while_loop
        else if cstring_eqb (lexeme token_after_paren) (str "if")
        then parse_if_statement
        else call_or_passthrough
      else call_or_passthrough
    else parse_passthrough.

End Statements.

(** [parse_statement] with the depth of nesting bounded by [fuel]. *)
Fixpoint parse_statement (fuel : nat) : M bool :=
  match fuel with
  | O => fun _ => OutOfFuel
  | S fuel' => parse_statement_body (parse_statement fuel') fuel'
  end.

(** The loop over the arguments of [parse_function_declaration]; [None]
    stands for [return 0] inside the loop. *)
Fixpoint args_loop (n : nat) (args : cstring) : M (option cstring) :=
  match n with
  | O => fun _ => OutOfFuel
  | S n' =>
      at_rparen <- match_ TOKEN_RPAREN ;;
      at_eof <- match_ TOKEN_EOF ;;
      if negb at_rparen && negb at_eof then
        args <- (if (0 <? length args)%nat
                 then strcat_into 1024 args (str ", ") else ret args) ;;
        arg_name <- current_token ;;
        ok <- consume TOKEN_IDENTIFIER (str "Expected argument name") ;;
        if negb ok then ret None else
        arg_type <- current_token ;;
        ok <- consume TOKEN_KEYWORD (str "Expected argument type") ;;
        if negb ok then ret None else
        args <- strcat_into 1024 args (lexeme arg_type) ;;
        args <- strcat_into 1024 args (str " ") ;;
        args <- strcat_into 1024 args (lexeme arg_name) ;;
        at_comma <- match_ TOKEN_COMMA ;;
        if at_comma then advance ;;; args_loop n' args
        else
          at_rparen <- match_ TOKEN_RPAREN ;;
          if negb at_rparen then
            printf (str "Parser Error: Expected ',' or ')' in argument list."
                      ++ [nl]) ;;;
            ret None
          else args_loop n' args
      else ret (Some args)
  end.

Definition parse_function_declaration (fuel : nat) : M bool :=
  require (consume TOKEN_LPAREN
             (str "Expected '(' before function arguments")) (
  r <- (fun p => args_loop (S (length (tokens p))) [] p) ;;
  match r with
  | None => ret false
  | Some args =>
      require (consume TOKEN_RPAREN
                 (str "Expected ')' after function arguments")) (
      func_name <- current_token ;;
      require (consume TOKEN_IDENTIFIER (str "Expected function name")) (
      return_type <- current_token ;;
      require (consume TOKEN_KEYWORD
                 (str "Expected function return type")) (
      func_header <- sprintf_into 2048
                       (lexeme return_type ++ str " " ++ lexeme func_name
                          ++ str "(" ++ args ++ str ") {" ++ [nl]) ;;
      append_output func_header ;;;
      require (consume TOKEN_LBRACE
                 (str "Expected '{' before function body")) (
      require (body_loop (parse_statement fuel) fuel) (
      require (consume TOKEN_RBRACE
                 (str "Expected '}' after function body")) (
      append_output (str "}" ++ [nl; nl]) ;;;
      ret true))))))
  end).

(** The loop of [parse]: [Some output], or [None] for [return NULL]. *)
Fixpoint parse_loop (fuel n : nat) : M (option cstring) :=
  match n with
  | O => fun _ => OutOfFuel
  | S n' =>
      at_eof <- match_ TOKEN_EOF ;;
      if negb at_eof then
        at_preprocessor <- match_ TOKEN_PREPROCESSOR ;;
        if at_preprocessor then
          t <- current_token ;;
          append_output (lexeme t) ;;;
          append_output [nl] ;;;
          advance ;;;
          parse_loop fuel n'
        else
          at_lparen <- match_ TOKEN_LPAREN ;;
          if at_lparen then
            ok <- parse_function_declaration fuel ;;
            if negb ok then ret None else parse_loop fuel n'
          else
            t <- current_token ;;
            printf (str "Parser Error: Only preprocessor directives or function definitions allowed at top level. Found '"
                      ++ lexeme t ++ str "'." ++ [nl]) ;;;
            ret None
      else fun p => Ret (Some (output p)) p
  end.

Definition parse (fuel : nat) (tokens : TokenList) : outcome (option cstring) :=
  parse_loop fuel fuel (mkParser tokens 0 [] []).

Close Scope Z_scope.

(* ================================================================== *)
(** * Definitions of the specification *)

(** ** Lexing *)

(** *** One turn of the loop *)

Definition no_lex : LexState := mkLexState [] [].

(** The tokens added and the text printed by one turn of the loop from the
    pointer [current], and the pointer it leaves. *)
Definition step_tokens (current : cstring) : list Token :=
  token_list (snd (tokenize_step current no_lex)).

Definition step_stdout (current : cstring) : cstring :=
  lex_stdout (snd (tokenize_step current no_lex)).

Definition step_next (current : cstring) : cstring :=
  fst (tokenize_step current no_lex).

(** *** The whole loop, as a relation

    [lexes current toks out]: from the pointer [current] the loop runs to
    the end of the buffer, adding the tokens [toks] and printing [out]. *)
Inductive lexes : cstring -> list Token -> cstring -> Prop :=
| lexes_end current :
    peek current = NUL -> lexes current [] []
| lexes_turn current toks out :
    peek current <> NUL ->
    lexes (step_next current) toks out ->
    lexes current (step_tokens current ++ toks) (step_stdout current ++ out).

(** [reaches source current toks out]: after some turns of the loop on
    the buffer [source] the pointer is at [current], the tokens [toks]
    were added and [out] was printed. *)
Inductive reaches (source : cstring)
  : cstring -> list Token -> cstring -> Prop :=
| reaches_start : reaches source source [] []
| reaches_turn current toks out :
    reaches source current toks out ->
    peek current <> NUL ->
    reaches source (step_next current) (toks ++ step_tokens current)
            (out ++ step_stdout current).

(** *** The tokens the lexer makes *)

(** The lexemes of the token kinds that stand for fixed texts. *)
Definition lexer_token (t : Token) : Prop :=
  match type t with
  | TOKEN_LPAREN => lexeme t = str "("
  | TOKEN_RPAREN => lexeme t = str ")"
  | TOKEN_LBRACE => lexeme t = str "{"
  | TOKEN_RBRACE => lexeme t = str "}"
  | TOKEN_EQUALS => lexeme t = str "="
  | TOKEN_SEMICOLON => lexeme t = str ";"
  | TOKEN_COMMA => lexeme t = str ","
  | TOKEN_KEYWORD => In (lexeme t) keywords
  | TOKEN_EOF => lexeme t = str "EOF"
  | _ => True
  end.

(** *** Sources without tokens *)

(** Whether the text holds only whitespace and [//] comments;
    [in_comment] tells whether the text starts inside a comment. *)
Fixpoint blank_scan (in_comment : bool) (s : cstring) : bool :=
  match s with
  | [] => true
  | c :: r =>
      if in_comment then
        if (c =? nl)%char then blank_scan false r else blank_scan true r
      else if isspace c then blank_scan false r
      else if (c =? "/")%char then
        match r with
        | c2 :: r2 => (c2 =? "/")%char && blank_scan true r2
        | [] => false
        end
      else false
  end.

Definition whitespace_and_comments (s : cstring) : bool := blank_scan false s.

(** *** Lexing a lexeme again

    What one turn of the loop consumed is the lexeme of the token it
    added, and the same turn on the lexeme followed by other text adds the
    same token, when that text is empty or starts with a space. *)

Inductive string_body : cstring -> Prop :=
| sb_nil : string_body []
| sb_char c b :
    (c =? dquote)%char || (c =? NUL)%char = false ->
    (c =? backslash)%char = false ->
    string_body b -> string_body (c :: b)
| sb_escape c c2 b :
    (c =? dquote)%char || (c =? NUL)%char = false ->
    (c =? backslash)%char = true ->
    negb (c2 =? NUL)%char = true ->
    string_body b -> string_body (c :: c2 :: b).

(** The text [tail] may follow a token after which the loop was left at
    [rest]. *)
Definition follows (rest tail : cstring) : Prop :=
  tail = [] \/ (peek tail = " "%char /\ peek rest <> NUL).

(** [join_with sep l]: the texts of [l] with [sep] between them. *)
Fixpoint join_with (sep : cstring) (l : list cstring) : cstring :=
  match l with
  | [] => []
  | x :: rest =>
      match rest with
      | [] => x
      | _ :: _ => x ++ sep ++ join_with sep rest
      end
  end.

Definition join_lexemes (l : list Token) : cstring :=
  join_with (str " ") (map lexeme l).

(** No token follows a PREPROCESSOR token. *)
Fixpoint preprocessor_only_last (l : list Token) : bool :=
  match l with
  | [] => true
  | t :: rest =>
      (negb (TokenType_eqb (type t) TOKEN_PREPROCESSOR)
       || match rest with [] => true | _ :: _ => false end)
      && preprocessor_only_last rest
  end.

(** ** What the lexer prints *)

(** The line printed for an UNKNOWN token. *)
Definition unknown_message (t : Token) : cstring :=
  str "Tokenizer Error: Unknown character '" ++ lexeme t ++ str "'" ++ [nl].

Definition is_unknown (t : Token) : bool :=
  TokenType_eqb (type t) TOKEN_UNKNOWN.

Definition errors_of (toks : list Token) : cstring :=
  concat (map unknown_message (filter is_unknown toks)).

(** ** The shapes of the lexemes *)

(** A word: a letter or an underscore, then letters, digits and
    underscores. *)
Definition word (s : cstring) : bool :=
  match s with
  | [] => false
  | c :: r => (isalpha c || (c =? "_")%char) && forallb is_word_char r
  end.

(** The operators that [tokenize] makes IDENTIFIER tokens of. *)
Definition operator_lexemes : list cstring :=
  [str ">"; str "<"; str ">="; str "<="; str "!="; str "=="].

Definition one_of (l : list cstring) (s : cstring) : bool :=
  existsb (fun k => cstring_eqb k s) l.

(** What the lexeme of a token of each kind looks like, for the tokens
    the loop of [tokenize] adds. *)
Definition lexeme_shape (t : Token) : bool :=
  match type t with
  | TOKEN_KEYWORD => word (lexeme t) && is_keyword (lexeme t)
  | TOKEN_IDENTIFIER =>
      (word (lexeme t) && negb (is_keyword (lexeme t)))
      || one_of operator_lexemes (lexeme t)
      || match lexeme t with
         | c :: _ => (c =? dquote)%char
         | [] => false
         end
  | TOKEN_NUMBER =>
      match lexeme t with
      | c :: r => isdigit c && forallb isdigit r
      | [] => false
      end
  | TOKEN_LPAREN => cstring_eqb (lexeme t) (str "(")
  | TOKEN_RPAREN => cstring_eqb (lexeme t) (str ")")
  | TOKEN_LBRACE => cstring_eqb (lexeme t) (str "{")
  | TOKEN_RBRACE => cstring_eqb (lexeme t) (str "}")
  | TOKEN_EQUALS => cstring_eqb (lexeme t) (str "=")
  | TOKEN_SEMICOLON => cstring_eqb (lexeme t) (str ";")
  | TOKEN_COMMA => cstring_eqb (lexeme t) (str ",")
  | TOKEN_PREPROCESSOR =>
      match lexeme t with
      | c :: r => (c =? "#")%char && forallb not_eol r
      | [] => false
      end
  | TOKEN_EOF => false
  | TOKEN_UNKNOWN =>
      match lexeme t with
      | [c] => negb (isspace c) && negb (isalnum c)
      | _ => false
      end
  end.

(** ** Nothing but whitespace and comments is dropped *)

(** The texts [gaps] before the lexemes of [toks], one before each, and
    the text [last] after them. *)
Fixpoint weave (gaps : list cstring) (toks : list Token) (last : cstring)
  : cstring :=
  match gaps, toks with
  | g :: gaps', t :: toks' => g ++ lexeme t ++ weave gaps' toks' last
  | _, _ => last
  end.

(** The characters of a C string: none is NUL. *)
Definition no_nul (s : cstring) : bool :=
  forallb (fun c => negb (c =? NUL)%char) s.

(** The text before the first lexeme, or the whole text when there is no
    token. *)
Definition lead (gaps : list cstring) (last : cstring) : cstring :=
  match gaps with
  | g :: _ => g
  | [] => last
  end.

(** ** Parsing *)

Open Scope Z_scope.

(** ** Parser states *)

Definition next (p : Parser) : Parser :=
  mkParser (tokens p) (current_token_pos p + 1) (output p) (stdout p).

Definition emit (p : Parser) (s : cstring) : Parser :=
  mkParser (tokens p) (current_token_pos p) (output p ++ s) (stdout p).

Definition print (p : Parser) (s : cstring) : Parser :=
  mkParser (tokens p) (current_token_pos p) (output p) (stdout p ++ s).

(** The tokens from the cursor on are [l]. *)
Definition at_cursor (p : Parser) (l : list Token) : Prop :=
  exists pre, tokens p = pre ++ l
              /\ current_token_pos p = Z.of_nat (length pre).

(** The list ends with a token of kind EOF. *)
Definition ends_with_eof (l : list Token) : Prop :=
  exists body t, l = body ++ [t] /\ type t = TOKEN_EOF.

(** The text that [consume] prints when it fails. *)
Definition parser_error (error_message : cstring) (t : Token) : cstring :=
  str "Parser Error: " ++ error_message ++ str ". Got '" ++ lexeme t
    ++ str "' instead." ++ [nl].

(** ** The cursor only moves forward *)

(** [extends p p']: the state [p'] has the tokens of [p], a cursor that is
    not before that of [p], and the texts of [p] with more at their
    end. *)
Definition extends (p p' : Parser) : Prop :=
  tokens p' = tokens p
  /\ current_token_pos p <= current_token_pos p'
  /\ (exists d, output p' = output p ++ d)
  /\ (exists d, stdout p' = stdout p ++ d).

Definition forward {A} (m : M A) : Prop :=
  forall p a p', m p = Ret a p' -> extends p p'.

(** ** Running straight-line parser code *)

Definition declaration_text (ty name value : Token) : cstring :=
  str "    " ++ lexeme ty ++ str " " ++ lexeme name ++ str " = "
    ++ lexeme value ++ str ";" ++ [nl].

(** ** Reversed function calls *)

(** The nesting level after the token [t]. *)
Definition level_after (paren_level : Z) (t : Token) : Z :=
  let paren_level :=
    if TokenType_eqb (type t) TOKEN_LPAREN then paren_level + 1
    else paren_level in
  if TokenType_eqb (type t) TOKEN_RPAREN then paren_level - 1
  else paren_level.

(** [run] lies strictly inside a pair of parentheses entered at level
    [paren_level]: it holds no EOF token, it never closes the pair, and
    its own parentheses are balanced, so that an RPAREN that follows it
    closes the pair. *)
Fixpoint inside_parens (paren_level : Z) (run : list Token) : bool :=
  match run with
  | [] => paren_level =? 1
  | t :: rest =>
      negb (TokenType_eqb (type t) TOKEN_EOF)
      && (0 <? level_after paren_level t)
      && inside_parens (level_after paren_level t) rest
  end.

(** The text of the arguments as the specification words it: the lexemes
    in order, one space between two of them, but none before a comma. *)
Fixpoint join_args (l : list Token) : cstring :=
  match l with
  | [] => []
  | t :: rest =>
      lexeme t ++
      match rest with
      | [] => []
      | t2 :: _ =>
          (if TokenType_eqb (type t2) TOKEN_COMMA then [] else str " ")
          ++ join_args rest
      end
  end.

Definition advance_by (p : Parser) (k : nat) : Parser :=
  mkParser (tokens p) (current_token_pos p + Z.of_nat k) (output p)
           (stdout p).

(** What the second loop leaves in [args_buffer], token by token. *)
Fixpoint gather (run : list Token) (args_buffer : cstring) : cstring :=
  match run with
  | [] => args_buffer
  | t :: rest =>
      let args_buffer :=
        strncat args_buffer (lexeme t) (1024 - length args_buffer - 1) in
      gather rest
        match rest with
        | [] => args_buffer
        | next :: _ =>
            if negb (TokenType_eqb (type next) TOKEN_COMMA)
            then strncat args_buffer (str " ")
                   (1024 - length args_buffer - 1)
            else args_buffer
        end
  end.

Definition call_text (name : Token) (args : cstring) : cstring :=
  str "    " ++ lexeme name ++ str "(" ++ args ++ str ");" ++ [nl].

(** ** Function definitions *)

(** [param_list toks ps]: the tokens [toks] are the pairs [ps] of an
    argument name and an argument type, separated by commas. *)
Inductive param_list : list Token -> list (Token * Token) -> Prop :=
| params_none : param_list [] []
| params_last n t :
    type n = TOKEN_IDENTIFIER -> type t = TOKEN_KEYWORD ->
    param_list [n; t] [(n, t)]
| params_more n t c toks ps :
    type n = TOKEN_IDENTIFIER -> type t = TOKEN_KEYWORD ->
    type c = TOKEN_COMMA ->
    param_list toks ps -> ps <> [] ->
    param_list (n :: t :: c :: toks) ((n, t) :: ps).

(** An argument in forward order: its type, then its name. *)
Definition param_text (a : Token * Token) : cstring :=
  lexeme (snd a) ++ str " " ++ lexeme (fst a).

(** The text in [args] after the pairs [ps] were added to it. *)
Fixpoint args_text (args : cstring) (ps : list (Token * Token)) : cstring :=
  match ps with
  | [] => args
  | a :: rest =>
      args_text
        ((if (0 <? length args)%nat then args ++ str ", " else args)
           ++ param_text a) rest
  end.

Definition header_text (return_type func_name : Token) (args : cstring)
  : cstring :=
  lexeme return_type ++ str " " ++ lexeme func_name ++ str "(" ++ args
    ++ str ") {" ++ [nl].

(** ** Loops over the tokens, as functions of the tokens left *)

(** A state with its cursor on the first token of a list that ends with
    EOF. *)
Definition ready (p : Parser) (l : list Token) : Prop :=
  at_cursor p l /\ ends_with_eof l.

(** The tokens before the first one of kind [end_type] or EOF. *)
Fixpoint run_until (end_type : TokenType) (l : list Token) : list Token :=
  match l with
  | [] => []
  | t :: rest =>
      if TokenType_eqb (type t) end_type || TokenType_eqb (type t) TOKEN_EOF
      then [] else t :: run_until end_type rest
  end.

(** The text [slurp_tokens_until] builds in a buffer without bound. *)
Fixpoint slurp_text (buffer : cstring) (l : list Token) : cstring :=
  match l with
  | [] => buffer
  | t :: rest =>
      slurp_text
        ((if (0 <? length buffer)%nat then buffer ++ str " " else buffer)
           ++ lexeme t) rest
  end.

(** The tokens the first loop of [parse_reversed_function_call] passes
    over, entered at the nesting level [paren_level]. *)
Fixpoint args_run (paren_level : Z) (l : list Token) : list Token :=
  match l with
  | [] => []
  | t :: rest =>
      if TokenType_eqb (type t) TOKEN_EOF then []
      else if 0 <? level_after paren_level t
           then t :: args_run (level_after paren_level t) rest
           else []
  end.

(** ** Braces *)

Definition braces (s : cstring) : Z :=
  Z.of_nat (count_occ ascii_dec s "{"%char)
  - Z.of_nat (count_occ ascii_dec s "}"%char).

Definition lexeme_braces (l : list Token) : Z :=
  braces (concat (map lexeme l)).

(** What one character adds to the count. *)
Definition brace_char (c : ascii) : Z :=
  (if ascii_dec c "{"%char then 1 else 0)
  - (if ascii_dec c "}"%char then 1 else 0).

(** The braces in the lexeme of a token of a kind with a fixed text. *)
Definition kind_braces (ty : TokenType) : option Z :=
  match ty with
  | TOKEN_LBRACE => Some 1
  | TOKEN_RBRACE => Some (-1)
  | TOKEN_KEYWORD | TOKEN_LPAREN | TOKEN_RPAREN | TOKEN_EQUALS
  | TOKEN_SEMICOLON | TOKEN_COMMA => Some 0
  | _ => None
  end.

(** ** The fixed buffers hold what is put in them *)

(** After an opening parenthesis: when a keyword follows the next closing
    parenthesis, the text up to that parenthesis fits the buffer of a
    condition. *)
Definition condition_fits (rest : list Token) : bool :=
  let run := run_until TOKEN_RPAREN rest in
  match skipn (length run) rest with
  | rp :: kw :: _ =>
      negb (TokenType_eqb (type rp) TOKEN_RPAREN
            && TokenType_eqb (type kw) TOKEN_KEYWORD)
      || (length (slurp_text [] run) <=? 255)%nat
  | _ => true
  end.

(** After an opening parenthesis: when an identifier and a semicolon
    follow the matching closing parenthesis, the text up to that
    parenthesis fits the buffer of the arguments of a call. *)
Definition arguments_fit (rest : list Token) : bool :=
  let run := args_run 1 rest in
  match skipn (length run) rest with
  | rp :: name :: semi :: _ =>
      negb (TokenType_eqb (type rp) TOKEN_RPAREN
            && TokenType_eqb (type name) TOKEN_IDENTIFIER
            && TokenType_eqb (type semi) TOKEN_SEMICOLON)
      || (length (join_args run) <=? 1023)%nat
  | _ => true
  end.

(** From a word: when a semicolon is reached, the text up to it fits the
    buffer of a line. *)
Definition line_fits (l : list Token) : bool :=
  let run := run_until TOKEN_SEMICOLON l in
  match skipn (length run) l with
  | semi :: _ =>
      negb (TokenType_eqb (type semi) TOKEN_SEMICOLON)
      || (length (slurp_text [] run) <=? 1023)%nat
  | [] => true
  end.

(** At the first token of [l]: what is asked after an opening parenthesis
    and from a word; nothing at another token. *)
Definition fits_at (l : list Token) : bool :=
  match l with
  | [] => true
  | t :: rest =>
      match type t with
      | TOKEN_LPAREN => condition_fits rest && arguments_fit rest
      | TOKEN_KEYWORD | TOKEN_IDENTIFIER => line_fits l
      | _ => true
      end
  end.

(** The same at every token of [l]. *)
Fixpoint buffers_fit (l : list Token) : bool :=
  match l with
  | [] => true
  | t :: rest => fits_at l && buffers_fit rest
  end.

(** ** The braces of the output *)

(** The tokens are as the lexer makes them and the buffers hold them. *)
Definition source_ok (l : list Token) : Prop :=
  Forall lexer_token l /\ buffers_fit l = true.

(** [translated p p' l]: from [p], whose cursor is on the tokens [l], the
    parser went to [p'], consuming a prefix of [l] and adding to the
    output a text that has as many more opening than closing braces as
    the lexemes of that prefix. *)
Definition translated (p p' : Parser) (l : list Token) : Prop :=
  exists used l' d,
    l = used ++ l' /\ ready p' l' /\ output p' = output p ++ d
    /\ braces d = lexeme_braces used.

(** The head of a control structure, [( condition ) keyword], with the
    text [opening] it starts in the output, and the rest [k] of the
    parser. *)
Definition control_head (m1 m2 m3 opening : cstring) (k : M bool) : M bool :=
  require (consume TOKEN_LPAREN m1) (
  condition <- slurp_tokens_until TOKEN_RPAREN 256 ;;
  require (consume TOKEN_RPAREN m2) (
  require (consume TOKEN_KEYWORD m3) (
  temp_buffer <- sprintf_into 512
                   (opening ++ condition ++ str ") {" ++ [nl]) ;;
  append_output temp_buffer ;;;
  k))).

(** A body in braces, with the text [closing] that ends it in the
    output. *)
Definition block (stmt : M bool) (fuel : nat) (m1 m2 closing : cstring)
                 (k : M bool) : M bool :=
  require (consume TOKEN_LBRACE m1) (
  require (body_loop stmt fuel) (
  require (consume TOKEN_RBRACE m2) (
  append_output closing ;;;
  k))).

Definition balanced (m : M bool) : Prop :=
  forall p l p',
    ready p l -> source_ok l -> m p = Ret true p' -> translated p p' l.

(** ** Statements *)

Definition stateless {A} (m : M A) : Prop :=
  forall p a q, m p = Ret a q -> q = p.

(** [settled m m']: wherever the bound does not cut [m] off, [m'] does
    what [m] does. *)
Definition settled {A} (m m' : M A) : Prop :=
  forall p, m p = OutOfFuel \/ m' p = m p.

(** ** The ways the parser changes its state *)

(** A relation between the state before and the state after that holds
    across the changes the parser makes without printing: the cursor moves
    one token forward, from a token that is not the last one, and text is
    added to the output. *)
Record invariant (R : Parser -> Parser -> Prop) : Prop := mkInvariant {
  inv_refl : forall p, R p p;
  inv_trans : forall p q r, R p q -> R q r -> R p r;
  inv_step : forall p, current_token_pos p < count p - 1 -> R p (next p);
  inv_output : forall p s, R p (emit p s)
}.

(** Whether a text starts with [Parser Error: ], as all that the parser
    prints does. *)
Definition error_prefix (s : cstring) : bool :=
  cstring_eqb (firstn 14 s) (str "Parser Error: ").

(** The relation holds across the printing of an error message. *)
Definition prints (R : Parser -> Parser -> Prop) : Prop :=
  forall p s, error_prefix s = true -> R p (print p s).

Definition keeps (R : Parser -> Parser -> Prop) {A} (m : M A) : Prop :=
  forall p a p', m p = Ret a p' -> R p p'.

(** The cursor stays on a token and the tokens stay what they are. *)
Definition in_bounds (p p' : Parser) : Prop :=
  tokens p' = tokens p
  /\ (0 <= current_token_pos p < count p ->
      0 <= current_token_pos p' < count p').

(** ** Success is silent, failure is reported *)

(** Nothing was printed between the two states. *)
Definition unprinted (p p' : Parser) : Prop := stdout p' = stdout p.

(** An error message, and nothing before it, was printed between the two
    states. *)
Definition reported (p p' : Parser) : Prop :=
  exists msg, stdout p' = stdout p ++ str "Parser Error: " ++ msg.

(** A parser that prints nothing when it succeeds and reports an error
    when it fails. *)
Definition quiet (m : M bool) : Prop :=
  forall p b p', m p = Ret b p' ->
                 if b then unprinted p p' else reported p p'.

(** The same for the loops that give a text, or nothing when they fail. *)
Definition quiet_opt {A} (m : M (option A)) : Prop :=
  forall p r p', m p = Ret r p' ->
                 match r with
                 | Some _ => unprinted p p'
                 | None => reported p p'
                 end.

(** ** The parser comes to an end *)

(** From a cursor on the tokens [l] of a list that ends with EOF, the
    parser goes to a cursor on a part of [l] that ends it. *)
Definition advances (p p' : Parser) : Prop :=
  forall l, ready p l -> exists used l', l = used ++ l' /\ ready p' l'.

(** [finishes N m]: with the cursor on at most [N] tokens left, [m] is
    not cut off. *)
Definition finishes (N : nat) {A} (m : M A) : Prop :=
  forall p l, ready p l -> (length l <= N)%nat -> m p <> OutOfFuel.

(** A successful [m] leaves fewer tokens. *)
Definition progress (m : M bool) : Prop :=
  forall p l p',
    ready p l -> m p = Ret true p' ->
    exists used l', l = used ++ l' /\ used <> [] /\ ready p' l'.

(** ** Statements that are copied *)

(** The message of a failed [consume], printed at the state [p]. *)
Definition failed (p : Parser) (error_message : cstring) (t : Token)
  : outcome bool :=
  Ret false (print p (parser_error error_message t)).

(** ** Control structures *)

(** A token of a condition without parentheses. *)
Definition plain (t : Token) : Prop :=
  type t <> TOKEN_LPAREN /\ type t <> TOKEN_RPAREN /\ type t <> TOKEN_EOF.

(** ** The top level *)

(** The lines that [parse] copies for preprocessor tokens. *)
Definition directive_lines (ds : list Token) : cstring :=
  concat (map (fun t => lexeme t ++ [nl]) ds).

(** Whether the tokens start with the keyword [else]. *)
Definition starts_with_else (l : list Token) : bool :=
  match l with
  | e :: _ =>
      TokenType_eqb (type e) TOKEN_KEYWORD
      && cstring_eqb (lexeme e) (str "else")
  | [] => false
  end.

(** ** Parameter lists that are accepted *)

(** The text in [args] when a parameter is added to it. *)
Definition with_param (args : cstring) (a : Token * Token) : cstring :=
  (if (0 <? length args)%nat then args ++ str ", " else args)
    ++ param_text a.

(** [param_prefix toks ps]: the tokens [toks] are the pairs [ps] of a
    name and a type, each followed by a comma. *)
Inductive param_prefix : list Token -> list (Token * Token) -> Prop :=
| prefix_none : param_prefix [] []
| prefix_more n t c toks ps :
    type n = TOKEN_IDENTIFIER -> type t = TOKEN_KEYWORD ->
    type c = TOKEN_COMMA ->
    param_prefix toks ps ->
    param_prefix (n :: t :: c :: toks) ((n, t) :: ps).

Definition cursor_monotone {A} (m : M A) : Prop :=
  forall p a p', m p = Ret a p' -> current_token_pos p <= current_token_pos p'.

(** ** Examples *)

Definition tok (ty : TokenType) (s : string) : Token := mkToken ty (str s).

(** The tokens of [(x int, y char) f int { (x, (y)) g ; 42 = z int ; }]. *)
Definition example_function : TokenList :=
  [tok TOKEN_LPAREN "("; tok TOKEN_IDENTIFIER "x"; tok TOKEN_KEYWORD "int";
   tok TOKEN_COMMA ","; tok TOKEN_IDENTIFIER "y"; tok TOKEN_KEYWORD "char";
   tok TOKEN_RPAREN ")"; tok TOKEN_IDENTIFIER "f"; tok TOKEN_KEYWORD "int";
   tok TOKEN_LBRACE "{";
   tok TOKEN_LPAREN "("; tok TOKEN_IDENTIFIER "x"; tok TOKEN_COMMA ",";
   tok TOKEN_LPAREN "("; tok TOKEN_IDENTIFIER "y"; tok TOKEN_RPAREN ")";
   tok TOKEN_RPAREN ")"; tok TOKEN_IDENTIFIER "g"; tok TOKEN_SEMICOLON ";";
   tok TOKEN_NUMBER "42"; tok TOKEN_EQUALS "="; tok TOKEN_IDENTIFIER "z";
   tok TOKEN_KEYWORD "int"; tok TOKEN_SEMICOLON ";";
   tok TOKEN_RBRACE "}"; eof_token].

(** The parser at the token of index [i] of the example, with nothing
    written yet. *)
Definition example_at (i : Z) : Parser := mkParser example_function i [] [].

(** A declaration whose number has 600 digits. *)
Definition long_declaration : Parser :=
  mkParser [mkToken TOKEN_NUMBER (repeat "1"%char 600); tok TOKEN_EQUALS "=";
            tok TOKEN_IDENTIFIER "x"; tok TOKEN_KEYWORD "int";
            tok TOKEN_SEMICOLON ";"; tok TOKEN_RBRACE "}"; eof_token]
           0 [] [].

(** The source text of a function whose only statement is that
    declaration. *)
Definition long_declaration_source : cstring :=
  str "() main int { " ++ repeat "1"%char 600 ++ str " = x int ; }".

(** A call whose argument has 1100 characters. *)
Definition long_argument : Token :=
  mkToken TOKEN_IDENTIFIER (repeat "a"%char 1100).

Definition long_call : Parser :=
  mkParser [tok TOKEN_LPAREN "("; long_argument; tok TOKEN_RPAREN ")";
            tok TOKEN_IDENTIFIER "g"; tok TOKEN_SEMICOLON ";";
            tok TOKEN_RBRACE "}"; eof_token]
           0 [] [].

(** The cursor on the EOF token that ends the list. *)
Definition at_the_end : Parser :=
  mkParser [tok TOKEN_LPAREN "("; eof_token] 1 [] [].

(** ** Examples *)

(** The tokens of [( i < 3 ) kw { ( i ) f ; } else { }] for a keyword
    [kw]. *)
Definition example_control (kw : string) : TokenList :=
  [tok TOKEN_LPAREN "("; tok TOKEN_IDENTIFIER "i"; tok TOKEN_IDENTIFIER "<";
   tok TOKEN_NUMBER "3"; tok TOKEN_RPAREN ")"; tok TOKEN_KEYWORD kw;
   tok TOKEN_LBRACE "{";
   tok TOKEN_LPAREN "("; tok TOKEN_IDENTIFIER "i"; tok TOKEN_RPAREN ")";
   tok TOKEN_IDENTIFIER "f"; tok TOKEN_SEMICOLON ";";
   tok TOKEN_RBRACE "}"; tok TOKEN_KEYWORD "else"; tok TOKEN_LBRACE "{";
   tok TOKEN_RBRACE "}"; eof_token].

(** The condition of that example. *)
Definition example_condition : list Token :=
  [tok TOKEN_IDENTIFIER "i"; tok TOKEN_IDENTIFIER "<"; tok TOKEN_NUMBER "3"].

(** The state after the loop of that example, for [while] and [for]. *)
Definition example_after (kw : string) : Parser :=
  mkParser (example_control kw) 13
    (str "    " ++ str kw ++ str " (i < 3) {" ++ [nl]
       ++ str "    f(i);" ++ [nl] ++ str "    }" ++ [nl]) [].

(** The state after the [if] with its [else]. *)
Definition example_after_else : Parser :=
  mkParser (example_control "if") 16
    (str "    if (i < 3) {" ++ [nl] ++ str "    f(i);" ++ [nl]
       ++ str "    }" ++ [nl] ++ str "    else {" ++ [nl]
       ++ str "    }" ++ [nl]) [].

(** The tokens of [( ( i ) < 3 ) while { }]. *)
Definition example_nested : TokenList :=
  [tok TOKEN_LPAREN "("; tok TOKEN_LPAREN "("; tok TOKEN_IDENTIFIER "i";
   tok TOKEN_RPAREN ")"; tok TOKEN_IDENTIFIER "<"; tok TOKEN_NUMBER "3";
   tok TOKEN_RPAREN ")"; tok TOKEN_KEYWORD "while"; tok TOKEN_LBRACE "{";
   tok TOKEN_RBRACE "}"; eof_token].

(** The tokens of [( x int , y char z ) f int { }], where a comma is
    missing after the second parameter. *)
Definition example_parameters : TokenList :=
  [tok TOKEN_LPAREN "("; tok TOKEN_IDENTIFIER "x"; tok TOKEN_KEYWORD "int";
   tok TOKEN_COMMA ","; tok TOKEN_IDENTIFIER "y"; tok TOKEN_KEYWORD "char";
   tok TOKEN_IDENTIFIER "z"; tok TOKEN_RPAREN ")";
   tok TOKEN_IDENTIFIER "f"; tok TOKEN_KEYWORD "int"; tok TOKEN_LBRACE "{";
   tok TOKEN_RBRACE "}"; eof_token].

(** The tokens of [return x ; }]. *)
Definition example_return : TokenList :=
  [tok TOKEN_KEYWORD "return"; tok TOKEN_IDENTIFIER "x";
   tok TOKEN_SEMICOLON ";"; tok TOKEN_RBRACE "}"; eof_token].

(** The tokens of [( x int , y char ) f int { }]. *)
Definition example_definition : TokenList :=
  [tok TOKEN_LPAREN "("; tok TOKEN_IDENTIFIER "x"; tok TOKEN_KEYWORD "int";
   tok TOKEN_COMMA ","; tok TOKEN_IDENTIFIER "y"; tok TOKEN_KEYWORD "char";
   tok TOKEN_RPAREN ")"; tok TOKEN_IDENTIFIER "f"; tok TOKEN_KEYWORD "int";
   tok TOKEN_LBRACE "{"; tok TOKEN_RBRACE "}"; eof_token].

(** The tokens of [( x int , ) f int { }]. *)
Definition example_trailing_comma : TokenList :=
  [tok TOKEN_LPAREN "("; tok TOKEN_IDENTIFIER "x"; tok TOKEN_KEYWORD "int";
   tok TOKEN_COMMA ","; tok TOKEN_RPAREN ")"; tok TOKEN_IDENTIFIER "f";
   tok TOKEN_KEYWORD "int"; tok TOKEN_LBRACE "{"; tok TOKEN_RBRACE "}";
   eof_token].

(** The tokens of [( i ) 3 ;]. *)
Definition example_parenthesised : TokenList :=
  [tok TOKEN_LPAREN "("; tok TOKEN_IDENTIFIER "i"; tok TOKEN_RPAREN ")";
   tok TOKEN_NUMBER "3"; tok TOKEN_SEMICOLON ";"; eof_token].

(** The parser at the start of a token list, with nothing written. *)
Definition start (toks : TokenList) : Parser := mkParser toks 0 [] [].

Close Scope Z_scope.

(* ================================================================== *)
(** * Properties of the lexer *)

Lemma TokenType_eqb_eq (a b : TokenType) :
  TokenType_eqb a b = true <-> a = b.
Proof.
  split.
  - destruct a, b; simpl; intro H; try reflexivity; discriminate H.
  - intros ->. destruct b; reflexivity.
Qed.

Lemma TokenType_eqb_refl (a : TokenType) : TokenType_eqb a a = true.
Proof. apply TokenType_eqb_eq. reflexivity. Qed.

Lemma TokenType_eqb_neq (a b : TokenType) :
  TokenType_eqb a b = false <-> a <> b.
Proof.
  split.
  - intros H E. apply TokenType_eqb_eq in E. congruence.
  - intro H. destruct (TokenType_eqb a b) eqn:E; [|reflexivity].
    apply TokenType_eqb_eq in E. contradiction.
Qed.

Lemma cstring_eqb_eq (a b : cstring) : cstring_eqb a b = true <-> a = b.
Proof.
  revert b. induction a as [|x a IH]; intros [|y b]; simpl;
    try (split; [discriminate|discriminate]); try tauto.
  rewrite andb_true_iff, Ascii.eqb_eq, IH. split.
  - intros [-> ->]. reflexivity.
  - intro H. inversion H. auto.
Qed.

(** *** The scanning loops *)

Lemma skip_while_length f s : length (skip_while f s) <= length s.
Proof.
  induction s as [|c r IH]; simpl; [lia|].
  destruct (f c); simpl; lia.
Qed.

(** What a scanning loop passes over, and where it stops. *)
Lemma skip_while_split f s :
  exists pre, s = pre ++ skip_while f s /\ forallb f pre = true.
Proof.
  induction s as [|c r IH]; simpl.
  - exists []. auto.
  - destruct (f c) eqn:E.
    + destruct IH as (pre & Hs & Hp). exists (c :: pre). simpl.
      rewrite E, Hp. split; [congruence|reflexivity].
    + exists []. auto.
Qed.

Lemma skip_while_stop f s c r : skip_while f s = c :: r -> f c = false.
Proof.
  induction s as [|d s IH]; simpl; [discriminate|].
  destruct (f d) eqn:E; [exact IH|].
  intro H. inversion H. subst. exact E.
Qed.

Lemma skip_while_app f pre tail :
  forallb f pre = true -> skip_while f (pre ++ tail) = skip_while f tail.
Proof.
  induction pre as [|c pre IH]; simpl; [reflexivity|].
  intro H. apply andb_true_iff in H as [Hc Hp]. rewrite Hc. auto.
Qed.

Lemma ptr_diff_app (pre rest : cstring) :
  firstn (ptr_diff (pre ++ rest) rest) (pre ++ rest) = pre.
Proof.
  unfold ptr_diff. rewrite length_app.
  replace (length pre + length rest - length rest) with (length pre) by lia.
  rewrite firstn_app, firstn_all, Nat.sub_diag. simpl. apply app_nil_r.
Qed.

Functional Scheme skip_string_body_ind :=
  Induction for skip_string_body Sort Prop.

Lemma skip_string_body_length s : length (skip_string_body s) <= length s.
Proof.
  functional induction (skip_string_body s); simpl in *; lia.
Qed.

Lemma skip_string_body_split s :
  exists pre, s = pre ++ skip_string_body s.
Proof.
  functional induction (skip_string_body s);
    try (exists []; reflexivity);
    try match goal with
        | H : exists pre, _ |- _ => destruct H as (pre & H)
        end;
    [ exists [c] | exists (c :: c2 :: pre) | exists (c :: pre)
    | exists (c :: pre) ]; cbn [app]; congruence.
Qed.

Lemma skip_string_body_stop s c r :
  skip_string_body s = c :: r -> c = dquote \/ c = NUL.
Proof.
  functional induction (skip_string_body s); try discriminate; auto.
  intro H. inversion H. subst.
  apply orb_true_iff in e0. rewrite !Ascii.eqb_eq in e0. exact e0.
Qed.

Lemma firstn_ptr_diff (s rest : cstring) :
  (exists pre, s = pre ++ rest) ->
  s = firstn (ptr_diff s rest) s ++ rest.
Proof.
  intros (pre & ->). rewrite ptr_diff_app. reflexivity.
Qed.

(** *** One turn of the loop *)

Ltac split_ifs :=
  repeat match goal with
         | |- context [if ?b then _ else _] => destruct b eqn:?
         end.

Lemma tokenize_step_frame current st :
  tokenize_step current st =
  (step_next current,
   mkLexState (token_list st ++ step_tokens current)
              (lex_stdout st ++ step_stdout current)).
Proof.
  unfold step_next, step_tokens, step_stdout.
  destruct st as [l o].
  unfold tokenize_step, tokenize_plain, add, add_token.
  split_ifs; cbn [fst snd token_list lex_stdout app];
    rewrite ?app_nil_r; reflexivity.
Qed.

Lemma skip_while_cons_shorter f c r :
  f c = true -> length (skip_while f (c :: r)) < length (c :: r).
Proof.
  intro H. cbn [skip_while]. rewrite H.
  pose proof (skip_while_length f r). simpl. lia.
Qed.

Lemma word_start_is_word_char c :
  isalpha c || (c =? "_")%char = true -> is_word_char c = true.
Proof.
  unfold is_word_char, isalnum. intro H.
  apply orb_true_iff in H as [H|H]; rewrite H;
    rewrite ?orb_true_r; reflexivity.
Qed.

Lemma tokenize_plain_shorter c r st :
  length (fst (tokenize_plain (c :: r) st)) < length (c :: r).
Proof.
  unfold tokenize_plain. cbn [peek hd tl].
  pose proof (skip_string_body_length r).
  split_ifs; cbn [fst];
    try (cbn [length]; lia);
    try (apply skip_while_cons_shorter;
         auto using word_start_is_word_char).
  destruct (skip_string_body r); cbn [tl length] in *; lia.
Qed.

Lemma step_next_shorter current :
  peek current <> NUL -> length (step_next current) < length current.
Proof.
  destruct current as [|c r]; [intro H; exfalso; apply H; reflexivity|].
  intros _. unfold step_next, tokenize_step. cbn [peek hd tl].
  split_ifs; cbn [fst]; auto using tokenize_plain_shorter;
    try (cbn [length]; lia).
  - apply skip_while_cons_shorter.
    match goal with H : (_ =? "/")%char && _ = true |- _ =>
      apply andb_true_iff in H as [H _]; apply Ascii.eqb_eq in H; subst c end.
    reflexivity.
  - apply skip_while_cons_shorter.
    match goal with H : (c =? "#")%char = true |- _ =>
      apply Ascii.eqb_eq in H; subst c end.
    reflexivity.
  - destruct r; cbn [tl length]; lia.
Qed.

Lemma peek_NUL_dec (s : cstring) : {peek s = NUL} + {peek s <> NUL}.
Proof. apply ascii_dec. Qed.

Lemma peek_eqb_NUL (s : cstring) :
  (peek s =? NUL)%char = true <-> peek s = NUL.
Proof. apply Ascii.eqb_eq. Qed.

(** The loop ends within as many turns as the buffer has characters. *)
Lemma lexes_total (current : cstring) : exists toks out, lexes current toks out.
Proof.
  remember (length current) as n eqn:Hn. revert current Hn.
  induction n as [n IH] using lt_wf_ind. intros current Hn.
  destruct (peek_NUL_dec current) as [E|E].
  - exists [], []. constructor. exact E.
  - destruct (IH (length (step_next current))
                ltac:(subst n; apply step_next_shorter; exact E)
                (step_next current) eq_refl) as (toks & out & H).
    eexists _, _. apply lexes_turn; eauto.
Qed.

Lemma lexes_fun current toks out toks' out' :
  lexes current toks out -> lexes current toks' out' ->
  toks = toks' /\ out = out'.
Proof.
  intro H. revert toks' out'.
  induction H as [current E|current toks out E H IH]; intros toks' out' H'.
  - inversion H'; subst; [auto|contradiction].
  - inversion H'; subst; [contradiction|].
    match goal with H0 : lexes (step_next _) _ _ |- _ =>
      destruct (IH _ _ H0) as [-> ->] end.
    auto.
Qed.

Lemma tokenize_loop_lexes fuel current st toks out :
  lexes current toks out ->
  length current < fuel ->
  tokenize_loop fuel current st =
  Some (mkLexState (token_list st ++ toks) (lex_stdout st ++ out)).
Proof.
  intro H. revert fuel st.
  induction H as [current E|current toks out E H IH]; intros fuel st Hf.
  - destruct fuel as [|fuel]; [lia|]. simpl.
    apply peek_eqb_NUL in E. rewrite E.
    rewrite !app_nil_r. destruct st; reflexivity.
  - destruct fuel as [|fuel]; [lia|]. simpl.
    destruct (peek current =? NUL)%char eqn:E';
      [apply peek_eqb_NUL in E'; contradiction|].
    rewrite tokenize_step_frame.
    rewrite IH by (pose proof (step_next_shorter current E); lia).
    cbn [token_list lex_stdout]. rewrite <- !app_assoc. reflexivity.
Qed.

(** [tokenize] returns: the tokens of the loop, then the EOF token. *)
Lemma tokenize_lexes source toks out :
  lexes source toks out ->
  tokenize source = Some (toks ++ [eof_token], out).
Proof.
  intro H. unfold tokenize.
  rewrite (tokenize_loop_lexes _ _ (mkLexState [] []) _ _ H) by lia.
  reflexivity.
Qed.

(** The loop goes on from a position it reaches as it would from the
    start of the text left there. *)
Lemma reaches_lexes source current toks out toks' out' :
  reaches source current toks out ->
  lexes current toks' out' ->
  lexes source (toks ++ toks') (out ++ out').
Proof.
  intro H. revert toks' out'.
  induction H as [|current toks out H IH E]; intros toks' out' L;
    [exact L|].
  rewrite <- !app_assoc. apply IH. apply lexes_turn; assumption.
Qed.

Lemma tokenize_total source :
  exists toks out, tokenize source = Some (toks ++ [eof_token], out)
                   /\ lexes source toks out.
Proof.
  destruct (lexes_total source) as (toks & out & H).
  exists toks, out. split; [apply tokenize_lexes; exact H|exact H].
Qed.

Lemma tokenize_inv source l out :
  tokenize source = Some (l, out) ->
  exists toks, l = toks ++ [eof_token] /\ lexes source toks out.
Proof.
  intro H. destruct (tokenize_total source) as (toks & out' & E & L).
  rewrite E in H. inversion H. subst. eauto.
Qed.

(** *** The tokens the lexer makes *)

Ltac char_eqs :=
  repeat match goal with
         | H : (?c =? _)%char = true |- _ =>
             apply Ascii.eqb_eq in H; try subst c
         end.

Lemma is_keyword_In s : is_keyword s = true -> In s keywords.
Proof.
  unfold is_keyword. rewrite existsb_exists.
  intros (k & Hk & E). apply cstring_eqb_eq in E. subst. exact Hk.
Qed.

Lemma step_tokens_shape current :
  peek current <> NUL ->
  Forall (fun t => type t <> TOKEN_EOF /\ lexer_token t)
         (step_tokens current).
Proof.
  destruct current as [|c r]; [intro H; exfalso; apply H; reflexivity|].
  intros _. unfold step_tokens, tokenize_step, tokenize_plain, add, add_token.
  cbn [peek hd tl].
  split_ifs; cbn [snd token_list app];
    try apply Forall_nil; (apply Forall_cons; [split|apply Forall_nil]);
    try discriminate; unfold lexer_token; cbn [type lexeme];
    try exact I; try (apply is_keyword_In; assumption);
    char_eqs; reflexivity.
Qed.

Lemma lexes_shape current toks out :
  lexes current toks out ->
  Forall (fun t => type t <> TOKEN_EOF /\ lexer_token t) toks.
Proof.
  induction 1 as [|current toks out E H IH]; [constructor|].
  apply Forall_app. split; [apply step_tokens_shape; exact E|exact IH].
Qed.

(** *** Sources without tokens *)

Lemma blank_scan_comment r :
  blank_scan true r = true ->
  blank_scan false (skip_while not_eol r) = true
  \/ peek (skip_while not_eol r) = NUL.
Proof.
  induction r as [|c r IH]; cbn [blank_scan skip_while]; [auto|].
  destruct (not_eol c) eqn:Hne; unfold not_eol in Hne.
  - apply andb_true_iff in Hne as [Hne _].
    apply negb_true_iff in Hne. rewrite Hne. exact IH.
  - apply andb_false_iff in Hne as [Hne|Hne];
      apply negb_false_iff, Ascii.eqb_eq in Hne; subst c.
    + intro H. left. cbn [blank_scan]. change (isspace nl) with true.
      exact H.
    + right. reflexivity.
Qed.

Lemma blank_lexes source :
  whitespace_and_comments source = true -> lexes source [] [].
Proof.
  unfold whitespace_and_comments.
  remember (length source) as n eqn:Hn. revert source Hn.
  induction n as [n IH] using lt_wf_ind. intros source Hn Hb.
  destruct (peek_NUL_dec source) as [E|E]; [constructor; exact E|].
  pose proof (step_next_shorter source E) as Hlt.
  destruct source as [|c r]; [exfalso; apply E; reflexivity|].
  cbn [blank_scan] in Hb.
  assert (Hs : step_tokens (c :: r) = [] /\ step_stdout (c :: r) = []
               /\ (blank_scan false (step_next (c :: r)) = true
                   \/ peek (step_next (c :: r)) = NUL)).
  { unfold step_tokens, step_stdout, step_next, tokenize_step.
    cbn [peek hd tl].
    destruct (isspace c) eqn:Hsp; [cbn; auto|].
    destruct (c =? "/")%char eqn:Hc; [|discriminate].
    destruct r as [|c2 r2]; [discriminate|].
    apply andb_true_iff in Hb as [Hc2 Hb]. cbn [peek hd]. rewrite Hc2.
    cbn [andb fst snd token_list lex_stdout no_lex].
    apply Ascii.eqb_eq in Hc, Hc2. subst c c2.
    repeat split. cbn [skip_while].
    change (not_eol "/") with true. cbv iota.
    apply blank_scan_comment. exact Hb. }
  destruct Hs as (Ht & Ho & Hn').
  change (@nil Token) with (@nil Token ++ []) at 1.
  change (@nil ascii) with (@nil ascii ++ []).
  rewrite <- Ht at 1. rewrite <- Ho at 1.
  apply lexes_turn; [exact E|].
  destruct Hn' as [Hn'|Hn']; [|constructor; exact Hn'].
  apply (IH (length (step_next (c :: r)))); [subst n; exact Hlt|reflexivity|].
  exact Hn'.
Qed.

(** *** Lexing a lexeme again

    What one turn of the loop consumed is the lexeme of the token it
    added, and the same turn on the lexeme followed by other text adds the
    same token, when that text is empty or starts with a space. *)

Lemma skip_string_body_spec s :
  exists body,
    s = body ++ skip_string_body s
    /\ (string_body body
        \/ exists b, body = b ++ [backslash] /\ string_body b
                     /\ peek (skip_string_body s) = NUL).
Proof.
  functional induction (skip_string_body s).
  - exists []. split; [reflexivity|left; constructor].
  - exists []. split; [reflexivity|left; constructor].
  - exists [c]. split; [reflexivity|]. right. exists [].
    apply Ascii.eqb_eq in e1. subst c. repeat split. constructor.
  - destruct IHc as (body & Hs & Hb). exists (c :: c2 :: body).
    split; [cbn [app]; congruence|].
    destruct Hb as [Hb|(b & -> & Hb & Hp)].
    + left. constructor; assumption.
    + right. exists (c :: c2 :: b). repeat split; auto.
      constructor; assumption.
  - clear IHc. apply negb_false_iff, Ascii.eqb_eq in e3. subst c2.
    exists [c]. split; [reflexivity|]. right. exists [].
    apply Ascii.eqb_eq in e1. subst c. repeat split. constructor.
  - destruct IHc as (body & Hs & Hb). exists (c :: body).
    split; [cbn [app]; congruence|].
    destruct Hb as [Hb|(b & -> & Hb & Hp)].
    + left. constructor; assumption.
    + right. exists (c :: b). repeat split; auto.
      constructor; assumption.
Qed.

Lemma skip_string_body_closed body y :
  string_body body ->
  skip_string_body (body ++ dquote :: y) = dquote :: y.
Proof.
  induction 1 as [|c b Hc Hb _ IH|c c2 b Hc Hb Hc2 _ IH];
    cbn [app skip_string_body].
  - reflexivity.
  - rewrite Hc, Hb. exact IH.
  - rewrite Hc, Hb, Hc2. exact IH.
Qed.

Lemma skip_string_body_open body :
  string_body body ->
  skip_string_body body = [] /\ skip_string_body (body ++ [backslash]) = [].
Proof.
  induction 1 as [|c b Hc Hb _ IH|c c2 b Hc Hb Hc2 _ IH];
    cbn [app skip_string_body].
  - auto.
  - rewrite Hc, Hb. exact IH.
  - rewrite Hc, Hb, Hc2. exact IH.
Qed.

Lemma scan_stable f c r tail :
  f c = true ->
  tail = [] \/ f (peek tail) = false ->
  exists l,
    c :: r = (c :: l) ++ skip_while f (c :: r)
    /\ firstn (ptr_diff (c :: r) (skip_while f (c :: r))) (c :: r) = c :: l
    /\ skip_while f (c :: l ++ tail) = tail
    /\ firstn (ptr_diff (c :: l ++ tail) tail) (c :: l ++ tail) = c :: l.
Proof.
  intros Hc Ht.
  destruct (skip_while_split f r) as (l & Hr & Hl).
  assert (Hs : skip_while f (c :: r) = skip_while f r)
    by (cbn [skip_while]; rewrite Hc; reflexivity).
  exists l. rewrite Hs.
  assert (E : c :: r = (c :: l) ++ skip_while f r)
    by (cbn [app]; congruence).
  split; [exact E|]. split.
  - rewrite E at 1 2. apply ptr_diff_app.
  - split.
    + change (c :: l ++ tail) with ((c :: l) ++ tail).
      rewrite skip_while_app by (cbn [forallb]; rewrite Hc, Hl; reflexivity).
      destruct Ht as [->|Ht]; [reflexivity|].
      destruct tail as [|d tail]; [reflexivity|].
      cbn [skip_while peek hd] in *. rewrite Ht. reflexivity.
    + apply (ptr_diff_app (c :: l) tail).
Qed.

Ltac reuse_ifs :=
  repeat match goal with
         | H : ?b = _ |- context [if ?b then _ else _] => rewrite H
         end.

Lemma follows_class rest tail (f : ascii -> bool) :
  f " "%char = false -> follows rest tail ->
  tail = [] \/ f (peek tail) = false.
Proof.
  intros Hf [->|[Hp _]]; [left; reflexivity|right].
  rewrite Hp. exact Hf.
Qed.

(** The rules that add a token of one character. *)
Ltac one_char c :=
  intros _; eexists (mkToken _ [c]), [];
  cbn [fst snd token_list add add_token no_lex app firstn lexeme];
  repeat split;
  unfold tokenize_plain; cbn [peek hd tl app]; reuse_ifs; reflexivity.

Lemma tokenize_plain_stable c r tail :
  follows (fst (tokenize_plain (c :: r) no_lex)) tail ->
  exists t l,
    token_list (snd (tokenize_plain (c :: r) no_lex)) = [t]
    /\ lexeme t = c :: l
    /\ c :: r = lexeme t ++ fst (tokenize_plain (c :: r) no_lex)
    /\ tokenize_plain (c :: l ++ tail) no_lex
       = (tail, snd (tokenize_plain (c :: r) no_lex)).
Proof.
  unfold tokenize_plain. cbn [peek hd tl].
  destruct (c =? "(")%char eqn:E1; [one_char c|].
  destruct (c =? ")")%char eqn:E2; [one_char c|].
  destruct (c =? "{")%char eqn:E3; [one_char c|].
  destruct (c =? "}")%char eqn:E4; [one_char c|].
  destruct (c =? "=")%char eqn:E5; [one_char c|].
  destruct (c =? ";")%char eqn:E6; [one_char c|].
  destruct (c =? ",")%char eqn:E7; [one_char c|].
  destruct (isdigit c) eqn:E8.
  { cbn [fst]. intro Hf.
    destruct (scan_stable isdigit c r tail E8
                (follows_class _ _ isdigit eq_refl Hf))
      as (l & H1 & H2 & H3 & H4).
    exists (mkToken TOKEN_NUMBER (c :: l)), l.
    cbn [fst snd token_list add add_token no_lex app lexeme].
    rewrite H2. repeat split; [exact H1|].
    unfold tokenize_plain. cbn [peek hd tl app]. reuse_ifs.
    unfold add, add_token. cbn [token_list no_lex lex_stdout app].
    rewrite H3, H4, ?H2. reflexivity. }
  destruct (isalpha c || (c =? "_")%char) eqn:E9.
  { intro Hf.
    assert (Hf' : follows (skip_while is_word_char (c :: r)) tail)
      by (destruct (is_keyword _); exact Hf).
    clear Hf.
    destruct (scan_stable is_word_char c r tail
                (word_start_is_word_char c E9)
                (follows_class _ _ is_word_char eq_refl Hf'))
      as (l & H1 & H2 & H3 & H4).
    rewrite H2.
    exists (mkToken (if is_keyword (c :: l) then TOKEN_KEYWORD
                     else TOKEN_IDENTIFIER) (c :: l)), l.
    unfold tokenize_plain. cbn [peek hd tl app]. reuse_ifs.
    rewrite H3, H4.
    destruct (is_keyword (c :: l));
      unfold add, add_token;
      cbn [fst snd token_list no_lex lex_stdout app lexeme];
      rewrite ?H2, ?H4; repeat split; exact H1. }
  destruct (c =? dquote)%char eqn:E10; [|one_char c].
  cbn [fst snd]. intro Hf.
  destruct (skip_string_body_spec r) as (body & Hr & Hb).
  destruct (peek (skip_string_body r) =? dquote)%char eqn:Hq.
  - (* a closed literal *)
    apply Ascii.eqb_eq in Hq.
    destruct (skip_string_body r) as [|q rest] eqn:Hs; [discriminate Hq|].
    cbn [peek hd] in Hq. subst q. cbn [tl] in *.
    assert (Hbody : string_body body).
    { destruct Hb as [Hb|(b & _ & _ & Hn)]; [exact Hb|discriminate Hn]. }
    assert (E : c :: r = (c :: body ++ [dquote]) ++ rest).
    { cbn [app]. rewrite <- app_assoc. cbn [app]. congruence. }
    exists (mkToken TOKEN_IDENTIFIER (c :: body ++ [dquote])),
           (body ++ [dquote]).
    cbn [token_list add add_token no_lex app lexeme].
    rewrite E at 1 2. rewrite ptr_diff_app.
    repeat split; [exact E|].
    unfold tokenize_plain. cbn [peek hd tl app]. reuse_ifs.
    rewrite <- app_assoc. cbn [app].
    rewrite (skip_string_body_closed _ tail Hbody). cbn [peek hd tl].
    change (dquote =? dquote)%char with true. cbv iota.
    unfold add, add_token. cbn [token_list no_lex lex_stdout app].
    change (c :: body ++ dquote :: tail)
      with ((c :: body) ++ [dquote] ++ tail).
    rewrite app_assoc. rewrite ptr_diff_app.
    rewrite E at 1 2. rewrite ptr_diff_app. reflexivity.
  - (* a literal that runs to the end of the buffer *)
    assert (Hend : peek (skip_string_body r) = NUL).
    { destruct (skip_string_body r) as [|q rest] eqn:Hs; [reflexivity|].
      destruct (skip_string_body_stop _ _ _ Hs) as [->| ->];
        [discriminate Hq|reflexivity]. }
    destruct Hf as [->|[_ Hf]]; [|contradiction].
    assert (Hopen : skip_string_body body = []).
    { destruct Hb as [Hb|(b & -> & Hb & _)];
        apply (skip_string_body_open _ Hb). }
    assert (E : c :: r = (c :: body) ++ skip_string_body r)
      by (cbn [app]; congruence).
    exists (mkToken TOKEN_IDENTIFIER (c :: body)), body.
    cbn [token_list add add_token no_lex app lexeme].
    rewrite E at 1 2. rewrite ptr_diff_app.
    repeat split; [exact E|].
    unfold tokenize_plain. cbn [peek hd tl app]. reuse_ifs.
    rewrite app_nil_r, Hopen. cbn [peek hd].
    change (NUL =? dquote)%char with false. cbv iota.
    unfold add, add_token. cbn [token_list no_lex lex_stdout app].
    rewrite <- (app_nil_r (c :: body)) at 1 2. rewrite ptr_diff_app.
    rewrite E at 1 2. rewrite ptr_diff_app. reflexivity.
Qed.

Lemma follows_peek rest tail :
  follows rest tail -> peek tail = NUL \/ peek tail = " "%char.
Proof. intros [->|[H _]]; auto. Qed.

(** The second character seen by the turn on the lexeme followed by
    [tail]: that of the first run, or the start of [tail]. *)
Lemma second_char c r l rest tail (P : ascii -> bool) :
  c :: r = (c :: l) ++ rest ->
  follows rest tail ->
  P (peek r) = false -> P NUL = false -> P " "%char = false ->
  P (peek (l ++ tail)) = false.
Proof.
  intros E Hf Hr H0 H1. destruct l as [|d l].
  - cbn [app]. destruct (follows_peek _ _ Hf) as [-> | ->]; assumption.
  - cbn [app] in E. inversion E. subst r. exact Hr.
Qed.

Lemma tokenize_step_stable_gen c r t tail
      (again : list ascii -> cstring * LexState) :
  (forall l, again l = tokenize_step (c :: l ++ tail) no_lex) ->
  step_tokens (c :: r) = [t] ->
  follows (step_next (c :: r)) tail ->
  tail = [] \/ type t <> TOKEN_PREPROCESSOR ->
  exists l,
    lexeme t = c :: l
    /\ c :: r = lexeme t ++ step_next (c :: r)
    /\ again l = (tail, snd (tokenize_step (c :: r) no_lex)).
Proof.
  intro Hagain.
  unfold step_tokens, step_next, tokenize_step. cbn [peek hd tl].
  destruct (isspace c) eqn:E1; [discriminate|].
  destruct ((c =? "/")%char && (peek r =? "/")%char) eqn:E2; [discriminate|].
  destruct (c =? "#")%char eqn:E3.
  { cbn [fst snd token_list add add_token no_lex app].
    intros Ht _ Hp. injection Ht as Ht'. subst t.
    cbn [type lexeme] in Hp |- *.
    destruct Hp as [->|Hp]; [|exfalso; apply Hp; reflexivity].
    assert (Hc : not_eol c = true)
      by (apply Ascii.eqb_eq in E3; subst c; reflexivity).
    destruct (scan_stable not_eol c r [] Hc (or_introl eq_refl))
      as (l & H1 & H2 & H3 & H4).
    exists l. cbn [skip_while] in *. rewrite Hc in *.
    rewrite H2. repeat split; [exact H1|].
    rewrite Hagain. unfold tokenize_step. cbn [peek hd tl skip_while].
    rewrite E1, E3, Hc.
    replace ((c =? "/")%char) with false
      by (apply Ascii.eqb_eq in E3; subst c; reflexivity).
    cbn [andb]. unfold add, add_token.
    cbn [token_list no_lex lex_stdout app].
    rewrite H3, H4, H2. reflexivity. }
  set (is_op := ((c =? ">")%char || (c =? "<")%char || (c =? "!")%char
                 || (c =? "=")%char)).
  assert (Hplain :
    (strchr (str "><=!") c = false
     \/ (is_op && (peek r =? "=")%char = false
         /\ (c =? ">")%char || (c =? "<")%char = false)) ->
    token_list (snd (tokenize_plain (c :: r) no_lex)) = [t] ->
    follows (fst (tokenize_plain (c :: r) no_lex)) tail ->
    tail = [] \/ type t <> TOKEN_PREPROCESSOR ->
    exists l,
      lexeme t = c :: l
      /\ c :: r = lexeme t ++ fst (tokenize_plain (c :: r) no_lex)
      /\ again l = (tail, snd (tokenize_plain (c :: r) no_lex))).
  { intros Hops Ht Hf _.
    destruct (tokenize_plain_stable c r tail Hf) as (t' & l & Ht' & Hl & Hc & Hn).
    rewrite Ht in Ht'. inversion Ht'. subst t'.
    exists l. repeat split; [exact Hl|exact Hc|].
    rewrite Hl in Hc.
    rewrite Hagain. unfold tokenize_step. cbn [peek hd tl]. rewrite E1, E3.
    rewrite (second_char c r l _ tail
               (fun d => (c =? "/")%char && (d =? "/")%char) Hc Hf E2)
      by (apply andb_false_r).
    destruct Hops as [Hops|[Hop1 Hop2]].
    - rewrite Hops. exact Hn.
    - fold is_op.
      rewrite (second_char c r l _ tail
                 (fun d => is_op && (d =? "=")%char) Hc Hf Hop1)
        by (apply andb_false_r).
      rewrite Hop2. destruct (strchr (str "><=!") c); exact Hn. }
  destruct (strchr (str "><=!") c) eqn:E4; [|apply Hplain; auto].
  fold is_op.
  destruct (is_op && (peek r =? "=")%char) eqn:E5.
  { (* a two-character operator *)
    apply andb_true_iff in E5 as [E5 E6]. apply Ascii.eqb_eq in E6.
    destruct r as [|d r]; [discriminate E6|]. cbn [peek hd] in E6. subst d.
    cbn [fst snd token_list add add_token no_lex app firstn tl].
    intros Ht _ _. inversion Ht. cbn [lexeme].
    exists ["="%char]. repeat split.
    rewrite Hagain. unfold tokenize_step. cbn [peek hd tl app]. rewrite E1, E3, E4.
    fold is_op. rewrite E5.
    change ("=" =? "/")%char with false. change ("=" =? "=")%char with true.
    rewrite andb_false_r. reflexivity. }
  destruct ((c =? ">")%char || (c =? "<")%char) eqn:E6; [|apply Hplain; auto].
  (* a one-character operator *)
  cbn [fst snd token_list add add_token no_lex app firstn tl].
  intros Ht Hf _. inversion Ht. cbn [lexeme].
  exists []. repeat split.
  rewrite Hagain. unfold tokenize_step. cbn [peek hd tl app]. rewrite E1, E3, E4.
  fold is_op. rewrite E6.
  destruct (follows_peek _ _ Hf) as [-> | ->];
    cbn [Ascii.eqb]; rewrite !andb_false_r; reflexivity.
Qed.

Lemma tokenize_step_stable c r t tail :
  step_tokens (c :: r) = [t] ->
  follows (step_next (c :: r)) tail ->
  tail = [] \/ type t <> TOKEN_PREPROCESSOR ->
  exists l,
    lexeme t = c :: l
    /\ c :: r = lexeme t ++ step_next (c :: r)
    /\ tokenize_step (c :: l ++ tail) no_lex
       = (tail, snd (tokenize_step (c :: r) no_lex)).
Proof.
  apply (tokenize_step_stable_gen c r t tail
           (fun l => tokenize_step (c :: l ++ tail) no_lex)).
  reflexivity.
Qed.

Lemma step_tokens_cases current :
  (step_tokens current = [] /\ step_stdout current = [])
  \/ exists t, step_tokens current = [t].
Proof.
  unfold step_tokens, step_stdout, tokenize_step, tokenize_plain, add,
    add_token.
  split_ifs; cbn [snd token_list lex_stdout no_lex app]; eauto.
Qed.

Lemma lexes_no_tokens current out : lexes current [] out -> out = [].
Proof.
  remember (@nil Token) as toks eqn:Ht. intro H.
  induction H as [|current toks out E H IH]; [reflexivity|].
  apply app_eq_nil in Ht as [Hs Ht].
  destruct (step_tokens_cases current) as [[_ Ho]|(t & Ht')];
    [|rewrite Ht' in Hs; discriminate].
  rewrite Ho, (IH Ht). reflexivity.
Qed.

Lemma lexes_tokens_not_end current t toks out :
  lexes current (t :: toks) out -> peek current <> NUL.
Proof. intro H. inversion H; assumption. Qed.

Lemma lexes_space current toks out :
  lexes current toks out -> lexes (" "%char :: current) toks out.
Proof.
  intro H.
  change toks with (step_tokens (" "%char :: current) ++ toks).
  change out with (step_stdout (" "%char :: current) ++ out).
  apply lexes_turn; [discriminate|exact H].
Qed.

Lemma lexes_join current toks out :
  lexes current toks out ->
  preprocessor_only_last toks = true ->
  lexes (join_lexemes toks) toks out.
Proof.
  induction 1 as [current E|current toks out E H IH]; intro Hp.
  - constructor. reflexivity.
  - destruct (step_tokens_cases current) as [[Ht Ho]|(t & Ht)].
    + rewrite Ht, Ho in *. exact (IH Hp).
    + rewrite Ht in *. cbn [app] in *.
      cbn [preprocessor_only_last] in Hp.
      apply andb_true_iff in Hp as [Hlast Hp]. specialize (IH Hp).
      destruct current as [|c r]; [exfalso; apply E; reflexivity|].
      assert (Hc : c <> NUL) by exact E.
      destruct toks as [|t2 toks].
      * (* the last token *)
        pose proof (lexes_no_tokens _ _ H) as ->.
        destruct (tokenize_step_stable c r t [] Ht
                    (or_introl eq_refl) (or_introl eq_refl))
          as (l & Hl & _ & Hs).
        rewrite app_nil_r in Hs.
        unfold join_lexemes. cbn [map join_with]. rewrite Hl.
        replace [t] with (step_tokens (c :: l) ++ [])
          by (unfold step_tokens in *; rewrite Hs, app_nil_r; exact Ht).
        replace (step_stdout (c :: r) ++ [])
          with (step_stdout (c :: l) ++ [])
          by (unfold step_stdout; rewrite Hs; reflexivity).
        apply lexes_turn; [exact Hc|].
        unfold step_next. rewrite Hs. constructor. reflexivity.
      * (* a token followed by others *)
        set (tail := " "%char :: join_lexemes (t2 :: toks)).
        assert (Hf : follows (step_next (c :: r)) tail).
        { right. split; [reflexivity|].
          exact (lexes_tokens_not_end _ _ _ _ H). }
        assert (Hnp : tail = [] \/ type t <> TOKEN_PREPROCESSOR).
        { right. rewrite orb_false_r in Hlast.
          apply negb_true_iff, TokenType_eqb_neq in Hlast. exact Hlast. }
        destruct (tokenize_step_stable c r t tail Ht Hf Hnp)
          as (l & Hl & _ & Hs).
        replace (join_lexemes (t :: t2 :: toks)) with (c :: l ++ tail)
          by (unfold join_lexemes, tail; cbn [map join_with];
              rewrite Hl; reflexivity).
        replace (t :: t2 :: toks)
          with (step_tokens (c :: l ++ tail) ++ t2 :: toks)
          by (unfold step_tokens in *; rewrite Hs; cbn [snd];
              rewrite Ht; reflexivity).
        replace (step_stdout (c :: r))
          with (step_stdout (c :: l ++ tail))
          by (unfold step_stdout; rewrite Hs; reflexivity).
        apply lexes_turn; [exact Hc|].
        unfold step_next. rewrite Hs.
        apply lexes_space. exact IH.
Qed.

(** ** What the lexer prints *)

Lemma errors_of_app a b : errors_of (a ++ b) = errors_of a ++ errors_of b.
Proof.
  unfold errors_of. rewrite filter_app, map_app, concat_app. reflexivity.
Qed.

Lemma step_stdout_errors c r :
  step_stdout (c :: r) = errors_of (step_tokens (c :: r)).
Proof.
  unfold step_tokens, step_stdout, tokenize_step, tokenize_plain, add,
    add_token.
  cbn [peek hd tl].
  split_ifs; cbn [snd token_list lex_stdout no_lex app]; reflexivity.
Qed.

Lemma lexes_errors current toks out :
  lexes current toks out -> out = errors_of toks.
Proof.
  induction 1 as [|current toks out E H IH]; [reflexivity|].
  destruct current as [|c r]; [exfalso; apply E; reflexivity|].
  rewrite errors_of_app, step_stdout_errors, IH. reflexivity.
Qed.

(** ** The shapes of the lexemes *)

Lemma scan_lexeme f c r :
  f c = true ->
  exists l, firstn (ptr_diff (c :: r) (skip_while f (c :: r))) (c :: r)
            = c :: l
            /\ forallb f l = true
            /\ c :: r = (c :: l) ++ skip_while f (c :: r).
Proof.
  intro Hc. destruct (skip_while_split f r) as (l & Hl & Hf).
  exists l. cbn [skip_while]. rewrite Hc.
  split; [|split; [exact Hf|cbn [app]; congruence]].
  rewrite Hl at 1 3. change (c :: l ++ skip_while f r)
    with ((c :: l) ++ skip_while f r).
  apply ptr_diff_app.
Qed.

Lemma string_lexeme c r x :
  length x <= length r ->
  exists l, firstn (ptr_diff (c :: r) x) (c :: r) = c :: l.
Proof.
  intro H. unfold ptr_diff. cbn [length].
  replace (S (length r) - length x) with (S (length r - length x)) by lia.
  cbn [firstn]. eauto.
Qed.

Lemma tl_length {A} (l : list A) : length (tl l) <= length l.
Proof. destruct l; cbn; lia. Qed.

Ltac shape_case :=
  match goal with
  | H : (?c =? "#")%char = true
    |- context [skip_while not_eol (?c :: ?r)] =>
      apply Ascii.eqb_eq in H; subst c;
      let l := fresh "l" in
      let Hl := fresh "Hl" in
      destruct (scan_lexeme not_eol "#"%char r eq_refl) as (l & -> & Hl & _);
      cbn [andb Ascii.eqb]; rewrite Hl; reflexivity
  | H : isdigit ?c = true |- context [skip_while isdigit (?c :: ?r)] =>
      let l := fresh "l" in
      let Hl := fresh "Hl" in
      destruct (scan_lexeme isdigit c r H) as (l & -> & Hl & _);
      rewrite H, Hl; reflexivity
  | H : isalpha ?c || (?c =? "_")%char = true,
    Hk : is_keyword _ = _
    |- context [skip_while is_word_char (?c :: ?r)] =>
      let l := fresh "l" in
      let E := fresh "E" in
      let Hl := fresh "Hl" in
      destruct (scan_lexeme is_word_char c r (word_start_is_word_char c H))
        as (l & E & Hl & _);
      rewrite E in *; cbn [word]; rewrite H, Hl, Hk; reflexivity
  | H : (?c =? dquote)%char = true |- context [ptr_diff (?c :: ?r) ?x] =>
      let l := fresh "l" in
      let E := fresh "E" in
      assert (E : exists l, firstn (ptr_diff (c :: r) x) (c :: r) = c :: l)
        by (apply string_lexeme;
            first [ apply skip_string_body_length
                  | etransitivity;
                    [apply tl_length|apply skip_string_body_length] ]);
      destruct E as (l & ->); rewrite H; apply orb_true_r
  end.

Lemma step_tokens_lexeme_shape c r :
  forallb lexeme_shape (step_tokens (c :: r)) = true.
Proof.
  unfold step_tokens, tokenize_step, tokenize_plain, add, add_token.
  cbn [peek hd tl].
  split_ifs; cbn [snd token_list no_lex app forallb]; try reflexivity;
    rewrite andb_true_r; unfold lexeme_shape; cbn [type lexeme].
  all: try (char_eqs; reflexivity).
  all: try shape_case.
  - match goal with
    | H : _ && (peek r =? "=")%char = true |- _ =>
        apply andb_true_iff in H as [Hc Hr]
    end.
    destruct r as [|d r]; [discriminate Hr|]. cbn [peek hd] in Hr.
    apply Ascii.eqb_eq in Hr. subst d.
    repeat (apply orb_true_iff in Hc as [Hc|Hc]);
      apply Ascii.eqb_eq in Hc; subst c; reflexivity.
  - match goal with
    | H : (c =? ">")%char || (c =? "<")%char = true |- _ =>
        apply orb_true_iff in H as [Hc|Hc]
    end; apply Ascii.eqb_eq in Hc; subst c; reflexivity.
  - cbn [firstn]. unfold isalnum.
    repeat match goal with
           | H : isalpha c || _ = false |- _ =>
               apply orb_false_iff in H as [H _]
           | H : _ = false |- _ => rewrite H
           end.
    reflexivity.
  - cbn [firstn]. unfold isalnum.
    repeat match goal with
           | H : isalpha c || _ = false |- _ =>
               apply orb_false_iff in H as [H _]
           | H : _ = false |- _ => rewrite H
           end.
    reflexivity.
Qed.

Lemma lexes_lexeme_shape current toks out :
  lexes current toks out -> forallb lexeme_shape toks = true.
Proof.
  induction 1 as [|current toks out E H IH]; [reflexivity|].
  destruct current as [|c r]; [exfalso; apply E; reflexivity|].
  rewrite forallb_app, step_tokens_lexeme_shape, IH. reflexivity.
Qed.

(** A token with the text of a keyword is a KEYWORD token. *)
Lemma keyword_shape t :
  lexeme_shape t = true -> is_keyword (lexeme t) = true ->
  type t = TOKEN_KEYWORD.
Proof.
  intros Hs Hk. apply is_keyword_In in Hk.
  destruct t as [ty s]. cbn [lexeme] in Hk. unfold lexeme_shape in Hs.
  cbn [type lexeme] in *.
  destruct ty; try reflexivity; exfalso;
    repeat (destruct Hk as [<-|Hk]; [vm_compute in Hs; discriminate Hs|]);
    exact Hk.
Qed.

(** ** Nothing but whitespace and comments is dropped *)

Lemma no_nul_app a b : no_nul (a ++ b) = true -> no_nul b = true.
Proof.
  unfold no_nul. rewrite forallb_app. intro H.
  apply andb_true_iff in H. tauto.
Qed.

Lemma step_cases c r :
  (isspace c = true /\ step_tokens (c :: r) = []
   /\ step_next (c :: r) = r)
  \/ (isspace c = false /\ step_tokens (c :: r) = []
      /\ exists text,
           c :: r = "/"%char :: "/"%char :: text ++ step_next (c :: r)
           /\ forallb not_eol text = true
           /\ (step_next (c :: r) = []
               \/ peek (step_next (c :: r)) = nl
               \/ peek (step_next (c :: r)) = NUL))
  \/ (isspace c = false
      /\ exists t, step_tokens (c :: r) = [t]
                   /\ c :: r = lexeme t ++ step_next (c :: r)).
Proof.
  destruct (isspace c) eqn:Hs.
  { left. unfold step_tokens, step_next, tokenize_step. cbn [peek hd].
    rewrite Hs. auto. }
  right.
  destruct ((c =? "/")%char && (peek r =? "/")%char) eqn:Hc.
  - left. split; [reflexivity|].
    unfold step_tokens, step_next, tokenize_step. cbn [peek hd tl].
    rewrite Hs, Hc. cbn [fst snd]. split; [reflexivity|].
    apply andb_true_iff in Hc as [Hc Hr]. apply Ascii.eqb_eq in Hc. subst c.
    destruct r as [|d r]; [discriminate Hr|]. cbn [peek hd] in Hr.
    apply Ascii.eqb_eq in Hr. subst d.
    change (skip_while not_eol ("/"%char :: "/"%char :: r))
      with (skip_while not_eol r).
    destruct (skip_while_split not_eol r) as (text & Ht & Hf).
    exists text. split; [congruence|]. split; [exact Hf|].
    destruct (skip_while not_eol r) as [|d r'] eqn:E; [left; reflexivity|].
    right. apply skip_while_stop in E. cbn [peek hd].
    unfold not_eol in E. apply andb_false_iff in E as [E|E];
      apply negb_false_iff, Ascii.eqb_eq in E; auto.
  - right. split; [reflexivity|].
    destruct (step_tokens_cases (c :: r)) as [[Ht _]|(t & Ht)].
    + exfalso. revert Ht.
      unfold step_tokens, tokenize_step, tokenize_plain, add, add_token.
      cbn [peek hd tl]. rewrite Hs, Hc.
      split_ifs; cbn [snd token_list no_lex app]; discriminate.
    + exists t. split; [exact Ht|].
      destruct (tokenize_step_stable c r t [] Ht (or_introl eq_refl)
                  (or_introl eq_refl)) as (l & _ & E & _).
      exact E.
Qed.

Lemma blank_scan_comment_text text g :
  forallb not_eol text = true ->
  blank_scan true g = true ->
  blank_scan true (text ++ g) = true.
Proof.
  intros Ht Hg. induction text as [|c text IH]; [exact Hg|].
  cbn [forallb] in Ht. apply andb_true_iff in Ht as [Hc Ht].
  cbn [app blank_scan]. unfold not_eol in Hc.
  apply andb_true_iff in Hc as [Hc _]. apply negb_true_iff in Hc.
  rewrite Hc. apply IH. exact Ht.
Qed.

Lemma lexes_weave current toks out :
  lexes current toks out ->
  no_nul current = true ->
  exists gaps last,
    length gaps = length toks
    /\ current = weave gaps toks last
    /\ forallb whitespace_and_comments gaps = true
    /\ whitespace_and_comments last = true
    /\ (isspace (peek current) = true -> lead gaps last <> []).
Proof.
  induction 1 as [current E|current toks out E H IH]; intro Hn.
  - destruct current as [|c r].
    + exists [], []. repeat split. discriminate.
    + cbn [peek hd] in E. subst c. discriminate Hn.
  - destruct current as [|c r]; [exfalso; apply E; reflexivity|].
    cbn [peek hd].
    destruct (step_cases c r)
      as [(Hs & Ht & Hx)|[(Hs & Ht & text & Hx & Hf & Hstop)
                         |(Hs & t & Ht & Hx)]].
    + rewrite Ht, Hx in *. cbn [app].
      destruct IH as (gaps & last & Hl & Hw & Hg & Hlast & _).
      { apply (no_nul_app [c] r Hn). }
      destruct gaps as [|g gaps]; destruct toks as [|t toks];
        try discriminate Hl.
      * exists [], (c :: last). cbn [weave] in *. subst r.
        repeat split; try discriminate.
        unfold whitespace_and_comments. cbn [blank_scan]. rewrite Hs.
        exact Hlast.
      * exists ((c :: g) :: gaps), last. cbn [weave] in *. subst r.
        split; [exact Hl|]. split; [reflexivity|].
        split; [|split; [exact Hlast|discriminate]].
        cbn [forallb] in *. apply andb_true_iff in Hg as [Hg1 Hg2].
        rewrite Hg2, andb_true_r.
        unfold whitespace_and_comments. cbn [blank_scan]. rewrite Hs.
        exact Hg1.
    + rewrite Ht in *. cbn [app].
      set (rest := step_next (c :: r)) in *.
      assert (Hnr : no_nul rest = true).
      { rewrite Hx in Hn.
        apply (no_nul_app ("/"%char :: "/"%char :: text) rest Hn). }
      destruct IH as (gaps & last & Hl & Hw & Hg & Hlast & Hlead);
        [exact Hnr|].
      assert (Hrest : rest = [] \/ peek rest = nl).
      { destruct Hstop as [Hr|[Hr|Hr]]; auto.
        destruct rest as [|d rest']; [auto|].
        cbn [peek hd] in Hr. subst d. discriminate Hnr. }
      assert (Hcomment :
                forall g tail, rest = g ++ tail -> (g = [] -> tail = []) ->
                  whitespace_and_comments g = true ->
                  whitespace_and_comments
                    ("/"%char :: "/"%char :: text ++ g) = true).
      { intros g tail Hgt Hempty Hb.
        unfold whitespace_and_comments. cbn [blank_scan isspace].
        change (isspace "/") with false. cbn [Ascii.eqb andb].
        replace (("/" =? "/")%char) with true by reflexivity.
        cbn [andb]. apply blank_scan_comment_text; [exact Hf|].
        destruct g as [|d g']; [reflexivity|].
        destruct Hrest as [Hr|Hr]; [rewrite Hr in Hgt; discriminate Hgt|].
        rewrite Hgt in Hr. cbn [app peek hd] in Hr. subst d.
        cbn [blank_scan]. replace ((nl =? nl)%char) with true by reflexivity.
        unfold whitespace_and_comments in Hb. cbn [blank_scan] in Hb.
        exact Hb. }
      destruct gaps as [|g gaps]; destruct toks as [|t toks];
        try discriminate Hl; cbn [weave lead] in *.
      * exists [], ("/"%char :: "/"%char :: text ++ last).
        split; [reflexivity|]. split; [rewrite Hx, Hw; reflexivity|].
        split; [reflexivity|]. split; [|discriminate].
        apply (Hcomment last []);
          [rewrite app_nil_r; exact Hw|reflexivity|exact Hlast].
      * exists (("/"%char :: "/"%char :: text ++ g) :: gaps), last.
        split; [exact Hl|]. split.
        { rewrite Hx, Hw. cbn [weave app]. rewrite <- ?app_assoc.
          reflexivity. }
        split; [|split; [exact Hlast|discriminate]].
        cbn [forallb] in *. apply andb_true_iff in Hg as [Hg1 Hg2].
        rewrite Hg2, andb_true_r.
        apply (Hcomment g (lexeme t ++ weave gaps toks last));
          [exact Hw| |exact Hg1].
        intro Hg0. exfalso.
        destruct Hrest as [Hr|Hr].
        -- rewrite Hr in Hw. subst g. cbn [app] in Hw.
           pose proof (lexes_lexeme_shape _ _ _ H) as Hsh.
           cbn [forallb] in Hsh. apply andb_true_iff in Hsh as [Hsh _].
           destruct (lexeme t) eqn:El; [|discriminate Hw].
           unfold lexeme_shape in Hsh. rewrite El in Hsh.
           destruct (type t); discriminate Hsh.
        -- apply Hlead; [|exact Hg0]. rewrite Hr. reflexivity.
    + rewrite Ht in *. cbn [app].
      set (rest := step_next (c :: r)) in *.
      assert (Hnr : no_nul rest = true).
      { rewrite Hx in Hn. apply (no_nul_app (lexeme t) rest Hn). }
      destruct IH as (gaps & last & Hl & Hw & Hg & Hlast & _); [exact Hnr|].
      exists ([] :: gaps), last. cbn [weave length app forallb].
      split; [congruence|]. split; [rewrite Hx at 1; congruence|].
      split; [exact Hg|]. split; [exact Hlast|].
      rewrite Hs. discriminate.
Qed.

(* ================================================================== *)
(** * Properties of the parser *)

Open Scope Z_scope.

(** ** Parser states *)

Lemma token_at_spec l i t :
  token_at l i = Some t <->
  0 <= i < Z.of_nat (length l) /\ nth_error l (Z.to_nat i) = Some t.
Proof.
  unfold token_at.
  destruct (0 <=? i) eqn:E1; destruct (i <? Z.of_nat (length l)) eqn:E2;
    cbn [andb]; try apply Z.leb_le in E1; try apply Z.ltb_lt in E2;
    try apply Z.leb_gt in E1; try apply Z.ltb_ge in E2;
    split; try discriminate; try tauto; try lia.
Qed.

Lemma token_at_app pre t rest :
  token_at (pre ++ t :: rest) (Z.of_nat (length pre)) = Some t.
Proof.
  apply token_at_spec. rewrite length_app. cbn [length]. split; [lia|].
  rewrite Nat2Z.id, nth_error_app2, Nat.sub_diag by lia. reflexivity.
Qed.

Lemma at_cursor_token p t rest :
  at_cursor p (t :: rest) ->
  token_at (tokens p) (current_token_pos p) = Some t.
Proof. intros (pre & -> & ->). apply token_at_app. Qed.

Lemma at_cursor_next p t rest :
  at_cursor p (t :: rest) -> at_cursor (next p) rest.
Proof.
  intros (pre & Ht & Hp). exists (pre ++ [t]). cbn [next tokens current_token_pos].
  rewrite <- app_assoc, length_app. cbn [app length]. split; [exact Ht|lia].
Qed.

Lemma at_cursor_count p l :
  at_cursor p l -> count p = current_token_pos p + Z.of_nat (length l).
Proof.
  intros (pre & Ht & Hp). unfold count. rewrite Ht, length_app. lia.
Qed.

Lemma at_cursor_fun p l l' : at_cursor p l -> at_cursor p l' -> l = l'.
Proof.
  intros (pre & Ht & Hp) (pre' & Ht' & Hp').
  assert (length pre = length pre') by lia.
  rewrite Ht in Ht'.
  apply (f_equal (skipn (length pre))) in Ht'.
  rewrite skipn_app, skipn_all, Nat.sub_diag in Ht'. cbn in Ht'.
  rewrite H, skipn_app, skipn_all, Nat.sub_diag in Ht'. exact Ht'.
Qed.

Lemma ends_with_eof_tail t rest :
  ends_with_eof (t :: rest) -> type t <> TOKEN_EOF -> ends_with_eof rest.
Proof.
  intros (body & e & H & He) Ht. destruct body as [|b body].
  - cbn in H. inversion H. subst. contradiction.
  - cbn in H. inversion H. subst. exists body, e. auto.
Qed.

Lemma ends_with_eof_cons l : ends_with_eof l -> exists t rest, l = t :: rest.
Proof.
  intros (body & e & -> & _). destruct body; cbn; eauto.
Qed.

(** ** The primitive operations *)

Lemma current_token_eq p t rest :
  at_cursor p (t :: rest) -> current_token p = Ret t p.
Proof.
  intro H. unfold current_token, read. rewrite (at_cursor_token _ _ _ H).
  reflexivity.
Qed.

Lemma match_eq p t rest ty :
  at_cursor p (t :: rest) ->
  match_ ty p = Ret (TokenType_eqb (type t) ty) p.
Proof.
  intro H. unfold match_, bind. rewrite (current_token_eq _ _ _ H).
  reflexivity.
Qed.

Lemma advance_eq p t t' rest :
  at_cursor p (t :: t' :: rest) -> advance p = Ret t (next p).
Proof.
  intro H. unfold advance, bind.
  pose proof (at_cursor_count _ _ H) as Hc. cbn [length] in Hc.
  destruct (current_token_pos p <? count p - 1) eqn:E;
    [|apply Z.ltb_ge in E; lia].
  cbn [set_pos]. unfold read. cbn [tokens current_token_pos].
  replace (current_token_pos p + 1 - 1) with (current_token_pos p) by lia.
  rewrite (at_cursor_token _ _ _ H). reflexivity.
Qed.

Lemma consume_ok p t t' rest ty error_message :
  at_cursor p (t :: t' :: rest) -> type t = ty ->
  consume ty error_message p = Ret true (next p).
Proof.
  intros H Ht. unfold consume, bind.
  rewrite (match_eq _ _ _ _ H), Ht, TokenType_eqb_refl.
  rewrite (advance_eq _ _ _ _ H). reflexivity.
Qed.

Lemma consume_fail p t rest ty error_message :
  at_cursor p (t :: rest) -> type t <> ty ->
  consume ty error_message p
  = Ret false (print p (parser_error error_message t)).
Proof.
  intros H Ht. unfold consume, bind. rewrite (match_eq _ _ _ _ H).
  apply TokenType_eqb_neq in Ht. rewrite Ht.
  rewrite (current_token_eq _ _ _ H). reflexivity.
Qed.

(** On the last token [advance] leaves the cursor and returns the token
    before it, which a list of one token does not have. *)
Lemma consume_last p t ty error_message :
  at_cursor p [t] -> type t = ty ->
  consume ty error_message p
  = if 0 <? current_token_pos p then Ret true p else Undefined.
Proof.
  intros H Ht. unfold consume, bind.
  rewrite (match_eq _ _ _ _ H), Ht, TokenType_eqb_refl.
  unfold advance, bind.
  pose proof (at_cursor_count _ _ H) as Hc. cbn [length] in Hc.
  replace (current_token_pos p <? count p - 1) with false
    by (symmetry; apply Z.ltb_ge; lia).
  cbn [ret]. unfold read.
  destruct (token_at (tokens p) (current_token_pos p - 1)) as [t'|] eqn:E.
  - apply token_at_spec in E.
    replace (0 <? current_token_pos p) with true
      by (symmetry; apply Z.ltb_lt; lia).
    reflexivity.
  - destruct (0 <? current_token_pos p) eqn:Hp; [|reflexivity].
    apply Z.ltb_lt in Hp. exfalso.
    unfold token_at in E.
    replace (0 <=? current_token_pos p - 1) with true in E
      by (symmetry; apply Z.leb_le; lia).
    replace (current_token_pos p - 1 <? Z.of_nat (length (tokens p)))
      with true in E by (symmetry; apply Z.ltb_lt; unfold count in Hc; lia).
    cbn [andb] in E. apply nth_error_None in E. unfold count in Hc. lia.
Qed.

(** On a list that ends with EOF a token of another kind is not the last
    one, so [consume] is a test of the kind of the current token. *)
Lemma consume_eq p t rest ty error_message :
  at_cursor p (t :: rest) -> ends_with_eof (t :: rest) ->
  ty <> TOKEN_EOF ->
  consume ty error_message p
  = if TokenType_eqb (type t) ty then Ret true (next p)
    else Ret false (print p (parser_error error_message t)).
Proof.
  intros H He Hty. destruct (TokenType_eqb (type t) ty) eqn:E.
  - apply TokenType_eqb_eq in E.
    assert (Ht : type t <> TOKEN_EOF) by congruence.
    destruct (ends_with_eof_cons _ (ends_with_eof_tail _ _ He Ht))
      as (t' & rest' & ->).
    apply (consume_ok _ _ _ _ _ _ H E).
  - apply TokenType_eqb_neq in E. apply (consume_fail _ _ _ _ _ H E).
Qed.

Lemma peek_at_eq p l offset :
  at_cursor p l -> l <> [] -> 0 <= offset ->
  current_token_pos p + offset <= INT_MAX ->
  peek_at offset p = Ret (nth (Z.to_nat offset) l (last l eof_token)) p.
Proof.
  intros (pre & Ht & Hp) Hl Ho Hmax. unfold peek_at, read, count.
  assert (Hlen : (0 < length l)%nat) by (destruct l; [congruence|cbn; lia]).
  rewrite Ht, length_app.
  destruct (current_token_pos p + offset
            >=? Z.of_nat (length pre + length l)) eqn:E.
  - apply Z.geb_le in E.
    replace (current_token_pos p + offset <=? INT_MAX) with true
      by (symmetry; apply Z.leb_le; exact Hmax).
    rewrite nth_overflow by lia.
    replace (Z.of_nat (length pre + length l) - 1)
      with (Z.of_nat (length pre + (length l - 1))) by lia.
    destruct (@exists_last _ l Hl) as (body & e & ->).
    rewrite last_last, length_app. cbn [length].
    replace (length pre + (length body + 1 - 1))%nat
      with (length (pre ++ body)) by (rewrite length_app; lia).
    rewrite app_assoc, token_at_app. reflexivity.
  - rewrite Z.geb_leb in E. apply Z.leb_gt in E.
    replace (token_at (pre ++ l) (current_token_pos p + offset))
      with (Some (nth (Z.to_nat offset) l (last l eof_token)));
      [reflexivity|].
    symmetry. apply token_at_spec. rewrite length_app. split; [lia|].
    rewrite nth_error_app2 by lia.
    replace (Z.to_nat (current_token_pos p + offset) - length pre)%nat
      with (Z.to_nat offset) by lia.
    apply nth_error_nth'. lia.
Qed.

(** A sum that exceeds [INT_MAX] has no value. *)
Lemma peek_at_overflow p offset :
  count p <= current_token_pos p + offset ->
  INT_MAX < current_token_pos p + offset ->
  peek_at offset p = Undefined.
Proof.
  intros Hc Hmax. unfold peek_at.
  replace (current_token_pos p + offset >=? count p) with true
    by (symmetry; rewrite Z.geb_leb; apply Z.leb_le; exact Hc).
  replace (current_token_pos p + offset <=? INT_MAX) with false
    by (symmetry; apply Z.leb_gt; exact Hmax).
  reflexivity.
Qed.

(** Inside the list the sum is below the count. *)
Lemma peek_at_inside p l offset :
  at_cursor p l -> 0 <= offset < Z.of_nat (length l) ->
  peek_at offset p = Ret (nth (Z.to_nat offset) l eof_token) p.
Proof.
  intros (pre & Ht & Hp) Ho. unfold peek_at, read, count.
  rewrite Ht, length_app.
  replace (current_token_pos p + offset
           >=? Z.of_nat (length pre + length l)) with false
    by (symmetry; rewrite Z.geb_leb; apply Z.leb_gt; lia).
  replace (token_at (pre ++ l) (current_token_pos p + offset))
    with (Some (nth (Z.to_nat offset) l eof_token)); [reflexivity|].
  symmetry. apply token_at_spec. rewrite length_app. split; [lia|].
  rewrite nth_error_app2 by lia.
  replace (Z.to_nat (current_token_pos p + offset) - length pre)%nat
    with (Z.to_nat offset) by lia.
  apply nth_error_nth'. lia.
Qed.

(** ** The cursor only moves forward *)

Lemma extends_refl p : extends p p.
Proof.
  repeat split; try lia; exists []; rewrite app_nil_r; reflexivity.
Qed.

Lemma extends_trans p q r : extends p q -> extends q r -> extends p r.
Proof.
  intros (Ht & Hp & (d & Ho) & (e & Hs)) (Ht' & Hp' & (d' & Ho') & (e' & Hs')).
  repeat split; [congruence|lia| |].
  - exists (d ++ d'). rewrite Ho', Ho, app_assoc. reflexivity.
  - exists (e ++ e'). rewrite Hs', Hs, app_assoc. reflexivity.
Qed.

Lemma forward_ret {A} (a : A) : forward (ret a).
Proof. intros p b p' H. inversion H. apply extends_refl. Qed.

Lemma forward_bind {A B} (m : M A) (k : A -> M B) :
  forward m -> (forall a, forward (k a)) -> forward (bind m k).
Proof.
  intros Hm Hk p b p' H. unfold bind in H.
  destruct (m p) as [a q| |] eqn:E; try discriminate.
  apply (extends_trans _ q); [apply (Hm _ _ _ E)|apply (Hk _ _ _ _ H)].
Qed.

Lemma forward_require (c k : M bool) :
  forward c -> forward k -> forward (require c k).
Proof.
  intros Hc Hk. apply forward_bind; [exact Hc|].
  intros []; [exact Hk|apply forward_ret].
Qed.

Lemma forward_pure {A} (m : M A) :
  (forall p, m p = Undefined \/ exists a, m p = Ret a p) -> forward m.
Proof.
  intros H p a p' E. destruct (H p) as [H'|(b & H')]; rewrite H' in E;
    inversion E. apply extends_refl.
Qed.

Lemma forward_read i : forward (read i).
Proof.
  apply forward_pure. intro p. unfold read.
  destruct (token_at (tokens p) i); eauto.
Qed.

Lemma forward_current_token : forward current_token.
Proof. intros p a p' H. apply (forward_read _ _ _ _ H). Qed.

Lemma forward_peek_at offset : forward (peek_at offset).
Proof.
  intros p a p' H. unfold peek_at in H.
  destruct (_ >=? _); [destruct (_ <=? _); [|discriminate H]|];
    apply (forward_read _ _ _ _ H).
Qed.

Lemma forward_get_pos : forward get_pos.
Proof. intros p a p' H. inversion H. apply extends_refl. Qed.

Lemma forward_printf s : forward (printf s).
Proof.
  intros p a p' H. inversion H. repeat split; cbn; try lia.
  - exists []. rewrite app_nil_r. reflexivity.
  - exists s. reflexivity.
Qed.

Lemma forward_append_output s : forward (append_output s).
Proof.
  intros p a p' H. inversion H. repeat split; cbn; try lia.
  - exists s. reflexivity.
  - exists []. rewrite app_nil_r. reflexivity.
Qed.

Lemma forward_strcat_into size dst src : forward (strcat_into size dst src).
Proof.
  apply forward_pure. intro p. unfold strcat_into.
  destruct (_ <? _)%nat; eauto.
Qed.

Lemma forward_sprintf_into size s : forward (sprintf_into size s).
Proof.
  apply forward_pure. intro p. unfold sprintf_into.
  destruct (_ <? _)%nat; eauto.
Qed.

Lemma forward_advance : forward advance.
Proof.
  intros p a p' H. unfold advance, bind in H.
  destruct (current_token_pos p <? count p - 1).
  - cbn [set_pos] in H. unfold read in H.
    destruct (token_at _ _); inversion H.
    repeat split; cbn; try lia; exists []; rewrite app_nil_r; reflexivity.
  - cbn [ret] in H. unfold read in H.
    destruct (token_at _ _); inversion H. apply extends_refl.
Qed.

Lemma forward_match ty : forward (match_ ty).
Proof.
  apply forward_bind; [apply forward_current_token|].
  intro. apply forward_ret.
Qed.

Create HintDb forward.

#[export] Hint Resolve forward_ret forward_read forward_current_token
  forward_peek_at forward_get_pos forward_printf forward_append_output
  forward_strcat_into forward_sprintf_into forward_advance forward_match
  : forward.

Ltac forward_step :=
  first
    [ solve [auto with forward]
    | apply forward_bind; [|intro]
    | apply forward_require
    | match goal with
      | |- forward (if ?b then _ else _) => destruct b
      | |- forward (match ?r with Some _ => _ | None => _ end) =>
          destruct r
      | |- forward (let x := _ in _) => cbv zeta
      end ].

Ltac forward_all := repeat forward_step.

Lemma forward_consume ty error_message : forward (consume ty error_message).
Proof. unfold consume. forward_all. Qed.

#[export] Hint Resolve forward_consume : forward.

Lemma forward_slurp_loop n end_type buffer buffer_size :
  forward (slurp_loop n end_type buffer buffer_size).
Proof.
  revert buffer. induction n as [|n IH]; intro buffer; cbn [slurp_loop].
  - intros p a p' H. discriminate H.
  - forward_all.
Qed.

Lemma forward_slurp_tokens_until end_type buffer_size :
  forward (slurp_tokens_until end_type buffer_size).
Proof.
  intros p a p' H. unfold slurp_tokens_until in H.
  destruct (buffer_size =? 0)%nat; [discriminate H|].
  apply (forward_slurp_loop _ _ _ _ _ _ _ H).
Qed.

Lemma forward_offset_loop n paren_level offset :
  forward (offset_loop n paren_level offset).
Proof.
  revert paren_level offset.
  induction n as [|n IH]; intros paren_level offset; cbn [offset_loop].
  - intros p a p' H. discriminate H.
  - intros p a p' H. destruct (_ && _).
    + revert p a p' H. forward_all.
    + inversion H. apply extends_refl.
Qed.

Lemma forward_get_offset_after_paren : forward get_offset_after_paren.
Proof.
  unfold get_offset_after_paren. forward_all.
  intros q b q' H. apply (forward_offset_loop _ _ _ _ _ _ H).
Qed.

Lemma forward_scan_args_loop n paren_level :
  forward (scan_args_loop n paren_level).
Proof.
  revert paren_level.
  induction n as [|n IH]; intro paren_level; cbn [scan_args_loop].
  - intros p a p' H. discriminate H.
  - forward_all.
Qed.

Lemma forward_gather_args_loop n i end_token_pos args_buffer :
  forward (gather_args_loop n i end_token_pos args_buffer).
Proof.
  revert i args_buffer.
  induction n as [|n IH]; intros i args_buffer; cbn [gather_args_loop].
  - apply forward_ret.
  - forward_all.
Qed.

#[export] Hint Resolve forward_slurp_tokens_until
  forward_get_offset_after_paren forward_gather_args_loop : forward.

Lemma forward_parse_reversed_function_call :
  forward parse_reversed_function_call.
Proof.
  unfold parse_reversed_function_call. forward_all.
  intros q b q' H. apply (forward_scan_args_loop _ _ _ _ _ H).
Qed.

Lemma forward_parse_variable_declaration :
  forward parse_variable_declaration.
Proof. unfold parse_variable_declaration. forward_all. Qed.

#[export] Hint Resolve forward_parse_reversed_function_call
  forward_parse_variable_declaration : forward.

Lemma forward_body_loop stmt n : forward stmt -> forward (body_loop stmt n).
Proof.
  intro Hs. induction n as [|n IH]; cbn [body_loop].
  - intros p a p' H. discriminate H.
  - forward_all.
Qed.

#[export] Hint Resolve forward_body_loop : forward.

Lemma forward_parse_for_loop stmt fuel :
  forward stmt -> forward (parse_for_loop stmt fuel).
Proof. intro. unfold parse_for_loop. forward_all. Qed.

Lemma forward_parse_while_loop stmt fuel :
  forward stmt -> forward (parse_while_loop stmt fuel).
Proof. intro. unfold parse_while_loop. forward_all. Qed.

Lemma forward_parse_if_statement stmt fuel :
  forward stmt -> forward (parse_if_statement stmt fuel).
Proof. intro. unfold parse_if_statement. forward_all. Qed.

#[export] Hint Resolve forward_parse_for_loop forward_parse_while_loop
  forward_parse_if_statement : forward.

Lemma forward_parse_passthrough : forward parse_passthrough.
Proof. unfold parse_passthrough. forward_all. Qed.

#[export] Hint Resolve forward_parse_passthrough : forward.

Lemma forward_parse_statement fuel : forward (parse_statement fuel).
Proof.
  induction fuel as [|fuel IH]; cbn [parse_statement].
  - intros p a p' H. discriminate H.
  - unfold parse_statement_body. forward_all.
Qed.

#[export] Hint Resolve forward_parse_statement : forward.

Lemma forward_args_loop n args : forward (args_loop n args).
Proof.
  revert args. induction n as [|n IH]; intro args; cbn [args_loop].
  - intros p a p' H. discriminate H.
  - forward_all.
Qed.

Lemma forward_parse_function_declaration fuel :
  forward (parse_function_declaration fuel).
Proof.
  unfold parse_function_declaration. forward_all.
  intros q b q' H. apply (forward_args_loop _ _ _ _ _ H).
Qed.

#[export] Hint Resolve forward_parse_function_declaration : forward.

Lemma forward_parse_loop fuel n : forward (parse_loop fuel n).
Proof.
  induction n as [|n IH]; cbn [parse_loop].
  - intros p a p' H. discriminate H.
  - forward_all.
    intros q b q' H. inversion H. apply extends_refl.
Qed.

(** ** Running straight-line parser code *)

Lemma bind_eq {A B} (m : M A) (k : A -> M B) p a p' :
  m p = Ret a p' -> bind m k p = k a p'.
Proof. intro H. unfold bind. rewrite H. reflexivity. Qed.

Lemma require_true (c k : M bool) p p' :
  c p = Ret true p' -> require c k p = k p'.
Proof. intro H. unfold require. rewrite (bind_eq _ _ _ _ _ H). reflexivity. Qed.

Lemma require_false (c k : M bool) p p' :
  c p = Ret false p' -> require c k p = Ret false p'.
Proof. intro H. unfold require. rewrite (bind_eq _ _ _ _ _ H). reflexivity. Qed.

Lemma at_cursor_emit p l s : at_cursor p l -> at_cursor (emit p s) l.
Proof. intro H. exact H. Qed.

Lemma at_cursor_print p l s : at_cursor p l -> at_cursor (print p s) l.
Proof. intro H. exact H. Qed.

(** [consume] on a token of the kind asked for, which may be the last of
    the array but not the first: it succeeds, and it moves the cursor by
    one when a token follows. *)
Lemma consume_true_any p t0 t rest ty error_message :
  at_cursor (mkParser (tokens p) (current_token_pos p - 1) (output p)
               (stdout p)) (t0 :: t :: rest) ->
  type t = ty ->
  exists p',
    consume ty error_message p = Ret true p'
    /\ tokens p' = tokens p /\ output p' = output p
    /\ stdout p' = stdout p
    /\ (rest <> [] -> current_token_pos p' = current_token_pos p + 1).
Proof.
  intros H0 Hty.
  assert (H : at_cursor p (t :: rest)).
  { destruct H0 as (pre & Ht & Hp). cbn [tokens current_token_pos] in *.
    exists (pre ++ [t0]). rewrite <- app_assoc, length_app. cbn [app length].
    split; [exact Ht|lia]. }
  destruct rest as [|t' rest].
  - exists p. repeat split; [|intro E; contradiction].
    unfold consume, bind.
    rewrite (match_eq _ _ _ _ H), Hty, TokenType_eqb_refl.
    unfold advance, bind.
    pose proof (at_cursor_count _ _ H) as Hc. cbn [length] in Hc.
    destruct (current_token_pos p <? count p - 1) eqn:E;
      [apply Z.ltb_lt in E; lia|].
    cbn [ret]. unfold read.
    pose proof (at_cursor_token _ _ _ H0) as Hprev.
    cbn [tokens current_token_pos] in Hprev. rewrite Hprev. reflexivity.
  - exists (next p). split; [apply (consume_ok _ _ _ _ _ _ H Hty)|].
    repeat split.
Qed.

Lemma declaration_text_length ty name value :
  length (declaration_text ty name value)
  = (length (lexeme ty) + length (lexeme name) + length (lexeme value)
     + 10)%nat.
Proof.
  unfold declaration_text. rewrite !length_app. cbn [length str list_ascii_of_string]. lia.
Qed.

Lemma parse_variable_declaration_eq p value eq name ty semi rest :
  at_cursor p (value :: eq :: name :: ty :: semi :: rest) ->
  type eq = TOKEN_EQUALS -> type name = TOKEN_IDENTIFIER ->
  type ty = TOKEN_KEYWORD -> type semi = TOKEN_SEMICOLON ->
  (length (declaration_text ty name value) < 512)%nat ->
  exists p',
    parse_variable_declaration p = Ret true p'
    /\ tokens p' = tokens p
    /\ output p' = output p ++ declaration_text ty name value
    /\ stdout p' = stdout p
    /\ (rest <> [] -> current_token_pos p' = current_token_pos p + 5).
Proof.
  intros H0 Heq Hname Hty Hsemi Hlen.
  pose proof (at_cursor_next _ _ _ H0) as H1.
  pose proof (at_cursor_next _ _ _ H1) as H2.
  pose proof (at_cursor_next _ _ _ H2) as H3.
  unfold parse_variable_declaration.
  rewrite (bind_eq _ _ _ _ _ (advance_eq _ _ _ _ H0)).
  rewrite (require_true _ _ _ _ (consume_ok _ _ _ _ _ _ H1 Heq)).
  rewrite (bind_eq _ _ _ _ _ (current_token_eq _ _ _ H2)).
  rewrite (require_true _ _ _ _ (consume_ok _ _ _ _ _ _ H2 Hname)).
  rewrite (bind_eq _ _ _ _ _ (current_token_eq _ _ _ H3)).
  rewrite (require_true _ _ _ _ (consume_ok _ _ _ _ _ _ H3 Hty)).
  destruct (consume_true_any (next (next (next (next p)))) ty semi rest
              TOKEN_SEMICOLON (str "Expected ';' after variable declaration"))
    as (q & Ec & Ht & Ho & Hs & Hp); [|exact Hsemi|].
  { destruct H3 as (pre & Ht & Hp). exists pre.
    cbn [next tokens current_token_pos] in *. split; [exact Ht|lia]. }
  rewrite (require_true _ _ _ _ Ec).
  fold (declaration_text ty name value).
  unfold bind, sprintf_into. apply Nat.ltb_lt in Hlen. rewrite Hlen.
  cbn [append_output ret]. eexists. split; [reflexivity|].
  cbn [tokens output stdout current_token_pos].
  rewrite Ht, Ho, Hs. repeat split.
  intro Hr. rewrite (Hp Hr). cbn [next current_token_pos]. lia.
Qed.

(** ** Reversed function calls *)

Lemma advance_by_0 p : advance_by p 0 = p.
Proof.
  destruct p. unfold advance_by. cbn. rewrite Z.add_0_r. reflexivity.
Qed.

Lemma advance_by_S p k : advance_by (next p) k = advance_by p (S k).
Proof.
  unfold advance_by, next. cbn [tokens current_token_pos output stdout].
  f_equal. lia.
Qed.

Lemma at_cursor_advance_by p run l :
  at_cursor p (run ++ l) -> at_cursor (advance_by p (length run)) l.
Proof.
  intros (pre & Ht & Hp). exists (pre ++ run).
  cbn [advance_by tokens current_token_pos].
  rewrite <- app_assoc, length_app. split; [exact Ht|lia].
Qed.

(** The first loop stops on the parenthesis that closes the call. *)
Lemma scan_args_loop_eq n paren_level p run rparen rest :
  at_cursor p (run ++ rparen :: rest) ->
  inside_parens paren_level run = true ->
  0 < paren_level ->
  type rparen = TOKEN_RPAREN ->
  (length run + 2 <= n)%nat ->
  scan_args_loop n paren_level p = Ret tt (advance_by p (length run)).
Proof.
  revert n paren_level p.
  induction run as [|t run IH]; intros n paren_level p H Hin Hpos Hr Hn.
  - cbn [inside_parens] in Hin. apply Z.eqb_eq in Hin. subst paren_level.
    cbn [app] in H. rewrite advance_by_0.
    destruct n as [|[|n]]; [cbn in Hn; lia|cbn in Hn; lia|].
    cbn [scan_args_loop Z.ltb Z.compare].
    rewrite (bind_eq _ _ _ _ _ (match_eq _ _ _ TOKEN_EOF H)).
    rewrite Hr. cbn [TokenType_eqb negb].
    rewrite (bind_eq _ _ _ _ _ (match_eq _ _ _ TOKEN_LPAREN H)).
    rewrite (bind_eq _ _ _ _ _ (match_eq _ _ _ TOKEN_RPAREN H)).
    rewrite Hr. cbn [TokenType_eqb Z.sub Z.add Z.opp Z.pos_sub Z.ltb Z.compare].
    unfold bind at 1. cbn [ret].
    reflexivity.
  - cbn [inside_parens] in Hin.
    apply andb_true_iff in Hin as [Hin Hrun].
    apply andb_true_iff in Hin as [Heof Hlev].
    cbn [app] in H.
    destruct n as [|n]; [cbn in Hn; lia|]. cbn [scan_args_loop].
    apply Z.ltb_lt in Hpos. rewrite Hpos.
    rewrite (bind_eq _ _ _ _ _ (match_eq _ _ _ TOKEN_EOF H)).
    rewrite Heof. cbn [negb].
    rewrite (bind_eq _ _ _ _ _ (match_eq _ _ _ TOKEN_LPAREN H)).
    rewrite (bind_eq _ _ _ _ _ (match_eq _ _ _ TOKEN_RPAREN H)).
    fold (level_after paren_level t). rewrite Hlev.
    assert (Hadv : advance p = Ret t (next p)).
    { destruct run; cbn [app] in H; apply (advance_eq _ _ _ _ H). }
    unfold bind at 1. unfold bind at 1. rewrite Hadv. cbn [ret].
    rewrite (IH n _ (next p) (at_cursor_next _ _ _ H) Hrun
               (proj1 (Z.ltb_lt _ _) Hlev) Hr)
      by (cbn in Hn; lia).
    rewrite advance_by_S. reflexivity.
Qed.

Lemma gather_args_loop_eq p pre run l args_buffer :
  tokens p = pre ++ run ++ l ->
  current_token_pos p = Z.of_nat (length pre) + Z.of_nat (length run) ->
  gather_args_loop (length run) (Z.of_nat (length pre)) (current_token_pos p)
    args_buffer p
  = Ret (gather run args_buffer) p.
Proof.
  revert pre args_buffer.
  induction run as [|t run IH]; intros pre args_buffer Ht Hp; [reflexivity|].
  cbn [length gather_args_loop gather].
  assert (Hread : read (Z.of_nat (length pre)) p = Ret t p).
  { unfold read. rewrite Ht. cbn [app]. rewrite token_at_app. reflexivity. }
  rewrite (bind_eq _ _ _ _ _ Hread).
  assert (Hpre : tokens p = (pre ++ [t]) ++ run ++ l)
    by (rewrite <- app_assoc; exact Ht).
  assert (Hi : Z.of_nat (length pre) + 1 = Z.of_nat (length (pre ++ [t])))
    by (rewrite length_app; cbn; lia).
  assert (Hp' : current_token_pos p
                = Z.of_nat (length (pre ++ [t])) + Z.of_nat (length run))
    by (cbn [length] in Hp; lia).
  destruct run as [|t2 run].
  - destruct (Z.of_nat (length pre) <? current_token_pos p - 1) eqn:E;
      [apply Z.ltb_lt in E; cbn in Hp; lia|].
    rewrite (bind_eq _ _ _ _ _ (eq_refl : ret _ p = Ret _ p)).
    reflexivity.
  - destruct (Z.of_nat (length pre) <? current_token_pos p - 1) eqn:E;
      [|apply Z.ltb_ge in E; cbn [length] in Hp; lia].
    assert (Hpeek : peek_at (Z.of_nat (length pre) - current_token_pos p + 1)
                      p = Ret t2 p).
    { unfold peek_at, count, read.
      replace (current_token_pos p
               + (Z.of_nat (length pre) - current_token_pos p + 1))
        with (Z.of_nat (length (pre ++ [t]))) by lia.
      destruct (_ >=? _) eqn:E'.
      - apply Z.geb_le in E'. rewrite Ht, !length_app in E'.
        cbn [length] in E'. lia.
      - rewrite Hpre. cbn [app]. rewrite token_at_app. reflexivity. }
    cbv zeta.
    erewrite (bind_eq _ _ p);
      [|erewrite (bind_eq get_pos); [|reflexivity];
        erewrite bind_eq; [|exact Hpeek]; reflexivity].
    rewrite Hi. apply (IH (pre ++ [t]) _ Hpre Hp').
Qed.

Lemma strncat_firstn (m : nat) (a b : cstring) :
  strncat (firstn m a) b (m - length (firstn m a)) = firstn m (a ++ b).
Proof.
  unfold strncat. rewrite firstn_app, length_firstn.
  destruct (Nat.le_gt_cases m (length a)) as [H|H].
  - rewrite Nat.min_l by lia.
    replace (m - m)%nat with 0%nat by lia.
    replace (m - length a)%nat with 0%nat by lia. reflexivity.
  - rewrite Nat.min_r by lia. rewrite firstn_all2 by lia. reflexivity.
Qed.

Lemma gather_firstn run text :
  gather run (firstn 1023 text) = firstn 1023 (text ++ join_args run).
Proof.
  revert text. induction run as [|t run IH]; intro text.
  - cbn. rewrite app_nil_r. reflexivity.
  - cbn [gather join_args].
    replace (1024 - length (firstn 1023 text) - 1)%nat
      with (1023 - length (firstn 1023 text))%nat by lia.
    rewrite strncat_firstn.
    destruct run as [|t2 run].
    + cbn [gather]. rewrite app_nil_r. reflexivity.
    + destruct (TokenType_eqb (type t2) TOKEN_COMMA); cbn [negb].
      * rewrite IH, <- app_assoc. reflexivity.
      * replace (1024 - length (firstn 1023 (text ++ lexeme t)) - 1)%nat
          with (1023 - length (firstn 1023 (text ++ lexeme t)))%nat by lia.
        rewrite strncat_firstn, IH, <- !app_assoc. reflexivity.
Qed.

Lemma parse_reversed_function_call_eq
      p lparen run rparen name semi rest :
  at_cursor p (lparen :: run ++ rparen :: name :: semi :: rest) ->
  type lparen = TOKEN_LPAREN ->
  inside_parens 1 run = true ->
  type rparen = TOKEN_RPAREN ->
  type name = TOKEN_IDENTIFIER ->
  type semi = TOKEN_SEMICOLON ->
  (length (call_text name (firstn 1023 (join_args run))) < 2048)%nat ->
  exists p',
    parse_reversed_function_call p = Ret true p'
    /\ tokens p' = tokens p
    /\ output p' = output p ++ call_text name (firstn 1023 (join_args run))
    /\ stdout p' = stdout p
    /\ (rest <> [] ->
        current_token_pos p'
        = current_token_pos p + Z.of_nat (length run) + 4).
Proof.
  intros H Hl Hin Hr Hname Hsemi Hlen.
  unfold parse_reversed_function_call.
  assert (H0 : at_cursor p (lparen :: (run ++ rparen :: name :: semi
                                           :: rest)%list)) by exact H.
  destruct (run ++ rparen :: name :: semi :: rest) as [|x xs] eqn:Ex;
    [destruct run; discriminate Ex|].
  rewrite (require_true _ _ _ _ (consume_ok _ _ _ _ _ _ H0 Hl)).
  rewrite <- Ex in *. clear x xs Ex H0.
  pose proof (at_cursor_next _ _ _ H) as H1.
  rewrite (bind_eq _ _ _ _ _ (eq_refl : get_pos (next p) = Ret _ _)).
  assert (Hscan : scan_args_loop (S (length (tokens (next p)))) 1 (next p)
                  = Ret tt (advance_by (next p) (length run))).
  { apply (scan_args_loop_eq _ _ _ run rparen _ H1 Hin ltac:(lia) Hr).
    destruct H1 as (pre & Ht & _). rewrite Ht, !length_app. cbn. lia. }
  unfold bind at 1. rewrite Hscan.
  pose proof (at_cursor_advance_by _ _ _ H1) as H2.
  set (q := advance_by (next p) (length run)) in *.
  rewrite (bind_eq _ _ _ _ _ (eq_refl : get_pos q = Ret _ _)).
  destruct H as (pre & Ht & Hp).
  assert (Hg : gather_args_loop
                 (Z.to_nat (current_token_pos q - current_token_pos (next p)))
                 (current_token_pos (next p)) (current_token_pos q) [] q
               = Ret (firstn 1023 (join_args run)) q).
  { replace (Z.to_nat (current_token_pos q - current_token_pos (next p)))
      with (length run) by (subst q; cbn; lia).
    replace (current_token_pos (next p))
      with (Z.of_nat (length (pre ++ [lparen])))
      by (rewrite length_app; cbn; lia).
    rewrite (gather_args_loop_eq q (pre ++ [lparen]) run
               (rparen :: name :: semi :: rest) []).
    - apply (f_equal (fun b => Ret b q)). apply (gather_firstn run []).
    - subst q. cbn. rewrite Ht, <- app_assoc. reflexivity.
    - subst q. cbn. rewrite length_app. cbn. lia. }
  rewrite (bind_eq _ _ _ _ _ Hg).
  pose proof (at_cursor_next _ _ _ H2) as H3.
  rewrite (require_true _ _ _ _ (consume_ok _ _ _ _ _ _ H2 Hr)).
  rewrite (bind_eq _ _ _ _ _ (current_token_eq _ _ _ H3)).
  rewrite (require_true _ _ _ _ (consume_ok _ _ _ _ _ _ H3 Hname)).
  destruct (consume_true_any (next (next q)) name semi rest
              TOKEN_SEMICOLON (str "Expected ';' after function call"))
    as (q' & Ec & Ht' & Ho & Hs & Hp'); [|exact Hsemi|].
  { destruct H3 as (pre3 & Ht3 & Hp3). exists pre3.
    cbn [next tokens current_token_pos] in *. split; [exact Ht3|lia]. }
  rewrite (require_true _ _ _ _ Ec).
  fold (call_text name (firstn 1023 (join_args run))).
  unfold bind, sprintf_into. apply Nat.ltb_lt in Hlen. rewrite Hlen.
  cbn [append_output ret]. eexists. split; [reflexivity|].
  cbn [tokens output stdout current_token_pos].
  rewrite Ht', Ho, Hs. repeat split.
  intro Hrest. rewrite (Hp' Hrest). subst q.
  cbn [next advance_by current_token_pos]. lia.
Qed.

Lemma nth_middle_token (pre : list Token) t rest d :
  nth (length pre) (pre ++ t :: rest) d = t.
Proof. rewrite app_nth2, Nat.sub_diag by lia. reflexivity. Qed.

Lemma peek_at_nth p pre t rest :
  at_cursor p (pre ++ t :: rest) ->
  peek_at (Z.of_nat (length pre)) p = Ret t p.
Proof.
  intro H. rewrite (peek_at_inside _ _ _ H)
    by (rewrite length_app; cbn [length]; lia).
  rewrite Nat2Z.id, nth_middle_token. reflexivity.
Qed.

(** The look-ahead of [get_offset_after_paren] stops after the parenthesis
    that closes the one under the cursor. *)
Lemma offset_loop_eq n paren_level p pre run rparen rest :
  at_cursor p (pre ++ run ++ rparen :: rest) ->
  inside_parens paren_level run = true ->
  0 < paren_level ->
  type rparen = TOKEN_RPAREN ->
  (length run + 2 <= n)%nat ->
  offset_loop n paren_level (Z.of_nat (length pre)) p
  = Ret (Z.of_nat (length pre + length run + 1)) p.
Proof.
  revert n paren_level pre.
  induction run as [|t run IH]; intros n paren_level pre H Hin Hpos Hr Hn.
  - cbn [inside_parens] in Hin. apply Z.eqb_eq in Hin. subst paren_level.
    cbn [app] in H.
    destruct n as [|[|n]]; [cbn in Hn; lia|cbn in Hn; lia|].
    pose proof (at_cursor_count _ _ H) as Hc.
    rewrite length_app in Hc. cbn [length] in Hc.
    cbn [offset_loop].
    replace (current_token_pos p + Z.of_nat (length pre) <? count p) with true
      by (symmetry; apply Z.ltb_lt; lia).
    cbn [Z.ltb Z.compare andb].
    rewrite (bind_eq _ _ _ _ _ (peek_at_nth _ _ _ _ H)).
    rewrite Hr. cbn [TokenType_eqb Z.sub Z.add Z.opp Z.pos_sub Z.ltb Z.compare andb].
    f_equal. cbn [length]. lia.
  - cbn [inside_parens] in Hin.
    apply andb_true_iff in Hin as [Hin Hrun].
    apply andb_true_iff in Hin as [Heof Hlev].
    cbn [app] in H.
    destruct n as [|n]; [cbn in Hn; lia|]. cbn [offset_loop].
    pose proof (at_cursor_count _ _ H) as Hc.
    rewrite length_app in Hc. cbn [length] in Hc.
    replace (current_token_pos p + Z.of_nat (length pre) <? count p) with true
      by (symmetry; apply Z.ltb_lt; lia).
    apply Z.ltb_lt in Hpos. rewrite Hpos. cbn [andb].
    rewrite (bind_eq _ _ _ _ _ (peek_at_nth _ _ _ _ H)).
    fold (level_after paren_level t).
    replace (Z.of_nat (length pre) + 1) with (Z.of_nat (length (pre ++ [t])))
      by (rewrite length_app; cbn; lia).
    rewrite (IH n _ (pre ++ [t])); try assumption.
    + f_equal. rewrite length_app. cbn [length]. lia.
    + rewrite <- app_assoc. exact H.
    + apply Z.ltb_lt. exact Hlev.
    + cbn in Hn. lia.
Qed.

Lemma get_offset_after_paren_eq p lparen run rparen rest :
  at_cursor p (lparen :: run ++ rparen :: rest) ->
  type lparen = TOKEN_LPAREN ->
  inside_parens 1 run = true ->
  type rparen = TOKEN_RPAREN ->
  get_offset_after_paren p = Ret (Z.of_nat (length run + 2)) p.
Proof.
  intros H Hl Hin Hr. unfold get_offset_after_paren.
  rewrite (bind_eq _ _ _ _ _ (match_eq _ _ _ TOKEN_LPAREN H)).
  rewrite Hl. cbn [TokenType_eqb negb].
  rewrite (offset_loop_eq _ 1 p [lparen] run rparen rest H Hin ltac:(lia) Hr).
  - f_equal. cbn [length]. lia.
  - destruct H as (pre & Ht & _). rewrite Ht, !length_app. cbn [length].
    rewrite length_app. lia.
Qed.

(** [parse_statement] on a reversed call. *)
Lemma parse_statement_call_eq
      fuel p lparen run rparen name semi rest :
  at_cursor p (lparen :: run ++ rparen :: name :: semi :: rest) ->
  type lparen = TOKEN_LPAREN ->
  inside_parens 1 run = true ->
  type rparen = TOKEN_RPAREN ->
  type name = TOKEN_IDENTIFIER ->
  type semi = TOKEN_SEMICOLON ->
  parse_statement (S fuel) p = parse_reversed_function_call p.
Proof.
  intros H Hl Hin Hr Hname Hsemi.
  cbn [parse_statement]. unfold parse_statement_body.
  rewrite (bind_eq _ _ _ _ _ (match_eq _ _ _ TOKEN_NUMBER H)).
  rewrite Hl. cbn [TokenType_eqb].
  rewrite (bind_eq _ _ _ _ _ (match_eq _ _ _ TOKEN_LPAREN H)).
  rewrite Hl. cbn [TokenType_eqb].
  rewrite (bind_eq _ _ _ _ _
             (get_offset_after_paren_eq _ _ _ _ _ H Hl Hin Hr)).
  assert (Hname' : peek_at (Z.of_nat (length run + 2)) p = Ret name p).
  { replace (length run + 2)%nat
      with (length ((lparen :: run) ++ [rparen]))
      by (rewrite length_app; cbn [length]; lia).
    apply (peek_at_nth p _ name (semi :: rest)).
    rewrite <- app_assoc. exact H. }
  assert (Hsemi' : peek_at (Z.of_nat (length run + 2) + 1) p = Ret semi p).
  { replace (Z.of_nat (length run + 2) + 1)
      with (Z.of_nat (length ((lparen :: run) ++ [rparen; name])))
      by (rewrite length_app; cbn [length]; lia).
    apply (peek_at_nth p _ semi rest).
    rewrite <- app_assoc. exact H. }
  rewrite (bind_eq _ _ _ _ _ Hname').
  rewrite Hname. cbn [TokenType_eqb].
  rewrite (bind_eq _ _ _ _ _ Hsemi').
  rewrite Hsemi. reflexivity.
Qed.

(** ** Function definitions *)

Lemma args_text_nonempty args ps :
  args <> [] ->
  args_text args ps
  = args ++ concat (map (fun a => str ", " ++ param_text a) ps).
Proof.
  revert args. induction ps as [|a ps IH]; intros args Ha; cbn [args_text].
  - cbn. rewrite app_nil_r. reflexivity.
  - destruct args as [|c args]; [contradiction|].
    cbn [length Nat.ltb Nat.leb map concat].
    rewrite IH by discriminate. rewrite <- !app_assoc. reflexivity.
Qed.

Lemma join_with_concat sep (x : cstring) (l : list cstring) :
  x ++ concat (map (fun y => sep ++ y) l) = join_with sep (x :: l).
Proof.
  revert x. induction l as [|y l IH]; intro x.
  - cbn. apply app_nil_r.
  - cbn [map concat]. rewrite <- app_assoc, (IH y). reflexivity.
Qed.

Lemma args_text_join ps :
  args_text [] ps = join_with (str ", ") (map param_text ps).
Proof.
  destruct ps as [|a ps]; [reflexivity|].
  cbn [args_text length Nat.ltb Nat.leb app].
  assert (Ha : param_text a <> []).
  { unfold param_text. destruct (lexeme (snd a)); discriminate. }
  rewrite (args_text_nonempty _ ps Ha).
  rewrite <- (map_map param_text (fun y => str ", " ++ y)).
  apply (join_with_concat (str ", ") (param_text a) (map param_text ps)).
Qed.

Lemma strcat_into_inv size dst src p r q :
  strcat_into size dst src p = Ret r q -> r = dst ++ src /\ q = p.
Proof.
  unfold strcat_into. destruct (_ <? _)%nat; [|discriminate].
  intro H. inversion H. auto.
Qed.

Lemma sprintf_into_inv size s p r q :
  sprintf_into size s p = Ret r q -> r = s /\ q = p.
Proof.
  unfold sprintf_into. destruct (_ <? _)%nat; [|discriminate].
  intro H. inversion H. auto.
Qed.

Lemma bind_inv {A B} (m : M A) (k : A -> M B) p b q :
  bind m k p = Ret b q -> exists a p', m p = Ret a p' /\ k a p' = Ret b q.
Proof.
  unfold bind. destruct (m p) as [a p'| |]; try discriminate. eauto.
Qed.

Lemma args_loop_inv n args p toks ps rparen rest r q :
  at_cursor p (toks ++ rparen :: rest) ->
  param_list toks ps ->
  type rparen = TOKEN_RPAREN ->
  args_loop n args p = Ret r q ->
  r = Some (args_text args ps) /\ q = advance_by p (length toks).
Proof.
  intros H Hps Hr. revert n args p H.
  assert (Hexit : forall n args p,
            at_cursor p (rparen :: rest) ->
            args_loop n args p = Ret r q ->
            r = Some args /\ q = p).
  { intros [|n] args p H E; [discriminate E|]. cbn [args_loop] in E.
    rewrite (bind_eq _ _ _ _ _ (match_eq _ _ _ TOKEN_RPAREN H)) in E.
    rewrite (bind_eq _ _ _ _ _ (match_eq _ _ _ TOKEN_EOF H)) in E.
    rewrite Hr in E. cbn in E. inversion E. auto. }
  assert (Hpair : forall n args p a t x l (k : cstring -> M (option cstring)),
            at_cursor p (a :: t :: x :: l) ->
            type a = TOKEN_IDENTIFIER -> type t = TOKEN_KEYWORD ->
            args_loop (S n) args p = Ret r q ->
            exists args',
              args' = (if (0 <? length args)%nat then args ++ str ", "
                       else args) ++ param_text (a, t)
              /\ (at_comma <- match_ TOKEN_COMMA ;;
                  if at_comma then advance ;;; args_loop n args'
                  else
                    at_rparen <- match_ TOKEN_RPAREN ;;
                    if negb at_rparen then
                      printf (str "Parser Error: Expected ',' or ')' in argument list."
                                ++ [nl]) ;;;
                      ret None
                    else args_loop n args') (next (next p)) = Ret r q).
  { intros n args p a t x l _ H Ha Ht E. cbn [args_loop] in E.
    rewrite (bind_eq _ _ _ _ _ (match_eq _ _ _ TOKEN_RPAREN H)) in E.
    rewrite (bind_eq _ _ _ _ _ (match_eq _ _ _ TOKEN_EOF H)) in E.
    rewrite Ha in E. cbn [TokenType_eqb negb andb] in E.
    apply bind_inv in E as (args1 & p1 & E1 & E).
    assert (args1 = (if (0 <? length args)%nat then args ++ str ", "
                     else args) /\ p1 = p) as [-> ->].
    { destruct (0 <? length args)%nat;
        [apply (strcat_into_inv _ _ _ _ _ _ E1)|inversion E1; auto]. }
    rewrite (bind_eq _ _ _ _ _ (current_token_eq _ _ _ H)) in E.
    rewrite (bind_eq _ _ _ _ _ (consume_ok _ _ _ _ _ _ H Ha)) in E.
    cbn [negb] in E.
    pose proof (at_cursor_next _ _ _ H) as H1.
    rewrite (bind_eq _ _ _ _ _ (current_token_eq _ _ _ H1)) in E.
    rewrite (bind_eq _ _ _ _ _ (consume_ok _ _ _ _ _ _ H1 Ht)) in E.
    cbn [negb] in E.
    apply bind_inv in E as (a1 & p1 & E1' & E).
    apply strcat_into_inv in E1' as [-> ->].
    apply bind_inv in E as (a2 & p2 & E2 & E).
    apply strcat_into_inv in E2 as [-> ->].
    apply bind_inv in E as (a3 & p3 & E3 & E).
    apply strcat_into_inv in E3 as [-> ->].
    eexists. split; [reflexivity|].
    unfold param_text. cbn [fst snd].
    rewrite <- ?app_assoc in E. rewrite <- ?app_assoc. exact E. }
  induction Hps as [|a t Ha Ht|a t c toks ps Ha Ht Hc Hps IH Hne];
    intros n args p H E.
  - cbn [app] in H. cbn [args_text length]. rewrite advance_by_0.
    apply (Hexit n args p H E).
  - cbn [app] in H. destruct n as [|n]; [discriminate E|].
    destruct (Hpair n args p a t rparen rest (fun _ => ret None) H Ha Ht E)
      as (args' & -> & E').
    pose proof (at_cursor_next _ _ _ (at_cursor_next _ _ _ H)) as H2.
    rewrite (bind_eq _ _ _ _ _ (match_eq _ _ _ TOKEN_COMMA H2)) in E'.
    rewrite Hr in E'. cbn [TokenType_eqb] in E'.
    rewrite (bind_eq _ _ _ _ _ (match_eq _ _ _ TOKEN_RPAREN H2)) in E'.
    rewrite Hr in E'. cbn [TokenType_eqb negb] in E'.
    destruct (Hexit _ _ _ H2 E') as [-> ->].
    cbn [args_text length]. split; [reflexivity|].
    rewrite <- !advance_by_S, advance_by_0. reflexivity.
  - cbn [app] in H. destruct n as [|n]; [discriminate E|].
    destruct (Hpair n args p a t c (toks ++ rparen :: rest)
                (fun _ => ret None) H Ha Ht E) as (args' & -> & E').
    pose proof (at_cursor_next _ _ _ (at_cursor_next _ _ _ H)) as H2.
    rewrite (bind_eq _ _ _ _ _ (match_eq _ _ _ TOKEN_COMMA H2)) in E'.
    rewrite Hc in E'. cbn [TokenType_eqb] in E'.
    assert (Hadv : advance (next (next p)) = Ret c (next (next (next p)))).
    { destruct toks; cbn [app] in H2; apply (advance_eq _ _ _ _ H2). }
    rewrite (bind_eq _ _ _ _ _ Hadv) in E'.
    destruct (IH _ _ _ (at_cursor_next _ _ _ H2) E') as [-> ->].
    cbn [args_text length]. split; [reflexivity|].
    rewrite !advance_by_S. reflexivity.
Qed.

Lemma append_output_eq s p : append_output s p = Ret tt (emit p s).
Proof. reflexivity. Qed.

Lemma printf_eq s p : printf s p = Ret tt (print p s).
Proof. reflexivity. Qed.

Lemma advance_inv p t q :
  advance p = Ret t q ->
  tokens q = tokens p /\ output q = output p /\ stdout q = stdout p.
Proof.
  unfold advance, bind. destruct (_ <? _); cbn [set_pos ret]; unfold read;
    destruct (token_at _ _); intro H; inversion H; auto.
Qed.

Lemma consume_true_inv ty error_message p q :
  consume ty error_message p = Ret true q ->
  match_ ty p = Ret true p
  /\ tokens q = tokens p /\ output q = output p /\ stdout q = stdout p.
Proof.
  unfold consume. intro H. apply bind_inv in H as (ok & p1 & Hm & H).
  assert (p1 = p).
  { unfold match_ in Hm. apply bind_inv in Hm as (t & p2 & Hc & Hm).
    unfold current_token, read in Hc. destruct (token_at _ _); inversion Hc.
    inversion Hm. congruence. }
  subst p1. destruct ok.
  - apply bind_inv in H as (t & p2 & Ha & H). inversion H. subst.
    split; [exact Hm|apply (advance_inv _ _ _ Ha)].
  - apply bind_inv in H as (t & p2 & _ & H).
    apply bind_inv in H as (u & p3 & _ & H). inversion H.
Qed.

Lemma require_inv (c k : M bool) p q :
  require c k p = Ret true q ->
  exists p', c p = Ret true p' /\ k p' = Ret true q.
Proof.
  unfold require. intro H. apply bind_inv in H as ([] & p' & Hc & H).
  - eauto.
  - inversion H.
Qed.

Lemma parse_function_declaration_inv
      fuel p lparen toks ps rparen name rtype lbrace t rest p' :
  at_cursor p (lparen :: toks ++ rparen :: name :: rtype :: lbrace :: t
                 :: rest) ->
  type lparen = TOKEN_LPAREN ->
  param_list toks ps ->
  type rparen = TOKEN_RPAREN ->
  type name = TOKEN_IDENTIFIER ->
  type rtype = TOKEN_KEYWORD ->
  type lbrace = TOKEN_LBRACE ->
  parse_function_declaration fuel p = Ret true p' ->
  exists q,
    body_loop (parse_statement fuel) fuel
      (emit (advance_by p (length toks + 5))
            (header_text rtype name
               (join_with (str ", ") (map param_text ps))))
    = Ret true q
    /\ match_ TOKEN_RBRACE q = Ret true q
    /\ output p' = output q ++ str "}" ++ [nl; nl].
Proof.
  intros H Hl Hps Hr Hname Hrt Hlb E.
  unfold parse_function_declaration in E.
  assert (H0 : at_cursor p (lparen :: (toks ++ rparen :: name :: rtype
                                          :: lbrace :: t :: rest)%list))
    by exact H.
  destruct (toks ++ rparen :: name :: rtype :: lbrace :: t :: rest)
    as [|x xs] eqn:Ex; [destruct toks; discriminate Ex|].
  rewrite (require_true _ _ _ _ (consume_ok _ _ _ _ _ _ H0 Hl)) in E.
  rewrite <- Ex in *. clear x xs Ex H0.
  pose proof (at_cursor_next _ _ _ H) as H1.
  apply bind_inv in E as (r & q1 & Ea & E).
  destruct (args_loop_inv _ _ _ _ _ _ _ _ _ H1 Hps Hr Ea) as [-> ->].
  rewrite args_text_join in E.
  pose proof (at_cursor_advance_by _ _ _ H1) as H2.
  pose proof (at_cursor_next _ _ _ H2) as H3.
  pose proof (at_cursor_next _ _ _ H3) as H4.
  pose proof (at_cursor_next _ _ _ H4) as H5.
  rewrite (require_true _ _ _ _ (consume_ok _ _ _ _ _ _ H2 Hr)) in E.
  rewrite (bind_eq _ _ _ _ _ (current_token_eq _ _ _ H3)) in E.
  rewrite (require_true _ _ _ _ (consume_ok _ _ _ _ _ _ H3 Hname)) in E.
  rewrite (bind_eq _ _ _ _ _ (current_token_eq _ _ _ H4)) in E.
  rewrite (require_true _ _ _ _ (consume_ok _ _ _ _ _ _ H4 Hrt)) in E.
  fold (header_text rtype name (join_with (str ", ") (map param_text ps)))
    in E.
  apply bind_inv in E as (hdr & q2 & Es & E).
  apply sprintf_into_inv in Es as [-> ->].
  rewrite (bind_eq _ _ _ _ _ (append_output_eq _ _)) in E.
  rewrite (require_true _ _ _ _ (consume_ok _ _ _ _ _ _
             (at_cursor_emit _ _ _ H5) Hlb)) in E.
  apply require_inv in E as (q & Eb & E).
  apply require_inv in E as (q3 & Ec & E).
  apply consume_true_inv in Ec as (Hm & _ & Ho & _).
  inversion E. subst p'. cbn [output].
  exists q. split; [|split; [exact Hm|rewrite Ho; reflexivity]].
  rewrite <- Eb. f_equal.
  unfold emit, advance_by, next.
  cbn [tokens current_token_pos output stdout]. f_equal. lia.
Qed.

Lemma body_loop_at_rbrace stmt n p t rest :
  at_cursor p (t :: rest) -> type t = TOKEN_RBRACE ->
  body_loop stmt (S n) p = Ret true p.
Proof.
  intros H Ht. cbn [body_loop].
  rewrite (bind_eq _ _ _ _ _ (match_eq _ _ _ TOKEN_RBRACE H)).
  rewrite (bind_eq _ _ _ _ _ (match_eq _ _ _ TOKEN_EOF H)).
  rewrite Ht. reflexivity.
Qed.

(** ** Loops over the tokens, as functions of the tokens left *)

Lemma ready_cons p l : ready p l -> exists t rest, l = t :: rest.
Proof. intros [_ H]. apply (ends_with_eof_cons _ H). Qed.

Lemma ready_next p t rest :
  ready p (t :: rest) -> type t <> TOKEN_EOF -> ready (next p) rest.
Proof.
  intros [H He] Ht. split; [apply (at_cursor_next _ _ _ H)|].
  apply (ends_with_eof_tail _ _ He Ht).
Qed.

Lemma ready_next_cons p t rest :
  ready p (t :: rest) -> type t <> TOKEN_EOF ->
  exists t' rest', rest = t' :: rest'.
Proof. intros H Ht. apply (ready_cons _ _ (ready_next _ _ _ H Ht)). Qed.

Lemma ready_advance p t rest :
  ready p (t :: rest) -> type t <> TOKEN_EOF -> advance p = Ret t (next p).
Proof.
  intros H Ht. destruct (ready_next_cons _ _ _ H Ht) as (t' & rest' & ->).
  apply (advance_eq _ _ _ _ (proj1 H)).
Qed.

Lemma run_until_split end_type l :
  exists rest, l = run_until end_type l ++ rest
               /\ Forall (fun t => type t <> TOKEN_EOF) (run_until end_type l).
Proof.
  induction l as [|t l (rest & IH & Hf)]; cbn [run_until].
  - exists []. split; [reflexivity|constructor].
  - destruct (TokenType_eqb (type t) end_type
              || TokenType_eqb (type t) TOKEN_EOF) eqn:E.
    + exists (t :: l). split; [reflexivity|constructor].
    + exists rest. cbn [app]. split; [congruence|].
      constructor; [|exact Hf].
      apply orb_false_iff in E as [_ E]. apply TokenType_eqb_neq. exact E.
Qed.

Lemma firstn_nonempty (m : nat) (s : cstring) :
  (1 <= m)%nat ->
  (0 <? length (firstn m s))%nat = (0 <? length s)%nat.
Proof.
  intro Hm. rewrite length_firstn.
  destruct s; cbn [length]; [rewrite Nat.min_0_r; reflexivity|].
  destruct m; [lia|]. reflexivity.
Qed.

Lemma slurp_loop_eq n end_type text buffer_size p l :
  ready p l ->
  (2 <= buffer_size)%nat ->
  (length l <= n)%nat ->
  slurp_loop n end_type (firstn (buffer_size - 1) text) buffer_size p
  = Ret (firstn (buffer_size - 1) (slurp_text text (run_until end_type l)))
        (advance_by p (length (run_until end_type l))).
Proof.
  intros H Hsz. revert n text p H.
  induction l as [|t l IH]; intros n text p H Hn.
  - destruct (ready_cons _ _ H) as (? & ? & E). discriminate E.
  - destruct n as [|n]; [cbn in Hn; lia|].
    cbn [slurp_loop run_until].
    rewrite (bind_eq _ _ _ _ _ (match_eq _ _ _ end_type (proj1 H))).
    rewrite (bind_eq _ _ _ _ _ (match_eq _ _ _ TOKEN_EOF (proj1 H))).
    rewrite <- negb_orb.
    destruct (TokenType_eqb (type t) end_type
              || TokenType_eqb (type t) TOKEN_EOF) eqn:E; cbn [negb].
    + cbn [slurp_text length]. rewrite advance_by_0. reflexivity.
    + apply orb_false_iff in E as [_ E]. apply TokenType_eqb_neq in E.
      rewrite (bind_eq _ _ _ _ _ (current_token_eq _ _ _ (proj1 H))).
      rewrite (bind_eq _ _ _ _ _ (ready_advance _ _ _ H E)).
      rewrite firstn_nonempty by lia.
      replace (if (0 <? length text)%nat
               then strncat (firstn (buffer_size - 1) text) (str " ")
                      (buffer_size - length (firstn (buffer_size - 1) text)
                       - 1)
               else firstn (buffer_size - 1) text)
        with (firstn (buffer_size - 1)
                (if (0 <? length text)%nat then text ++ str " " else text)).
      2:{ destruct (0 <? length text)%nat; [|reflexivity].
          rewrite <- strncat_firstn. f_equal. lia. }
      match goal with
      | |- slurp_loop _ _ (strncat (firstn ?m ?a) ?b ?k) _ _ = _ =>
          replace (strncat (firstn m a) b k) with (firstn m (a ++ b))
            by (rewrite <- strncat_firstn; f_equal; lia)
      end.
      rewrite (IH n _ (next p) (ready_next _ _ _ H E)) by (cbn in Hn; lia).
      cbn [slurp_text length]. rewrite advance_by_S. reflexivity.
Qed.

Lemma slurp_tokens_until_eq end_type buffer_size p l :
  ready p l ->
  (2 <= buffer_size)%nat ->
  slurp_tokens_until end_type buffer_size p
  = Ret (firstn (buffer_size - 1) (slurp_text [] (run_until end_type l)))
        (advance_by p (length (run_until end_type l))).
Proof.
  intros H Hsz. unfold slurp_tokens_until.
  replace (buffer_size =? 0)%nat with false
    by (symmetry; apply Nat.eqb_neq; lia).
  pose proof (slurp_loop_eq (S (length (tokens p))) end_type [] buffer_size
                p l H Hsz) as E.
  rewrite firstn_nil in E. apply E.
  destruct H as [(pre & Ht & _) _]. rewrite Ht, length_app. lia.
Qed.

Lemma args_run_split paren_level l :
  exists rest, l = args_run paren_level l ++ rest.
Proof.
  revert paren_level. induction l as [|t l IH]; intro paren_level;
    cbn [args_run]; [exists []; reflexivity|].
  destruct (TokenType_eqb (type t) TOKEN_EOF); [exists (t :: l); reflexivity|].
  destruct (0 <? level_after paren_level t); [|exists (t :: l); reflexivity].
  destruct (IH (level_after paren_level t)) as (rest & E).
  exists rest. cbn [app]. congruence.
Qed.

Lemma scan_args_loop_run n paren_level p l :
  ready p l -> 0 < paren_level -> (length l + 1 <= n)%nat ->
  scan_args_loop n paren_level p
  = Ret tt (advance_by p (length (args_run paren_level l))).
Proof.
  revert n paren_level p.
  induction l as [|t l IH]; intros n paren_level p H Hpos Hn.
  - destruct (ready_cons _ _ H) as (? & ? & E). discriminate E.
  - destruct n as [|n]; [lia|]. cbn [scan_args_loop args_run].
    apply Z.ltb_lt in Hpos. rewrite Hpos.
    rewrite (bind_eq _ _ _ _ _ (match_eq _ _ _ TOKEN_EOF (proj1 H))).
    destruct (TokenType_eqb (type t) TOKEN_EOF) eqn:E; cbn [negb].
    + cbn [length]. rewrite advance_by_0. reflexivity.
    + apply TokenType_eqb_neq in E.
      rewrite (bind_eq _ _ _ _ _ (match_eq _ _ _ TOKEN_LPAREN (proj1 H))).
      rewrite (bind_eq _ _ _ _ _ (match_eq _ _ _ TOKEN_RPAREN (proj1 H))).
      fold (level_after paren_level t).
      destruct (0 <? level_after paren_level t) eqn:Hlev.
      * unfold bind at 1. unfold bind at 1.
        rewrite (ready_advance _ _ _ H E). cbn [ret].
        rewrite (IH n _ (next p) (ready_next _ _ _ H E))
          by (try (apply Z.ltb_lt; exact Hlev); cbn in Hn; lia).
        cbn [length]. rewrite advance_by_S. reflexivity.
      * unfold bind at 1. cbn [ret length]. rewrite advance_by_0.
        destruct (ready_next_cons _ _ _ H E) as (t' & l' & ->).
        destruct n as [|n]; [cbn in Hn; lia|]. cbn [scan_args_loop].
        rewrite Hlev. reflexivity.
Qed.

(** ** Braces *)

Lemma braces_app a b : braces (a ++ b) = braces a + braces b.
Proof. unfold braces. rewrite !count_occ_app. lia. Qed.

Lemma braces_cons c s : braces (c :: s) = brace_char c + braces s.
Proof.
  unfold braces, brace_char. cbn [count_occ].
  destruct (ascii_dec c "{"%char), (ascii_dec c "}"%char);
    try congruence; lia.
Qed.

Lemma braces_nil : braces [] = 0.
Proof. reflexivity. Qed.

Lemma lexeme_braces_nil : lexeme_braces [] = 0.
Proof. reflexivity. Qed.

Lemma lexeme_braces_cons t l :
  lexeme_braces (t :: l) = braces (lexeme t) + lexeme_braces l.
Proof. unfold lexeme_braces. cbn [map concat]. apply braces_app. Qed.

Lemma lexeme_braces_app a b :
  lexeme_braces (a ++ b) = lexeme_braces a + lexeme_braces b.
Proof.
  induction a as [|t a IH]; [reflexivity|].
  cbn [app]. rewrite !lexeme_braces_cons, IH. lia.
Qed.

Lemma braces_firstn_all (m : nat) (s : cstring) :
  (length s <= m)%nat -> braces (firstn m s) = braces s.
Proof. intro H. rewrite firstn_all2 by lia. reflexivity. Qed.

Lemma braces_slurp_text buffer l :
  braces (slurp_text buffer l) = braces buffer + lexeme_braces l.
Proof.
  revert buffer. induction l as [|t l IH]; intro buffer; cbn [slurp_text].
  - rewrite lexeme_braces_nil. lia.
  - rewrite IH, lexeme_braces_cons, braces_app.
    destruct (0 <? length buffer)%nat; rewrite ?braces_app;
      change (braces (str " ")) with 0; lia.
Qed.

Lemma braces_join_args l : braces (join_args l) = lexeme_braces l.
Proof.
  induction l as [|t l IH]; [reflexivity|].
  cbn [join_args]. rewrite lexeme_braces_cons, braces_app.
  destruct l as [|t2 l]; [rewrite lexeme_braces_nil; reflexivity|].
  rewrite braces_app, IH.
  destruct (TokenType_eqb (type t2) TOKEN_COMMA);
    [change (braces []) with 0|change (braces (str " ")) with 0]; lia.
Qed.

Lemma braces_of_kind t ty z :
  lexer_token t -> type t = ty -> kind_braces ty = Some z ->
  braces (lexeme t) = z.
Proof.
  unfold lexer_token. intros H Ht Hz. subst ty.
  destruct (type t); cbn in Hz; inversion Hz; subst;
    try (rewrite H; reflexivity).
  cbn [keywords In] in H.
  repeat (destruct H as [<-|H]; [reflexivity|]). contradiction.
Qed.

(** ** The fixed buffers hold what is put in them *)

Lemma buffers_fit_app used l :
  buffers_fit (used ++ l) = true -> buffers_fit l = true.
Proof.
  induction used as [|t used IH]; [auto|].
  cbn [app buffers_fit]. intro H. apply andb_true_iff in H as [_ H]. auto.
Qed.

Lemma buffers_fit_here l : buffers_fit l = true -> fits_at l = true.
Proof.
  destruct l; [reflexivity|]. cbn [buffers_fit]. intro H.
  apply andb_true_iff in H as [H _]. exact H.
Qed.

(** ** The braces of the output *)

Lemma source_ok_app used l : source_ok (used ++ l) -> source_ok l.
Proof.
  intros [Hf Hb]. split; [|apply (buffers_fit_app _ _ Hb)].
  apply Forall_app in Hf. tauto.
Qed.

Lemma source_ok_cons t l : source_ok (t :: l) -> lexer_token t /\ source_ok l.
Proof.
  intro H. split; [|apply (source_ok_app [t] l H)].
  destruct H as [Hf _]. inversion Hf. assumption.
Qed.

Lemma translated_intro p p' l used l' d :
  l = used ++ l' -> ready p' l' -> output p' = output p ++ d ->
  braces d = lexeme_braces used -> translated p p' l.
Proof. intros. exists used, l', d. auto. Qed.

Lemma ready_advance_by p run l :
  ready p (run ++ l) -> Forall (fun t => type t <> TOKEN_EOF) run ->
  ready (advance_by p (length run)) l.
Proof.
  revert p. induction run as [|t run IH]; intros p H Hf.
  - cbn [length]. rewrite advance_by_0. exact H.
  - inversion Hf as [|? ? Ht Hf']. subst. cbn [app length] in *.
    rewrite <- advance_by_S. apply IH; [|exact Hf'].
    apply (ready_next _ _ _ H Ht).
Qed.

Lemma require_consume_inv ty error_message (k : M bool) p l q :
  ready p l -> ty <> TOKEN_EOF ->
  require (consume ty error_message) k p = Ret true q ->
  exists t rest,
    l = t :: rest /\ type t = ty /\ ready (next p) rest
    /\ k (next p) = Ret true q.
Proof.
  intros H Hty E. destruct (ready_cons _ _ H) as (t & rest & ->).
  exists t, rest. unfold require, bind in E.
  rewrite (consume_eq _ _ _ _ error_message (proj1 H) (proj2 H) Hty) in E.
  destruct (TokenType_eqb (type t) ty) eqn:Et.
  - apply TokenType_eqb_eq in Et.
    split; [reflexivity|]. split; [exact Et|]. split; [|exact E].
    apply (ready_next _ _ _ H). congruence.
  - discriminate E.
Qed.

Lemma token_consume_inv ty error_message (k : Token -> M bool) p l q :
  ready p l -> ty <> TOKEN_EOF ->
  (tok <- current_token ;; require (consume ty error_message) (k tok)) p
  = Ret true q ->
  exists t rest,
    l = t :: rest /\ type t = ty /\ ready (next p) rest
    /\ k t (next p) = Ret true q.
Proof.
  intros H Hty E. destruct (ready_cons _ _ H) as (t & rest & ->).
  rewrite (bind_eq _ _ _ _ _ (current_token_eq _ _ _ (proj1 H))) in E.
  destruct (require_consume_inv _ _ _ _ _ _ H Hty E)
    as (t' & rest' & Heq & Ht & H' & E').
  inversion Heq. subst t' rest'. exists t, rest. auto.
Qed.

Tactic Notation "consume_in" hyp(E) hyp(H) "as"
       ident(t) ident(l) ident(Ht) ident(H') :=
  eapply require_consume_inv in E; [|exact H|discriminate];
  destruct E as (t & l & -> & Ht & H' & E).

Tactic Notation "take_in" hyp(E) hyp(H) "as"
       ident(t) ident(l) ident(Ht) ident(H') :=
  eapply token_consume_inv in E; [|exact H|discriminate];
  destruct E as (t & l & -> & Ht & H' & E).

Ltac sprintf_in E :=
  let s := fresh "s" in
  let q := fresh "q" in
  let Es := fresh "Es" in
  apply bind_inv in E; destruct E as (s & q & Es & E);
  apply sprintf_into_inv in Es; destruct Es as [-> ->].

Ltac append_in E := rewrite (bind_eq _ _ _ _ _ (append_output_eq _ _)) in E.

Ltac braces_norm :=
  repeat first
    [ rewrite braces_app | rewrite braces_cons | rewrite braces_nil
    | rewrite lexeme_braces_app | rewrite lexeme_braces_cons
    | rewrite lexeme_braces_nil ];
  repeat match goal with
         | |- context [braces (str ?s)] =>
             let v := eval vm_compute in (braces (str s)) in
             change (braces (str s)) with v
         | |- context [brace_char ?c] =>
             let v := eval vm_compute in (brace_char c) in
             progress change (brace_char c) with v
         end.

Lemma translated_variable_declaration p t l p' :
  ready p (t :: l) -> type t = TOKEN_NUMBER -> source_ok (t :: l) ->
  parse_variable_declaration p = Ret true p' ->
  translated p p' (t :: l).
Proof.
  intros H Ht Hok E. unfold parse_variable_declaration in E.
  assert (Hne : type t <> TOKEN_EOF) by (rewrite Ht; discriminate).
  rewrite (bind_eq _ _ _ _ _ (ready_advance _ _ _ H Hne)) in E.
  pose proof (ready_next _ _ _ H Hne) as H1.
  consume_in E H1 as eq l1 Heq H2.
  take_in E H2 as name l2 Hname H3.
  take_in E H3 as ty l3 Hty H4.
  consume_in E H4 as semi l4 Hsemi H5.
  sprintf_in E. append_in E. inversion E. subst p'. clear E.
  eapply (translated_intro _ _ _ [t; eq; name; ty; semi] l4);
    [reflexivity|exact H5|reflexivity|].
  destruct (source_ok_cons _ _ Hok) as [_ Hok1].
  destruct (source_ok_cons _ _ Hok1) as [Leq Hok2].
  destruct (source_ok_cons _ _ Hok2) as [_ Hok3].
  destruct (source_ok_cons _ _ Hok3) as [_ Hok4].
  destruct (source_ok_cons _ _ Hok4) as [Lsemi _].
  braces_norm.
  rewrite (braces_of_kind eq _ _ Leq Heq eq_refl).
  rewrite (braces_of_kind semi _ _ Lsemi Hsemi eq_refl). lia.
Qed.

Lemma args_run_no_eof paren_level l :
  Forall (fun t => type t <> TOKEN_EOF) (args_run paren_level l).
Proof.
  revert paren_level. induction l as [|t l IH]; intro paren_level;
    cbn [args_run]; [constructor|].
  destruct (TokenType_eqb (type t) TOKEN_EOF) eqn:E; [constructor|].
  destruct (0 <? level_after paren_level t); [|constructor].
  constructor; [apply TokenType_eqb_neq; exact E|apply IH].
Qed.

Lemma translated_call p l p' :
  ready p l -> source_ok l ->
  parse_reversed_function_call p = Ret true p' ->
  translated p p' l.
Proof.
  intros H Hok E. unfold parse_reversed_function_call in E.
  consume_in E H as lp l1 Hlp H1.
  rewrite (bind_eq _ _ _ _ _ (eq_refl : get_pos (next p) = Ret _ _)) in E.
  unfold bind at 1 in E.
  rewrite (scan_args_loop_run _ 1 (next p) l1 H1) in E;
    [|lia|destruct H1 as [(pre & Ht & _) _]; rewrite Ht, length_app; lia].
  assert (Hfit : arguments_fit l1 = true).
  { destruct Hok as [_ Hb]. apply buffers_fit_here in Hb.
    cbn [fits_at] in Hb. rewrite Hlp in Hb.
    apply andb_true_iff in Hb as [_ Hb]. exact Hb. }
  unfold arguments_fit in Hfit.
  destruct (args_run_split 1 l1) as (l2 & Hl2).
  pose proof (args_run_no_eof 1 l1) as Hne.
  set (run := args_run 1 l1) in *. clearbody run. subst l1.
  rewrite skipn_app, skipn_all, Nat.sub_diag in Hfit. cbn [app skipn] in Hfit.
  pose proof (ready_advance_by _ _ _ H1 Hne) as H2.
  set (q := advance_by (next p) (length run)) in *.
  rewrite (bind_eq _ _ _ _ _ (eq_refl : get_pos q = Ret _ _)) in E.
  assert (Hg : gather_args_loop
                 (Z.to_nat (current_token_pos q - current_token_pos (next p)))
                 (current_token_pos (next p)) (current_token_pos q) [] q
               = Ret (firstn 1023 (join_args run)) q).
  { destruct H1 as [(pre & Ht & Hp) _].
    replace (Z.to_nat (current_token_pos q - current_token_pos (next p)))
      with (length run) by (subst q; cbn; lia).
    rewrite Hp.
    rewrite (gather_args_loop_eq q pre run l2 []);
      [|exact Ht|subst q; cbn [advance_by current_token_pos]; lia].
    f_equal. pose proof (gather_firstn run []) as Hg.
    rewrite firstn_nil in Hg. rewrite Hg. reflexivity. }
  rewrite (bind_eq _ _ _ _ _ Hg) in E.
  consume_in E H2 as rp l3 Hrp H3.
  take_in E H3 as name l4 Hname H4.
  consume_in E H4 as semi l5 Hsemi H5.
  rewrite Hrp, Hname, Hsemi in Hfit. cbn [TokenType_eqb andb negb orb] in Hfit.
  apply Nat.leb_le in Hfit.
  rewrite (firstn_all2 (n := 1023) (join_args run)) in E by exact Hfit.
  sprintf_in E. append_in E. inversion E. subst p'. clear E.
  eapply (translated_intro _ _ _ (lp :: run ++ [rp; name; semi]) l5);
    [cbn [app]; rewrite <- app_assoc; reflexivity|exact H5|reflexivity|].
  destruct (source_ok_cons _ _ Hok) as [Llp Hok1].
  pose proof (source_ok_app _ _ Hok1) as Hok2.
  destruct (source_ok_cons _ _ Hok2) as [Lrp Hok3].
  destruct (source_ok_cons _ _ Hok3) as [_ Hok4].
  destruct (source_ok_cons _ _ Hok4) as [Lsemi _].
  braces_norm. rewrite braces_join_args.
  rewrite (braces_of_kind lp _ _ Llp Hlp eq_refl).
  rewrite (braces_of_kind rp _ _ Lrp Hrp eq_refl).
  rewrite (braces_of_kind semi _ _ Lsemi Hsemi eq_refl). lia.
Qed.

Lemma translated_passthrough p l p' :
  ready p l -> source_ok l ->
  parse_passthrough p = Ret true p' ->
  translated p p' l.
Proof.
  intros H Hok E. unfold parse_passthrough in E.
  destruct (ready_cons _ _ H) as (t & rest & ->).
  rewrite (bind_eq _ _ _ _ _ (match_eq _ _ _ TOKEN_KEYWORD (proj1 H))) in E.
  rewrite (bind_eq _ _ _ _ _ (match_eq _ _ _ TOKEN_IDENTIFIER (proj1 H)))
    in E.
  destruct (TokenType_eqb (type t) TOKEN_KEYWORD
            || TokenType_eqb (type t) TOKEN_IDENTIFIER) eqn:Ety.
  2:{ rewrite (bind_eq _ _ _ _ _ (current_token_eq _ _ _ (proj1 H))) in E.
      rewrite (bind_eq _ _ _ _ _ (printf_eq _ _)) in E. discriminate E. }
  rewrite (bind_eq _ _ _ _ _
             (slurp_tokens_until_eq TOKEN_SEMICOLON 1024 p _ H ltac:(lia)))
    in E.
  assert (Hfit : line_fits (t :: rest) = true).
  { destruct Hok as [_ Hb]. apply buffers_fit_here in Hb.
    unfold fits_at in Hb.
    apply orb_true_iff in Ety as [Ety|Ety]; apply TokenType_eqb_eq in Ety;
      rewrite Ety in Hb; exact Hb. }
  unfold line_fits in Hfit.
  destruct (run_until_split TOKEN_SEMICOLON (t :: rest)) as (l2 & Hl2 & Hne).
  set (run := run_until TOKEN_SEMICOLON (t :: rest)) in *. clearbody run.
  rewrite Hl2 in H, Hok, Hfit.
  rewrite skipn_app, skipn_all, Nat.sub_diag in Hfit. cbn [app skipn] in Hfit.
  pose proof (ready_advance_by _ _ _ H Hne) as H2.
  change (1024 - 1)%nat with 1023%nat in E.
  fold (require (consume TOKEN_SEMICOLON (str "Expected ';' after statement"))
          (append_output (str "    ") ;;;
           append_output (firstn 1023 (slurp_text [] run)) ;;;
           append_output (str ";" ++ [nl]) ;;; ret true)) in E.
  consume_in E H2 as semi l3 Hsemi H3.
  rewrite Hsemi in Hfit. cbn [TokenType_eqb negb orb] in Hfit.
  apply Nat.leb_le in Hfit.
  rewrite (firstn_all2 (n := 1023) (slurp_text [] run)) in E by exact Hfit.
  do 3 append_in E. inversion E. subst p'. clear E.
  rewrite Hl2.
  eapply (translated_intro _ _ _ (run ++ [semi]) l3);
    [rewrite <- app_assoc; reflexivity|exact H3| |].
  - cbn [emit output advance_by next]. rewrite <- !app_assoc. reflexivity.
  - pose proof (source_ok_app _ _ Hok) as Hok2.
    destruct (source_ok_cons _ _ Hok2) as [Lsemi _].
    braces_norm. rewrite braces_slurp_text.
    rewrite (braces_of_kind semi _ _ Lsemi Hsemi eq_refl).
    change (braces []) with 0. lia.
Qed.

Lemma control_head_inv m1 m2 m3 opening k p l p' :
  ready p l -> source_ok l -> braces opening = 0 ->
  control_head m1 m2 m3 opening k p = Ret true p' ->
  exists used l' d q,
    l = used ++ l' /\ ready q l' /\ output q = output p ++ d
    /\ braces d = lexeme_braces used + 1
    /\ k q = Ret true p'.
Proof.
  intros H Hok Hop E. unfold control_head in E.
  consume_in E H as lp l1 Hlp H1.
  rewrite (bind_eq _ _ _ _ _
             (slurp_tokens_until_eq TOKEN_RPAREN 256 _ _ H1 ltac:(lia)))
    in E.
  assert (Hfit : condition_fits l1 = true).
  { destruct Hok as [_ Hb]. apply buffers_fit_here in Hb.
    cbn [fits_at] in Hb. rewrite Hlp in Hb.
    apply andb_true_iff in Hb as [Hb _]. exact Hb. }
  unfold condition_fits in Hfit.
  destruct (run_until_split TOKEN_RPAREN l1) as (l2 & Hl2 & Hne).
  set (run := run_until TOKEN_RPAREN l1) in *. clearbody run. subst l1.
  rewrite skipn_app, skipn_all, Nat.sub_diag in Hfit. cbn [app skipn] in Hfit.
  pose proof (ready_advance_by _ _ _ H1 Hne) as H2.
  change (256 - 1)%nat with 255%nat in E.
  consume_in E H2 as rp l3 Hrp H3.
  consume_in E H3 as kw l4 Hkw H4.
  rewrite Hrp, Hkw in Hfit. cbn [TokenType_eqb andb negb orb] in Hfit.
  apply Nat.leb_le in Hfit.
  rewrite (firstn_all2 (n := 255) (slurp_text [] run)) in E by exact Hfit.
  sprintf_in E. append_in E.
  exists (lp :: run ++ [rp; kw]), l4, (opening ++ slurp_text [] run
                                        ++ str ") {" ++ [nl]).
  match type of E with k ?q = _ => exists q end.
  split; [cbn [app]; rewrite <- app_assoc; reflexivity|].
  split; [exact H4|]. split; [reflexivity|]. split; [|exact E].
  destruct (source_ok_cons _ _ Hok) as [Llp Hok1].
  pose proof (source_ok_app _ _ Hok1) as Hok2.
  destruct (source_ok_cons _ _ Hok2) as [Lrp Hok3].
  destruct (source_ok_cons _ _ Hok3) as [Lkw _].
  braces_norm. rewrite braces_slurp_text, Hop.
  rewrite (braces_of_kind lp _ _ Llp Hlp eq_refl).
  rewrite (braces_of_kind rp _ _ Lrp Hrp eq_refl).
  rewrite (braces_of_kind kw _ _ Lkw Hkw eq_refl).
  change (braces []) with 0. lia.
Qed.

Lemma balanced_body_loop stmt n : balanced stmt -> balanced (body_loop stmt n).
Proof.
  intro Hstmt. induction n as [|n IH]; intros p l p' H Hok E;
    [discriminate E|].
  cbn [body_loop] in E.
  destruct (ready_cons _ _ H) as (t & rest & ->).
  rewrite (bind_eq _ _ _ _ _ (match_eq _ _ _ TOKEN_RBRACE (proj1 H))) in E.
  rewrite (bind_eq _ _ _ _ _ (match_eq _ _ _ TOKEN_EOF (proj1 H))) in E.
  destruct (negb (TokenType_eqb (type t) TOKEN_RBRACE)
            && negb (TokenType_eqb (type t) TOKEN_EOF)).
  - apply require_inv in E as (q & Es & E).
    destruct (Hstmt _ _ _ H Hok Es) as (used & l1 & d & Hl & H1 & Ho & Hd).
    rewrite Hl in Hok.
    destruct (IH _ _ _ H1 (source_ok_app _ _ Hok) E)
      as (used' & l2 & d' & -> & H2 & Ho' & Hd').
    exists (used ++ used'), l2, (d ++ d').
    split; [rewrite Hl, app_assoc; reflexivity|]. split; [exact H2|].
    split; [rewrite Ho', Ho, app_assoc; reflexivity|].
    braces_norm. lia.
  - inversion E. subst p'.
    exists [], (t :: rest), []. repeat split; try apply H.
    rewrite app_nil_r. reflexivity.
Qed.

Lemma block_inv stmt fuel m1 m2 closing k p l p' :
  balanced stmt ->
  ready p l -> source_ok l -> braces closing = -1 ->
  block stmt fuel m1 m2 closing k p = Ret true p' ->
  exists used l' d q,
    l = used ++ l' /\ ready q l' /\ output q = output p ++ d
    /\ braces d + 1 = lexeme_braces used
    /\ k q = Ret true p'.
Proof.
  intros Hstmt H Hok Hcl E. unfold block in E.
  consume_in E H as lb l1 Hlb H1.
  apply require_inv in E as (q1 & Eb & E).
  destruct (source_ok_cons _ _ Hok) as [Llb Hok1].
  destruct (balanced_body_loop stmt fuel Hstmt _ _ _ H1 Hok1 Eb)
    as (used & l2 & d & -> & H2 & Ho & Hd).
  consume_in E H2 as rb l3 Hrb H3.
  append_in E.
  exists (lb :: used ++ [rb]), l3, (d ++ closing).
  match type of E with k ?q = _ => exists q end.
  split; [cbn [app]; rewrite <- app_assoc; reflexivity|].
  split; [exact H3|]. split; [|split; [|exact E]].
  - cbn [emit output next]. rewrite Ho, <- app_assoc. reflexivity.
  - pose proof (source_ok_app _ _ Hok1) as Hok2.
    destruct (source_ok_cons _ _ Hok2) as [Lrb _].
    braces_norm. rewrite Hcl, Hd.
    rewrite (braces_of_kind lb _ _ Llb Hlb eq_refl).
    rewrite (braces_of_kind rb _ _ Lrb Hrb eq_refl). lia.
Qed.

Lemma translated_of_parts p p' l used l' d q used' l'' d' :
  l = used ++ l' -> output q = output p ++ d ->
  l' = used' ++ l'' -> ready p' l'' -> output p' = output q ++ d' ->
  braces d + braces d' = lexeme_braces used + lexeme_braces used' ->
  translated p p' l.
Proof.
  intros -> Ho -> H' Ho' Hb. exists (used ++ used'), l'', (d ++ d').
  split; [rewrite app_assoc; reflexivity|]. split; [exact H'|].
  split; [rewrite Ho', Ho, app_assoc; reflexivity|].
  braces_norm. exact Hb.
Qed.

Lemma balanced_parse_for_loop stmt fuel :
  balanced stmt -> balanced (parse_for_loop stmt fuel).
Proof.
  intros Hstmt p l p' H Hok E.
  change (parse_for_loop stmt fuel)
    with (control_head (str "Expected '(' before for loop condition")
            (str "Expected ')' after for loop condition")
            (str "Expected 'for' keyword after condition")
            (str "    for (")
            (block stmt fuel (str "Expected '{' before for loop body")
               (str "Expected '}' after for loop body")
               (str "    }" ++ [nl]) (ret true))) in E.
  destruct (control_head_inv _ _ _ (str "    for (") _ _ _ _ H Hok
              eq_refl E)
    as (used & l1 & d & q & Hl & H1 & Ho & Hd & E1).
  rewrite Hl in Hok.
  destruct (block_inv _ _ _ _ (str "    }" ++ [nl]) _ _ _ _ Hstmt H1
              (source_ok_app _ _ Hok) eq_refl E1)
    as (used' & l2 & d' & q' & Hl' & H2 & Ho' & Hd' & E2).
  inversion E2. subst p'.
  apply (translated_of_parts _ _ _ _ _ _ _ _ _ _ Hl Ho Hl' H2 Ho'). lia.
Qed.

Lemma balanced_parse_while_loop stmt fuel :
  balanced stmt -> balanced (parse_while_loop stmt fuel).
Proof.
  intros Hstmt p l p' H Hok E.
  change (parse_while_loop stmt fuel)
    with (control_head (str "Expected '(' before while loop condition")
            (str "Expected ')' after while loop condition")
            (str "Expected 'while' keyword after condition")
            (str "    while (")
            (block stmt fuel (str "Expected '{' before while loop body")
               (str "Expected '}' after while loop body")
               (str "    }" ++ [nl]) (ret true))) in E.
  destruct (control_head_inv _ _ _ (str "    while (") _ _ _ _ H Hok
              eq_refl E)
    as (used & l1 & d & q & Hl & H1 & Ho & Hd & E1).
  rewrite Hl in Hok.
  destruct (block_inv _ _ _ _ (str "    }" ++ [nl]) _ _ _ _ Hstmt H1
              (source_ok_app _ _ Hok) eq_refl E1)
    as (used' & l2 & d' & q' & Hl' & H2 & Ho' & Hd' & E2).
  inversion E2. subst p'.
  apply (translated_of_parts _ _ _ _ _ _ _ _ _ _ Hl Ho Hl' H2 Ho'). lia.
Qed.

Lemma balanced_parse_if_statement stmt fuel :
  balanced stmt -> balanced (parse_if_statement stmt fuel).
Proof.
  intros Hstmt p l p' H Hok E.
  change (parse_if_statement stmt fuel)
    with (control_head (str "Expected '(' before if condition")
            (str "Expected ')' after if condition")
            (str "Expected 'if' keyword after condition")
            (str "    if (")
            (block stmt fuel (str "Expected '{' before if body")
               (str "Expected '}' after if body")
               (str "    }" ++ [nl])
               (at_keyword <- match_ TOKEN_KEYWORD ;;
                t <- current_token ;;
                if at_keyword && cstring_eqb (lexeme t) (str "else") then
                  advance ;;;
                  append_output (str "    else {" ++ [nl]) ;;;
                  block stmt fuel (str "Expected '{' before else body")
                    (str "Expected '}' after else body")
                    (str "    }" ++ [nl]) (ret true)
                else ret true))) in E.
  destruct (control_head_inv _ _ _ (str "    if (") _ _ _ _ H Hok
              eq_refl E)
    as (used & l1 & d & q & Hl & H1 & Ho & Hd & E1).
  rewrite Hl in Hok. pose proof (source_ok_app _ _ Hok) as Hok1.
  destruct (block_inv _ _ _ _ (str "    }" ++ [nl]) _ _ _ _ Hstmt H1
              Hok1 eq_refl E1)
    as (used' & l2 & d' & q' & Hl' & H2 & Ho' & Hd' & E2).
  destruct (ready_cons _ _ H2) as (t & l3 & ->).
  rewrite (bind_eq _ _ _ _ _ (match_eq _ _ _ TOKEN_KEYWORD (proj1 H2))) in E2.
  rewrite (bind_eq _ _ _ _ _ (current_token_eq _ _ _ (proj1 H2))) in E2.
  destruct (TokenType_eqb (type t) TOKEN_KEYWORD) eqn:Ekw; cbn [andb] in E2.
  2:{ inversion E2. subst p'.
      apply (translated_of_parts _ _ _ _ _ _ _ _ _ _ Hl Ho Hl' H2 Ho').
      lia. }
  destruct (cstring_eqb (lexeme t) (str "else")).
  2:{ inversion E2. subst p'.
      apply (translated_of_parts _ _ _ _ _ _ _ _ _ _ Hl Ho Hl' H2 Ho').
      lia. }
  apply TokenType_eqb_eq in Ekw.
  assert (Hne : type t <> TOKEN_EOF) by (rewrite Ekw; discriminate).
  rewrite (bind_eq _ _ _ _ _ (ready_advance _ _ _ H2 Hne)) in E2.
  append_in E2.
  rewrite Hl' in Hok1. pose proof (source_ok_app _ _ Hok1) as Hok2.
  destruct (source_ok_cons _ _ Hok2) as [Lt Hok3].
  destruct (block_inv _ _ _ _ (str "    }" ++ [nl]) _ _ _ _ Hstmt
              (ready_next _ _ _ H2 Hne : ready (emit (next q') _) l3)
              Hok3 eq_refl E2)
    as (used3 & l4 & d3 & q3 & Hl3 & H3 & Ho3 & Hd3 & E3).
  inversion E3. subst p'.
  exists (used ++ used' ++ t :: used3), l4,
         (d ++ d' ++ (str "    else {" ++ [nl]) ++ d3).
  split; [rewrite Hl, Hl', Hl3, <- !app_assoc; reflexivity|].
  split; [exact H3|]. split.
  - rewrite Ho3. cbn [emit output next]. rewrite Ho', Ho, <- !app_assoc.
    reflexivity.
  - braces_norm. rewrite (braces_of_kind t _ _ Lt Ekw eq_refl). lia.
Qed.

(** ** Statements *)

Lemma stateless_read i : stateless (read i).
Proof.
  intros p a q H. unfold read in H. destruct (token_at _ _); inversion H.
  reflexivity.
Qed.

Lemma stateless_peek_at offset : stateless (peek_at offset).
Proof.
  intros p a q H. unfold peek_at in H.
  destruct (_ >=? _); [destruct (_ <=? _); [|discriminate H]|];
    apply (stateless_read _ _ _ _ H).
Qed.

Lemma stateless_match ty : stateless (match_ ty).
Proof.
  intros p a q H. unfold match_ in H.
  apply bind_inv in H as (t & p1 & Hc & H).
  apply stateless_read in Hc. inversion H. congruence.
Qed.

Lemma stateless_offset_loop n paren_level offset :
  stateless (offset_loop n paren_level offset).
Proof.
  revert paren_level offset.
  induction n as [|n IH]; intros paren_level offset p a q H;
    [discriminate H|].
  cbn [offset_loop] in H. destruct (_ && _).
  - apply bind_inv in H as (t & p1 & Hp & H).
    apply stateless_peek_at in Hp. subst p1. apply (IH _ _ _ _ _ H).
  - inversion H. reflexivity.
Qed.

Lemma stateless_get_offset_after_paren : stateless get_offset_after_paren.
Proof.
  intros p a q H. unfold get_offset_after_paren in H.
  apply bind_inv in H as (b & p1 & Hm & H).
  apply stateless_match in Hm. subst p1. destruct (negb b).
  - inversion H. reflexivity.
  - apply (stateless_offset_loop _ _ _ _ _ _ H).
Qed.

Lemma balanced_parse_statement fuel : balanced (parse_statement fuel).
Proof.
  induction fuel as [|fuel IH]; intros p l p' H Hok E; [discriminate E|].
  cbn [parse_statement] in E. unfold parse_statement_body in E.
  destruct (ready_cons _ _ H) as (t & rest & ->).
  rewrite (bind_eq _ _ _ _ _ (match_eq _ _ _ TOKEN_NUMBER (proj1 H))) in E.
  destruct (TokenType_eqb (type t) TOKEN_NUMBER) eqn:Enum.
  { apply TokenType_eqb_eq in Enum.
    apply (translated_variable_declaration _ _ _ _ H Enum Hok E). }
  rewrite (bind_eq _ _ _ _ _ (match_eq _ _ _ TOKEN_LPAREN (proj1 H))) in E.
  destruct (TokenType_eqb (type t) TOKEN_LPAREN);
    [|apply (translated_passthrough _ _ _ H Hok E)].
  apply bind_inv in E as (offset & p1 & Eo & E).
  apply stateless_get_offset_after_paren in Eo. subst p1.
  apply bind_inv in E as (after & p1 & Ep & E).
  apply stateless_peek_at in Ep. subst p1.
  assert (Hcall :
    (if TokenType_eqb (type after) TOKEN_IDENTIFIER
     then t0 <- peek_at (offset + 1) ;;
          if TokenType_eqb (type t0) TOKEN_SEMICOLON
          then parse_reversed_function_call else parse_passthrough
     else parse_passthrough) p = Ret true p' ->
    translated p p' (t :: rest)).
  { clear E. intro E.
    destruct (TokenType_eqb (type after) TOKEN_IDENTIFIER);
      [|apply (translated_passthrough _ _ _ H Hok E)].
    apply bind_inv in E as (t0 & p1 & Ep & E).
    apply stateless_peek_at in Ep. subst p1.
    destruct (TokenType_eqb (type t0) TOKEN_SEMICOLON);
      [apply (translated_call _ _ _ H Hok E)
      |apply (translated_passthrough _ _ _ H Hok E)]. }
  destruct (TokenType_eqb (type after) TOKEN_KEYWORD); [|exact (Hcall E)].
  destruct (cstring_eqb (lexeme after) (str "for"));
    [apply (balanced_parse_for_loop _ _ IH _ _ _ H Hok E)|].
  destruct (cstring_eqb (lexeme after) (str "while"));
    [apply (balanced_parse_while_loop _ _ IH _ _ _ H Hok E)|].
  destruct (cstring_eqb (lexeme after) (str "if"));
    [apply (balanced_parse_if_statement _ _ IH _ _ _ H Hok E)|].
  exact (Hcall E).
Qed.

(** ** Function definitions and the top level *)

Lemma args_loop_run n args p l a q :
  ready p l -> source_ok l ->
  args_loop n args p = Ret (Some a) q ->
  exists used l',
    l = used ++ l' /\ ready q l' /\ output q = output p
    /\ braces a = braces args + lexeme_braces used.
Proof.
  revert args p l.
  induction n as [|n IH]; intros args p l H Hok E; [discriminate E|].
  cbn [args_loop] in E.
  destruct (ready_cons _ _ H) as (name & l1 & ->).
  rewrite (bind_eq _ _ _ _ _ (match_eq _ _ _ TOKEN_RPAREN (proj1 H))) in E.
  rewrite (bind_eq _ _ _ _ _ (match_eq _ _ _ TOKEN_EOF (proj1 H))) in E.
  destruct (negb (TokenType_eqb (type name) TOKEN_RPAREN)
            && negb (TokenType_eqb (type name) TOKEN_EOF)).
  2:{ inversion E. subst. exists [], (name :: l1).
      rewrite lexeme_braces_nil. repeat split; try apply H. lia. }
  apply bind_inv in E as (args1 & p1 & E1 & E).
  assert (braces args1 = braces args /\ p1 = p) as [Hb1 ->].
  { destruct (0 <? length args)%nat.
    - apply strcat_into_inv in E1 as [-> ->]. split; [|reflexivity].
      braces_norm. lia.
    - inversion E1. auto. }
  rewrite (bind_eq _ _ _ _ _ (current_token_eq _ _ _ (proj1 H))) in E.
  unfold bind at 1 in E.
  rewrite (consume_eq _ _ _ _ _ (proj1 H) (proj2 H)) in E by discriminate.
  destruct (TokenType_eqb (type name) TOKEN_IDENTIFIER) eqn:Ename;
    [|discriminate E].
  cbn [negb] in E. apply TokenType_eqb_eq in Ename.
  assert (H1 : ready (next p) l1)
    by (apply (ready_next _ _ _ H); rewrite Ename; discriminate).
  destruct (ready_cons _ _ H1) as (ty & l2 & ->).
  rewrite (bind_eq _ _ _ _ _ (current_token_eq _ _ _ (proj1 H1))) in E.
  unfold bind at 1 in E.
  rewrite (consume_eq _ _ _ _ _ (proj1 H1) (proj2 H1)) in E by discriminate.
  destruct (TokenType_eqb (type ty) TOKEN_KEYWORD) eqn:Ety;
    [|discriminate E].
  cbn [negb] in E. apply TokenType_eqb_eq in Ety.
  assert (H2 : ready (next (next p)) l2)
    by (apply (ready_next _ _ _ H1); rewrite Ety; discriminate).
  apply bind_inv in E as (a1 & q1 & Es1 & E).
  apply strcat_into_inv in Es1 as [-> ->].
  apply bind_inv in E as (a2 & q2 & Es2 & E).
  apply strcat_into_inv in Es2 as [-> ->].
  apply bind_inv in E as (a3 & q3 & Es3 & E).
  apply strcat_into_inv in Es3 as [-> ->].
  destruct (ready_cons _ _ H2) as (c & l3 & ->).
  rewrite (bind_eq _ _ _ _ _ (match_eq _ _ _ TOKEN_COMMA (proj1 H2))) in E.
  destruct (source_ok_cons _ _ Hok) as [_ Hok1].
  destruct (source_ok_cons _ _ Hok1) as [_ Hok2].
  destruct (TokenType_eqb (type c) TOKEN_COMMA) eqn:Ec.
  - apply TokenType_eqb_eq in Ec.
    assert (Hne : type c <> TOKEN_EOF) by (rewrite Ec; discriminate).
    rewrite (bind_eq _ _ _ _ _ (ready_advance _ _ _ H2 Hne)) in E.
    destruct (source_ok_cons _ _ Hok2) as [Lc Hok3].
    destruct (IH _ _ _ (ready_next _ _ _ H2 Hne) Hok3 E)
      as (used & l' & -> & H' & Ho & Hb).
    exists (name :: ty :: c :: used), l'. repeat split; try apply H'.
    + exact Ho.
    + rewrite Hb. braces_norm.
      rewrite (braces_of_kind c _ _ Lc Ec eq_refl). lia.
  - rewrite (bind_eq _ _ _ _ _ (match_eq _ _ _ TOKEN_RPAREN (proj1 H2))) in E.
    destruct (negb (TokenType_eqb (type c) TOKEN_RPAREN)).
    + rewrite (bind_eq _ _ _ _ _ (printf_eq _ _)) in E. discriminate E.
    + destruct (IH _ _ _ H2 Hok2 E) as (used & l' & Hl & H' & Ho & Hb).
      exists (name :: ty :: used), l'. cbn [app]. rewrite Hl.
      repeat split; try apply H'.
      * exact Ho.
      * rewrite Hb. braces_norm. lia.
Qed.

Lemma balanced_parse_function_declaration fuel :
  balanced (parse_function_declaration fuel).
Proof.
  intros p l p' H Hok E. unfold parse_function_declaration in E.
  consume_in E H as lp l1 Hlp H1.
  destruct (source_ok_cons _ _ Hok) as [Llp Hok1].
  apply bind_inv in E as (r & q & Ea & E).
  destruct r as [args|]; [|discriminate E].
  assert (Ea' : args_loop (S (length (tokens (next p)))) [] (next p)
                = Ret (Some args) q) by exact Ea.
  destruct (args_loop_run _ _ _ _ _ _ H1 Hok1 Ea')
    as (used & l2 & -> & H2 & Ho & Hb).
  pose proof (source_ok_app _ _ Hok1) as Hok2.
  consume_in E H2 as rp l3 Hrp H3.
  take_in E H3 as name l4 Hname H4.
  take_in E H4 as rtype l5 Hrtype H5.
  sprintf_in E. append_in E.
  destruct (source_ok_cons _ _ Hok2) as [Lrp Hok3].
  destruct (source_ok_cons _ _ Hok3) as [_ Hok4].
  destruct (source_ok_cons _ _ Hok4) as [_ Hok5].
  destruct (block_inv (parse_statement fuel) fuel _ _ (str "}" ++ [nl; nl])
              (ret true) _ _ _ (balanced_parse_statement fuel)
              (H5 : ready (emit (next (next (next q))) _) l5) Hok5
              eq_refl E)
    as (used' & l6 & d' & q' & -> & H6 & Ho' & Hd' & E').
  inversion E'. subst p'.
  exists (lp :: used ++ rp :: name :: rtype :: used'), l6.
  eexists. split; [cbn [app]; rewrite <- !app_assoc; reflexivity|].
  split; [exact H6|]. split.
  - rewrite Ho'. cbn [emit output next]. rewrite Ho, <- app_assoc.
    reflexivity.
  - braces_norm. change (braces []) with 0 in Hb.
    rewrite (braces_of_kind lp _ _ Llp Hlp eq_refl).
    rewrite (braces_of_kind rp _ _ Lrp Hrp eq_refl). lia.
Qed.

Lemma parse_loop_run fuel n p l out q :
  ready p l -> source_ok l ->
  parse_loop fuel n p = Ret (Some out) q ->
  exists used e l' d,
    l = used ++ e :: l' /\ type e = TOKEN_EOF
    /\ out = output p ++ d
    /\ braces d = lexeme_braces used.
Proof.
  revert p l. induction n as [|n IH]; intros p l H Hok E; [discriminate E|].
  cbn [parse_loop] in E.
  destruct (ready_cons _ _ H) as (t & l1 & ->).
  rewrite (bind_eq _ _ _ _ _ (match_eq _ _ _ TOKEN_EOF (proj1 H))) in E.
  destruct (TokenType_eqb (type t) TOKEN_EOF) eqn:Eeof; cbn [negb] in E.
  { inversion E. subst. apply TokenType_eqb_eq in Eeof.
    exists [], t, l1, []. rewrite app_nil_r. auto. }
  apply TokenType_eqb_neq in Eeof.
  rewrite (bind_eq _ _ _ _ _ (match_eq _ _ _ TOKEN_PREPROCESSOR (proj1 H)))
    in E.
  destruct (source_ok_cons _ _ Hok) as [_ Hok1].
  destruct (TokenType_eqb (type t) TOKEN_PREPROCESSOR).
  - rewrite (bind_eq _ _ _ _ _ (current_token_eq _ _ _ (proj1 H))) in E.
    do 2 append_in E.
    rewrite (bind_eq _ _ _ _ _
               (ready_advance _ _ _
                  (H : ready (emit (emit p (lexeme t)) [nl]) (t :: l1))
                  Eeof)) in E.
    destruct (IH _ _ (ready_next _ _ _
                        (H : ready (emit (emit p (lexeme t)) [nl]) (t :: l1))
                        Eeof) Hok1 E)
      as (used & e & l' & d & -> & He & -> & Hb).
    exists (t :: used), e, l', (lexeme t ++ [nl] ++ d).
    repeat split; try assumption.
    + cbn [emit output next]. rewrite <- !app_assoc. reflexivity.
    + braces_norm. lia.
  - rewrite (bind_eq _ _ _ _ _ (match_eq _ _ _ TOKEN_LPAREN (proj1 H))) in E.
    destruct (TokenType_eqb (type t) TOKEN_LPAREN).
    + apply bind_inv in E as ([] & p1 & Ef & E); [|discriminate E].
      cbn [negb] in E.
      destruct (balanced_parse_function_declaration fuel _ _ _ H Hok Ef)
        as (used & l2 & d & Hl & H2 & Ho & Hb).
      rewrite Hl in Hok.
      destruct (IH _ _ H2 (source_ok_app _ _ Hok) E)
        as (used' & e & l' & d' & -> & He & -> & Hb').
      exists (used ++ used'), e, l', (d ++ d').
      repeat split; try assumption.
      * rewrite Hl, <- app_assoc. reflexivity.
      * rewrite Ho, <- app_assoc. reflexivity.
      * braces_norm. lia.
    + rewrite (bind_eq _ _ _ _ _ (current_token_eq _ _ _ (proj1 H))) in E.
      rewrite (bind_eq _ _ _ _ _ (printf_eq _ _)) in E. discriminate E.
Qed.

(** ** A larger bound changes no result *)

Lemma settled_refl {A} (m : M A) : settled m m.
Proof. intro p. right. reflexivity. Qed.

Lemma settled_bind {A B} (m m' : M A) (k k' : A -> M B) :
  settled m m' -> (forall a, settled (k a) (k' a)) ->
  settled (bind m k) (bind m' k').
Proof.
  intros Hm Hk p. unfold bind.
  destruct (Hm p) as [E|E]; [left; rewrite E; reflexivity|].
  rewrite E. destruct (m p) as [a q| |]; [apply Hk|right|left]; reflexivity.
Qed.

Lemma settled_require (c c' k k' : M bool) :
  settled c c' -> settled k k' -> settled (require c k) (require c' k').
Proof.
  intros Hc Hk. apply settled_bind; [exact Hc|].
  intros []; [exact Hk|apply settled_refl].
Qed.

Lemma settled_if {A} (b : bool) (x x' y y' : M A) :
  settled x x' -> settled y y' ->
  settled (if b then x else y) (if b then x' else y').
Proof. intros Hx Hy. destruct b; assumption. Qed.

Ltac settled_step :=
  first
    [ match goal with
      | H : settled ?m ?m' |- settled ?m ?m' => exact H
      | |- settled ?m ?m' => constr_eq m m'; apply settled_refl
      end
    | apply settled_require
    | apply settled_bind; [|intro]
    | apply settled_if
    | match goal with
      | |- settled (let x := _ in _) _ => cbv zeta
      end ].

Ltac settled_all := repeat settled_step.

Lemma settled_body_loop stmt stmt' n n' :
  settled stmt stmt' -> (n <= n')%nat ->
  settled (body_loop stmt n) (body_loop stmt' n').
Proof.
  intro Hs. revert n'. induction n as [|n IH]; intros n' Hn.
  - intro p. left. reflexivity.
  - destruct n' as [|n']; [lia|]. cbn [body_loop].
    assert (settled (body_loop stmt n) (body_loop stmt' n'))
      by (apply IH; lia).
    settled_all.
Qed.

Lemma settled_parse_for_loop stmt stmt' fuel fuel' :
  settled stmt stmt' -> (fuel <= fuel')%nat ->
  settled (parse_for_loop stmt fuel) (parse_for_loop stmt' fuel').
Proof.
  intros Hs Hf.
  pose proof (settled_body_loop _ _ _ _ Hs Hf).
  unfold parse_for_loop. settled_all.
Qed.

Lemma settled_parse_while_loop stmt stmt' fuel fuel' :
  settled stmt stmt' -> (fuel <= fuel')%nat ->
  settled (parse_while_loop stmt fuel) (parse_while_loop stmt' fuel').
Proof.
  intros Hs Hf.
  pose proof (settled_body_loop _ _ _ _ Hs Hf).
  unfold parse_while_loop. settled_all.
Qed.

Lemma settled_parse_if_statement stmt stmt' fuel fuel' :
  settled stmt stmt' -> (fuel <= fuel')%nat ->
  settled (parse_if_statement stmt fuel) (parse_if_statement stmt' fuel').
Proof.
  intros Hs Hf.
  pose proof (settled_body_loop _ _ _ _ Hs Hf).
  unfold parse_if_statement. settled_all.
Qed.

Lemma settled_parse_statement fuel fuel' :
  (fuel <= fuel')%nat ->
  settled (parse_statement fuel) (parse_statement fuel').
Proof.
  revert fuel'. induction fuel as [|fuel IH]; intros fuel' Hf.
  - intro p. left. reflexivity.
  - destruct fuel' as [|fuel']; [lia|]. cbn [parse_statement].
    assert (Hs : settled (parse_statement fuel) (parse_statement fuel'))
      by (apply IH; lia).
    assert (Hf' : (fuel <= fuel')%nat) by lia.
    pose proof (settled_parse_for_loop _ _ _ _ Hs Hf').
    pose proof (settled_parse_while_loop _ _ _ _ Hs Hf').
    pose proof (settled_parse_if_statement _ _ _ _ Hs Hf').
    unfold parse_statement_body. settled_all.
Qed.

Lemma settled_parse_function_declaration fuel fuel' :
  (fuel <= fuel')%nat ->
  settled (parse_function_declaration fuel)
          (parse_function_declaration fuel').
Proof.
  intro Hf.
  pose proof (settled_body_loop _ _ _ _ (settled_parse_statement _ _ Hf) Hf).
  unfold parse_function_declaration. settled_all.
  destruct a; settled_all.
Qed.

Lemma settled_parse_loop fuel fuel' n n' :
  (fuel <= fuel')%nat -> (n <= n')%nat ->
  settled (parse_loop fuel n) (parse_loop fuel' n').
Proof.
  intro Hf. revert n'. induction n as [|n IH]; intros n' Hn.
  - intro p. left. reflexivity.
  - destruct n' as [|n']; [lia|]. cbn [parse_loop].
    assert (settled (parse_loop fuel n) (parse_loop fuel' n'))
      by (apply IH; lia).
    pose proof (settled_parse_function_declaration _ _ Hf).
    settled_all.
Qed.

(** A result of [parse] is the same with any larger bound. *)
Lemma parse_fuel fuel fuel' tokens :
  (fuel <= fuel')%nat ->
  parse fuel tokens <> OutOfFuel ->
  parse fuel' tokens = parse fuel tokens.
Proof.
  intros Hf Hr. unfold parse in *.
  destruct (settled_parse_loop fuel fuel' fuel fuel' Hf Hf
              (mkParser tokens 0 [] [])) as [E|E]; [contradiction|exact E].
Qed.

(** ** The ways the parser changes its state *)

Lemma keeps_ret R {A} (a : A) : invariant R -> keeps R (ret a).
Proof. intros HR p b p' H. inversion H. apply (inv_refl R HR). Qed.

Lemma keeps_bind R {A B} (m : M A) (k : A -> M B) :
  invariant R -> keeps R m -> (forall a, keeps R (k a)) -> keeps R (bind m k).
Proof.
  intros HR Hm Hk p b p' H. unfold bind in H.
  destruct (m p) as [a q| |] eqn:E; try discriminate.
  apply (inv_trans R HR _ q); [apply (Hm _ _ _ E)|apply (Hk _ _ _ _ H)].
Qed.

Lemma keeps_require R (c k : M bool) :
  invariant R -> keeps R c -> keeps R k -> keeps R (require c k).
Proof.
  intros HR Hc Hk. apply keeps_bind; [exact HR|exact Hc|].
  intros []; [exact Hk|apply keeps_ret; exact HR].
Qed.

Lemma keeps_pure R {A} (m : M A) :
  invariant R ->
  (forall p, m p = Undefined \/ exists a, m p = Ret a p) -> keeps R m.
Proof.
  intros HR H p a p' E. destruct (H p) as [H'|(b & H')]; rewrite H' in E;
    inversion E. apply (inv_refl R HR).
Qed.

Lemma keeps_read R i : invariant R -> keeps R (read i).
Proof.
  intro HR. apply keeps_pure; [exact HR|]. intro p. unfold read.
  destruct (token_at (tokens p) i); eauto.
Qed.

Lemma keeps_current_token R : invariant R -> keeps R current_token.
Proof. intros HR p a p' H. apply (keeps_read R _ HR _ _ _ H). Qed.

Lemma keeps_peek_at R offset : invariant R -> keeps R (peek_at offset).
Proof.
  intros HR p a p' H. unfold peek_at in H.
  destruct (_ >=? _); [destruct (_ <=? _); [|discriminate H]|];
    apply (keeps_read R _ HR _ _ _ H).
Qed.

Lemma keeps_get_pos R : invariant R -> keeps R get_pos.
Proof. intros HR p a p' H. inversion H. apply (inv_refl R HR). Qed.

Lemma keeps_printf R s :
  prints R -> error_prefix s = true -> keeps R (printf s).
Proof. intros HP Hs p a p' H. inversion H. apply (HP p s Hs). Qed.

Lemma keeps_append_output R s : invariant R -> keeps R (append_output s).
Proof. intros HR p a p' H. inversion H. apply (inv_output R HR p s). Qed.

Lemma keeps_strcat_into R size dst src :
  invariant R -> keeps R (strcat_into size dst src).
Proof.
  intro HR. apply keeps_pure; [exact HR|]. intro p. unfold strcat_into.
  destruct (_ <? _)%nat; eauto.
Qed.

Lemma keeps_sprintf_into R size s :
  invariant R -> keeps R (sprintf_into size s).
Proof.
  intro HR. apply keeps_pure; [exact HR|]. intro p. unfold sprintf_into.
  destruct (_ <? _)%nat; eauto.
Qed.

Lemma keeps_advance R : invariant R -> keeps R advance.
Proof.
  intros HR p a p' H. unfold advance, bind in H.
  destruct (current_token_pos p <? count p - 1) eqn:E.
  - cbn [set_pos] in H. unfold read in H.
    destruct (token_at _ _); inversion H.
    apply (inv_step R HR). apply Z.ltb_lt. exact E.
  - cbn [ret] in H. unfold read in H.
    destruct (token_at _ _); inversion H. apply (inv_refl R HR).
Qed.

Lemma keeps_match R ty : invariant R -> keeps R (match_ ty).
Proof.
  intro HR. apply keeps_bind; [exact HR|apply keeps_current_token; exact HR|].
  intro. apply keeps_ret. exact HR.
Qed.

Create HintDb keeps.

#[export] Hint Resolve keeps_ret keeps_read keeps_current_token
  keeps_peek_at keeps_get_pos keeps_append_output
  keeps_strcat_into keeps_sprintf_into keeps_advance keeps_match
  : keeps.

Ltac keeps_step :=
  first
    [ solve [auto with keeps]
    | apply keeps_printf; [solve [auto with keeps]|reflexivity]
    | apply keeps_bind; [solve [auto with keeps]| |intro]
    | apply keeps_require; [solve [auto with keeps]| |]
    | match goal with
      | |- keeps _ (if ?b then _ else _) => destruct b
      | |- keeps _ (match ?r with Some _ => _ | None => _ end) =>
          destruct r
      | |- keeps _ (let x := _ in _) => cbv zeta
      end ].

Ltac keeps_all := repeat keeps_step.

Lemma keeps_consume R ty error_message :
  invariant R -> prints R -> keeps R (consume ty error_message).
Proof. intros HR HP. unfold consume. keeps_all. Qed.

#[export] Hint Resolve keeps_consume : keeps.

Lemma keeps_slurp_loop R n end_type buffer buffer_size :
  invariant R -> keeps R (slurp_loop n end_type buffer buffer_size).
Proof.
  intro HR. revert buffer.
  induction n as [|n IH]; intro buffer; cbn [slurp_loop].
  - intros p a p' H. discriminate H.
  - keeps_all.
Qed.

Lemma keeps_slurp_tokens_until R end_type buffer_size :
  invariant R -> keeps R (slurp_tokens_until end_type buffer_size).
Proof.
  intros HR p a p' H. unfold slurp_tokens_until in H.
  destruct (buffer_size =? 0)%nat; [discriminate H|].
  apply (keeps_slurp_loop R _ _ _ _ HR _ _ _ H).
Qed.

Lemma keeps_offset_loop R n paren_level offset :
  invariant R -> keeps R (offset_loop n paren_level offset).
Proof.
  intro HR. revert paren_level offset.
  induction n as [|n IH]; intros paren_level offset; cbn [offset_loop].
  - intros p a p' H. discriminate H.
  - intros p a p' H. destruct (_ && _).
    + revert p a p' H. keeps_all.
    + inversion H. apply (inv_refl R HR).
Qed.

Lemma keeps_get_offset_after_paren R :
  invariant R -> keeps R get_offset_after_paren.
Proof.
  intro HR. unfold get_offset_after_paren. keeps_all.
  intros q b q' H. apply (keeps_offset_loop R _ _ _ HR _ _ _ H).
Qed.

Lemma keeps_scan_args_loop R n paren_level :
  invariant R -> keeps R (scan_args_loop n paren_level).
Proof.
  intro HR. revert paren_level.
  induction n as [|n IH]; intro paren_level; cbn [scan_args_loop].
  - intros p a p' H. discriminate H.
  - keeps_all.
Qed.

Lemma keeps_gather_args_loop R n i end_token_pos args_buffer :
  invariant R -> keeps R (gather_args_loop n i end_token_pos args_buffer).
Proof.
  intro HR. revert i args_buffer.
  induction n as [|n IH]; intros i args_buffer; cbn [gather_args_loop].
  - apply keeps_ret. exact HR.
  - keeps_all.
Qed.

#[export] Hint Resolve keeps_slurp_tokens_until
  keeps_get_offset_after_paren keeps_gather_args_loop : keeps.

Lemma keeps_parse_reversed_function_call R :
  invariant R -> prints R -> keeps R parse_reversed_function_call.
Proof.
  intros HR HP. unfold parse_reversed_function_call. keeps_all.
  intros q b q' H. apply (keeps_scan_args_loop R _ _ HR _ _ _ H).
Qed.

Lemma keeps_parse_variable_declaration R :
  invariant R -> prints R -> keeps R parse_variable_declaration.
Proof. intros HR HP. unfold parse_variable_declaration. keeps_all. Qed.

#[export] Hint Resolve keeps_parse_reversed_function_call
  keeps_parse_variable_declaration : keeps.

Lemma keeps_body_loop R stmt n :
  invariant R -> keeps R stmt -> keeps R (body_loop stmt n).
Proof.
  intros HR Hs. induction n as [|n IH]; cbn [body_loop].
  - intros p a p' H. discriminate H.
  - keeps_all.
Qed.

#[export] Hint Resolve keeps_body_loop : keeps.

Lemma keeps_parse_for_loop R stmt fuel :
  invariant R -> prints R -> keeps R stmt -> keeps R (parse_for_loop stmt fuel).
Proof. intros. unfold parse_for_loop. keeps_all. Qed.

Lemma keeps_parse_while_loop R stmt fuel :
  invariant R -> prints R -> keeps R stmt -> keeps R (parse_while_loop stmt fuel).
Proof. intros. unfold parse_while_loop. keeps_all. Qed.

Lemma keeps_parse_if_statement R stmt fuel :
  invariant R -> prints R -> keeps R stmt -> keeps R (parse_if_statement stmt fuel).
Proof. intros. unfold parse_if_statement. keeps_all. Qed.

#[export] Hint Resolve keeps_parse_for_loop keeps_parse_while_loop
  keeps_parse_if_statement : keeps.

Lemma keeps_parse_passthrough R : invariant R -> prints R -> keeps R parse_passthrough.
Proof. intros HR HP. unfold parse_passthrough. keeps_all. Qed.

#[export] Hint Resolve keeps_parse_passthrough : keeps.

Lemma keeps_parse_statement R fuel :
  invariant R -> prints R -> keeps R (parse_statement fuel).
Proof.
  intros HR HP. induction fuel as [|fuel IH]; cbn [parse_statement].
  - intros p a p' H. discriminate H.
  - unfold parse_statement_body. keeps_all.
Qed.

#[export] Hint Resolve keeps_parse_statement : keeps.

Lemma keeps_args_loop R n args : invariant R -> prints R -> keeps R (args_loop n args).
Proof.
  intros HR HP. revert args.
  induction n as [|n IH]; intro args; cbn [args_loop].
  - intros p a p' H. discriminate H.
  - keeps_all.
Qed.

Lemma keeps_parse_function_declaration R fuel :
  invariant R -> prints R -> keeps R (parse_function_declaration fuel).
Proof.
  intros HR HP. unfold parse_function_declaration. keeps_all.
  intros q b q' H. apply (keeps_args_loop R _ _ HR HP _ _ _ H).
Qed.

#[export] Hint Resolve keeps_parse_function_declaration : keeps.

Lemma keeps_parse_loop R fuel n : invariant R -> prints R -> keeps R (parse_loop fuel n).
Proof.
  intros HR HP. induction n as [|n IH]; cbn [parse_loop].
  - intros p a p' H. discriminate H.
  - keeps_all.
    intros q b q' H. inversion H. apply (inv_refl R HR).
Qed.

Lemma invariant_in_bounds : invariant in_bounds.
Proof.
  constructor; unfold in_bounds, count.
  - intro p. tauto.
  - intros p q r [Ht Hb] [Ht' Hb']. split; [congruence|]. tauto.
  - intros p H. cbn [next tokens current_token_pos]. split; [reflexivity|lia].
  - intros p s. cbn. tauto.
Qed.

Lemma prints_in_bounds : prints in_bounds.
Proof. intros p s _. unfold in_bounds, count. cbn. tauto. Qed.

(** ** Success is silent, failure is reported *)

Lemma invariant_unprinted : invariant unprinted.
Proof.
  constructor; unfold unprinted.
  - reflexivity.
  - intros p q r H1 H2. congruence.
  - reflexivity.
  - reflexivity.
Qed.

#[export] Hint Resolve invariant_unprinted : keeps.

Lemma error_prefix_split s :
  error_prefix s = true -> exists msg, s = str "Parser Error: " ++ msg.
Proof.
  unfold error_prefix. intro H. apply cstring_eqb_eq in H.
  exists (skipn 14 s). rewrite <- H. symmetry. apply firstn_skipn.
Qed.

Lemma reported_after p q r : unprinted p q -> reported q r -> reported p r.
Proof. unfold unprinted. intros H (msg & E). exists msg. congruence. Qed.

Lemma quiet_ret_true : quiet (ret true).
Proof. intros p b p' H. inversion H. reflexivity. Qed.

Lemma quiet_fail s : error_prefix s = true -> quiet (printf s ;;; ret false).
Proof.
  intros Hs p b p' H. rewrite (bind_eq _ _ _ _ _ (printf_eq _ _)) in H.
  inversion H. destruct (error_prefix_split _ Hs) as (msg & ->).
  exists msg. reflexivity.
Qed.

Lemma quiet_bind {A} (m : M A) (k : A -> M bool) :
  keeps unprinted m -> (forall a, quiet (k a)) -> quiet (bind m k).
Proof.
  intros Hm Hk p b p' H. apply bind_inv in H as (a & q & E & H).
  pose proof (Hm _ _ _ E) as Hq. pose proof (Hk _ _ _ _ H) as Hb.
  destruct b.
  - unfold unprinted in *. congruence.
  - apply (reported_after _ _ _ Hq Hb).
Qed.

Lemma quiet_require (c k : M bool) : quiet c -> quiet k -> quiet (require c k).
Proof.
  intros Hc Hk p b p' H. apply bind_inv in H as (ok & q & E & H).
  pose proof (Hc _ _ _ E) as Hq. destruct ok.
  - pose proof (Hk _ _ _ H) as Hb. destruct b.
    + unfold unprinted in *. congruence.
    + apply (reported_after _ _ _ Hq Hb).
  - inversion H. subst. exact Hq.
Qed.

Lemma quiet_consume ty error_message : quiet (consume ty error_message).
Proof.
  unfold consume. intros p b p' H. apply bind_inv in H as (ok & q & E & H).
  pose proof (keeps_match unprinted ty invariant_unprinted _ _ _ E) as Hq.
  destruct ok.
  - apply bind_inv in H as (t & q' & E' & H). inversion H. subst.
    pose proof (keeps_advance unprinted invariant_unprinted _ _ _ E').
    unfold unprinted in *. congruence.
  - apply bind_inv in H as (t & q' & E' & H).
    pose proof (keeps_current_token unprinted invariant_unprinted _ _ _ E')
      as Hq'.
    assert (Hu : unprinted p q') by (unfold unprinted in *; congruence).
    assert (Hp : quiet (printf (str "Parser Error: " ++ error_message
                                  ++ str ". Got '" ++ lexeme t
                                  ++ str "' instead." ++ [nl]) ;;; ret false))
      by (apply quiet_fail; reflexivity).
    pose proof (Hp _ _ _ H) as Hb. destruct b; [discriminate|].
    apply (reported_after _ _ _ Hu Hb).
Qed.

Create HintDb quiet.

#[export] Hint Resolve quiet_ret_true quiet_consume : quiet.

Ltac quiet_step :=
  first
    [ solve [auto with quiet]
    | apply quiet_fail; reflexivity
    | match goal with
      | |- quiet (require _ _) => apply quiet_require
      | |- quiet (ok <- ?c ;; if ok then ?k else ret false) =>
          apply (quiet_require c k)
      end
    | apply quiet_bind; [solve [keeps_all]|intro]
    | match goal with
      | |- quiet (if ?b then _ else _) => destruct b
      | |- quiet (let x := _ in _) => cbv zeta
      end ].

Ltac quiet_all := repeat quiet_step.

Lemma quiet_parse_variable_declaration : quiet parse_variable_declaration.
Proof. unfold parse_variable_declaration. quiet_all. Qed.

Lemma quiet_parse_reversed_function_call :
  quiet parse_reversed_function_call.
Proof.
  unfold parse_reversed_function_call. quiet_all.
  apply quiet_bind; [|intro; quiet_all].
  intros q b q' H.
  apply (keeps_scan_args_loop unprinted _ _ invariant_unprinted _ _ _ H).
Qed.

Lemma quiet_body_loop stmt n : quiet stmt -> quiet (body_loop stmt n).
Proof.
  intro Hs. induction n as [|n IH]; cbn [body_loop].
  - intros p a p' H. discriminate H.
  - quiet_all.
Qed.

#[export] Hint Resolve quiet_parse_variable_declaration
  quiet_parse_reversed_function_call quiet_body_loop : quiet.

Lemma quiet_parse_for_loop stmt fuel :
  quiet stmt -> quiet (parse_for_loop stmt fuel).
Proof. intro. unfold parse_for_loop. quiet_all. Qed.

Lemma quiet_parse_while_loop stmt fuel :
  quiet stmt -> quiet (parse_while_loop stmt fuel).
Proof. intro. unfold parse_while_loop. quiet_all. Qed.

Lemma quiet_parse_if_statement stmt fuel :
  quiet stmt -> quiet (parse_if_statement stmt fuel).
Proof. intro. unfold parse_if_statement. quiet_all. Qed.

Lemma quiet_parse_passthrough : quiet parse_passthrough.
Proof. unfold parse_passthrough. quiet_all. Qed.

#[export] Hint Resolve quiet_parse_for_loop quiet_parse_while_loop
  quiet_parse_if_statement quiet_parse_passthrough : quiet.

Lemma quiet_parse_statement fuel : quiet (parse_statement fuel).
Proof.
  induction fuel as [|fuel IH]; cbn [parse_statement].
  - intros p a p' H. discriminate H.
  - unfold parse_statement_body. quiet_all.
Qed.

#[export] Hint Resolve quiet_parse_statement : quiet.

Lemma quiet_opt_bind {A B} (m : M A) (k : A -> M (option B)) :
  keeps unprinted m -> (forall a, quiet_opt (k a)) -> quiet_opt (bind m k).
Proof.
  intros Hm Hk p r p' H. apply bind_inv in H as (a & q & E & H).
  pose proof (Hm _ _ _ E) as Hq. pose proof (Hk _ _ _ _ H) as Hr.
  destruct r.
  - unfold unprinted in *. congruence.
  - apply (reported_after _ _ _ Hq Hr).
Qed.

Lemma quiet_opt_check {B} (c : M bool) (k : M (option B)) :
  quiet c -> quiet_opt k ->
  quiet_opt (ok <- c ;; if negb ok then ret None else k).
Proof.
  intros Hc Hk p r p' H. apply bind_inv in H as (ok & q & E & H).
  pose proof (Hc _ _ _ E) as Hq. destruct ok; cbn [negb] in H.
  - pose proof (Hk _ _ _ H) as Hr. destruct r.
    + unfold unprinted in *. congruence.
    + apply (reported_after _ _ _ Hq Hr).
  - inversion H. subst. exact Hq.
Qed.

Lemma quiet_opt_fail {B} s :
  error_prefix s = true -> quiet_opt (printf s ;;; ret (@None B)).
Proof.
  intros Hs p b p' H. rewrite (bind_eq _ _ _ _ _ (printf_eq _ _)) in H.
  inversion H. destruct (error_prefix_split _ Hs) as (msg & ->).
  exists msg. reflexivity.
Qed.

Lemma quiet_opt_ret {B} (b : B) : quiet_opt (ret (Some b)).
Proof. intros p r p' H. inversion H. reflexivity. Qed.

Ltac quiet_opt_step :=
  first
    [ assumption
    | apply quiet_opt_ret
    | apply quiet_opt_fail; reflexivity
    | match goal with
      | |- quiet_opt (ok <- ?c ;; if negb ok then ret None else ?k) =>
          apply (quiet_opt_check c k); [solve [auto with quiet]|]
      end
    | apply quiet_opt_bind; [solve [keeps_all]|intro]
    | match goal with
      | |- quiet_opt (if ?b then _ else _) => destruct b
      end ].

Lemma quiet_args_loop n args : quiet_opt (args_loop n args).
Proof.
  revert args. induction n as [|n IH]; intro args; cbn [args_loop].
  - intros p a p' H. discriminate H.
  - repeat quiet_opt_step; apply IH.
Qed.

Lemma quiet_bind_opt {A} (m : M (option A)) (k : option A -> M bool) :
  quiet_opt m -> (forall a, quiet (k (Some a))) -> k None = ret false ->
  quiet (bind m k).
Proof.
  intros Hm Hk Hn p b p' H. apply bind_inv in H as (r & q & E & H).
  pose proof (Hm _ _ _ E) as Hq. destruct r as [a|].
  - pose proof (Hk _ _ _ _ H) as Hb. destruct b.
    + unfold unprinted in *. congruence.
    + apply (reported_after _ _ _ Hq Hb).
  - rewrite Hn in H. inversion H. subst. exact Hq.
Qed.

Lemma quiet_parse_function_declaration fuel :
  quiet (parse_function_declaration fuel).
Proof.
  unfold parse_function_declaration. apply quiet_require; [quiet_all|].
  apply quiet_bind_opt; [| |reflexivity].
  - intros p r p' H. apply (quiet_args_loop _ _ _ _ _ H).
  - intro args. quiet_all.
Qed.

#[export] Hint Resolve quiet_parse_function_declaration : quiet.

Lemma quiet_parse_loop fuel n : quiet_opt (parse_loop fuel n).
Proof.
  induction n as [|n IH]; cbn [parse_loop].
  - intros p a p' H. discriminate H.
  - repeat quiet_opt_step.
    intros p r p' H. inversion H. reflexivity.
Qed.

(** ** The parser comes to an end *)

Lemma ends_with_eof_suffix (used l : list Token) :
  ends_with_eof (used ++ l) -> l <> [] -> ends_with_eof l.
Proof.
  intros (body & e & E & He) Hl.
  destruct (@exists_last _ l Hl) as (body' & e' & ->).
  rewrite app_assoc in E. apply app_inj_tail in E as [_ ->].
  exists body', e. auto.
Qed.

Lemma invariant_advances : invariant advances.
Proof.
  constructor; unfold advances.
  - intros p l H. exists [], l. auto.
  - intros p q r Hpq Hqr l H.
    destruct (Hpq l H) as (u1 & l1 & -> & H1).
    destruct (Hqr l1 H1) as (u2 & l2 & -> & H2).
    exists (u1 ++ u2), l2. rewrite app_assoc. auto.
  - intros p Hp l [H He].
    destruct (ends_with_eof_cons _ He) as (t & rest & ->).
    exists [t], rest. split; [reflexivity|].
    split; [apply (at_cursor_next _ _ _ H)|].
    apply (ends_with_eof_suffix [t] rest He).
    pose proof (at_cursor_count _ _ H) as Hc. cbn [length] in Hc.
    destruct rest; [cbn [length] in Hc; lia|discriminate].
  - intros p s l [H He]. exists [], l. split; [reflexivity|].
    split; [apply at_cursor_emit; exact H|exact He].
Qed.

Lemma prints_advances : prints advances.
Proof.
  intros p s _ l [H He]. exists [], l. split; [reflexivity|].
  split; [apply at_cursor_print; exact H|exact He].
Qed.

#[export] Hint Resolve invariant_advances prints_advances
  invariant_in_bounds prints_in_bounds : keeps.

Lemma finishes_total N {A} (m : M A) :
  (forall p, m p <> OutOfFuel) -> finishes N m.
Proof. intros H p l _ _. apply H. Qed.

Lemma finishes_bind N {A B} (m : M A) (k : A -> M B) :
  finishes N m -> keeps advances m -> (forall a, finishes N (k a)) ->
  finishes N (bind m k).
Proof.
  intros Hm Hkeep Hk p l H Hl. unfold bind.
  destruct (m p) as [a q| |] eqn:E;
    [|discriminate|intros _; exact (Hm p l H Hl E)].
  destruct (Hkeep _ _ _ E l H) as (used & l' & -> & H').
  apply (Hk a q l' H'). rewrite length_app in Hl. lia.
Qed.

Lemma finishes_require N (c k : M bool) :
  finishes N c -> keeps advances c -> finishes N k ->
  finishes N (require c k).
Proof.
  intros Hc Hkeep Hk. apply finishes_bind; [exact Hc|exact Hkeep|].
  intros []; [exact Hk|]. apply finishes_total. discriminate.
Qed.

Lemma read_total i p : read i p <> OutOfFuel.
Proof. unfold read. destruct (token_at _ _); discriminate. Qed.

Lemma current_token_total p : current_token p <> OutOfFuel.
Proof. apply read_total. Qed.

Lemma peek_at_total offset p : peek_at offset p <> OutOfFuel.
Proof.
  unfold peek_at.
  destruct (_ >=? _); [destruct (_ <=? _); [|discriminate]|];
    apply read_total.
Qed.

Lemma advance_total p : advance p <> OutOfFuel.
Proof.
  unfold advance, bind. destruct (_ <? _); cbn [set_pos ret];
    apply read_total.
Qed.

Lemma match_total ty p : match_ ty p <> OutOfFuel.
Proof.
  unfold match_, bind. pose proof (current_token_total p).
  destruct (current_token p); [discriminate|discriminate|contradiction].
Qed.

Lemma consume_total ty error_message p :
  consume ty error_message p <> OutOfFuel.
Proof.
  unfold consume, bind. pose proof (match_total ty p) as Hm.
  destruct (match_ ty p) as [[] q| |]; [| |discriminate|contradiction].
  - pose proof (advance_total q). destruct (advance q);
      [discriminate|discriminate|contradiction].
  - pose proof (current_token_total q). destruct (current_token q);
      [discriminate|discriminate|contradiction].
Qed.

Lemma strcat_into_total size dst src p :
  strcat_into size dst src p <> OutOfFuel.
Proof. unfold strcat_into. destruct (_ <? _)%nat; discriminate. Qed.

Lemma sprintf_into_total size s p : sprintf_into size s p <> OutOfFuel.
Proof. unfold sprintf_into. destruct (_ <? _)%nat; discriminate. Qed.

Lemma finishes_ret N {A} (a : A) : finishes N (ret a).
Proof. apply finishes_total. discriminate. Qed.

Lemma finishes_read N i : finishes N (read i).
Proof. apply finishes_total, read_total. Qed.

Lemma finishes_current_token N : finishes N current_token.
Proof. apply finishes_total, current_token_total. Qed.

Lemma finishes_peek_at N offset : finishes N (peek_at offset).
Proof. apply finishes_total, peek_at_total. Qed.

Lemma finishes_get_pos N : finishes N get_pos.
Proof. apply finishes_total. discriminate. Qed.

Lemma finishes_printf N s : finishes N (printf s).
Proof. apply finishes_total. discriminate. Qed.

Lemma finishes_append_output N s : finishes N (append_output s).
Proof. apply finishes_total. discriminate. Qed.

Lemma finishes_strcat_into N size dst src :
  finishes N (strcat_into size dst src).
Proof. apply finishes_total, strcat_into_total. Qed.

Lemma finishes_sprintf_into N size s : finishes N (sprintf_into size s).
Proof. apply finishes_total, sprintf_into_total. Qed.

Lemma finishes_advance N : finishes N advance.
Proof. apply finishes_total, advance_total. Qed.

Lemma finishes_match N ty : finishes N (match_ ty).
Proof. apply finishes_total, match_total. Qed.

Lemma finishes_consume N ty error_message :
  finishes N (consume ty error_message).
Proof. apply finishes_total, consume_total. Qed.

Lemma finishes_slurp_tokens_until N end_type :
  finishes N (slurp_tokens_until end_type 256)
  /\ finishes N (slurp_tokens_until end_type 1024).
Proof.
  split; intros p l H _;
    rewrite (slurp_tokens_until_eq _ _ _ _ H) by lia; discriminate.
Qed.

Lemma offset_loop_total n paren_level offset p :
  (Z.to_nat (count p - (current_token_pos p + offset)) < n)%nat ->
  offset_loop n paren_level offset p <> OutOfFuel.
Proof.
  revert paren_level offset.
  induction n as [|n IH]; intros paren_level offset Hn; [lia|].
  cbn [offset_loop].
  destruct ((0 <? paren_level) && (current_token_pos p + offset <? count p))
    eqn:E; [|discriminate].
  apply andb_true_iff in E as [_ E]. apply Z.ltb_lt in E.
  unfold bind. pose proof (peek_at_total offset p) as Ht.
  destruct (peek_at offset p) as [t q| |] eqn:Ep;
    [|discriminate|contradiction].
  rewrite (stateless_peek_at _ _ _ _ Ep). apply IH. lia.
Qed.

Lemma finishes_get_offset_after_paren N : finishes N get_offset_after_paren.
Proof.
  intros p l H _. unfold get_offset_after_paren, bind.
  pose proof (match_total TOKEN_LPAREN p) as Hm.
  destruct (match_ TOKEN_LPAREN p) as [b q| |] eqn:E;
    [|discriminate|contradiction].
  rewrite (stateless_match _ _ _ _ E).
  destruct (negb b); [discriminate|].
  apply offset_loop_total. unfold count.
  destruct H as [(pre & Ht & Hp) _]. lia.
Qed.

Create HintDb finishes.

#[export] Hint Resolve finishes_ret finishes_read finishes_current_token
  finishes_peek_at finishes_get_pos finishes_printf finishes_append_output
  finishes_strcat_into finishes_sprintf_into finishes_advance
  finishes_match finishes_consume finishes_get_offset_after_paren
  : finishes.

#[export] Hint Extern 1 (finishes _ (slurp_tokens_until _ 256)) =>
  apply finishes_slurp_tokens_until : finishes.

#[export] Hint Extern 1 (finishes _ (slurp_tokens_until _ 1024)) =>
  apply finishes_slurp_tokens_until : finishes.

Ltac finishes_step :=
  first
    [ solve [auto with finishes]
    | match goal with
      | |- finishes _ (require _ _) =>
          apply finishes_require; [|solve [keeps_all]|]
      end
    | apply finishes_bind; [|solve [keeps_all]|intro]
    | match goal with
      | |- finishes _ (if ?b then _ else _) => destruct b
      | |- finishes _ (match ?r with Some _ => _ | None => _ end) =>
          destruct r
      | |- finishes _ (let x := _ in _) => cbv zeta
      end ].

Ltac finishes_all := repeat finishes_step.

Lemma finishes_parse_variable_declaration N :
  finishes N parse_variable_declaration.
Proof. unfold parse_variable_declaration. finishes_all. Qed.

Lemma finishes_parse_passthrough N : finishes N parse_passthrough.
Proof. unfold parse_passthrough. finishes_all. Qed.

Lemma tokens_left p l : ready p l -> (length l <= length (tokens p))%nat.
Proof. intros [(pre & Ht & _) _]. rewrite Ht, length_app. lia. Qed.

Lemma finishes_scan_args N :
  finishes N (fun p => scan_args_loop (S (length (tokens p))) 1 p).
Proof.
  intros p l H _. pose proof (tokens_left _ _ H).
  rewrite (scan_args_loop_run _ 1 p l H) by lia. discriminate.
Qed.

Lemma finishes_gather_args_loop N n i end_token_pos args_buffer :
  finishes N (gather_args_loop n i end_token_pos args_buffer).
Proof.
  revert i args_buffer.
  induction n as [|n IH]; intros i args_buffer; cbn [gather_args_loop];
    finishes_all.
Qed.

#[export] Hint Resolve finishes_scan_args finishes_gather_args_loop
  finishes_parse_variable_declaration finishes_parse_passthrough
  : finishes.

Lemma keeps_scan_args R :
  invariant R ->
  keeps R (fun p => scan_args_loop (S (length (tokens p))) 1 p).
Proof. intros HR p a p' H. apply (keeps_scan_args_loop R _ _ HR _ _ _ H). Qed.

#[export] Hint Resolve keeps_scan_args : keeps.

Lemma finishes_parse_reversed_function_call N :
  finishes N parse_reversed_function_call.
Proof. unfold parse_reversed_function_call. finishes_all. Qed.

#[export] Hint Resolve finishes_parse_reversed_function_call : finishes.

(** With one token more, after [consume]. *)
Lemma finishes_consumed N ty error_message (k : M bool) :
  ty <> TOKEN_EOF -> finishes N k ->
  finishes (S N) (require (consume ty error_message) k).
Proof.
  intros Hty Hk p l H Hl. unfold require, bind.
  destruct (ready_cons _ _ H) as (t & rest & ->).
  rewrite (consume_eq _ _ _ _ error_message (proj1 H) (proj2 H) Hty).
  destruct (TokenType_eqb (type t) ty) eqn:E; [|discriminate].
  apply TokenType_eqb_eq in E.
  apply (Hk (next p) rest); [|cbn [length] in Hl; lia].
  apply (ready_next _ _ _ H). congruence.
Qed.

Lemma progress_consumed ty error_message (k : M bool) :
  ty <> TOKEN_EOF -> keeps advances k ->
  progress (require (consume ty error_message) k).
Proof.
  intros Hty Hk p l p' H E.
  destruct (require_consume_inv _ _ _ _ _ _ H Hty E)
    as (t & rest & -> & _ & H1 & E1).
  destruct (Hk _ _ _ E1 rest H1) as (used & l' & -> & H').
  exists (t :: used), l'. split; [reflexivity|]. split; [discriminate|].
  exact H'.
Qed.

Lemma progress_bind {A} (m : M A) (k : A -> M bool) :
  keeps advances m -> (forall a, progress (k a)) -> progress (bind m k).
Proof.
  intros Hm Hk p l p' H E. apply bind_inv in E as (a & q & Em & E).
  destruct (Hm _ _ _ Em l H) as (u1 & l1 & -> & H1).
  destruct (Hk a _ _ _ H1 E) as (u2 & l2 & -> & Hne & H2).
  exists (u1 ++ u2), l2. split; [rewrite app_assoc; reflexivity|].
  split; [|exact H2]. destruct u1; [exact Hne|discriminate].
Qed.

Lemma progress_fail {A} (m : M A) : progress (m ;;; ret false).
Proof.
  intros p l p' _ E. apply bind_inv in E as (a & q & _ & E). discriminate E.
Qed.

Lemma progress_ret_false : progress (ret false).
Proof. intros p l p' _ E. discriminate E. Qed.

Ltac progress_step :=
  first
    [ assumption
    | apply progress_ret_false
    | apply progress_fail
    | match goal with
      | |- progress (require (consume _ _) _) =>
          apply progress_consumed; [discriminate|solve [keeps_all]]
      | |- progress (ok <- consume ?ty ?msg ;; if ok then ?k else ret false) =>
          apply (progress_consumed ty msg k); [discriminate|solve [keeps_all]]
      end
    | apply progress_bind; [solve [keeps_all]|intro]
    | match goal with
      | |- progress (if ?b then _ else _) => destruct b
      | |- progress (let x := _ in _) => cbv zeta
      end ].

Ltac progress_all := repeat progress_step.

Lemma progress_parse_statement fuel : progress (parse_statement fuel).
Proof.
  destruct fuel as [|fuel]; cbn [parse_statement].
  - intros p l p' _ E. discriminate E.
  - unfold parse_statement_body, parse_variable_declaration,
      parse_reversed_function_call, parse_for_loop, parse_while_loop,
      parse_if_statement, parse_passthrough.
    progress_all.
Qed.

Lemma progress_parse_function_declaration fuel :
  progress (parse_function_declaration fuel).
Proof.
  unfold parse_function_declaration. apply progress_consumed; [discriminate|].
  keeps_all. intros q b q' H.
  apply (keeps_args_loop advances _ _ invariant_advances prints_advances
           _ _ _ H).
Qed.

Lemma finishes_body_loop stmt n :
  finishes n stmt -> progress stmt -> finishes n (body_loop stmt n).
Proof.
  intros Hf Hp. 
  assert (G : forall k p l, ready p l -> (length l <= k)%nat -> (k <= n)%nat ->
                            body_loop stmt k p <> OutOfFuel).
  { induction k as [|k IH]; intros p l H Hl Hk.
    - destruct (ready_cons _ _ H) as (t & rest & ->). cbn [length] in Hl. lia.
    - cbn [body_loop].
      destruct (ready_cons _ _ H) as (t & rest & ->).
      rewrite (bind_eq _ _ _ _ _ (match_eq _ _ _ TOKEN_RBRACE (proj1 H))).
      rewrite (bind_eq _ _ _ _ _ (match_eq _ _ _ TOKEN_EOF (proj1 H))).
      destruct (_ && _); [|discriminate].
      unfold require, bind.
      destruct (stmt p) as [[] q| |] eqn:E;
        [|discriminate|discriminate|intros _; apply (Hf p _ H); [lia|exact E]].
      destruct (Hp _ _ _ H E) as (used & l' & El & Hne & H').
      apply (IH q l' H'); [|lia].
      assert (length (t :: rest) = length (used ++ l')) by congruence.
      rewrite length_app in *. destruct used; [congruence|].
      cbn [length] in *. lia. }
  intros p l H Hl. apply (G n p l H Hl). lia.
Qed.

Lemma finishes_le N N' {A} (m : M A) :
  (N' <= N)%nat -> finishes N m -> finishes N' m.
Proof. intros Hle Hm p l H Hl. apply (Hm p l H). lia. Qed.

Lemma finishes_parse_for_loop stmt fuel :
  finishes fuel (body_loop stmt fuel) -> keeps advances stmt ->
  finishes (S fuel) (parse_for_loop stmt fuel).
Proof.
  intros Hb Hk. unfold parse_for_loop.
  apply finishes_consumed; [discriminate|]. finishes_all.
Qed.

Lemma finishes_parse_while_loop stmt fuel :
  finishes fuel (body_loop stmt fuel) -> keeps advances stmt ->
  finishes (S fuel) (parse_while_loop stmt fuel).
Proof.
  intros Hb Hk. unfold parse_while_loop.
  apply finishes_consumed; [discriminate|]. finishes_all.
Qed.

Lemma finishes_parse_if_statement stmt fuel :
  finishes fuel (body_loop stmt fuel) -> keeps advances stmt ->
  finishes (S fuel) (parse_if_statement stmt fuel).
Proof.
  intros Hb Hk. unfold parse_if_statement.
  apply finishes_consumed; [discriminate|]. finishes_all.
Qed.

Lemma finishes_parse_statement fuel : finishes fuel (parse_statement fuel).
Proof.
  induction fuel as [|fuel IH]; cbn [parse_statement].
  - intros p l H Hl. destruct (ready_cons _ _ H) as (t & rest & ->).
    cbn [length] in Hl. lia.
  - pose proof (progress_parse_statement fuel) as Hp.
    assert (Hk : keeps advances (parse_statement fuel))
      by (apply keeps_parse_statement; auto with keeps).
    pose proof (finishes_body_loop _ _ IH Hp) as Hb.
    pose proof (finishes_parse_for_loop _ _ Hb Hk).
    pose proof (finishes_parse_while_loop _ _ Hb Hk).
    pose proof (finishes_parse_if_statement _ _ Hb Hk).
    unfold parse_statement_body. finishes_all.
Qed.

Lemma finishes_args_loop N n args :
  (N <= n)%nat -> finishes N (args_loop n args).
Proof.
  revert N args. induction n as [|n IH]; intros N args HN p l H Hl.
  - destruct (ready_cons _ _ H) as (t & rest & ->). cbn [length] in Hl. lia.
  - cbn [args_loop].
    destruct (ready_cons _ _ H) as (t & rest & ->).
    rewrite (bind_eq _ _ _ _ _ (match_eq _ _ _ TOKEN_RPAREN (proj1 H))).
    rewrite (bind_eq _ _ _ _ _ (match_eq _ _ _ TOKEN_EOF (proj1 H))).
    destruct (_ && _); [|discriminate].
    unfold bind at 1.
    destruct ((if (0 <? length args)%nat
               then strcat_into 1024 args (str ", ") else ret args) p)
      as [a q| |] eqn:E; [|discriminate|].
    2:{ destruct (0 <? length args)%nat; [|discriminate E].
        exfalso. apply (strcat_into_total _ _ _ _ E). }
    assert (q = p).
    { destruct (0 <? length args)%nat;
        [apply strcat_into_inv in E as [_ ->]|inversion E]; reflexivity. }
    subst q.
    rewrite (bind_eq _ _ _ _ _ (current_token_eq _ _ _ (proj1 H))).
    unfold bind at 1.
    rewrite (consume_eq _ _ _ _ _ (proj1 H) (proj2 H)) by discriminate.
    destruct (TokenType_eqb (type t) TOKEN_IDENTIFIER) eqn:Et;
      [|discriminate]. cbn [negb].
    apply TokenType_eqb_eq in Et.
    assert (H1 : ready (next p) rest)
      by (apply (ready_next _ _ _ H); congruence).
    revert H1. generalize (next p) as p1. intros p1 H1.
    assert (G : finishes (length rest)
                  (arg_type <- current_token ;;
                   ok <- consume TOKEN_KEYWORD (str "Expected argument type") ;;
                   if negb ok then ret None else
                   args <- strcat_into 1024 a (lexeme arg_type) ;;
                   args <- strcat_into 1024 args (str " ") ;;
                   args <- strcat_into 1024 args (lexeme t) ;;
                   at_comma <- match_ TOKEN_COMMA ;;
                   if at_comma then advance ;;; args_loop n args
                   else
                     at_rparen <- match_ TOKEN_RPAREN ;;
                     if negb at_rparen then
                       printf (str "Parser Error: Expected ',' or ')' in argument list."
                                 ++ [nl]) ;;;
                       ret None
                     else args_loop n args)).
    { assert (Hn : forall x, finishes (length rest) (args_loop n x)).
      { intro x. apply IH. cbn [length] in Hl. lia. }
      finishes_all; apply Hn. }
    apply (G p1 rest H1). lia.
Qed.

Lemma finishes_args N :
  finishes N (fun p => args_loop (S (length (tokens p))) [] p).
Proof.
  intros p l H Hl. apply (finishes_args_loop (length l) _ _) with (l := l);
    auto. pose proof (tokens_left _ _ H). lia.
Qed.

Lemma keeps_args R :
  invariant R -> prints R ->
  keeps R (fun p => args_loop (S (length (tokens p))) [] p).
Proof.
  intros HR HP p a p' H. apply (keeps_args_loop R _ _ HR HP _ _ _ H).
Qed.

#[export] Hint Resolve finishes_args : finishes.

#[export] Hint Resolve keeps_args : keeps.

Lemma finishes_parse_function_declaration fuel :
  finishes fuel (parse_function_declaration fuel).
Proof.
  pose proof (finishes_parse_statement fuel) as Hs.
  pose proof (finishes_body_loop _ _ Hs (progress_parse_statement fuel))
    as Hb.
  unfold parse_function_declaration. finishes_all.
Qed.

Lemma finishes_parse_loop fuel n :
  forall p l, ready p l -> (length l <= n)%nat -> (length l <= fuel)%nat ->
              parse_loop fuel n p <> OutOfFuel.
Proof.
  induction n as [|n IH]; intros p l H Hn Hf.
  - destruct (ready_cons _ _ H) as (t & rest & ->). cbn [length] in Hn. lia.
  - cbn [parse_loop].
    destruct (ready_cons _ _ H) as (t & rest & ->).
    rewrite (bind_eq _ _ _ _ _ (match_eq _ _ _ TOKEN_EOF (proj1 H))).
    destruct (TokenType_eqb (type t) TOKEN_EOF) eqn:Eeof; cbn [negb];
      [discriminate|].
    apply TokenType_eqb_neq in Eeof.
    rewrite (bind_eq _ _ _ _ _
               (match_eq _ _ _ TOKEN_PREPROCESSOR (proj1 H))).
    destruct (TokenType_eqb (type t) TOKEN_PREPROCESSOR).
    + rewrite (bind_eq _ _ _ _ _ (current_token_eq _ _ _ (proj1 H))).
      rewrite (bind_eq _ _ _ _ _ (append_output_eq _ _)).
      rewrite (bind_eq _ _ _ _ _ (append_output_eq _ _)).
      assert (H2 : ready (emit (emit p (lexeme t)) [nl]) (t :: rest)).
      { split; [|exact (proj2 H)].
        apply at_cursor_emit, at_cursor_emit. exact (proj1 H). }
      rewrite (bind_eq _ _ _ _ _ (ready_advance _ _ _ H2 Eeof)).
      apply (IH _ rest (ready_next _ _ _ H2 Eeof)); cbn [length] in *; lia.
    + rewrite (bind_eq _ _ _ _ _ (match_eq _ _ _ TOKEN_LPAREN (proj1 H))).
      destruct (TokenType_eqb (type t) TOKEN_LPAREN).
      * unfold bind at 1.
        destruct (parse_function_declaration fuel p) as [[] q| |] eqn:E;
          cbn [negb]; [|discriminate|discriminate|].
        -- destruct (progress_parse_function_declaration _ _ _ _ H E)
             as (used & l' & El & Hne & H').
           apply (IH q l' H');
             assert (Hlen : length (t :: rest) = length (used ++ l'))
               by congruence;
             rewrite length_app in Hlen; destruct used; try congruence;
             cbn [length] in *; lia.
        -- intros _.
           apply (finishes_parse_function_declaration fuel p _ H Hf E).
      * rewrite (bind_eq _ _ _ _ _ (current_token_eq _ _ _ (proj1 H))).
        rewrite (bind_eq _ _ _ _ _ (printf_eq _ _)). discriminate.
Qed.

(** With as much fuel as there are tokens, [parse] is not cut off. *)
Lemma parse_finishes fuel toks :
  ends_with_eof toks -> (length toks <= fuel)%nat ->
  parse fuel toks <> OutOfFuel.
Proof.
  intros He Hf. unfold parse.
  apply (finishes_parse_loop fuel fuel _ toks); [|exact Hf|exact Hf].
  split; [|exact He]. exists []. split; reflexivity.
Qed.

(** ** Statements that are copied *)

(** The text that [slurp_tokens_until] builds is the lexemes joined by
    single spaces, when no lexeme is empty. *)
Lemma slurp_text_spaced buffer l :
  buffer <> [] ->
  slurp_text buffer l
  = buffer ++ concat (map (fun t => str " " ++ lexeme t) l).
Proof.
  revert buffer. induction l as [|t l IH]; intros buffer Hb;
    cbn [slurp_text map concat].
  - rewrite app_nil_r. reflexivity.
  - replace (0 <? length buffer)%nat with true
      by (destruct buffer; [congruence|reflexivity]).
    rewrite IH by (destruct buffer; [congruence|discriminate]).
    rewrite <- !app_assoc. reflexivity.
Qed.

Lemma join_lexemes_spaced t l :
  join_lexemes (t :: l)
  = lexeme t ++ concat (map (fun t => str " " ++ lexeme t) l).
Proof.
  unfold join_lexemes. revert t.
  induction l as [|t' l IH]; intro t.
  - cbn [map join_with concat]. rewrite app_nil_r. reflexivity.
  - change (join_with (str " ") (map lexeme (t :: t' :: l)))
      with (lexeme t ++ str " " ++ join_with (str " ") (map lexeme (t' :: l))).
    rewrite IH. cbn [map concat]. rewrite <- app_assoc. reflexivity.
Qed.

Lemma slurp_text_join l :
  Forall (fun t => lexeme t <> []) l ->
  slurp_text [] l = join_lexemes l.
Proof.
  destruct l as [|t l]; [reflexivity|]. intro Hf.
  inversion Hf as [|? ? Ht _]. subst.
  cbn [slurp_text length Nat.ltb Nat.leb app].
  rewrite slurp_text_spaced by exact Ht.
  rewrite join_lexemes_spaced. reflexivity.
Qed.

(** A buffer of one character holds the empty text only. *)
Lemma slurp_loop_one n end_type p l :
  ready p l -> (length l <= n)%nat ->
  slurp_loop n end_type [] 1 p
  = Ret [] (advance_by p (length (run_until end_type l))).
Proof.
  revert n p. induction l as [|t l IH]; intros n p H Hn.
  - destruct (ready_cons _ _ H) as (? & ? & E). discriminate E.
  - destruct n as [|n]; [cbn in Hn; lia|].
    cbn [slurp_loop run_until].
    rewrite (bind_eq _ _ _ _ _ (match_eq _ _ _ end_type (proj1 H))).
    rewrite (bind_eq _ _ _ _ _ (match_eq _ _ _ TOKEN_EOF (proj1 H))).
    rewrite <- negb_orb.
    destruct (TokenType_eqb (type t) end_type
              || TokenType_eqb (type t) TOKEN_EOF) eqn:E; cbn [negb].
    + cbn [length]. rewrite advance_by_0. reflexivity.
    + apply orb_false_iff in E as [_ E]. apply TokenType_eqb_neq in E.
      rewrite (bind_eq _ _ _ _ _ (current_token_eq _ _ _ (proj1 H))).
      rewrite (bind_eq _ _ _ _ _ (ready_advance _ _ _ H E)).
      cbn [length Nat.ltb Nat.leb Nat.sub]. unfold strncat.
      cbn [firstn app].
      rewrite (IH n (next p) (ready_next _ _ _ H E)) by (cbn in Hn; lia).
      cbn [length]. rewrite advance_by_S. reflexivity.
Qed.

(** [slurp_tokens_until] with a buffer of one character at least. *)
Lemma slurp_tokens_until_sized end_type buffer_size p l :
  ready p l ->
  (1 <= buffer_size)%nat ->
  slurp_tokens_until end_type buffer_size p
  = Ret (firstn (buffer_size - 1) (slurp_text [] (run_until end_type l)))
        (advance_by p (length (run_until end_type l))).
Proof.
  intros H Hsz.
  destruct (Nat.eq_dec buffer_size 1) as [->|Hne];
    [|apply (slurp_tokens_until_eq _ _ _ _ H); lia].
  unfold slurp_tokens_until. cbn [Nat.eqb Nat.sub firstn].
  apply (slurp_loop_one _ _ _ _ H).
  pose proof (proj1 H) as (pre & Ht & _). rewrite Ht, length_app. lia.
Qed.

(** Without a buffer the first assignment is out of bounds. *)
Lemma slurp_tokens_until_unsized end_type p :
  slurp_tokens_until end_type 0 p = Undefined.
Proof. reflexivity. Qed.

(** The token at which [run_until] stops. *)
Lemma run_until_next end_type l :
  ends_with_eof l ->
  exists x rest,
    l = run_until end_type l ++ x :: rest
    /\ (type x = end_type \/ type x = TOKEN_EOF)
    /\ Forall (fun t => type t <> end_type /\ type t <> TOKEN_EOF)
              (run_until end_type l).
Proof.
  induction l as [|t l IH]; intro He.
  - destruct He as (body & e & E & _). destruct body; discriminate E.
  - cbn [run_until].
    destruct (TokenType_eqb (type t) end_type) eqn:E1.
    { apply TokenType_eqb_eq in E1. exists t, l. cbn [orb app]. auto. }
    destruct (TokenType_eqb (type t) TOKEN_EOF) eqn:E2.
    { apply TokenType_eqb_eq in E2. exists t, l. cbn [orb app]. auto. }
    cbn [orb]. apply TokenType_eqb_neq in E1, E2.
    destruct (IH (ends_with_eof_tail _ _ He E2)) as (x & rest & El & Hx & Hf).
    exists x, rest. cbn [app]. split; [congruence|]. split; [exact Hx|].
    constructor; [split; assumption|exact Hf].
Qed.

Lemma run_until_prefix end_type run x rest :
  Forall (fun t => type t <> end_type /\ type t <> TOKEN_EOF) run ->
  type x = end_type \/ type x = TOKEN_EOF ->
  run_until end_type (run ++ x :: rest) = run.
Proof.
  intros Hf Hx. induction Hf as [|t run [H1 H2] Hf IH]; cbn [app run_until].
  - destruct Hx as [Hx|Hx]; rewrite Hx, TokenType_eqb_refl;
      rewrite ?orb_true_r; reflexivity.
  - apply TokenType_eqb_neq in H1, H2. rewrite H1, H2. cbn [orb].
    rewrite IH. reflexivity.
Qed.

Lemma no_eof_weaken end_type (run : list Token) :
  Forall (fun t => type t <> end_type /\ type t <> TOKEN_EOF) run ->
  Forall (fun t => type t <> TOKEN_EOF) run.
Proof. intro H. eapply Forall_impl; [|exact H]. cbn. tauto. Qed.

(** [parse_passthrough] on a statement that starts with a word: the
    tokens up to the first semicolon, or the error at the end of the
    input. *)
Lemma parse_passthrough_eq p run x rest :
  ready p (run ++ x :: rest) ->
  Forall (fun t => type t <> TOKEN_SEMICOLON /\ type t <> TOKEN_EOF) run ->
  type x = TOKEN_SEMICOLON \/ type x = TOKEN_EOF ->
  (exists t l, run = t :: l
               /\ (type t = TOKEN_KEYWORD \/ type t = TOKEN_IDENTIFIER)) ->
  parse_passthrough p
  = if TokenType_eqb (type x) TOKEN_SEMICOLON
    then Ret true
           (emit (advance_by p (length run + 1))
              (str "    " ++ firstn 1023 (slurp_text [] run)
                 ++ str ";" ++ [nl]))
    else failed (advance_by p (length run))
           (str "Expected ';' after statement") x.
Proof.
  intros H Hf Hx (t & l & -> & Ht). unfold parse_passthrough.
  cbn [app] in H.
  rewrite (bind_eq _ _ _ _ _ (match_eq _ _ _ TOKEN_KEYWORD (proj1 H))).
  rewrite (bind_eq _ _ _ _ _ (match_eq _ _ _ TOKEN_IDENTIFIER (proj1 H))).
  replace (TokenType_eqb (type t) TOKEN_KEYWORD
           || TokenType_eqb (type t) TOKEN_IDENTIFIER) with true
    by (destruct Ht as [-> | ->]; reflexivity).
  rewrite (bind_eq _ _ _ _ _
             (slurp_tokens_until_eq TOKEN_SEMICOLON 1024 p _ H ltac:(lia))).
  change (t :: l ++ x :: rest) with ((t :: l) ++ x :: rest) in *.
  rewrite (run_until_prefix _ _ _ _ Hf Hx).
  pose proof (ready_advance_by _ _ _ H (no_eof_weaken _ _ Hf)) as H2.
  unfold bind at 1.
  rewrite (consume_eq _ _ _ _ _ (proj1 H2) (proj2 H2)) by discriminate.
  change (1024 - 1)%nat with 1023%nat.
  destruct (TokenType_eqb (type x) TOKEN_SEMICOLON); [|reflexivity].
  do 3 rewrite (bind_eq _ _ _ _ _ (append_output_eq _ _)).
  unfold ret, emit, next, advance_by.
  cbn [tokens current_token_pos output stdout].
  f_equal. f_equal; [lia|]. rewrite <- !app_assoc. reflexivity.
Qed.

(** A word at the start of a statement sends [parse_statement] to the
    copying of the statement. *)
Lemma parse_statement_word fuel p t rest :
  at_cursor p (t :: rest) ->
  type t = TOKEN_KEYWORD \/ type t = TOKEN_IDENTIFIER ->
  parse_statement (S fuel) p = parse_passthrough p.
Proof.
  intros H Ht. cbn [parse_statement]. unfold parse_statement_body.
  rewrite (bind_eq _ _ _ _ _ (match_eq _ _ _ TOKEN_NUMBER H)).
  destruct Ht as [Ht|Ht]; rewrite Ht; cbn [TokenType_eqb];
    rewrite (bind_eq _ _ _ _ _ (match_eq _ _ _ TOKEN_LPAREN H)), Ht;
    reflexivity.
Qed.

(** A token that starts no statement. *)
Lemma parse_statement_unrecognized fuel p t rest :
  at_cursor p (t :: rest) ->
  type t <> TOKEN_NUMBER -> type t <> TOKEN_LPAREN ->
  type t <> TOKEN_KEYWORD -> type t <> TOKEN_IDENTIFIER ->
  parse_statement (S fuel) p
  = Ret false
      (print p (str "Parser Error: Unrecognized statement starting with '"
                  ++ lexeme t ++ str "'" ++ [nl])).
Proof.
  intros H H1 H2 H3 H4. cbn [parse_statement]. unfold parse_statement_body.
  apply TokenType_eqb_neq in H1, H2, H3, H4.
  rewrite (bind_eq _ _ _ _ _ (match_eq _ _ _ TOKEN_NUMBER H)), H1.
  rewrite (bind_eq _ _ _ _ _ (match_eq _ _ _ TOKEN_LPAREN H)), H2.
  unfold parse_passthrough.
  rewrite (bind_eq _ _ _ _ _ (match_eq _ _ _ TOKEN_KEYWORD H)), H3.
  rewrite (bind_eq _ _ _ _ _ (match_eq _ _ _ TOKEN_IDENTIFIER H)), H4.
  cbn [orb].
  rewrite (bind_eq _ _ _ _ _ (current_token_eq _ _ _ H)).
  rewrite (bind_eq _ _ _ _ _ (printf_eq _ _)). reflexivity.
Qed.

(** ** Control structures *)

Lemma plain_inside_parens run : Forall plain run -> inside_parens 1 run = true.
Proof.
  induction 1 as [|t run (H1 & H2 & H3) Hf IH]; [reflexivity|].
  cbn [inside_parens]. unfold level_after.
  apply TokenType_eqb_neq in H1, H2, H3. rewrite H1, H2, H3. exact IH.
Qed.

Lemma plain_until_rparen run :
  Forall plain run ->
  Forall (fun t => type t <> TOKEN_RPAREN /\ type t <> TOKEN_EOF) run.
Proof. intro H. eapply Forall_impl; [|exact H]. unfold plain. tauto. Qed.

Lemma next_emit_advance_by p k s :
  next (emit (advance_by p k) s) = emit (advance_by p (k + 1)) s.
Proof.
  unfold next, emit, advance_by. cbn [tokens current_token_pos output stdout].
  f_equal. lia.
Qed.

Lemma next_advance_by p k : next (advance_by p k) = advance_by p (k + 1).
Proof.
  unfold next, advance_by. cbn [tokens current_token_pos output stdout].
  f_equal. lia.
Qed.

Lemma ready_emit p l s : ready p l -> ready (emit p s) l.
Proof. intros [H He]. split; [apply at_cursor_emit; exact H|exact He]. Qed.

(** The head [( condition ) keyword] of a control structure: the
    condition is the tokens up to the first closing parenthesis, cut to
    the 255 characters its buffer holds. *)
Lemma control_head_eq m1 m2 m3 opening k p lparen run x y rest :
  ready p (lparen :: run ++ x :: y :: rest) ->
  type lparen = TOKEN_LPAREN ->
  Forall (fun t => type t <> TOKEN_RPAREN /\ type t <> TOKEN_EOF) run ->
  type x = TOKEN_RPAREN ->
  (length opening <= 16)%nat ->
  control_head m1 m2 m3 opening k p
  = if TokenType_eqb (type y) TOKEN_KEYWORD
    then k (emit (advance_by p (length run + 3))
              (opening ++ firstn 255 (slurp_text [] run)
                 ++ str ") {" ++ [nl]))
    else failed (advance_by p (length run + 2)) m3 y.
Proof.
  intros H Hl Hf Hx Hop. unfold control_head, require.
  rewrite (bind_eq _ _ _ _ _
             (consume_ok _ _ _ _ _ m1
                (ltac:(destruct run; exact (proj1 H))
                 : at_cursor p (lparen :: hd x run :: tl (run ++ x :: y :: rest)))
                Hl)).
  cbn iota.
  assert (H1 : ready (next p) (run ++ x :: y :: rest)).
  { apply (ready_next _ _ _ H). rewrite Hl. discriminate. }
  rewrite (bind_eq _ _ _ _ _
             (slurp_tokens_until_eq TOKEN_RPAREN 256 _ _ H1 ltac:(lia))).
  rewrite (run_until_prefix _ _ _ _ Hf (or_introl Hx)).
  pose proof (ready_advance_by _ _ _ H1 (no_eof_weaken _ _ Hf)) as H2.
  rewrite advance_by_S in H2 |- *.
  rewrite (bind_eq _ _ _ _ _
             (consume_ok _ _ _ _ _ m2 (proj1 H2) Hx)).
  cbn iota.
  assert (H3 : ready (next (advance_by p (S (length run)))) (y :: rest)).
  { apply (ready_next _ _ _ H2). rewrite Hx. discriminate. }
  unfold bind at 1.
  rewrite (consume_eq _ _ _ _ _ (proj1 H3) (proj2 H3)) by discriminate.
  change (256 - 1)%nat with 255%nat.
  replace (next (advance_by p (S (length run))))
    with (advance_by p (length run + 2))
    by (rewrite next_advance_by; f_equal; lia).
  destruct (TokenType_eqb (type y) TOKEN_KEYWORD); [|reflexivity].
  unfold bind at 1, sprintf_into.
  replace (length (opening ++ firstn 255 (slurp_text [] run)
                     ++ str ") {" ++ [nl]) <? 512)%nat with true.
  2:{ symmetry. apply Nat.ltb_lt. rewrite !length_app, length_firstn.
      cbn [length str list_ascii_of_string]. lia. }
  rewrite (bind_eq _ _ _ _ _ (append_output_eq _ _)).
  rewrite next_advance_by. rewrite <- Nat.add_assoc. reflexivity.
Qed.

(** A body in braces that was parsed: the statement loop ran to a closing
    brace. *)
Lemma block_run stmt fuel m1 m2 closing k p lb l p' :
  keeps advances stmt ->
  ready p (lb :: l) -> type lb = TOKEN_LBRACE ->
  block stmt fuel m1 m2 closing k p = Ret true p' ->
  exists q rb l',
    body_loop stmt fuel (next p) = Ret true q
    /\ ready q (rb :: l') /\ type rb = TOKEN_RBRACE
    /\ (exists used, l = used ++ rb :: l')
    /\ k (emit (next q) closing) = Ret true p'.
Proof.
  intros Hk H Hlb E. unfold block in E.
  remember (lb :: l) as l0 eqn:El0.
  consume_in E H as lb' l1 Hlb' H1.
  inversion El0. subst lb' l1. clear El0.
  apply require_inv in E as (q & Eb & E).
  assert (Hb : keeps advances (body_loop stmt fuel))
    by (apply keeps_body_loop; auto with keeps).
  destruct (Hb _ _ _ Eb l H1) as (used & l2 & -> & H2).
  consume_in E H2 as rb l3 Hrb H3.
  append_in E.
  exists q, rb, l3. split; [exact Eb|]. split; [exact H2|].
  split; [exact Hrb|]. split; [exists used; reflexivity|exact E].
Qed.

(** The parenthesis and the keyword send [parse_statement] to the parser
    of the control structure. *)
Lemma parse_statement_control fuel p lparen cond rp kw rest :
  at_cursor p (lparen :: cond ++ rp :: kw :: rest) ->
  type lparen = TOKEN_LPAREN -> inside_parens 1 cond = true ->
  type rp = TOKEN_RPAREN -> type kw = TOKEN_KEYWORD ->
  parse_statement (S fuel) p
  = if cstring_eqb (lexeme kw) (str "for")
    then parse_for_loop (parse_statement fuel) fuel p
    else if cstring_eqb (lexeme kw) (str "while")
    then parse_while_loop (parse_statement fuel) fuel p
    else if cstring_eqb (lexeme kw) (str "if")
    then parse_if_statement (parse_statement fuel) fuel p
    else parse_passthrough p.
Proof.
  intros H Hl Hc Hr Hkw. cbn [parse_statement]. unfold parse_statement_body.
  rewrite (bind_eq _ _ _ _ _ (match_eq _ _ _ TOKEN_NUMBER H)).
  rewrite Hl. cbn [TokenType_eqb].
  rewrite (bind_eq _ _ _ _ _ (match_eq _ _ _ TOKEN_LPAREN H)).
  rewrite Hl. cbn [TokenType_eqb].
  rewrite (bind_eq _ _ _ _ _
             (get_offset_after_paren_eq _ _ _ _ _ H Hl Hc Hr)).
  assert (Hkw' : peek_at (Z.of_nat (length cond + 2)) p = Ret kw p).
  { replace (length cond + 2)%nat
      with (length ((lparen :: cond) ++ [rp]))
      by (rewrite length_app; cbn [length]; lia).
    apply (peek_at_nth p _ kw rest).
    rewrite <- app_assoc. exact H. }
  rewrite (bind_eq _ _ _ _ _ Hkw').
  cbv zeta. rewrite Hkw. cbn [TokenType_eqb].
  destruct (cstring_eqb (lexeme kw) (str "for")); [reflexivity|].
  destruct (cstring_eqb (lexeme kw) (str "while")); [reflexivity|].
  destruct (cstring_eqb (lexeme kw) (str "if")); reflexivity.
Qed.

(** A control structure that was parsed, up to the end of its first
    body. *)
Lemma control_statement_run
      stmt fuel m1 m2 m3 m4 m5 opening closing k
      p lparen cond rp kw lb rest p' :
  keeps advances stmt ->
  ready p (lparen :: cond ++ rp :: kw :: lb :: rest) ->
  type lparen = TOKEN_LPAREN -> Forall plain cond ->
  type rp = TOKEN_RPAREN -> type kw = TOKEN_KEYWORD ->
  type lb = TOKEN_LBRACE ->
  (length opening <= 16)%nat ->
  control_head m1 m2 m3 opening (block stmt fuel m4 m5 closing k) p
  = Ret true p' ->
  exists q rb l',
    body_loop stmt fuel
      (emit (advance_by p (length cond + 4))
         (opening ++ firstn 255 (slurp_text [] cond) ++ str ") {" ++ [nl]))
    = Ret true q
    /\ ready q (rb :: l') /\ type rb = TOKEN_RBRACE
    /\ (exists used, rest = used ++ rb :: l')
    /\ k (emit (next q) closing) = Ret true p'.
Proof.
  intros Hk H Hl Hc Hr Hkw Hlb Hop E.
  rewrite (control_head_eq _ _ _ _ _ _ _ _ _ _ _ H Hl
             (plain_until_rparen _ Hc) Hr Hop) in E.
  rewrite Hkw in E. cbn [TokenType_eqb] in E.
  assert (H4 : ready (emit (advance_by p (length cond + 3))
                        (opening ++ firstn 255 (slurp_text [] cond)
                           ++ str ") {" ++ [nl]))
                     (lb :: rest)).
  { apply ready_emit.
    assert (E' : lparen :: cond ++ rp :: kw :: lb :: rest
                 = (lparen :: cond ++ [rp; kw]) ++ lb :: rest)
      by (cbn [app]; rewrite <- app_assoc; reflexivity).
    rewrite E' in H.
    replace (length cond + 3)%nat with (length (lparen :: cond ++ [rp; kw]))
      by (cbn [length]; rewrite length_app; cbn [length]; lia).
    apply (ready_advance_by _ _ _ H).
    constructor; [rewrite Hl; discriminate|].
    apply Forall_app. split.
    - eapply Forall_impl; [|exact Hc]. unfold plain. tauto.
    - repeat constructor; [rewrite Hr|rewrite Hkw]; discriminate. }
  destruct (block_run _ _ _ _ _ _ _ _ _ _ Hk H4 Hlb E)
    as (q & rb & l' & Eb & Hq & Hrb & Hused & Ek).
  rewrite next_emit_advance_by in Eb.
  replace (length cond + 3 + 1)%nat with (length cond + 4)%nat in Eb by lia.
  exists q, rb, l'. auto.
Qed.

(** ** The top level *)

Lemma parse_loop_directives fuel n p ds e rest :
  ready p (ds ++ e :: rest) ->
  Forall (fun t => type t = TOKEN_PREPROCESSOR) ds ->
  type e = TOKEN_EOF ->
  (length ds < n)%nat ->
  parse_loop fuel n p
  = Ret (Some (output p ++ directive_lines ds))
        (emit (advance_by p (length ds)) (directive_lines ds)).
Proof.
  intros H Hf He. revert n p H.
  induction Hf as [|t ds Ht Hf IH]; intros n p H Hn;
    (destruct n as [|n]; [cbn [length] in Hn; lia|]); cbn [parse_loop].
  - cbn [app] in H.
    rewrite (bind_eq _ _ _ _ _ (match_eq _ _ _ TOKEN_EOF (proj1 H))).
    rewrite He. cbn [TokenType_eqb negb length directive_lines map concat].
    unfold directive_lines. cbn [map concat].
    rewrite advance_by_0, app_nil_r. unfold emit. rewrite app_nil_r.
    destruct p. reflexivity.
  - cbn [app] in H.
    rewrite (bind_eq _ _ _ _ _ (match_eq _ _ _ TOKEN_EOF (proj1 H))).
    rewrite Ht. cbn [TokenType_eqb negb].
    rewrite (bind_eq _ _ _ _ _
               (match_eq _ _ _ TOKEN_PREPROCESSOR (proj1 H))).
    rewrite Ht. cbn [TokenType_eqb].
    rewrite (bind_eq _ _ _ _ _ (current_token_eq _ _ _ (proj1 H))).
    rewrite (bind_eq _ _ _ _ _ (append_output_eq _ _)).
    rewrite (bind_eq _ _ _ _ _ (append_output_eq _ _)).
    assert (H2 : ready (emit (emit p (lexeme t)) [nl]) (t :: ds ++ e :: rest))
      by (apply ready_emit, ready_emit; exact H).
    assert (Hne : type t <> TOKEN_EOF) by (rewrite Ht; discriminate).
    rewrite (bind_eq _ _ _ _ _ (ready_advance _ _ _ H2 Hne)).
    rewrite (IH n _ (ready_next _ _ _ H2 Hne)) by (cbn [length] in Hn; lia).
    unfold directive_lines, next, emit, advance_by.
    cbn [map concat tokens current_token_pos output stdout length].
    rewrite <- !app_assoc. do 2 f_equal. lia.
Qed.

(** What [parse] does with a token that opens neither a directive nor a
    function. *)
Lemma parse_loop_stray fuel n p t rest :
  at_cursor p (t :: rest) ->
  type t <> TOKEN_EOF -> type t <> TOKEN_PREPROCESSOR ->
  type t <> TOKEN_LPAREN ->
  parse_loop fuel (S n) p
  = Ret None
      (print p (str "Parser Error: Only preprocessor directives or function definitions allowed at top level. Found '"
                  ++ lexeme t ++ str "'." ++ [nl])).
Proof.
  intros H H1 H2 H3. cbn [parse_loop].
  apply TokenType_eqb_neq in H1, H2, H3.
  rewrite (bind_eq _ _ _ _ _ (match_eq _ _ _ TOKEN_EOF H)), H1.
  cbn [negb].
  rewrite (bind_eq _ _ _ _ _ (match_eq _ _ _ TOKEN_PREPROCESSOR H)), H2.
  rewrite (bind_eq _ _ _ _ _ (match_eq _ _ _ TOKEN_LPAREN H)), H3.
  rewrite (bind_eq _ _ _ _ _ (current_token_eq _ _ _ H)).
  rewrite (bind_eq _ _ _ _ _ (printf_eq _ _)). reflexivity.
Qed.

(** A loop that was parsed: the head, the statements of the body, the
    closing brace. *)
Lemma loop_run
      stmt fuel m1 m2 m3 m4 m5 opening closing
      p lparen cond rp kw lb rest p' :
  keeps advances stmt -> forward stmt ->
  ready p (lparen :: cond ++ rp :: kw :: lb :: rest) ->
  type lparen = TOKEN_LPAREN -> Forall plain cond ->
  Forall (fun t => lexeme t <> []) cond ->
  type rp = TOKEN_RPAREN -> type kw = TOKEN_KEYWORD ->
  type lb = TOKEN_LBRACE ->
  (length opening <= 16)%nat ->
  control_head m1 m2 m3 opening (block stmt fuel m4 m5 closing (ret true)) p
  = Ret true p' ->
  let header :=
    opening ++ firstn 255 (join_lexemes cond) ++ str ") {" ++ [nl] in
  exists body q,
    body_loop stmt fuel (emit (advance_by p (length cond + 4)) header)
    = Ret true q
    /\ output q = (output p ++ header) ++ body
    /\ match_ TOKEN_RBRACE q = Ret true q
    /\ p' = emit (next q) closing
    /\ output p' = output p ++ header ++ body ++ closing.
Proof.
  intros Hk Hfw H Hl Hc Hne Hr Hkw Hlb Hop E header.
  destruct (control_statement_run _ _ _ _ _ _ _ _ _ _ _ _ _ _ _ _ _ _
              Hk H Hl Hc Hr Hkw Hlb Hop E)
    as (q & rb & l' & Eb & Hq & Hrb & _ & Ek).
  rewrite (slurp_text_join _ Hne) in Eb. fold header in Eb.
  destruct (forward_body_loop stmt fuel Hfw _ _ _ Eb)
    as (_ & _ & (body & Ho) & _).
  cbn [emit advance_by output] in Ho.
  exists body, q. split; [exact Eb|]. split; [exact Ho|].
  split; [rewrite (match_eq _ _ _ TOKEN_RBRACE (proj1 Hq)), Hrb; reflexivity|].
  inversion Ek. split; [reflexivity|].
  cbn [emit next output]. rewrite Ho, <- !app_assoc. reflexivity.
Qed.

Lemma block_opened stmt fuel m1 m2 closing k p l p' :
  keeps advances stmt -> forward stmt ->
  ready p l ->
  block stmt fuel m1 m2 closing k p = Ret true p' ->
  exists body q,
    body_loop stmt fuel (next p) = Ret true q
    /\ output q = output p ++ body
    /\ match_ TOKEN_RBRACE q = Ret true q
    /\ k (emit (next q) closing) = Ret true p'.
Proof.
  intros Hk Hfw H E.
  assert (Hl : exists lb l1, l = lb :: l1 /\ type lb = TOKEN_LBRACE).
  { unfold block in E. pose proof E as E'.
    eapply require_consume_inv in E'; [|exact H|discriminate].
    destruct E' as (lb & l1 & -> & Hlb & _). eauto. }
  destruct Hl as (lb & l1 & -> & Hlb).
  destruct (block_run _ _ _ _ _ _ _ _ _ _ Hk H Hlb E)
    as (q & rb & l' & Eb & Hq & Hrb & _ & Ek).
  destruct (forward_body_loop stmt fuel Hfw _ _ _ Eb)
    as (_ & _ & (body & Ho) & _).
  exists body, q. split; [exact Eb|]. split; [exact Ho|].
  split; [|exact Ek].
  rewrite (match_eq _ _ _ TOKEN_RBRACE (proj1 Hq)), Hrb. reflexivity.
Qed.

(** An [if] that was parsed, with its [else] when the keyword follows
    the closing brace. *)
Lemma if_run fuel p lparen cond rp kw lb rest p' :
  ready p (lparen :: cond ++ rp :: kw :: lb :: rest) ->
  type lparen = TOKEN_LPAREN -> Forall plain cond ->
  Forall (fun t => lexeme t <> []) cond ->
  type rp = TOKEN_RPAREN -> type kw = TOKEN_KEYWORD ->
  type lb = TOKEN_LBRACE ->
  parse_if_statement (parse_statement fuel) fuel p = Ret true p' ->
  let header :=
    str "    if (" ++ firstn 255 (join_lexemes cond) ++ str ") {" ++ [nl] in
  let closing := str "    }" ++ [nl] in
  exists body q rb l',
    body_loop (parse_statement fuel) fuel
      (emit (advance_by p (length cond + 4)) header) = Ret true q
    /\ output q = (output p ++ header) ++ body
    /\ ready q (rb :: l') /\ type rb = TOKEN_RBRACE
    /\ if starts_with_else l'
       then exists body2 q2,
              body_loop (parse_statement fuel) fuel
                (emit (advance_by q 3)
                   (closing ++ str "    else {" ++ [nl])) = Ret true q2
              /\ output q2
                 = (output q ++ closing ++ str "    else {" ++ [nl]) ++ body2
              /\ match_ TOKEN_RBRACE q2 = Ret true q2
              /\ p' = emit (next q2) closing
       else p' = emit (next q) closing.
Proof.
  intros H Hl Hc Hne Hr Hkw Hlb E header closing.
  assert (Hk : keeps advances (parse_statement fuel))
    by auto with keeps.
  change (parse_if_statement (parse_statement fuel) fuel)
    with (control_head (str "Expected '(' before if condition")
            (str "Expected ')' after if condition")
            (str "Expected 'if' keyword after condition")
            (str "    if (")
            (block (parse_statement fuel) fuel
               (str "Expected '{' before if body")
               (str "Expected '}' after if body")
               (str "    }" ++ [nl])
               (at_keyword <- match_ TOKEN_KEYWORD ;;
                t <- current_token ;;
                if at_keyword && cstring_eqb (lexeme t) (str "else") then
                  advance ;;;
                  append_output (str "    else {" ++ [nl]) ;;;
                  block (parse_statement fuel) fuel
                    (str "Expected '{' before else body")
                    (str "Expected '}' after else body")
                    (str "    }" ++ [nl]) (ret true)
                else ret true))) in E.
  assert (Hop : (length (str "    if (") <= 16)%nat)
    by (cbn [length str list_ascii_of_string]; lia).
  destruct (control_statement_run _ _ _ _ _ _ _ _ _ _ _ _ _ _ _ _ _ _
              Hk H Hl Hc Hr Hkw Hlb Hop E)
    as (q & rb & l' & Eb & Hq & Hrb & _ & Ek).
  rewrite (slurp_text_join _ Hne) in Eb. fold header in Eb.
  destruct (forward_body_loop _ fuel (forward_parse_statement fuel) _ _ _ Eb)
    as (_ & _ & (body & Ho) & _).
  cbn [emit advance_by output] in Ho.
  exists body, q, rb, l'. split; [exact Eb|]. split; [exact Ho|].
  split; [exact Hq|]. split; [exact Hrb|].
  assert (Hne' : type rb <> TOKEN_EOF) by (rewrite Hrb; discriminate).
  assert (H1 : ready (emit (next q) closing) l')
    by (apply ready_emit, (ready_next _ _ _ Hq Hne')).
  fold closing in Ek.
  destruct (ready_cons _ _ H1) as (e & l2 & ->).
  rewrite (bind_eq _ _ _ _ _ (match_eq _ _ _ TOKEN_KEYWORD (proj1 H1))) in Ek.
  rewrite (bind_eq _ _ _ _ _ (current_token_eq _ _ _ (proj1 H1))) in Ek.
  cbn [starts_with_else].
  destruct (TokenType_eqb (type e) TOKEN_KEYWORD
            && cstring_eqb (lexeme e) (str "else")) eqn:Ee.
  - apply andb_true_iff in Ee as [Ee _]. apply TokenType_eqb_eq in Ee.
    assert (Hee : type e <> TOKEN_EOF) by (rewrite Ee; discriminate).
    rewrite (bind_eq _ _ _ _ _ (ready_advance _ _ _ H1 Hee)) in Ek.
    append_in Ek.
    assert (H2 : ready (emit (next (emit (next q) closing))
                          (str "    else {" ++ [nl])) l2)
      by (apply ready_emit, (ready_next _ _ _ H1 Hee)).
    destruct (block_opened _ _ _ _ _ _ _ _ _ Hk
                (forward_parse_statement fuel) H2 Ek)
      as (body2 & q2 & Eb2 & Ho2 & Hm2 & Ek2).
    assert (Es : next (emit (next (emit (next q) closing))
                         (str "    else {" ++ [nl]))
                 = emit (advance_by q 3)
                     (closing ++ str "    else {" ++ [nl])).
    { unfold next, emit, advance_by.
      cbn [tokens current_token_pos output stdout].
      f_equal; try lia. rewrite <- !app_assoc. reflexivity. }
    rewrite Es in Eb2. exists body2, q2.
    split; [exact Eb2|]. split; [|split; [exact Hm2|]].
    + rewrite Ho2. cbn [emit next output]. rewrite <- !app_assoc.
      reflexivity.
    + inversion Ek2. reflexivity.
  - inversion Ek. reflexivity.
Qed.

(** Tokens without parentheses leave the nesting level as it is. *)
Lemma inside_parens_plain level a b :
  0 < level -> Forall plain a ->
  inside_parens level (a ++ b) = inside_parens level b.
Proof.
  intros Hlev Hf. induction Hf as [|t a (H1 & H2 & H3) Hf IH]; [reflexivity|].
  cbn [app inside_parens]. unfold level_after.
  apply TokenType_eqb_neq in H1, H2, H3. rewrite H1, H2, H3.
  apply Z.ltb_lt in Hlev. rewrite Hlev. exact IH.
Qed.

(** A condition that holds a parenthesised part is cut at the closing
    parenthesis of that part, where no keyword follows. *)
Lemma parse_while_loop_nested stmt fuel p lparen c1 lp2 c2 rp2 y rest :
  ready p (lparen :: c1 ++ lp2 :: c2 ++ rp2 :: y :: rest) ->
  type lparen = TOKEN_LPAREN -> Forall plain c1 ->
  type lp2 = TOKEN_LPAREN -> Forall plain c2 ->
  type rp2 = TOKEN_RPAREN -> type y <> TOKEN_KEYWORD ->
  parse_while_loop stmt fuel p
  = failed (advance_by p (length c1 + length c2 + 3))
      (str "Expected 'while' keyword after condition") y.
Proof.
  intros H Hl H1 Hlp H2 Hrp Hy.
  change (parse_while_loop stmt fuel)
    with (control_head (str "Expected '(' before while loop condition")
            (str "Expected ')' after while loop condition")
            (str "Expected 'while' keyword after condition")
            (str "    while (")
            (block stmt fuel (str "Expected '{' before while loop body")
               (str "Expected '}' after while loop body")
               (str "    }" ++ [nl]) (ret true))).
  assert (E : lparen :: c1 ++ lp2 :: c2 ++ rp2 :: y :: rest
              = lparen :: (c1 ++ lp2 :: c2) ++ rp2 :: y :: rest)
    by (rewrite <- app_assoc; reflexivity).
  rewrite E in H.
  rewrite (control_head_eq _ _ _ (str "    while (") _ _ _ _ _ _ _ H Hl).
  - apply TokenType_eqb_neq in Hy. rewrite Hy.
    rewrite length_app. cbn [length]. do 2 f_equal. lia.
  - apply Forall_app. split; [apply plain_until_rparen; exact H1|].
    constructor; [rewrite Hlp; split; discriminate|].
    apply plain_until_rparen. exact H2.
  - exact Hrp.
  - cbn [length str list_ascii_of_string]. lia.
Qed.

(** ** Parameter lists *)

(** After a parameter, a token that is neither a comma nor a closing
    parenthesis ends the parsing of the function. *)
Lemma parse_function_declaration_separator fuel p lparen n t x rest :
  ready p (lparen :: n :: t :: x :: rest) ->
  type lparen = TOKEN_LPAREN ->
  type n = TOKEN_IDENTIFIER -> type t = TOKEN_KEYWORD ->
  type x <> TOKEN_COMMA -> type x <> TOKEN_RPAREN ->
  (length (lexeme t) + 1 + length (lexeme n) < 1024)%nat ->
  parse_function_declaration fuel p
  = Ret false
      (print (advance_by p 3)
         (str "Parser Error: Expected ',' or ')' in argument list." ++ [nl])).
Proof.
  intros H Hl Hn Ht Hx1 Hx2 Hlen. unfold parse_function_declaration, require.
  rewrite (bind_eq _ _ _ _ _ (consume_ok _ _ _ _ _ _ (proj1 H) Hl)).
  cbn iota.
  assert (H1 : ready (next p) (n :: t :: x :: rest))
    by (apply (ready_next _ _ _ H); rewrite Hl; discriminate).
  assert (H2 : ready (next (next p)) (t :: x :: rest))
    by (apply (ready_next _ _ _ H1); rewrite Hn; discriminate).
  assert (H3 : ready (next (next (next p))) (x :: rest))
    by (apply (ready_next _ _ _ H2); rewrite Ht; discriminate).
  assert (Ea : forall k,
             args_loop (S k) [] (next p)
             = Ret None
                 (print (advance_by p 3)
                    (str "Parser Error: Expected ',' or ')' in argument list."
                       ++ [nl]))).
  { intro k. cbn [args_loop].
    rewrite (bind_eq _ _ _ _ _ (match_eq _ _ _ TOKEN_RPAREN (proj1 H1))).
    rewrite (bind_eq _ _ _ _ _ (match_eq _ _ _ TOKEN_EOF (proj1 H1))).
    rewrite Hn. cbn [TokenType_eqb negb andb length Nat.ltb Nat.leb].
    rewrite (bind_eq _ _ _ _ _
               (eq_refl : ret (@nil ascii) (next p) = Ret [] (next p))).
    rewrite (bind_eq _ _ _ _ _ (current_token_eq _ _ _ (proj1 H1))).
    rewrite (bind_eq _ _ _ _ _ (consume_ok _ _ _ _ _ _ (proj1 H1) Hn)).
    cbn [negb].
    rewrite (bind_eq _ _ _ _ _ (current_token_eq _ _ _ (proj1 H2))).
    rewrite (bind_eq _ _ _ _ _ (consume_ok _ _ _ _ _ _ (proj1 H2) Ht)).
    cbn [negb].
    unfold strcat_into at 1. unfold bind at 1. cbn [app].
    replace (length (lexeme t) <? 1024)%nat with true
      by (symmetry; apply Nat.ltb_lt; lia).
    unfold strcat_into at 1. unfold bind at 1.
    replace (length (lexeme t ++ str " ") <? 1024)%nat with true
      by (symmetry; apply Nat.ltb_lt; rewrite length_app;
          cbn [length str list_ascii_of_string]; lia).
    unfold strcat_into at 1. unfold bind at 1.
    replace (length ((lexeme t ++ str " ") ++ lexeme n) <? 1024)%nat
      with true
      by (symmetry; apply Nat.ltb_lt; rewrite !length_app;
          cbn [length str list_ascii_of_string]; lia).
    apply TokenType_eqb_neq in Hx1, Hx2.
    rewrite (bind_eq _ _ _ _ _ (match_eq _ _ _ TOKEN_COMMA (proj1 H3))), Hx1.
    rewrite (bind_eq _ _ _ _ _ (match_eq _ _ _ TOKEN_RPAREN (proj1 H3))), Hx2.
    cbn [negb].
    rewrite (bind_eq _ _ _ _ _ (printf_eq _ _)).
    unfold ret, print, next, advance_by.
    cbn [tokens current_token_pos output stdout]. do 2 f_equal. lia. }
  unfold bind at 1. rewrite Ea. reflexivity.
Qed.

(** ** Parameter lists that are accepted *)

Lemma with_param_length args a :
  (length args <= length (with_param args a))%nat.
Proof.
  unfold with_param. destruct (0 <? length args)%nat;
    rewrite !length_app; lia.
Qed.

Lemma args_text_length args ps :
  (length args <= length (args_text args ps))%nat.
Proof.
  revert args. induction ps as [|a ps IH]; intro args; cbn [args_text];
    [lia|].
  etransitivity; [apply (with_param_length args a)|apply IH].
Qed.

(** One turn of the loop over the parameters, up to the test for a
    comma. *)
Lemma args_loop_pair k args p n t rest :
  ready p (n :: t :: rest) ->
  type n = TOKEN_IDENTIFIER -> type t = TOKEN_KEYWORD ->
  (length (with_param args (n, t)) < 1024)%nat ->
  args_loop (S k) args p
  = (at_comma <- match_ TOKEN_COMMA ;;
     if at_comma then advance ;;; args_loop k (with_param args (n, t))
     else
       at_rparen <- match_ TOKEN_RPAREN ;;
       if negb at_rparen then
         printf (str "Parser Error: Expected ',' or ')' in argument list."
                   ++ [nl]) ;;;
         ret None
       else args_loop k (with_param args (n, t))) (advance_by p 2).
Proof.
  intros H Hn Ht Hlen.
  assert (H2 : ready (next p) (t :: rest))
    by (apply (ready_next _ _ _ H); rewrite Hn; discriminate).
  cbn [args_loop].
  rewrite (bind_eq _ _ _ _ _ (match_eq _ _ _ TOKEN_RPAREN (proj1 H))).
  rewrite (bind_eq _ _ _ _ _ (match_eq _ _ _ TOKEN_EOF (proj1 H))).
  rewrite Hn. cbn [TokenType_eqb negb andb].
  unfold with_param, param_text in *. cbn [fst snd] in *.
  assert (E0 : exists pre,
             pre = (if (0 <? length args)%nat then args ++ str ", " else args)
             /\ (if (0 <? length args)%nat
                 then strcat_into 1024 args (str ", ") else ret args) p
                = Ret pre p).
  { eexists. split; [reflexivity|].
    destruct (0 <? length args)%nat; [|reflexivity].
    unfold strcat_into.
    replace (length (args ++ str ", ") <? 1024)%nat with true;
      [reflexivity|].
    symmetry. apply Nat.ltb_lt. rewrite !length_app in Hlen.
    rewrite length_app. lia. }
  destruct E0 as (pre & Epre & E0). rewrite <- Epre in *. clear Epre.
  rewrite (bind_eq _ _ _ _ _ E0).
  rewrite (bind_eq _ _ _ _ _ (current_token_eq _ _ _ (proj1 H))).
  rewrite (bind_eq _ _ _ _ _ (consume_ok _ _ _ _ _ _ (proj1 H) Hn)).
  cbn [negb].
  rewrite (bind_eq _ _ _ _ _ (current_token_eq _ _ _ (proj1 H2))).
  unfold bind at 1.
  rewrite (consume_eq _ _ _ _ _ (proj1 H2) (proj2 H2)) by discriminate.
  rewrite Ht. cbn [TokenType_eqb negb].
  rewrite !length_app in Hlen. cbn [length str list_ascii_of_string] in Hlen.
  unfold strcat_into at 1. unfold bind at 1.
  replace (length (pre ++ lexeme t) <? 1024)%nat with true
    by (symmetry; apply Nat.ltb_lt; rewrite length_app; lia).
  unfold strcat_into at 1. unfold bind at 1.
  replace (length ((pre ++ lexeme t) ++ str " ") <? 1024)%nat with true
    by (symmetry; apply Nat.ltb_lt; rewrite !length_app;
        cbn [length str list_ascii_of_string]; lia).
  unfold strcat_into at 1. unfold bind at 1.
  replace (length (((pre ++ lexeme t) ++ str " ") ++ lexeme n) <? 1024)%nat
    with true
    by (symmetry; apply Nat.ltb_lt; rewrite !length_app;
        cbn [length str list_ascii_of_string]; lia).
  replace (((pre ++ lexeme t) ++ str " ") ++ lexeme n)
    with (pre ++ lexeme t ++ str " " ++ lexeme n)
    by (rewrite <- !app_assoc; reflexivity).
  replace (next (next p)) with (advance_by p 2)
    by (unfold next, advance_by;
        cbn [tokens current_token_pos output stdout]; f_equal; lia).
  reflexivity.
Qed.

(** The loop over a parameter list that ends with the closing
    parenthesis. *)
Lemma args_loop_params n args p toks ps x rest :
  ready p (toks ++ x :: rest) ->
  param_list toks ps -> type x = TOKEN_RPAREN ->
  (length (args_text args ps) < 1024)%nat ->
  (length toks < n)%nat ->
  args_loop n args p
  = Ret (Some (args_text args ps)) (advance_by p (length toks)).
Proof.
  intros H Hps Hx. revert n args p H.
  assert (Hexit : forall n args p,
            ready p (x :: rest) -> (0 < n)%nat ->
            args_loop n args p = Ret (Some args) p).
  { intros [|n] args p H Hn; [lia|]. cbn [args_loop].
    rewrite (bind_eq _ _ _ _ _ (match_eq _ _ _ TOKEN_RPAREN (proj1 H))).
    rewrite (bind_eq _ _ _ _ _ (match_eq _ _ _ TOKEN_EOF (proj1 H))).
    rewrite Hx. reflexivity. }
  induction Hps as [|a t Ha Ht|a t c toks ps Ha Ht Hc Hps IH Hne];
    intros n args p H Hlen Hn.
  - cbn [length args_text]. rewrite advance_by_0.
    apply Hexit; [exact H|lia].
  - destruct n as [|n]; [lia|]. cbn [app] in H. cbn [args_text] in *.
    fold (with_param args (a, t)) in *.
    rewrite (args_loop_pair n args p a t _ H Ha Ht Hlen).
    assert (H2 : ready (advance_by p 2) (x :: rest)).
    { apply (ready_advance_by p [a; t] (x :: rest) H).
      repeat constructor; [rewrite Ha|rewrite Ht]; discriminate. }
    rewrite (bind_eq _ _ _ _ _ (match_eq _ _ _ TOKEN_COMMA (proj1 H2))).
    rewrite Hx. cbn [TokenType_eqb].
    rewrite (bind_eq _ _ _ _ _ (match_eq _ _ _ TOKEN_RPAREN (proj1 H2))).
    rewrite Hx. cbn [TokenType_eqb negb length].
    apply Hexit; [exact H2|cbn [length] in Hn; lia].
  - destruct n as [|n]; [lia|]. cbn [app] in H. cbn [args_text] in *.
    fold (with_param args (a, t)) in *.
    assert (Hfit : (length (with_param args (a, t)) < 1024)%nat).
    { pose proof (args_text_length (with_param args (a, t)) ps). lia. }
    rewrite (args_loop_pair n args p a t _ H Ha Ht Hfit).
    assert (H2 : ready (advance_by p 2) (c :: toks ++ x :: rest)).
    { apply (ready_advance_by p [a; t] _ H).
      repeat constructor; [rewrite Ha|rewrite Ht]; discriminate. }
    rewrite (bind_eq _ _ _ _ _ (match_eq _ _ _ TOKEN_COMMA (proj1 H2))).
    rewrite Hc. cbn [TokenType_eqb].
    assert (Hcne : type c <> TOKEN_EOF) by (rewrite Hc; discriminate).
    rewrite (bind_eq _ _ _ _ _ (ready_advance _ _ _ H2 Hcne)).
    rewrite (IH n _ _ (ready_next _ _ _ H2 Hcne) Hlen)
      by (cbn [length] in Hn; lia).
    f_equal. unfold next, advance_by.
    cbn [tokens current_token_pos output stdout length]. f_equal. lia.
Qed.

(** The same when a comma comes before the closing parenthesis. *)
Lemma args_loop_trailing_comma n args p toks ps c x rest :
  ready p (toks ++ c :: x :: rest) ->
  param_list toks ps -> ps <> [] ->
  type c = TOKEN_COMMA -> type x = TOKEN_RPAREN ->
  (length (args_text args ps) < 1024)%nat ->
  (length toks + 1 < n)%nat ->
  args_loop n args p
  = Ret (Some (args_text args ps)) (advance_by p (length toks + 1)).
Proof.
  intros H Hps Hne Hc Hx. revert n args p H.
  assert (Hexit : forall n args p,
            ready p (x :: rest) -> (0 < n)%nat ->
            args_loop n args p = Ret (Some args) p).
  { intros [|n] args p H Hn; [lia|]. cbn [args_loop].
    rewrite (bind_eq _ _ _ _ _ (match_eq _ _ _ TOKEN_RPAREN (proj1 H))).
    rewrite (bind_eq _ _ _ _ _ (match_eq _ _ _ TOKEN_EOF (proj1 H))).
    rewrite Hx. reflexivity. }
  assert (Hcne : type c <> TOKEN_EOF) by (rewrite Hc; discriminate).
  induction Hps as [|a t Ha Ht|a t c' toks ps Ha Ht Hc' Hps IH Hne'];
    intros n args p H Hlen Hn.
  - contradiction.
  - destruct n as [|n]; [lia|]. cbn [app] in H. cbn [args_text] in *.
    fold (with_param args (a, t)) in *.
    rewrite (args_loop_pair n args p a t _ H Ha Ht Hlen).
    assert (H2 : ready (advance_by p 2) (c :: x :: rest)).
    { apply (ready_advance_by p [a; t] _ H).
      repeat constructor; [rewrite Ha|rewrite Ht]; discriminate. }
    rewrite (bind_eq _ _ _ _ _ (match_eq _ _ _ TOKEN_COMMA (proj1 H2))).
    rewrite Hc. cbn [TokenType_eqb].
    rewrite (bind_eq _ _ _ _ _ (ready_advance _ _ _ H2 Hcne)).
    rewrite (Hexit n _ _ (ready_next _ _ _ H2 Hcne))
      by (cbn [length] in Hn; lia).
    f_equal. unfold next, advance_by.
    cbn [tokens current_token_pos output stdout length]. f_equal. lia.
  - destruct n as [|n]; [lia|]. cbn [app] in H. cbn [args_text] in *.
    fold (with_param args (a, t)) in *.
    assert (Hfit : (length (with_param args (a, t)) < 1024)%nat).
    { pose proof (args_text_length (with_param args (a, t)) ps). lia. }
    rewrite (args_loop_pair n args p a t _ H Ha Ht Hfit).
    assert (H2 : ready (advance_by p 2) (c' :: toks ++ c :: x :: rest)).
    { apply (ready_advance_by p [a; t] _ H).
      repeat constructor; [rewrite Ha|rewrite Ht]; discriminate. }
    rewrite (bind_eq _ _ _ _ _ (match_eq _ _ _ TOKEN_COMMA (proj1 H2))).
    rewrite Hc'. cbn [TokenType_eqb].
    assert (Hcne' : type c' <> TOKEN_EOF) by (rewrite Hc'; discriminate).
    rewrite (bind_eq _ _ _ _ _ (ready_advance _ _ _ H2 Hcne')).
    rewrite (IH Hne' n _ _ (ready_next _ _ _ H2 Hcne') Hlen)
      by (cbn [length] in Hn; lia).
    f_equal. unfold next, advance_by.
    cbn [tokens current_token_pos output stdout length]. f_equal. lia.
Qed.

(** The statement loop at a closing brace or at the end of the input. *)
Lemma body_loop_stops stmt n p t rest :
  at_cursor p (t :: rest) ->
  type t = TOKEN_RBRACE \/ type t = TOKEN_EOF ->
  body_loop stmt (S n) p = Ret true p.
Proof.
  intros H Ht. cbn [body_loop].
  rewrite (bind_eq _ _ _ _ _ (match_eq _ _ _ TOKEN_RBRACE H)).
  rewrite (bind_eq _ _ _ _ _ (match_eq _ _ _ TOKEN_EOF H)).
  destruct Ht as [-> | ->]; reflexivity.
Qed.

(** A function definition from the name on, when the parameters have
    been read into [args] and the body is empty or missing. *)
Lemma function_after_args fuel args p rparen name rtype lbrace x rest :
  ready p (rparen :: name :: rtype :: lbrace :: x :: rest) ->
  type rparen = TOKEN_RPAREN -> type name = TOKEN_IDENTIFIER ->
  type rtype = TOKEN_KEYWORD -> type lbrace = TOKEN_LBRACE ->
  type x = TOKEN_RBRACE \/ type x = TOKEN_EOF ->
  (length (header_text rtype name args) < 2048)%nat ->
  require (consume TOKEN_RPAREN
             (str "Expected ')' after function arguments")) (
    func_name <- current_token ;;
    require (consume TOKEN_IDENTIFIER (str "Expected function name")) (
    return_type <- current_token ;;
    require (consume TOKEN_KEYWORD
               (str "Expected function return type")) (
    func_header <- sprintf_into 2048
                     (lexeme return_type ++ str " " ++ lexeme func_name
                        ++ str "(" ++ args ++ str ") {" ++ [nl]) ;;
    append_output func_header ;;;
    require (consume TOKEN_LBRACE
               (str "Expected '{' before function body")) (
    require (body_loop (parse_statement (S fuel)) (S fuel)) (
    require (consume TOKEN_RBRACE
               (str "Expected '}' after function body")) (
    append_output (str "}" ++ [nl; nl]) ;;;
    ret true)))))) p
  = if TokenType_eqb (type x) TOKEN_RBRACE
    then Ret true
           (emit (advance_by p 5)
              (header_text rtype name args ++ str "}" ++ [nl; nl]))
    else failed (emit (advance_by p 4) (header_text rtype name args))
           (str "Expected '}' after function body") x.
Proof.
  intros H Hrp Hname Hrt Hlb Hx Hlen. unfold require.
  assert (H1 : ready (next p) (name :: rtype :: lbrace :: x :: rest))
    by (apply (ready_next _ _ _ H); rewrite Hrp; discriminate).
  assert (H2 : ready (next (next p)) (rtype :: lbrace :: x :: rest))
    by (apply (ready_next _ _ _ H1); rewrite Hname; discriminate).
  assert (H3 : ready (next (next (next p))) (lbrace :: x :: rest))
    by (apply (ready_next _ _ _ H2); rewrite Hrt; discriminate).
  rewrite (bind_eq _ _ _ _ _ (consume_ok _ _ _ _ _ _ (proj1 H) Hrp)).
  cbn iota.
  rewrite (bind_eq _ _ _ _ _ (current_token_eq _ _ _ (proj1 H1))).
  rewrite (bind_eq _ _ _ _ _ (consume_ok _ _ _ _ _ _ (proj1 H1) Hname)).
  cbn iota.
  rewrite (bind_eq _ _ _ _ _ (current_token_eq _ _ _ (proj1 H2))).
  rewrite (bind_eq _ _ _ _ _ (consume_ok _ _ _ _ _ _ (proj1 H2) Hrt)).
  cbn iota.
  fold (header_text rtype name args).
  unfold sprintf_into at 1. unfold bind at 1.
  replace (length (header_text rtype name args) <? 2048)%nat with true
    by (symmetry; apply Nat.ltb_lt; exact Hlen).
  rewrite (bind_eq _ _ _ _ _ (append_output_eq _ _)).
  set (h := header_text rtype name args) in *.
  assert (H3' : ready (emit (next (next (next p))) h) (lbrace :: x :: rest))
    by (apply ready_emit; exact H3).
  rewrite (bind_eq _ _ _ _ _ (consume_ok _ _ _ _ _ _ (proj1 H3') Hlb)).
  cbn iota.
  assert (H4 : ready (next (emit (next (next (next p))) h)) (x :: rest))
    by (apply (ready_next _ _ _ H3'); rewrite Hlb; discriminate).
  rewrite (bind_eq _ _ _ _ _ (body_loop_stops _ _ _ _ _ (proj1 H4) Hx)).
  cbn iota. unfold bind at 1.
  rewrite (consume_eq _ _ _ _ _ (proj1 H4) (proj2 H4)) by discriminate.
  destruct (TokenType_eqb (type x) TOKEN_RBRACE).
  - rewrite (bind_eq _ _ _ _ _ (append_output_eq _ _)).
    unfold ret, emit, next, advance_by.
    cbn [tokens current_token_pos output stdout]. f_equal.
    f_equal; try lia. rewrite <- !app_assoc. reflexivity.
  - unfold failed, print, emit, next, advance_by.
    cbn [tokens current_token_pos output stdout]. unfold ret.
    f_equal. f_equal. lia.
Qed.

(** A function definition with an empty or a missing body. *)
Lemma parse_function_declaration_empty
      fuel p lparen toks ps rparen name rtype lbrace x rest :
  ready p (lparen :: toks ++ rparen :: name :: rtype :: lbrace :: x :: rest) ->
  type lparen = TOKEN_LPAREN -> param_list toks ps ->
  type rparen = TOKEN_RPAREN -> type name = TOKEN_IDENTIFIER ->
  type rtype = TOKEN_KEYWORD -> type lbrace = TOKEN_LBRACE ->
  type x = TOKEN_RBRACE \/ type x = TOKEN_EOF ->
  (length (args_text [] ps) < 1024)%nat ->
  (length (header_text rtype name (args_text [] ps)) < 2048)%nat ->
  parse_function_declaration (S fuel) p
  = if TokenType_eqb (type x) TOKEN_RBRACE
    then Ret true
           (emit (advance_by p (length toks + 6))
              (header_text rtype name (args_text [] ps)
                 ++ str "}" ++ [nl; nl]))
    else failed (emit (advance_by p (length toks + 5))
                   (header_text rtype name (args_text [] ps)))
           (str "Expected '}' after function body") x.
Proof.
  intros H Hl Hps Hrp Hname Hrt Hlb Hx Hargs Hlen.
  unfold parse_function_declaration.
  unfold require at 1.
  assert (H0 : at_cursor p (lparen :: hd rparen toks
                              :: tl (toks ++ rparen :: name :: rtype
                                       :: lbrace :: x :: rest)))
    by (destruct toks; exact (proj1 H)).
  rewrite (bind_eq _ _ _ _ _ (consume_ok _ _ _ _ _ _ H0 Hl)). cbn iota.
  assert (H1 : ready (next p)
                 (toks ++ rparen :: name :: rtype :: lbrace :: x :: rest))
    by (apply (ready_next _ _ _ H); rewrite Hl; discriminate).
  assert (Ea : args_loop (S (length (tokens (next p)))) [] (next p)
               = Ret (Some (args_text [] ps))
                     (advance_by (next p) (length toks))).
  { apply (args_loop_params _ _ _ _ _ _ _ H1 Hps Hrp Hargs).
    pose proof (tokens_left _ _ H1) as Hleft.
    rewrite length_app in Hleft. cbn [length] in Hleft. lia. }
  unfold bind at 1. rewrite Ea.
  assert (H2 : ready (advance_by (next p) (length toks))
                 (rparen :: name :: rtype :: lbrace :: x :: rest)).
  { apply (ready_advance_by _ _ _ H1).
    clear -Hps. induction Hps; repeat constructor;
      try (rewrite H; discriminate); try (rewrite H0; discriminate);
      try (rewrite H1; discriminate); assumption. }
  rewrite (function_after_args fuel _ _ _ _ _ _ _ _ H2 Hrp Hname Hrt Hlb Hx
             Hlen).
  rewrite !advance_by_S.
  replace (S (length toks)) with (length toks + 1)%nat by lia.
  unfold advance_by. cbn [tokens current_token_pos output stdout].
  replace (current_token_pos p + Z.of_nat (length toks + 1) + Z.of_nat 5)
    with (current_token_pos p + Z.of_nat (length toks + 6)) by lia.
  replace (current_token_pos p + Z.of_nat (length toks + 1) + Z.of_nat 4)
    with (current_token_pos p + Z.of_nat (length toks + 5)) by lia.
  reflexivity.
Qed.

Lemma param_list_no_eof toks ps :
  param_list toks ps -> Forall (fun t => type t <> TOKEN_EOF) toks.
Proof.
  induction 1 as [|a t Ha Ht|a t c toks ps Ha Ht Hc Hps IH Hne];
    repeat constructor;
    try (rewrite Ha; discriminate); try (rewrite Ht; discriminate);
    try (rewrite Hc; discriminate); assumption.
Qed.

(** A comma before the closing parenthesis of the parameters changes
    nothing. *)
Lemma parse_function_declaration_trailing_comma
      fuel p lparen toks ps c rparen name rtype lbrace x rest :
  ready p (lparen :: toks ++ c :: rparen :: name :: rtype :: lbrace :: x
             :: rest) ->
  type lparen = TOKEN_LPAREN -> param_list toks ps -> ps <> [] ->
  type c = TOKEN_COMMA ->
  type rparen = TOKEN_RPAREN -> type name = TOKEN_IDENTIFIER ->
  type rtype = TOKEN_KEYWORD -> type lbrace = TOKEN_LBRACE ->
  type x = TOKEN_RBRACE ->
  (length (args_text [] ps) < 1024)%nat ->
  (length (header_text rtype name (args_text [] ps)) < 2048)%nat ->
  parse_function_declaration (S fuel) p
  = Ret true
      (emit (advance_by p (length toks + 7))
         (header_text rtype name (args_text [] ps) ++ str "}" ++ [nl; nl])).
Proof.
  intros H Hl Hps Hne Hc Hrp Hname Hrt Hlb Hx Hargs Hlen.
  unfold parse_function_declaration.
  unfold require at 1.
  assert (H0 : at_cursor p (lparen :: hd c toks
                              :: tl (toks ++ c :: rparen :: name :: rtype
                                       :: lbrace :: x :: rest)))
    by (destruct toks; exact (proj1 H)).
  rewrite (bind_eq _ _ _ _ _ (consume_ok _ _ _ _ _ _ H0 Hl)). cbn iota.
  assert (H1 : ready (next p)
                 (toks ++ c :: rparen :: name :: rtype :: lbrace :: x
                    :: rest))
    by (apply (ready_next _ _ _ H); rewrite Hl; discriminate).
  assert (Ea : args_loop (S (length (tokens (next p)))) [] (next p)
               = Ret (Some (args_text [] ps))
                     (advance_by (next p) (length toks + 1))).
  { apply (args_loop_trailing_comma _ _ _ _ _ _ _ _ H1 Hps Hne Hc Hrp Hargs).
    pose proof (tokens_left _ _ H1) as Hleft.
    rewrite length_app in Hleft. cbn [length] in Hleft. lia. }
  unfold bind at 1. rewrite Ea.
  assert (H2 : ready (advance_by (next p) (length toks + 1))
                 (rparen :: name :: rtype :: lbrace :: x :: rest)).
  { replace (length toks + 1)%nat with (length (toks ++ [c]))
      by (rewrite length_app; reflexivity).
    apply ready_advance_by.
    - rewrite <- app_assoc. exact H1.
    - apply Forall_app. split; [apply (param_list_no_eof _ _ Hps)|].
      repeat constructor. rewrite Hc. discriminate. }
  rewrite (function_after_args fuel _ _ _ _ _ _ _ _ H2 Hrp Hname Hrt Hlb
             (or_introl Hx) Hlen).
  rewrite Hx. cbn [TokenType_eqb].
  rewrite !advance_by_S. unfold advance_by.
  cbn [tokens current_token_pos output stdout].
  do 2 f_equal. unfold emit. cbn [tokens current_token_pos output stdout].
  f_equal. lia.
Qed.

(** A parenthesis that opens neither a control structure nor a call. *)
Lemma parse_statement_paren_rejected fuel p lparen run rp y z rest :
  at_cursor p (lparen :: run ++ rp :: y :: z :: rest) ->
  type lparen = TOKEN_LPAREN -> inside_parens 1 run = true ->
  type rp = TOKEN_RPAREN ->
  (type y = TOKEN_KEYWORD ->
   lexeme y <> str "for" /\ lexeme y <> str "while" /\ lexeme y <> str "if") ->
  (type y = TOKEN_IDENTIFIER -> type z <> TOKEN_SEMICOLON) ->
  parse_statement (S fuel) p
  = Ret false
      (print p (str "Parser Error: Unrecognized statement starting with '"
                  ++ lexeme lparen ++ str "'" ++ [nl])).
Proof.
  intros H Hl Hin Hr Hkw Hid.
  assert (Hp : parse_passthrough p
               = Ret false
                   (print p
                      (str "Parser Error: Unrecognized statement starting with '"
                         ++ lexeme lparen ++ str "'" ++ [nl]))).
  { unfold parse_passthrough.
    rewrite (bind_eq _ _ _ _ _ (match_eq _ _ _ TOKEN_KEYWORD H)).
    rewrite (bind_eq _ _ _ _ _ (match_eq _ _ _ TOKEN_IDENTIFIER H)).
    rewrite Hl. cbn [TokenType_eqb orb].
    rewrite (bind_eq _ _ _ _ _ (current_token_eq _ _ _ H)).
    rewrite (bind_eq _ _ _ _ _ (printf_eq _ _)). reflexivity. }
  cbn [parse_statement]. unfold parse_statement_body.
  rewrite (bind_eq _ _ _ _ _ (match_eq _ _ _ TOKEN_NUMBER H)).
  rewrite Hl. cbn [TokenType_eqb].
  rewrite (bind_eq _ _ _ _ _ (match_eq _ _ _ TOKEN_LPAREN H)).
  rewrite Hl. cbn [TokenType_eqb].
  rewrite (bind_eq _ _ _ _ _
             (get_offset_after_paren_eq _ _ _ _ _ H Hl Hin Hr)).
  assert (Hy : peek_at (Z.of_nat (length run + 2)) p = Ret y p).
  { replace (length run + 2)%nat
      with (length ((lparen :: run) ++ [rp]))
      by (rewrite length_app; cbn [length]; lia).
    apply (peek_at_nth p _ y (z :: rest)).
    rewrite <- app_assoc. exact H. }
  assert (Hz : peek_at (Z.of_nat (length run + 2) + 1) p = Ret z p).
  { replace (Z.of_nat (length run + 2) + 1)
      with (Z.of_nat (length ((lparen :: run) ++ [rp; y])))
      by (rewrite length_app; cbn [length]; lia).
    apply (peek_at_nth p _ z rest).
    rewrite <- app_assoc. exact H. }
  rewrite (bind_eq _ _ _ _ _ Hy). cbv zeta.
  destruct (TokenType_eqb (type y) TOKEN_KEYWORD) eqn:Ek.
  - apply TokenType_eqb_eq in Ek. destruct (Hkw Ek) as (N1 & N2 & N3).
    rewrite Ek. cbn [TokenType_eqb].
    replace (cstring_eqb (lexeme y) (str "for")) with false
      by (symmetry; apply not_true_is_false; intro E;
          apply cstring_eqb_eq in E; contradiction).
    replace (cstring_eqb (lexeme y) (str "while")) with false
      by (symmetry; apply not_true_is_false; intro E;
          apply cstring_eqb_eq in E; contradiction).
    replace (cstring_eqb (lexeme y) (str "if")) with false
      by (symmetry; apply not_true_is_false; intro E;
          apply cstring_eqb_eq in E; contradiction).
    exact Hp.
  - destruct (TokenType_eqb (type y) TOKEN_IDENTIFIER) eqn:Ei; [|exact Hp].
    apply TokenType_eqb_eq in Ei. rewrite (bind_eq _ _ _ _ _ Hz).
    apply Hid in Ei. apply TokenType_eqb_neq in Ei. rewrite Ei. exact Hp.
Qed.

(** ** A parameter without a separator *)

Lemma args_text_last args ps a :
  args_text args (ps ++ [a]) = with_param (args_text args ps) a.
Proof.
  revert args. induction ps as [|b ps IH]; intro args; cbn [app args_text];
    [reflexivity|apply IH].
Qed.

(** After parameters that are each followed by a comma, a parameter
    followed by neither a comma nor a closing parenthesis ends the
    loop. *)
Lemma args_loop_separator k args p toks ps n t x rest :
  ready p (toks ++ n :: t :: x :: rest) ->
  param_prefix toks ps ->
  type n = TOKEN_IDENTIFIER -> type t = TOKEN_KEYWORD ->
  type x <> TOKEN_COMMA -> type x <> TOKEN_RPAREN ->
  (length (args_text args (ps ++ [(n, t)])) < 1024)%nat ->
  (length ps < k)%nat ->
  args_loop k args p
  = Ret None
      (print (advance_by p (length toks + 2))
         (str "Parser Error: Expected ',' or ')' in argument list." ++ [nl])).
Proof.
  intros H Hps Hn Ht Hx1 Hx2. revert k args p H.
  induction Hps as [|a b c toks ps Ha Hb Hc Hps IH];
    intros k args p H Hlen Hk.
  - destruct k as [|k]; [lia|]. cbn [app args_text] in *.
    fold (with_param args (n, t)) in *.
    rewrite (args_loop_pair k args p n t _ H Hn Ht Hlen).
    assert (H2 : ready (advance_by p 2) (x :: rest)).
    { apply (ready_advance_by p [n; t] (x :: rest) H).
      repeat constructor; [rewrite Hn|rewrite Ht]; discriminate. }
    apply TokenType_eqb_neq in Hx1, Hx2.
    rewrite (bind_eq _ _ _ _ _ (match_eq _ _ _ TOKEN_COMMA (proj1 H2))), Hx1.
    rewrite (bind_eq _ _ _ _ _ (match_eq _ _ _ TOKEN_RPAREN (proj1 H2))), Hx2.
    cbn [negb].
    rewrite (bind_eq _ _ _ _ _ (printf_eq _ _)).
    unfold ret, print, advance_by.
    cbn [tokens current_token_pos output stdout length]. reflexivity.
  - destruct k as [|k]; [cbn [length] in Hk; lia|].
    cbn [app args_text] in *. fold (with_param args (a, b)) in *.
    assert (Hfit : (length (with_param args (a, b)) < 1024)%nat).
    { pose proof (args_text_length (with_param args (a, b))
                    (ps ++ [(n, t)])). lia. }
    rewrite (args_loop_pair k args p a b _ H Ha Hb Hfit).
    assert (H2 : ready (advance_by p 2)
                   (c :: toks ++ n :: t :: x :: rest)).
    { apply (ready_advance_by p [a; b] _ H).
      repeat constructor; [rewrite Ha|rewrite Hb]; discriminate. }
    rewrite (bind_eq _ _ _ _ _ (match_eq _ _ _ TOKEN_COMMA (proj1 H2))).
    rewrite Hc. cbn [TokenType_eqb].
    assert (Hcne : type c <> TOKEN_EOF) by (rewrite Hc; discriminate).
    rewrite (bind_eq _ _ _ _ _ (ready_advance _ _ _ H2 Hcne)).
    rewrite (IH k _ _ (ready_next _ _ _ H2 Hcne) Hlen)
      by (cbn [length] in Hk; lia).
    f_equal. unfold print, next, advance_by.
    cbn [tokens current_token_pos output stdout length]. f_equal. lia.
Qed.

Lemma param_prefix_length toks ps :
  param_prefix toks ps -> length toks = (3 * length ps)%nat.
Proof.
  induction 1 as [|a b c toks ps _ _ _ _ IH]; [reflexivity|].
  cbn [length]. lia.
Qed.

Lemma parse_function_declaration_unseparated
      fuel p lparen toks ps n t x rest :
  ready p (lparen :: toks ++ n :: t :: x :: rest) ->
  type lparen = TOKEN_LPAREN -> param_prefix toks ps ->
  type n = TOKEN_IDENTIFIER -> type t = TOKEN_KEYWORD ->
  type x <> TOKEN_COMMA -> type x <> TOKEN_RPAREN ->
  (length (args_text [] (ps ++ [(n, t)])) < 1024)%nat ->
  parse_function_declaration fuel p
  = Ret false
      (print (advance_by p (length toks + 3))
         (str "Parser Error: Expected ',' or ')' in argument list." ++ [nl])).
Proof.
  intros H Hl Hps Hn Ht Hx1 Hx2 Hlen.
  unfold parse_function_declaration, require.
  assert (H0 : at_cursor p (lparen :: hd n toks
                              :: tl (toks ++ n :: t :: x :: rest)))
    by (destruct toks; exact (proj1 H)).
  rewrite (bind_eq _ _ _ _ _ (consume_ok _ _ _ _ _ _ H0 Hl)). cbn iota.
  assert (H1 : ready (next p) (toks ++ n :: t :: x :: rest))
    by (apply (ready_next _ _ _ H); rewrite Hl; discriminate).
  unfold bind at 1.
  rewrite (args_loop_separator _ [] (next p) toks ps n t x rest
             H1 Hps Hn Ht Hx1 Hx2 Hlen).
  - unfold ret, print, next, advance_by.
    cbn [tokens current_token_pos output stdout]. do 2 f_equal. lia.
  - pose proof (param_prefix_length _ _ Hps) as E.
    pose proof (tokens_left _ _ H1) as Hleft.
    rewrite length_app in Hleft. cbn [tokens next] in *. lia.
Qed.

(* ================================================================== *)
(** * The claims of the specification *)

(** An operation that only extends the state does not move the cursor
    back. *)
Lemma forward_cursor_monotone {A} (m : M A) : forward m -> cursor_monotone m.
Proof. intros H p a p' E. apply (H _ _ _ E). Qed.

(* ------------------------------------------------------------------ *)

(** C1. A reversed function definition [( params ) name type { body }]
    that [parse_function_declaration] accepts is written as the header
    [type name(type1 name1, ...) {], a newline, the statements of the
    body as the statement loop translates them, and [}] with two
    newlines.  Without parameters the header has [()], and a body that
    starts with the closing brace adds nothing between [{] and [}]. *)
Theorem function_definition_translated
        fuel p lparen toks ps rparen name rtype lbrace t rest p' :
  at_cursor p (lparen :: toks ++ rparen :: name :: rtype :: lbrace :: t
                 :: rest) ->
  type lparen = TOKEN_LPAREN ->
  param_list toks ps ->
  type rparen = TOKEN_RPAREN ->
  type name = TOKEN_IDENTIFIER ->
  type rtype = TOKEN_KEYWORD ->
  type lbrace = TOKEN_LBRACE ->
  parse_function_declaration fuel p = Ret true p' ->
  let header :=
    lexeme rtype ++ str " " ++ lexeme name ++ str "("
      ++ join_with (str ", ") (map param_text ps) ++ str ") {" ++ [nl] in
  exists body q,
    body_loop (parse_statement fuel) fuel
      (emit (advance_by p (length toks + 5)) header) = Ret true q
    /\ output q = (output p ++ header) ++ body
    /\ match_ TOKEN_RBRACE q = Ret true q
    /\ output p' = output p ++ header ++ body ++ str "}" ++ [nl; nl]
    /\ (ps = [] ->
        header = lexeme rtype ++ str " " ++ lexeme name ++ str "() {" ++ [nl])
    /\ (type t = TOKEN_RBRACE -> body = []).
Proof.
  intros H Hl Hps Hr Hname Hrt Hlb E header.
  destruct (parse_function_declaration_inv _ _ _ _ _ _ _ _ _ _ _ _
              H Hl Hps Hr Hname Hrt Hlb E) as (q & Eb & Hm & Ho).
  fold (header_text rtype name (join_with (str ", ") (map param_text ps)))
    in header.
  fold header in Eb.
  destruct (forward_body_loop _ fuel (forward_parse_statement fuel) _ _ _ Eb)
    as (_ & _ & (body & Hbody) & _).
  cbn [emit output] in Hbody.
  exists body, q. split; [exact Eb|]. split; [exact Hbody|].
  split; [exact Hm|]. split; [|split].
  - rewrite Ho, Hbody, <- !app_assoc. reflexivity.
  - intros ->. reflexivity.
  - intro Ht.
    assert (Hq : at_cursor (emit (advance_by p (length toks + 5)) header)
                   (t :: rest)).
    { replace (length toks + 5)%nat
        with (length ((lparen :: toks) ++ [rparen; name; rtype; lbrace]))
        by (rewrite length_app; cbn [length]; lia).
      apply at_cursor_advance_by. rewrite <- app_assoc. exact H. }
    destruct fuel as [|fuel]; [discriminate Eb|].
    rewrite (body_loop_at_rbrace _ _ _ _ _ Hq Ht) in Eb.
    inversion Eb. subst q. cbn [emit output] in Hbody.
    rewrite <- (app_nil_r (output p ++ header)) in Hbody at 1.
    apply app_inv_head in Hbody. symmetry. exact Hbody.
Qed.

Lemma function_definition_translated_witness :
  exists body q,
    body_loop (parse_statement 3) 3
      (emit (advance_by (example_at 0) (5 + 5))
            (str "int f(int x, char y) {" ++ [nl])) = Ret true q
    /\ output q = ([] ++ str "int f(int x, char y) {" ++ [nl]) ++ body
    /\ match_ TOKEN_RBRACE q = Ret true q
    /\ output (mkParser example_function 25
                 (str "int f(int x, char y) {" ++ [nl]
                    ++ str "    g(x, ( y ));" ++ [nl]
                    ++ str "    int z = 42;" ++ [nl]
                    ++ str "}" ++ [nl; nl]) [])
       = [] ++ (str "int f(int x, char y) {" ++ [nl]) ++ body
            ++ str "}" ++ [nl; nl]
    /\ ([(tok TOKEN_IDENTIFIER "x", tok TOKEN_KEYWORD "int");
         (tok TOKEN_IDENTIFIER "y", tok TOKEN_KEYWORD "char")] = [] ->
        str "int f(int x, char y) {" ++ [nl]
        = str "int" ++ str " " ++ str "f" ++ str "() {" ++ [nl])
    /\ (type (tok TOKEN_LPAREN "(") = TOKEN_RBRACE -> body = []).
Proof.
  apply (function_definition_translated 3 (example_at 0)
           (tok TOKEN_LPAREN "(")
           [tok TOKEN_IDENTIFIER "x"; tok TOKEN_KEYWORD "int";
            tok TOKEN_COMMA ","; tok TOKEN_IDENTIFIER "y";
            tok TOKEN_KEYWORD "char"]
           [(tok TOKEN_IDENTIFIER "x", tok TOKEN_KEYWORD "int");
            (tok TOKEN_IDENTIFIER "y", tok TOKEN_KEYWORD "char")]
           (tok TOKEN_RPAREN ")") (tok TOKEN_IDENTIFIER "f")
           (tok TOKEN_KEYWORD "int") (tok TOKEN_LBRACE "{")
           (tok TOKEN_LPAREN "(")
           (skipn 11 example_function)).
  - exists []. split; reflexivity.
  - reflexivity.
  - apply params_more; try reflexivity; [|discriminate].
    apply params_last; reflexivity.
  - reflexivity.
  - reflexivity.
  - reflexivity.
  - reflexivity.
  - vm_compute. reflexivity.
Defined.

(* ------------------------------------------------------------------ *)

(** Within [temp_buffer] the declarations are translated as the
    specification says: a body statement made of a NUMBER, [=], an
    IDENTIFIER, a type KEYWORD and [;] gives the line
    [    type name = number;] and a newline, whenever that line and its
    terminating NUL fit the 512 characters of the buffer. *)
Theorem variable_declaration_translated
        fuel p value eq name ty semi rest :
  at_cursor p (value :: eq :: name :: ty :: semi :: rest) ->
  type value = TOKEN_NUMBER ->
  type eq = TOKEN_EQUALS ->
  type name = TOKEN_IDENTIFIER ->
  type ty = TOKEN_KEYWORD ->
  type semi = TOKEN_SEMICOLON ->
  (length (declaration_text ty name value) < 512)%nat ->
  exists p',
    parse_statement (S fuel) p = Ret true p'
    /\ tokens p' = tokens p
    /\ output p' = output p ++ str "    " ++ lexeme ty ++ str " "
                     ++ lexeme name ++ str " = " ++ lexeme value
                     ++ str ";" ++ [nl]
    /\ stdout p' = stdout p
    /\ (rest <> [] -> current_token_pos p' = current_token_pos p + 5).
Proof.
  intros H Hv Heq Hname Hty Hsemi Hlen.
  destruct (parse_variable_declaration_eq _ _ _ _ _ _ _ H Heq Hname Hty
              Hsemi Hlen) as (p' & E & Hp').
  exists p'. split; [|exact Hp'].
  cbn [parse_statement]. unfold parse_statement_body.
  rewrite (bind_eq _ _ _ _ _ (match_eq _ _ _ TOKEN_NUMBER H)).
  rewrite Hv. exact E.
Qed.

Lemma variable_declaration_translated_witness :
  exists p',
    parse_statement 1 (example_at 19) = Ret true p'
    /\ tokens p' = example_function
    /\ output p' = [] ++ str "    " ++ str "int" ++ str " " ++ str "z"
                     ++ str " = " ++ str "42" ++ str ";" ++ [nl]
    /\ stdout p' = []
    /\ ([tok TOKEN_RBRACE "}"; eof_token] <> [] ->
        current_token_pos p' = 19 + 5).
Proof.
  apply (variable_declaration_translated 0 (example_at 19)
           (tok TOKEN_NUMBER "42") (tok TOKEN_EQUALS "=")
           (tok TOKEN_IDENTIFIER "z") (tok TOKEN_KEYWORD "int")
           (tok TOKEN_SEMICOLON ";") [tok TOKEN_RBRACE "}"; eof_token]).
  - exists (firstn 19 example_function). split; reflexivity.
  - reflexivity.
  - reflexivity.
  - reflexivity.
  - reflexivity.
  - reflexivity.
  - vm_compute. lia.
Defined.

(** The call that goes wrong: on the declaration of 600 digits [sprintf]
    writes past the end of [temp_buffer]. *)
Lemma long_declaration_overflows :
  at_cursor long_declaration (tokens long_declaration)
  /\ map type (tokens long_declaration)
     = [TOKEN_NUMBER; TOKEN_EQUALS; TOKEN_IDENTIFIER; TOKEN_KEYWORD;
        TOKEN_SEMICOLON; TOKEN_RBRACE; TOKEN_EOF]
  /\ parse_variable_declaration long_declaration = Undefined
  /\ forall fuel p', parse_statement fuel long_declaration <> Ret true p'.
Proof.
  split; [exists []; split; reflexivity|]. split; [reflexivity|].
  split; [vm_compute; reflexivity|].
  intros [|fuel] p'; [discriminate|].
  cbn [parse_statement]. unfold parse_statement_body.
  assert (H : at_cursor long_declaration (tokens long_declaration))
    by (exists []; split; reflexivity).
  rewrite (bind_eq _ _ _ _ _ (match_eq _ _ _ TOKEN_NUMBER H)).
  cbn [type TokenType_eqb].
  replace (parse_variable_declaration long_declaration)
    with (@Undefined bool) by (vm_compute; reflexivity).
  discriminate.
Qed.

(** C2.  The specification gives every declaration [number = name type ;]
    of a body the line [    type name = number;]; the code formats that line
    with [sprintf] into the 512 characters of [temp_buffer] and nothing
    bounds the lexemes.  On the source text
    [() main int { 11...1 = x int ; }], the number having 600 digits, the
    lexer gives the eleven tokens of the function and EOF, and the parser
    writes past the end of the array: the run has no defined result, with
    whatever bound on the nesting, and so no output line. *)
Theorem variable_declaration_overflow :
  exists toks,
    tokenize long_declaration_source = Some (toks, [])
    /\ map type toks
       = [TOKEN_LPAREN; TOKEN_RPAREN; TOKEN_IDENTIFIER; TOKEN_KEYWORD;
          TOKEN_LBRACE; TOKEN_NUMBER; TOKEN_EQUALS; TOKEN_IDENTIFIER;
          TOKEN_KEYWORD; TOKEN_SEMICOLON; TOKEN_RBRACE; TOKEN_EOF]
    /\ parse 3 toks = Undefined
    /\ forall fuel out p, parse fuel toks <> Ret out p.
Proof.
  eexists. split; [vm_compute; reflexivity|]. split; [reflexivity|].
  match goal with |- parse 3 ?l = _ /\ _ =>
    assert (E : parse 3 l = Undefined) by (vm_compute; reflexivity);
    set (toks := l) in *
  end.
  split; [exact E|]. intros fuel out p.
  destruct (le_lt_dec 3 fuel) as [Hf|Hf].
  - rewrite (parse_fuel 3 fuel toks Hf); rewrite E; discriminate.
  - destruct fuel as [|[|[|fuel]]]; [| | |lia]; vm_compute; discriminate.
Qed.

(* ------------------------------------------------------------------ *)

(** C3, as the code has it.  A reversed call [( arguments ) name ;], the
    arguments being the tokens strictly inside the parentheses, is
    translated to [    name(text);] and a newline, where [text] is the
    first 1023 characters of the lexemes of the arguments joined by single
    spaces, with no space before a comma.  The line and its NUL have to
    fit the 2048 characters of [final_call]. *)
Theorem reversed_call_translated
        fuel p lparen run rparen name semi rest :
  at_cursor p (lparen :: run ++ rparen :: name :: semi :: rest) ->
  type lparen = TOKEN_LPAREN ->
  inside_parens 1 run = true ->
  type rparen = TOKEN_RPAREN ->
  type name = TOKEN_IDENTIFIER ->
  type semi = TOKEN_SEMICOLON ->
  (length (call_text name (firstn 1023 (join_args run))) < 2048)%nat ->
  exists p',
    parse_statement (S fuel) p = Ret true p'
    /\ parse_reversed_function_call p = Ret true p'
    /\ tokens p' = tokens p
    /\ output p' = output p ++ str "    " ++ lexeme name ++ str "("
                     ++ firstn 1023 (join_args run) ++ str ");" ++ [nl]
    /\ stdout p' = stdout p
    /\ (rest <> [] ->
        current_token_pos p'
        = current_token_pos p + Z.of_nat (length run) + 4).
Proof.
  intros H Hl Hin Hr Hname Hsemi Hlen.
  destruct (parse_reversed_function_call_eq _ _ _ _ _ _ _ H Hl Hin Hr
              Hname Hsemi Hlen) as (p' & E & Hp').
  exists p'. split; [|split; [exact E|exact Hp']].
  rewrite (parse_statement_call_eq fuel _ _ _ _ _ _ _ H Hl Hin Hr Hname
             Hsemi).
  exact E.
Qed.

Lemma reversed_call_translated_witness :
  exists p',
    parse_statement 1 (example_at 10) = Ret true p'
    /\ parse_reversed_function_call (example_at 10) = Ret true p'
    /\ tokens p' = example_function
    /\ output p' = [] ++ str "    " ++ str "g" ++ str "("
                     ++ firstn 1023 (str "x, ( y )") ++ str ");" ++ [nl]
    /\ stdout p' = []
    /\ (skipn 19 example_function <> [] ->
        current_token_pos p' = 10 + Z.of_nat 5 + 4).
Proof.
  apply (reversed_call_translated 0 (example_at 10)
           (tok TOKEN_LPAREN "(")
           [tok TOKEN_IDENTIFIER "x"; tok TOKEN_COMMA ",";
            tok TOKEN_LPAREN "("; tok TOKEN_IDENTIFIER "y";
            tok TOKEN_RPAREN ")"]
           (tok TOKEN_RPAREN ")") (tok TOKEN_IDENTIFIER "g")
           (tok TOKEN_SEMICOLON ";")
           (skipn 19 example_function)).
  - exists (firstn 10 example_function). split; reflexivity.
  - reflexivity.
  - reflexivity.
  - reflexivity.
  - reflexivity.
  - reflexivity.
  - vm_compute. lia.
Defined.

(** The statement of C3 fails on arguments longer than [args_buffer]: the
    call is written with the first 1023 characters of the text only. *)
Lemma reversed_call_truncated :
  at_cursor long_call (tokens long_call)
  /\ map type (tokens long_call)
     = [TOKEN_LPAREN; TOKEN_IDENTIFIER; TOKEN_RPAREN; TOKEN_IDENTIFIER;
        TOKEN_SEMICOLON; TOKEN_RBRACE; TOKEN_EOF]
  /\ exists p',
       parse_reversed_function_call long_call = Ret true p'
       /\ parse_statement 1 long_call = Ret true p'
       /\ output p' = str "    g(" ++ repeat "a"%char 1023 ++ str ");" ++ [nl]
       /\ output p' <> str "    g(" ++ join_args [long_argument] ++ str ");"
                         ++ [nl].
Proof.
  split; [exists []; split; reflexivity|]. split; [reflexivity|].
  eexists. split; [vm_compute; reflexivity|].
  split; [vm_compute; reflexivity|].
  split; [vm_compute; reflexivity|].
  intro E. apply (f_equal (@length ascii)) in E. vm_compute in E.
  discriminate E.
Qed.

(* ------------------------------------------------------------------ *)

(** C4, as the code has it.  When no token follows a PREPROCESSOR token,
    the lexemes of the tokens before the EOF token, joined by single
    spaces, are lexed to the same tokens, with the same kinds in the same
    order, and the same text is printed. *)
Theorem lexing_joined_lexemes source toks out :
  tokenize source = Some (toks, out) ->
  preprocessor_only_last (removelast toks) = true ->
  tokenize (join_lexemes (removelast toks)) = Some (toks, out)
  /\ exists toks' out',
       tokenize (join_lexemes (removelast toks)) = Some (toks', out')
       /\ map type toks' = map type toks.
Proof.
  intros H Hp.
  destruct (tokenize_inv _ _ _ H) as (body & -> & Hl).
  rewrite removelast_last in *.
  pose proof (tokenize_lexes _ _ _ (lexes_join _ _ _ Hl Hp)) as E.
  split; [exact E|]. eauto.
Qed.

Lemma lexing_joined_lexemes_witness :
  tokenize (join_lexemes
              (removelast [tok TOKEN_IDENTIFIER "x"; tok TOKEN_IDENTIFIER ">=";
                           tok TOKEN_NUMBER "3"; tok TOKEN_SEMICOLON ";";
                           eof_token]))
  = Some ([tok TOKEN_IDENTIFIER "x"; tok TOKEN_IDENTIFIER ">=";
           tok TOKEN_NUMBER "3"; tok TOKEN_SEMICOLON ";"; eof_token], [])
  /\ exists toks' out',
       tokenize (join_lexemes
                   (removelast [tok TOKEN_IDENTIFIER "x";
                                tok TOKEN_IDENTIFIER ">=";
                                tok TOKEN_NUMBER "3"; tok TOKEN_SEMICOLON ";";
                                eof_token]))
       = Some (toks', out')
       /\ map type toks'
          = map type [tok TOKEN_IDENTIFIER "x"; tok TOKEN_IDENTIFIER ">=";
                      tok TOKEN_NUMBER "3"; tok TOKEN_SEMICOLON ";";
                      eof_token].
Proof.
  apply (lexing_joined_lexemes (str "x>=3 ; // done")).
  - vm_compute. reflexivity.
  - reflexivity.
Defined.

(** The statement of C4 fails on the empty buffer, whose only token is EOF
    with the lexeme [EOF], which is lexed as an identifier; and it fails
    with the lexeme of EOF left out when a token follows a PREPROCESSOR
    token. *)
Lemma lexing_all_lexemes_differs :
  (exists toks out toks' out',
     tokenize [] = Some (toks, out)
     /\ tokenize (join_lexemes toks) = Some (toks', out')
     /\ map type toks = [TOKEN_EOF]
     /\ map type toks' = [TOKEN_IDENTIFIER; TOKEN_EOF])
  /\ (exists toks out toks' out',
        tokenize (str "#a" ++ [nl] ++ str "b") = Some (toks, out)
        /\ tokenize (join_lexemes (removelast toks)) = Some (toks', out')
        /\ map type toks = [TOKEN_PREPROCESSOR; TOKEN_IDENTIFIER; TOKEN_EOF]
        /\ map type toks' = [TOKEN_PREPROCESSOR; TOKEN_EOF]).
Proof.
  split; do 4 eexists; (split; [vm_compute; reflexivity|]);
    (split; [vm_compute; reflexivity|]); split; reflexivity.
Qed.

(* ------------------------------------------------------------------ *)

(** What [tokenize] returns: tokens with the lexemes of their kinds, no EOF
    among them, and the EOF token after them. *)
Lemma tokenize_shape source toks out :
  tokenize source = Some (toks, out) ->
  exists body,
    toks = body ++ [eof_token]
    /\ Forall (fun t => type t <> TOKEN_EOF /\ lexer_token t) body.
Proof.
  intro H. destruct (tokenize_inv _ _ _ H) as (body & -> & L).
  exists body. split; [reflexivity|apply (lexes_shape _ _ _ L)].
Qed.

(** The output of a successful [parse] has as many more [{] than [}] as
    the lexemes of the tokens before EOF. *)
Lemma parse_braces fuel body out p :
  Forall (fun t => type t <> TOKEN_EOF /\ lexer_token t) body ->
  buffers_fit (body ++ [eof_token]) = true ->
  parse fuel (body ++ [eof_token]) = Ret (Some out) p ->
  braces out = lexeme_braces body.
Proof.
  intros Hbody Hfit E. unfold parse in E.
  assert (H : ready (mkParser (body ++ [eof_token]) 0 [] [])
                    (body ++ [eof_token])).
  { split; [exists []; split; reflexivity|].
    exists body, eof_token. split; reflexivity. }
  assert (Hok : source_ok (body ++ [eof_token])).
  { split; [|exact Hfit]. apply Forall_app. split.
    - apply (Forall_impl _ (fun t H => proj2 H) Hbody).
    - repeat constructor. }
  destruct (parse_loop_run _ _ _ _ _ _ H Hok E)
    as (used & e & l' & d & Hl & He & Ho & Hb).
  cbn [output app] in Ho. subst out.
  assert (used = body).
  { clear - Hl He Hbody. revert used Hl.
    induction body as [|b body IH]; intros used Hl.
    - destruct used as [|u used]; [reflexivity|].
      cbn in Hl. inversion Hl. destruct used; discriminate.
    - inversion Hbody as [|? ? [Hb _] Hbody']. subst.
      destruct used as [|u used].
      + cbn in Hl. inversion Hl. subst. contradiction.
      + cbn in Hl. inversion Hl. subst. f_equal. apply (IH Hbody' _ H1). }
  subst used. exact Hb.
Qed.

(** The same for a buffer that is lexed and then parsed. *)
Lemma transpile_braces fuel source toks printed out p :
  tokenize source = Some (toks, printed) ->
  buffers_fit toks = true ->
  parse fuel toks = Ret (Some out) p ->
  braces out = lexeme_braces (removelast toks).
Proof.
  intros Ht Hfit E. destruct (tokenize_shape _ _ _ Ht) as (body & -> & Hb).
  rewrite removelast_last. apply (parse_braces fuel body out p Hb Hfit E).
Qed.




(* ------------------------------------------------------------------ *)

(** C6, as the code has it.  With the cursor on a token [t]:
    [consume(kind, message)] on a token of another kind prints
    [Parser Error: message. Got 'lexeme' instead.] and fails, leaving the
    cursor.  On a token of that kind that is not the last one it succeeds
    and moves the cursor by exactly one position.  On a token of that
    kind that is the last one it succeeds and leaves the state as it is
    when a token comes before it, and reads the array before its start
    when [t] is the only token.  On a list that ends with EOF a token of
    a kind other than EOF is never the last one.  And no operation of the
    parser moves the cursor back. *)
Theorem consume_and_cursor p ty error_message t rest :
  at_cursor p (t :: rest) ->
  (type t <> ty ->
   consume ty error_message p
   = Ret false
       (mkParser (tokens p) (current_token_pos p) (output p)
          (stdout p ++ str "Parser Error: " ++ error_message
             ++ str ". Got '" ++ lexeme t ++ str "' instead." ++ [nl])))
  /\ (type t = ty -> rest <> [] ->
      consume ty error_message p
      = Ret true
          (mkParser (tokens p) (current_token_pos p + 1) (output p)
             (stdout p)))
  /\ (type t = ty -> rest = [] -> 0 < current_token_pos p ->
      consume ty error_message p = Ret true p)
  /\ (type t = ty -> rest = [] -> current_token_pos p = 0 ->
      consume ty error_message p = Undefined)
  /\ (type t = ty -> ty <> TOKEN_EOF -> ends_with_eof (t :: rest) ->
      rest <> [])
  /\ cursor_monotone current_token
  /\ (forall offset, cursor_monotone (peek_at offset))
  /\ cursor_monotone advance
  /\ (forall kind, cursor_monotone (match_ kind))
  /\ (forall kind message, cursor_monotone (consume kind message))
  /\ (forall end_type size, cursor_monotone (slurp_tokens_until end_type size))
  /\ cursor_monotone get_offset_after_paren
  /\ cursor_monotone parse_reversed_function_call
  /\ cursor_monotone parse_variable_declaration
  /\ (forall fuel,
        cursor_monotone (parse_for_loop (parse_statement fuel) fuel)
        /\ cursor_monotone (parse_while_loop (parse_statement fuel) fuel)
        /\ cursor_monotone (parse_if_statement (parse_statement fuel) fuel)
        /\ cursor_monotone (parse_statement fuel)
        /\ cursor_monotone (parse_function_declaration fuel)
        /\ forall n, cursor_monotone (parse_loop fuel n)).
Proof.
  intro H. split; [|split; [|split; [|split; [|split]]]].
  - intro Ht. apply (consume_fail _ _ _ _ _ H Ht).
  - intros Ht Hrest. destruct rest as [|t' rest]; [contradiction|].
    apply (consume_ok _ _ _ _ _ _ H Ht).
  - intros Ht -> Hp. rewrite (consume_last _ _ _ error_message H Ht).
    apply Z.ltb_lt in Hp. rewrite Hp. reflexivity.
  - intros Ht -> Hp. rewrite (consume_last _ _ _ error_message H Ht).
    rewrite Hp. reflexivity.
  - intros Ht Hty He Hrest. subst rest.
    destruct He as (body & e & Hl & He).
    destruct body as [|b [|b' body]]; cbn in Hl; inversion Hl.
    subst. congruence.
  - repeat split; intros; apply forward_cursor_monotone;
      auto with forward.
    apply forward_parse_loop.
Qed.

Lemma consume_and_cursor_witness :
  consume TOKEN_RPAREN (str "Expected ')'") (example_at 0)
  = Ret false
      (mkParser example_function 0 []
         ([] ++ str "Parser Error: " ++ str "Expected ')'"
            ++ str ". Got '" ++ str "(" ++ str "' instead." ++ [nl]))
  /\ consume TOKEN_LPAREN (str "Expected '('") (example_at 0)
     = Ret true (mkParser example_function (0 + 1) [] [])
  /\ consume TOKEN_EOF (str "Expected end of input") at_the_end
     = Ret true at_the_end
  /\ consume TOKEN_EOF (str "Expected end of input")
       (mkParser [eof_token] 0 [] [])
     = Undefined.
Proof.
  split; [|split; [|split]].
  - apply (consume_and_cursor (example_at 0) TOKEN_RPAREN
             (str "Expected ')'") (tok TOKEN_LPAREN "(")
             (skipn 1 example_function)).
    + exists []. split; reflexivity.
    + discriminate.
  - apply (consume_and_cursor (example_at 0) TOKEN_LPAREN
             (str "Expected '('") (tok TOKEN_LPAREN "(")
             (skipn 1 example_function)).
    + exists []. split; reflexivity.
    + reflexivity.
    + discriminate.
  - apply (consume_and_cursor at_the_end TOKEN_EOF
             (str "Expected end of input") eof_token []).
    + exists [tok TOKEN_LPAREN "("]. split; reflexivity.
    + reflexivity.
    + reflexivity.
    + reflexivity.
  - apply (consume_and_cursor (mkParser [eof_token] 0 [] []) TOKEN_EOF
             (str "Expected end of input") eof_token []).
    + exists []. split; reflexivity.
    + reflexivity.
    + reflexivity.
    + reflexivity.
Defined.

(** The statement of C6 fails for the kind EOF with the cursor on the
    EOF token that ends the list: [consume] succeeds and the cursor
    stays. *)
Lemma consume_eof_stays :
  at_cursor at_the_end [eof_token]
  /\ consume TOKEN_EOF (str "Expected end of input") at_the_end
     = Ret true at_the_end
  /\ current_token_pos at_the_end + 1 <> current_token_pos at_the_end.
Proof.
  split; [exists [tok TOKEN_LPAREN "("]; split; reflexivity|].
  split; [vm_compute; reflexivity|].
  cbn. lia.
Qed.

(* ------------------------------------------------------------------ *)

(** C7.  The tokens of every buffer end with the token EOF of lexeme
    [EOF], added once after the loop, and hold no other token of that
    kind. *)
Theorem tokenize_ends_with_one_eof source :
  exists body out,
    tokenize source = Some (body ++ [mkToken TOKEN_EOF (str "EOF")], out)
    /\ Forall (fun t => type t <> TOKEN_EOF) body.
Proof.
  destruct (tokenize_total source) as (body & out & E & L).
  exists body, out. split; [exact E|].
  apply (Forall_impl _ (fun t H => proj1 H) (lexes_shape _ _ _ L)).
Qed.

(* ------------------------------------------------------------------ *)

(** C8, as the code has it.  On a token list that ends with EOF,
    [peek_at] gives the token at the index cursor + offset when that
    index is in the list, and the last token, EOF, when the index is the
    count or more and not above [INT_MAX].  The index is a sum of two
    [int]s: above [INT_MAX] it has no value, and below zero the array is
    read before its start. *)
Theorem peek_at_past_the_end p offset body eof :
  tokens p = body ++ [eof] ->
  type eof = TOKEN_EOF ->
  (0 <= current_token_pos p + offset < count p ->
   exists t,
     nth_error (tokens p) (Z.to_nat (current_token_pos p + offset)) = Some t
     /\ peek_at offset p = Ret t p)
  /\ (count p <= current_token_pos p + offset <= INT_MAX ->
      peek_at offset p = Ret eof p /\ type eof = TOKEN_EOF)
  /\ (INT_MAX < current_token_pos p + offset ->
      count p <= current_token_pos p + offset ->
      peek_at offset p = Undefined)
  /\ (current_token_pos p + offset < 0 -> peek_at offset p = Undefined).
Proof.
  intros Ht He. split; [|split; [|split]].
  - intro Hi. unfold peek_at, read.
    destruct (current_token_pos p + offset >=? count p) eqn:E;
      [apply Z.geb_le in E; lia|].
    destruct (token_at (tokens p) (current_token_pos p + offset))
      as [t|] eqn:Et.
    + exists t. split; [apply token_at_spec in Et; tauto|reflexivity].
    + exfalso. unfold token_at, count in *.
      replace (0 <=? current_token_pos p + offset) with true in Et
        by (symmetry; apply Z.leb_le; lia).
      replace (current_token_pos p + offset <? Z.of_nat (length (tokens p)))
        with true in Et by (symmetry; apply Z.ltb_lt; lia).
      cbn [andb] in Et. apply nth_error_None in Et. lia.
  - intro Hi. unfold peek_at, read.
    destruct (current_token_pos p + offset >=? count p) eqn:E;
      [|rewrite Z.geb_leb in E; apply Z.leb_gt in E; lia].
    replace (current_token_pos p + offset <=? INT_MAX) with true
      by (symmetry; apply Z.leb_le; lia).
    split; [|exact He].
    unfold count. rewrite Ht, length_app. cbn [length].
    replace (Z.of_nat (length body + 1) - 1) with (Z.of_nat (length body))
      by lia.
    rewrite token_at_app. reflexivity.
  - intros Hmax Hc. apply (peek_at_overflow _ _ Hc Hmax).
  - intro Hi. unfold peek_at, read.
    assert (Hc : 0 <= count p) by (unfold count; lia).
    destruct (current_token_pos p + offset >=? count p) eqn:E;
      [apply Z.geb_le in E; lia|].
    unfold token_at.
    replace (0 <=? current_token_pos p + offset) with false
      by (symmetry; apply Z.leb_gt; exact Hi).
    reflexivity.
Qed.

Lemma peek_at_past_the_end_witness :
  (exists t,
     nth_error example_function (Z.to_nat (19 + 2)) = Some t
     /\ peek_at 2 (example_at 19) = Ret t (example_at 19))
  /\ peek_at 7 (example_at 19) = Ret eof_token (example_at 19)
  /\ peek_at 1000 (example_at 19) = Ret eof_token (example_at 19)
  /\ peek_at (INT_MAX - 19) (example_at 19) = Ret eof_token (example_at 19).
Proof.
  split; [|split; [|split]].
  - apply (peek_at_past_the_end (example_at 19) 2
             (removelast example_function) eof_token);
      [reflexivity|reflexivity|].
    unfold count. cbn. lia.
  - apply (peek_at_past_the_end (example_at 19) 7
             (removelast example_function) eof_token);
      [reflexivity|reflexivity|].
    unfold count, INT_MAX. cbn. lia.
  - apply (peek_at_past_the_end (example_at 19) 1000
             (removelast example_function) eof_token);
      [reflexivity|reflexivity|].
    unfold count, INT_MAX. cbn. lia.
  - apply (peek_at_past_the_end (example_at 19) (INT_MAX - 19)
             (removelast example_function) eof_token);
      [reflexivity|reflexivity|].
    unfold count, INT_MAX. cbn. lia.
Defined.

(** The statement of C8 fails for an offset that takes the index above
    [INT_MAX], and for one that takes it below zero: the list ends with
    EOF, the index [19 + 2147483647] is more than the count, and
    [peek_at] returns no token. *)
Lemma peek_at_index_overflows :
  ends_with_eof (tokens (example_at 19))
  /\ count (example_at 19) <= current_token_pos (example_at 19) + 2147483647
  /\ peek_at 2147483647 (example_at 19) = Undefined
  /\ peek_at (-1) (example_at 0) = Undefined.
Proof.
  split; [exists (removelast example_function), eof_token;
          split; reflexivity|].
  split; [unfold count; cbn; lia|].
  split; reflexivity.
Qed.

(* ------------------------------------------------------------------ *)

(** One turn of the loop where the text left starts with [>], [<], [=]
    or [!]. *)
Lemma operator_turn c rest :
  In c [">"; "<"; "="; "!"]%char ->
  (peek rest = "="%char ->
   step_next (c :: rest) = tl rest
   /\ step_tokens (c :: rest) = [mkToken TOKEN_IDENTIFIER [c; "="%char]]
   /\ step_stdout (c :: rest) = [])
  /\ (peek rest <> "="%char ->
      step_next (c :: rest) = rest
      /\ step_tokens (c :: rest)
         = [if Ascii.eqb c ">" || Ascii.eqb c "<"
            then mkToken TOKEN_IDENTIFIER [c]
            else if Ascii.eqb c "=" then mkToken TOKEN_EQUALS [c]
            else mkToken TOKEN_UNKNOWN [c]]
      /\ step_stdout (c :: rest)
         = if Ascii.eqb c "!"
           then str "Tokenizer Error: Unknown character '!'" ++ [nl]
           else []).
Proof.
  intro Hc. unfold step_next, step_tokens, step_stdout. split.
  - intro Hp. apply Ascii.eqb_eq in Hp.
    destruct rest as [|d rest]; [discriminate Hp|].
    cbn [peek hd] in Hp. apply Ascii.eqb_eq in Hp. subst d.
    cbn [In] in Hc. decompose [or] Hc; subst; try contradiction;
      repeat split; reflexivity.
  - intro Hp. apply Ascii.eqb_neq in Hp.
    cbn [In] in Hc. decompose [or] Hc; subst; try contradiction;
      unfold tokenize_step, tokenize_plain; cbn [peek hd tl];
      cbn [isspace in_range Ascii.eqb N_of_ascii andb orb strchr existsb
             str list_ascii_of_string];
      rewrite ?Hp; repeat split; reflexivity.
Qed.

(** C9.  At every position the loop of [tokenize] reaches where the text
    left starts with [>], [<], [=] or [!], the tokens that [tokenize]
    returns for the buffer are those added before that position, then
    one token for the operator, then the tokens of the text after it;
    and the text it prints is put together in the same way.  Before [=]
    the operator token is the two characters as one IDENTIFIER, and the
    text after it starts behind both.  Otherwise it is [>] or [<] as an
    IDENTIFIER, [=] as EQUALS, and [!] as UNKNOWN with
    [Tokenizer Error: Unknown character '!'] printed, and the text after
    it starts behind the one character. *)
Theorem operator_tokens source c rest toks out :
  reaches source (c :: rest) toks out ->
  In c [">"; "<"; "="; "!"]%char ->
  (peek rest = "="%char ->
   exists toks' out',
     tokenize (tl rest) = Some (toks', out')
     /\ tokenize source
        = Some (toks ++ mkToken TOKEN_IDENTIFIER [c; "="%char] :: toks',
                out ++ out'))
  /\ (peek rest <> "="%char ->
      exists toks' out',
        tokenize rest = Some (toks', out')
        /\ tokenize source
           = Some (toks
                     ++ (if Ascii.eqb c ">" || Ascii.eqb c "<"
                         then mkToken TOKEN_IDENTIFIER [c]
                         else if Ascii.eqb c "="
                              then mkToken TOKEN_EQUALS [c]
                              else mkToken TOKEN_UNKNOWN [c]) :: toks',
                   out
                     ++ (if Ascii.eqb c "!"
                         then str "Tokenizer Error: Unknown character '!'"
                                ++ [nl]
                         else [])
                     ++ out')).
Proof.
  intros Hr Hc.
  assert (Hnul : peek (c :: rest) <> NUL).
  { cbn [peek hd]. cbn [In] in Hc.
    decompose [or] Hc; subst; try discriminate; contradiction. }
  destruct (operator_turn c rest Hc) as [Heq Hne].
  assert (Hgo : forall next t o,
            step_next (c :: rest) = next ->
            step_tokens (c :: rest) = [t] ->
            step_stdout (c :: rest) = o ->
            exists toks' out',
              tokenize next = Some (toks', out')
              /\ tokenize source = Some (toks ++ t :: toks', out ++ o ++ out')).
  { intros next t o En Et Eo.
    destruct (tokenize_total next) as (toks' & out' & E & L).
    exists (toks' ++ [eof_token]), out'. split; [exact E|].
    rewrite <- En in L.
    pose proof (lexes_turn _ _ _ Hnul L) as L'.
    rewrite Et, Eo in L'.
    rewrite (tokenize_lexes _ _ _ (reaches_lexes _ _ _ _ _ _ Hr L')).
    cbn [app]. rewrite <- app_assoc. reflexivity. }
  split; intro Hp.
  - destruct (Heq Hp) as (En & Et & Eo).
    destruct (Hgo _ _ _ En Et Eo) as (toks' & out' & E & E').
    exists toks', out'. split; [exact E|exact E'].
  - destruct (Hne Hp) as (En & Et & Eo).
    apply (Hgo _ _ _ En Et Eo).
Qed.

Lemma operator_tokens_witness :
  (exists toks' out',
     tokenize (tl (str "= b")) = Some (toks', out')
     /\ tokenize (str "a >= b")
        = Some ([tok TOKEN_IDENTIFIER "a"]
                  ++ mkToken TOKEN_IDENTIFIER [">"; "="]%char :: toks',
                [] ++ out'))
  /\ (exists toks' out',
        tokenize (str " b") = Some (toks', out')
        /\ tokenize (str "a ! b")
           = Some ([tok TOKEN_IDENTIFIER "a"]
                     ++ mkToken TOKEN_UNKNOWN ["!"%char] :: toks',
                   [] ++ (str "Tokenizer Error: Unknown character '!'"
                            ++ [nl]) ++ out')).
Proof.
  split.
  - apply (operator_tokens (str "a >= b") ">" (str "= b")
             [tok TOKEN_IDENTIFIER "a"] []).
    + exact (reaches_turn _ _ _ _
               (reaches_turn _ _ _ _ (reaches_start (str "a >= b"))
                  ltac:(discriminate))
               ltac:(discriminate)).
    + cbn. tauto.
    + reflexivity.
  - apply (operator_tokens (str "a ! b") "!" (str " b")
             [tok TOKEN_IDENTIFIER "a"] []).
    + exact (reaches_turn _ _ _ _
               (reaches_turn _ _ _ _ (reaches_start (str "a ! b"))
                  ltac:(discriminate))
               ltac:(discriminate)).
    + cbn. tauto.
    + discriminate.
Defined.

(* ------------------------------------------------------------------ *)

(** C10.  A buffer of whitespace and [//] comments only is lexed to the
    EOF token alone, and [parse] then succeeds with the empty output and
    prints nothing. *)
Theorem blank_source_translated source fuel :
  whitespace_and_comments source = true ->
  tokenize source = Some ([eof_token], [])
  /\ parse (S fuel) [eof_token]
     = Ret (Some []) (mkParser [eof_token] 0 [] []).
Proof.
  intro H. split.
  - apply (tokenize_lexes _ _ _ (blank_lexes _ H)).
  - reflexivity.
Qed.

Lemma blank_source_translated_witness :
  tokenize (str "  // nothing here" ++ [nl] ++ str " ")
  = Some ([eof_token], [])
  /\ parse 1 [eof_token] = Ret (Some []) (mkParser [eof_token] 0 [] []).
Proof.
  apply (blank_source_translated
           (str "  // nothing here" ++ [nl] ++ str " ") 0).
  reflexivity.
Defined.

(* ================================================================== *)
(** * Further properties of the code *)

(** ** Examples *)

Lemma ready_start toks : ends_with_eof toks -> ready (start toks) toks.
Proof. intro He. split; [exists []; split; reflexivity|exact He]. Qed.

(* ------------------------------------------------------------------ *)

(** X1.  What [tokenize] prints is one line
    [Tokenizer Error: Unknown character 'c'] for each UNKNOWN token, in
    the order of the tokens, and nothing else; so it prints nothing
    exactly when it makes no UNKNOWN token. *)
Theorem tokenize_reports_unknown_characters source :
  exists toks,
    tokenize source = Some (toks, errors_of toks)
    /\ (errors_of toks = [] <-> filter is_unknown toks = []).
Proof.
  destruct (tokenize_total source) as (body & out & E & H).
  exists (body ++ [eof_token]). split.
  - rewrite E. rewrite (lexes_errors _ _ _ H) at 1.
    rewrite errors_of_app. cbn. rewrite app_nil_r. reflexivity.
  - unfold errors_of. split; intro Hn.
    + destruct (filter is_unknown (body ++ [eof_token])); [reflexivity|].
      discriminate Hn.
    + rewrite Hn. reflexivity.
Qed.

(* ------------------------------------------------------------------ *)

(** X2.  The lexemes of the tokens that [tokenize] makes before EOF: a
    NUMBER is one digit or more; a KEYWORD is a word that is one of the
    eight keywords; an IDENTIFIER is a word that is no keyword, or one of
    [>], [<], [>=], [<=], [!=], [==], or a text that starts with a double
    quote; a PREPROCESSOR token starts with [#] and holds no newline; the
    punctuation tokens hold their character; an UNKNOWN token is a single
    character that is no space, letter or digit. *)
Theorem tokenize_lexeme_shapes source :
  exists body out,
    tokenize source = Some (body ++ [eof_token], out)
    /\ forallb lexeme_shape body = true.
Proof.
  destruct (tokenize_total source) as (body & out & E & H).
  exists body, out. split; [exact E|].
  apply (lexes_lexeme_shape _ _ _ H).
Qed.

(* ------------------------------------------------------------------ *)

(** X3.  Among the tokens that [tokenize] makes before EOF, the KEYWORD
    tokens are exactly those whose lexeme [is_keyword] accepts: no
    keyword is lexed as an identifier, and nothing else is lexed as a
    keyword. *)
Theorem tokenize_keywords source :
  exists body out,
    tokenize source = Some (body ++ [eof_token], out)
    /\ forall t, In t body ->
                 (type t = TOKEN_KEYWORD <-> is_keyword (lexeme t) = true).
Proof.
  destruct (tokenize_total source) as (body & out & E & H).
  exists body, out. split; [exact E|]. intros t Ht.
  pose proof (lexes_lexeme_shape _ _ _ H) as Hs.
  rewrite forallb_forall in Hs. specialize (Hs t Ht). split.
  - intro Hk. unfold lexeme_shape in Hs. rewrite Hk in Hs.
    apply andb_true_iff in Hs. tauto.
  - apply keyword_shape. exact Hs.
Qed.

(* ------------------------------------------------------------------ *)

(** X4.  [tokenize] drops nothing but whitespace and [//] comments: a
    source text without NUL characters is the lexemes of its tokens
    before EOF, in order, each after a stretch of whitespace and
    comments, with such a stretch at the end. *)
Theorem tokenize_keeps_text source :
  no_nul source = true ->
  exists body out gaps last,
    tokenize source = Some (body ++ [eof_token], out)
    /\ length gaps = length body
    /\ source = weave gaps body last
    /\ forallb whitespace_and_comments gaps = true
    /\ whitespace_and_comments last = true.
Proof.
  intro Hn. destruct (tokenize_total source) as (body & out & E & H).
  destruct (lexes_weave _ _ _ H Hn) as (gaps & last & Hl & Hw & Hg & Hlast & _).
  exists body, out, gaps, last. auto.
Qed.

Lemma tokenize_keeps_text_witness :
  exists body out gaps last,
    tokenize (str "x = 1; // one") = Some (body ++ [eof_token], out)
    /\ length gaps = length body
    /\ str "x = 1; // one" = weave gaps body last
    /\ forallb whitespace_and_comments gaps = true
    /\ whitespace_and_comments last = true.
Proof. apply (tokenize_keeps_text (str "x = 1; // one")). reflexivity. Defined.

(* ------------------------------------------------------------------ *)



(* ------------------------------------------------------------------ *)

(** X6.  [advance] moves the cursor by one and returns the token it
    passed, when that token is not the last one.  On the last token the
    cursor stays, and what is returned is the token before the last; with
    a single token in the list there is none, and the array is read
    before its start. *)
Theorem advance_returns_passed_token p :
  (forall t t' rest,
      at_cursor p (t :: t' :: rest) -> advance p = Ret t (next p))
  /\ (forall pre prev t,
         tokens p = pre ++ [prev; t] ->
         current_token_pos p = Z.of_nat (length pre) + 1 ->
         advance p = Ret prev p)
  /\ (forall t,
         tokens p = [t] -> current_token_pos p = 0 ->
         advance p = Undefined).
Proof.
  split; [|split].
  - intros t t' rest H. apply (advance_eq _ _ _ _ H).
  - intros pre prev t Ht Hp. unfold advance, bind, count.
    rewrite Ht, length_app. cbn [length].
    destruct (_ <? _) eqn:E; [apply Z.ltb_lt in E; lia|].
    cbn [ret]. unfold read. rewrite Ht, Hp.
    replace (Z.of_nat (length pre) + 1 - 1) with (Z.of_nat (length pre))
      by lia.
    rewrite (token_at_app pre prev [t]). reflexivity.
  - intros t Ht Hp. unfold advance, bind, count. rewrite Ht, Hp.
    cbn [length Z.of_nat Z.sub Z.ltb Z.compare Pos.of_succ_nat Z.opp
         Z.add Z.pos_sub ret].
    unfold read, token_at. rewrite Hp. reflexivity.
Qed.

(* ------------------------------------------------------------------ *)

(** X7.  The parser changes its state in three ways only: the cursor
    moves one token forward, from a token that is not the last one; text
    is added at the end of the output; a text that starts with
    [Parser Error: ] is added at the end of what is printed.  So a
    relation between states that is reflexive and transitive and holds
    across these three changes holds from the start to the end of every
    run of [parse_statement], [parse_function_declaration] and the loop
    of [parse]. *)
Theorem parser_state_changes (R : Parser -> Parser -> Prop) :
  invariant R -> prints R ->
  (forall fuel, keeps R (parse_statement fuel))
  /\ (forall fuel, keeps R (parse_function_declaration fuel))
  /\ (forall fuel n, keeps R (parse_loop fuel n)).
Proof.
  intros HR HP. split; [|split].
  - intro fuel. apply keeps_parse_statement; assumption.
  - intro fuel. apply keeps_parse_function_declaration; assumption.
  - intros fuel n. apply keeps_parse_loop; assumption.
Qed.

Lemma parser_state_changes_witness :
  (forall fuel, keeps advances (parse_statement fuel))
  /\ (forall fuel, keeps advances (parse_function_declaration fuel))
  /\ (forall fuel n, keeps advances (parse_loop fuel n)).
Proof.
  exact (parser_state_changes advances invariant_advances prints_advances).
Defined.

(* ------------------------------------------------------------------ *)

(** X8.  The cursor never leaves the token array and the array is never
    changed: whatever [parse] returns for a list that is not empty, the
    state it leaves has the tokens it was given and a cursor on one of
    them. *)
Theorem parse_cursor_in_bounds fuel toks :
  toks <> [] ->
  match parse fuel toks with
  | Ret _ p => tokens p = toks /\ 0 <= current_token_pos p < count p
  | _ => True
  end.
Proof.
  intro Hne. unfold parse.
  destruct (parse_loop fuel fuel (mkParser toks 0 [] [])) as [r p| |] eqn:E;
    [|exact I|exact I].
  destruct (keeps_parse_loop in_bounds fuel fuel invariant_in_bounds
              prints_in_bounds _ _ _ E) as [Ht Hb].
  split; [exact Ht|]. apply Hb. unfold count. cbn [tokens current_token_pos].
  destruct toks; [congruence|cbn [length]; lia].
Qed.

Lemma parse_cursor_in_bounds_witness :
  match parse 3 example_function with
  | Ret _ p =>
      tokens p = example_function /\ 0 <= current_token_pos p < count p
  | _ => True
  end.
Proof. apply (parse_cursor_in_bounds 3 example_function). discriminate. Defined.

(* ------------------------------------------------------------------ *)

(** X9.  [parse] prints nothing when it returns the output, and when it
    returns NULL it has printed a text that starts with
    [Parser Error: ]: no failure is silent and no success is noisy. *)
Theorem parse_reports_every_failure fuel toks :
  match parse fuel toks with
  | Ret (Some _) p => stdout p = []
  | Ret None p => exists msg, stdout p = str "Parser Error: " ++ msg
  | _ => True
  end.
Proof.
  unfold parse.
  destruct (parse_loop fuel fuel (mkParser toks 0 [] [])) as [r p| |] eqn:E;
    [|exact I|exact I].
  pose proof (quiet_parse_loop fuel fuel _ _ _ E) as H.
  destruct r; exact H.
Qed.

(* ------------------------------------------------------------------ *)

(** X10.  The translator comes to an end on every source text: the
    tokens of the text are lexed, and with a bound on the nesting that is
    at least the number of tokens the parser is never cut off, and gives
    what it gives with that number as the bound. *)
Theorem transpile_terminates source :
  exists toks out,
    tokenize source = Some (toks, out)
    /\ forall fuel,
         (length toks <= fuel)%nat ->
         parse fuel toks <> OutOfFuel
         /\ parse fuel toks = parse (length toks) toks.
Proof.
  destruct (tokenize_total source) as (body & out & E & _).
  exists (body ++ [eof_token]), out. split; [exact E|].
  assert (He : ends_with_eof (body ++ [eof_token]))
    by (exists body, eof_token; auto).
  intros fuel Hf. split; [apply (parse_finishes _ _ He Hf)|].
  apply parse_fuel; [exact Hf|]. apply (parse_finishes _ _ He). lia.
Qed.

(* ------------------------------------------------------------------ *)

(** X11.  On a list that ends with EOF, with a buffer of one character
    at least and tokens of non-empty lexemes before the end,
    [slurp_tokens_until] leaves in its buffer the lexemes of the tokens
    before the first one of the kind asked for, or before EOF, joined by
    single spaces and cut to one character less than the buffer holds,
    so that the text and its NUL fit; the cursor is left on that token.
    With a buffer of no character the first assignment, [buffer[0] = 0],
    is out of bounds. *)
Theorem slurp_tokens_until_joins end_type buffer_size p l :
  ready p l ->
  (1 <= buffer_size)%nat ->
  Forall (fun t => lexeme t <> []) (run_until end_type l) ->
  slurp_tokens_until end_type buffer_size p
  = Ret (firstn (buffer_size - 1) (join_lexemes (run_until end_type l)))
        (advance_by p (length (run_until end_type l)))
  /\ (length (firstn (buffer_size - 1)
                (join_lexemes (run_until end_type l))) < buffer_size)%nat
  /\ (exists x rest,
        l = run_until end_type l ++ x :: rest
        /\ (type x = end_type \/ type x = TOKEN_EOF))
  /\ slurp_tokens_until end_type 0 p = Undefined.
Proof.
  intros H Hsz Hne. split; [|split; [|split]].
  - rewrite (slurp_tokens_until_sized _ _ _ _ H Hsz).
    rewrite (slurp_text_join _ Hne). reflexivity.
  - rewrite length_firstn. lia.
  - destruct (run_until_next end_type l (proj2 H)) as (x & rest & E & Hx & _).
    exists x, rest. auto.
  - apply slurp_tokens_until_unsized.
Qed.

Lemma slurp_tokens_until_joins_witness :
  slurp_tokens_until TOKEN_SEMICOLON 8 (start example_return)
  = Ret (firstn (8 - 1)
           (join_lexemes (run_until TOKEN_SEMICOLON example_return)))
        (advance_by (start example_return)
           (length (run_until TOKEN_SEMICOLON example_return)))
  /\ (length (firstn (8 - 1)
                (join_lexemes (run_until TOKEN_SEMICOLON example_return)))
      < 8)%nat
  /\ (exists x rest,
        example_return
        = run_until TOKEN_SEMICOLON example_return ++ x :: rest
        /\ (type x = TOKEN_SEMICOLON \/ type x = TOKEN_EOF))
  /\ slurp_tokens_until TOKEN_SEMICOLON 0 (start example_return)
     = Undefined.
Proof.
  apply (slurp_tokens_until_joins TOKEN_SEMICOLON 8 (start example_return)
           example_return).
  - apply ready_start.
    exists (removelast example_return), eof_token. split; reflexivity.
  - lia.
  - repeat constructor; discriminate.
Defined.

(* ------------------------------------------------------------------ *)

(** X12.  With the cursor on an opening parenthesis whose closing
    parenthesis is in the list, [get_offset_after_paren] returns the
    offset of the token after the closing one, and leaves the state as it
    was; nested parentheses are passed over. *)
Theorem get_offset_after_paren_matches p lparen run rparen rest :
  at_cursor p (lparen :: run ++ rparen :: rest) ->
  type lparen = TOKEN_LPAREN ->
  inside_parens 1 run = true ->
  type rparen = TOKEN_RPAREN ->
  get_offset_after_paren p = Ret (Z.of_nat (length run + 2)) p.
Proof. apply get_offset_after_paren_eq. Qed.

Lemma get_offset_after_paren_matches_witness :
  get_offset_after_paren (example_at 10)
  = Ret (Z.of_nat (length [tok TOKEN_IDENTIFIER "x"; tok TOKEN_COMMA ",";
                           tok TOKEN_LPAREN "("; tok TOKEN_IDENTIFIER "y";
                           tok TOKEN_RPAREN ")"] + 2))
        (example_at 10).
Proof.
  apply (get_offset_after_paren_matches (example_at 10)
           (tok TOKEN_LPAREN "(") _ (tok TOKEN_RPAREN ")")
           (skipn 17 example_function)).
  - exists (firstn 10 example_function). split; reflexivity.
  - reflexivity.
  - reflexivity.
  - reflexivity.
Defined.

(* ------------------------------------------------------------------ *)

(** X13.  A body statement that starts with a keyword or an identifier is
    copied: [parse_statement] writes four spaces, the lexemes up to the
    first semicolon joined by single spaces and cut to 1023 characters,
    [;] and a newline, and leaves the cursor after the semicolon.  When
    the input ends before a semicolon it writes nothing, prints
    [Parser Error: Expected ';' after statement. Got 'EOF' instead.] and
    fails. *)
Theorem copied_statement_translated fuel p run x rest :
  ready p (run ++ x :: rest) ->
  Forall (fun t => type t <> TOKEN_SEMICOLON /\ type t <> TOKEN_EOF) run ->
  Forall (fun t => lexeme t <> []) run ->
  (exists t l, run = t :: l
               /\ (type t = TOKEN_KEYWORD \/ type t = TOKEN_IDENTIFIER)) ->
  (type x = TOKEN_SEMICOLON ->
   parse_statement (S fuel) p
   = Ret true
       (emit (advance_by p (length run + 1))
          (str "    " ++ firstn 1023 (join_lexemes run) ++ str ";" ++ [nl])))
  /\ (type x = TOKEN_EOF ->
      parse_statement (S fuel) p
      = Ret false
          (print (advance_by p (length run))
             (str "Parser Error: Expected ';' after statement. Got '"
                ++ lexeme x ++ str "' instead." ++ [nl]))).
Proof.
  intros H Hf Hne Hw.
  assert (Hd : parse_statement (S fuel) p = parse_passthrough p).
  { destruct Hw as (t & l & -> & Ht). cbn [app] in H.
    apply (parse_statement_word _ _ _ _ (proj1 H) Ht). }
  rewrite Hd. split; intro Hx.
  - rewrite (parse_passthrough_eq _ _ _ _ H Hf (or_introl Hx) Hw).
    rewrite Hx, (slurp_text_join _ Hne). reflexivity.
  - rewrite (parse_passthrough_eq _ _ _ _ H Hf (or_intror Hx) Hw).
    rewrite Hx. reflexivity.
Qed.

Lemma copied_statement_translated_witness :
  (type (tok TOKEN_SEMICOLON ";") = TOKEN_SEMICOLON ->
   parse_statement 1 (start example_return)
   = Ret true
       (emit (advance_by (start example_return)
                (length [tok TOKEN_KEYWORD "return";
                         tok TOKEN_IDENTIFIER "x"] + 1))
          (str "    "
             ++ firstn 1023 (join_lexemes [tok TOKEN_KEYWORD "return";
                                           tok TOKEN_IDENTIFIER "x"])
             ++ str ";" ++ [nl])))
  /\ (type (tok TOKEN_SEMICOLON ";") = TOKEN_EOF ->
      parse_statement 1 (start example_return)
      = Ret false
          (print (advance_by (start example_return)
                    (length [tok TOKEN_KEYWORD "return";
                             tok TOKEN_IDENTIFIER "x"]))
             (str "Parser Error: Expected ';' after statement. Got '"
                ++ lexeme (tok TOKEN_SEMICOLON ";") ++ str "' instead."
                ++ [nl]))).
Proof.
  apply (copied_statement_translated 0 (start example_return)
           [tok TOKEN_KEYWORD "return"; tok TOKEN_IDENTIFIER "x"]
           (tok TOKEN_SEMICOLON ";") [tok TOKEN_RBRACE "}"; eof_token]).
  - apply ready_start.
    exists (removelast example_return), eof_token. split; reflexivity.
  - repeat constructor; discriminate.
  - repeat constructor; discriminate.
  - exists (tok TOKEN_KEYWORD "return"), [tok TOKEN_IDENTIFIER "x"].
    split; [reflexivity|left; reflexivity].
Defined.

(* ------------------------------------------------------------------ *)

(** X14.  A token that is neither a number, an opening parenthesis, a
    keyword nor an identifier starts no statement: [parse_statement]
    prints [Parser Error: Unrecognized statement starting with 'lexeme']
    and fails, with the cursor and the output as they were. *)
Theorem unrecognized_statement_rejected fuel p t rest :
  at_cursor p (t :: rest) ->
  type t <> TOKEN_NUMBER -> type t <> TOKEN_LPAREN ->
  type t <> TOKEN_KEYWORD -> type t <> TOKEN_IDENTIFIER ->
  parse_statement (S fuel) p
  = Ret false
      (mkParser (tokens p) (current_token_pos p) (output p)
         (stdout p
            ++ str "Parser Error: Unrecognized statement starting with '"
            ++ lexeme t ++ str "'" ++ [nl])).
Proof. apply parse_statement_unrecognized. Qed.

Lemma unrecognized_statement_rejected_witness :
  parse_statement 1 (start [tok TOKEN_SEMICOLON ";"; eof_token])
  = Ret false
      (mkParser [tok TOKEN_SEMICOLON ";"; eof_token] 0 []
         ([] ++ str "Parser Error: Unrecognized statement starting with '"
             ++ str ";" ++ str "'" ++ [nl])).
Proof.
  apply (unrecognized_statement_rejected 0
           (start [tok TOKEN_SEMICOLON ";"; eof_token])
           (tok TOKEN_SEMICOLON ";") [eof_token]);
    try discriminate.
  exists []. split; reflexivity.
Defined.

(* ------------------------------------------------------------------ *)

(** X15.  A body statement [( condition ) while { body }], the condition
    holding no parenthesis, that [parse_statement] accepts is written as
    [    while (condition) {] and a newline, the statements of the body
    as the statement loop translates them, and [    }] with a newline.
    The condition is its lexemes joined by single spaces, cut to 255
    characters. *)
Theorem while_loop_translated fuel p lparen cond rp kw lb rest p' :
  ready p (lparen :: cond ++ rp :: kw :: lb :: rest) ->
  type lparen = TOKEN_LPAREN -> Forall plain cond ->
  Forall (fun t => lexeme t <> []) cond ->
  type rp = TOKEN_RPAREN ->
  type kw = TOKEN_KEYWORD -> lexeme kw = str "while" ->
  type lb = TOKEN_LBRACE ->
  parse_statement (S fuel) p = Ret true p' ->
  let header :=
    str "    while (" ++ firstn 255 (join_lexemes cond) ++ str ") {" ++ [nl] in
  exists body q,
    body_loop (parse_statement fuel) fuel
      (emit (advance_by p (length cond + 4)) header) = Ret true q
    /\ output q = (output p ++ header) ++ body
    /\ match_ TOKEN_RBRACE q = Ret true q
    /\ p' = emit (next q) (str "    }" ++ [nl])
    /\ output p' = output p ++ header ++ body ++ str "    }" ++ [nl].
Proof.
  intros H Hl Hc Hne Hr Hkw Hw Hlb E.
  rewrite (parse_statement_control _ _ _ _ _ _ _ (proj1 H) Hl
             (plain_inside_parens _ Hc) Hr Hkw),
    Hw in E.
  cbn [cstring_eqb str list_ascii_of_string Ascii.eqb Bool.eqb andb] in E.
  apply (loop_run (parse_statement fuel) fuel
           (str "Expected '(' before while loop condition")
           (str "Expected ')' after while loop condition")
           (str "Expected 'while' keyword after condition")
           (str "Expected '{' before while loop body")
           (str "Expected '}' after while loop body")
           (str "    while (") (str "    }" ++ [nl])
           p lparen cond rp kw lb rest p');
    auto with keeps forward.
  cbn [length str list_ascii_of_string]. lia.
Qed.

Lemma while_loop_translated_witness :
  let header :=
    str "    while (" ++ firstn 255 (join_lexemes example_condition)
      ++ str ") {" ++ [nl] in
  exists body q,
    body_loop (parse_statement 2) 2
      (emit (advance_by (start (example_control "while"))
               (length example_condition + 4)) header) = Ret true q
    /\ output q = (output (start (example_control "while")) ++ header) ++ body
    /\ match_ TOKEN_RBRACE q = Ret true q
    /\ example_after "while" = emit (next q) (str "    }" ++ [nl])
    /\ output (example_after "while")
       = output (start (example_control "while")) ++ header ++ body
           ++ str "    }" ++ [nl].
Proof.
  apply (while_loop_translated 2 (start (example_control "while"))
           (tok TOKEN_LPAREN "(") example_condition (tok TOKEN_RPAREN ")")
           (tok TOKEN_KEYWORD "while") (tok TOKEN_LBRACE "{")
           (skipn 7 (example_control "while")) (example_after "while")).
  - apply ready_start.
    exists (removelast (example_control "while")), eof_token.
    split; reflexivity.
  - reflexivity.
  - repeat (constructor; [repeat split; discriminate|]). constructor.
  - repeat (constructor; [discriminate|]). constructor.
  - reflexivity.
  - reflexivity.
  - reflexivity.
  - reflexivity.
  - vm_compute. reflexivity.
Defined.

(* ------------------------------------------------------------------ *)

(** X16.  The same for [( condition ) for { body }], written as
    [    for (condition) {], the body and [    }]. *)
Theorem for_loop_translated fuel p lparen cond rp kw lb rest p' :
  ready p (lparen :: cond ++ rp :: kw :: lb :: rest) ->
  type lparen = TOKEN_LPAREN -> Forall plain cond ->
  Forall (fun t => lexeme t <> []) cond ->
  type rp = TOKEN_RPAREN ->
  type kw = TOKEN_KEYWORD -> lexeme kw = str "for" ->
  type lb = TOKEN_LBRACE ->
  parse_statement (S fuel) p = Ret true p' ->
  let header :=
    str "    for (" ++ firstn 255 (join_lexemes cond) ++ str ") {" ++ [nl] in
  exists body q,
    body_loop (parse_statement fuel) fuel
      (emit (advance_by p (length cond + 4)) header) = Ret true q
    /\ output q = (output p ++ header) ++ body
    /\ match_ TOKEN_RBRACE q = Ret true q
    /\ p' = emit (next q) (str "    }" ++ [nl])
    /\ output p' = output p ++ header ++ body ++ str "    }" ++ [nl].
Proof.
  intros H Hl Hc Hne Hr Hkw Hw Hlb E.
  rewrite (parse_statement_control _ _ _ _ _ _ _ (proj1 H) Hl
             (plain_inside_parens _ Hc) Hr Hkw),
    Hw in E.
  cbn [cstring_eqb str list_ascii_of_string Ascii.eqb Bool.eqb andb] in E.
  apply (loop_run (parse_statement fuel) fuel
           (str "Expected '(' before for loop condition")
           (str "Expected ')' after for loop condition")
           (str "Expected 'for' keyword after condition")
           (str "Expected '{' before for loop body")
           (str "Expected '}' after for loop body")
           (str "    for (") (str "    }" ++ [nl])
           p lparen cond rp kw lb rest p');
    auto with keeps forward.
  cbn [length str list_ascii_of_string]. lia.
Qed.

Lemma for_loop_translated_witness :
  let header :=
    str "    for (" ++ firstn 255 (join_lexemes example_condition)
      ++ str ") {" ++ [nl] in
  exists body q,
    body_loop (parse_statement 2) 2
      (emit (advance_by (start (example_control "for"))
               (length example_condition + 4)) header) = Ret true q
    /\ output q = (output (start (example_control "for")) ++ header) ++ body
    /\ match_ TOKEN_RBRACE q = Ret true q
    /\ example_after "for" = emit (next q) (str "    }" ++ [nl])
    /\ output (example_after "for")
       = output (start (example_control "for")) ++ header ++ body
           ++ str "    }" ++ [nl].
Proof.
  apply (for_loop_translated 2 (start (example_control "for"))
           (tok TOKEN_LPAREN "(") example_condition (tok TOKEN_RPAREN ")")
           (tok TOKEN_KEYWORD "for") (tok TOKEN_LBRACE "{")
           (skipn 7 (example_control "for")) (example_after "for")).
  - apply ready_start.
    exists (removelast (example_control "for")), eof_token.
    split; reflexivity.
  - reflexivity.
  - repeat (constructor; [repeat split; discriminate|]). constructor.
  - repeat (constructor; [discriminate|]). constructor.
  - reflexivity.
  - reflexivity.
  - reflexivity.
  - reflexivity.
  - vm_compute. reflexivity.
Defined.

(* ------------------------------------------------------------------ *)

(** X17.  A body statement [( condition ) if { body }], the condition
    holding no parenthesis, that [parse_statement] accepts is written as
    [    if (condition) {] and a newline, the statements of the body as
    the statement loop translates them, and [    }] with a newline.  The
    condition is its lexemes joined by single spaces, cut to 255
    characters.  When the keyword [else] follows the closing brace,
    [    else {], the statements of the second body and [    }] are
    written after it; any other token there ends the statement. *)
Theorem if_statement_translated fuel p lparen cond rp kw lb rest p' :
  ready p (lparen :: cond ++ rp :: kw :: lb :: rest) ->
  type lparen = TOKEN_LPAREN -> Forall plain cond ->
  Forall (fun t => lexeme t <> []) cond ->
  type rp = TOKEN_RPAREN ->
  type kw = TOKEN_KEYWORD -> lexeme kw = str "if" ->
  type lb = TOKEN_LBRACE ->
  parse_statement (S fuel) p = Ret true p' ->
  let header :=
    str "    if (" ++ firstn 255 (join_lexemes cond) ++ str ") {" ++ [nl] in
  let closing := str "    }" ++ [nl] in
  exists body q rb l',
    body_loop (parse_statement fuel) fuel
      (emit (advance_by p (length cond + 4)) header) = Ret true q
    /\ output q = (output p ++ header) ++ body
    /\ ready q (rb :: l') /\ type rb = TOKEN_RBRACE
    /\ if starts_with_else l'
       then exists body2 q2,
              body_loop (parse_statement fuel) fuel
                (emit (advance_by q 3)
                   (closing ++ str "    else {" ++ [nl])) = Ret true q2
              /\ output q2
                 = (output q ++ closing ++ str "    else {" ++ [nl]) ++ body2
              /\ match_ TOKEN_RBRACE q2 = Ret true q2
              /\ p' = emit (next q2) closing
       else p' = emit (next q) closing.
Proof.
  intros H Hl Hc Hne Hr Hkw Hw Hlb E.
  rewrite (parse_statement_control _ _ _ _ _ _ _ (proj1 H) Hl
             (plain_inside_parens _ Hc) Hr Hkw),
    Hw in E.
  cbn [cstring_eqb str list_ascii_of_string Ascii.eqb Bool.eqb andb] in E.
  apply (if_run fuel p lparen cond rp kw lb rest p' H Hl Hc Hne Hr Hkw Hlb E).
Qed.

Lemma if_statement_translated_witness :
  let header :=
    str "    if (" ++ firstn 255 (join_lexemes example_condition)
      ++ str ") {" ++ [nl] in
  let closing := str "    }" ++ [nl] in
  exists body q rb l',
    body_loop (parse_statement 2) 2
      (emit (advance_by (start (example_control "if"))
               (length example_condition + 4)) header) = Ret true q
    /\ output q = (output (start (example_control "if")) ++ header) ++ body
    /\ ready q (rb :: l') /\ type rb = TOKEN_RBRACE
    /\ if starts_with_else l'
       then exists body2 q2,
              body_loop (parse_statement 2) 2
                (emit (advance_by q 3)
                   (closing ++ str "    else {" ++ [nl])) = Ret true q2
              /\ output q2
                 = (output q ++ closing ++ str "    else {" ++ [nl]) ++ body2
              /\ match_ TOKEN_RBRACE q2 = Ret true q2
              /\ example_after_else = emit (next q2) closing
       else example_after_else = emit (next q) closing.
Proof.
  apply (if_statement_translated 2 (start (example_control "if"))
           (tok TOKEN_LPAREN "(") example_condition (tok TOKEN_RPAREN ")")
           (tok TOKEN_KEYWORD "if") (tok TOKEN_LBRACE "{")
           (skipn 7 (example_control "if")) example_after_else).
  - apply ready_start.
    exists (removelast (example_control "if")), eof_token.
    split; reflexivity.
  - reflexivity.
  - repeat (constructor; [repeat split; discriminate|]). constructor.
  - repeat (constructor; [discriminate|]). constructor.
  - reflexivity.
  - reflexivity.
  - reflexivity.
  - reflexivity.
  - vm_compute. reflexivity.
Defined.

(* ------------------------------------------------------------------ *)

(** X18.  The condition of a loop is cut at its first closing
    parenthesis, while the keyword is looked for after the matching one:
    a [while] statement whose condition holds a parenthesised part, not
    followed by a keyword, is rejected with
    [Parser Error: Expected 'while' keyword after condition.], the cursor
    left after the inner closing parenthesis. *)
Theorem nested_condition_rejected
        fuel p lparen c1 lp2 c2 rp2 c3 rp kw rest :
  ready p (lparen :: c1 ++ lp2 :: c2 ++ rp2 :: c3 ++ rp :: kw :: rest) ->
  type lparen = TOKEN_LPAREN -> Forall plain c1 ->
  type lp2 = TOKEN_LPAREN -> Forall plain c2 ->
  type rp2 = TOKEN_RPAREN -> Forall plain c3 ->
  Forall (fun t => type t <> TOKEN_KEYWORD) c3 ->
  type rp = TOKEN_RPAREN ->
  type kw = TOKEN_KEYWORD -> lexeme kw = str "while" ->
  parse_statement (S fuel) p
  = Ret false
      (print (advance_by p (length c1 + length c2 + 3))
         (str "Parser Error: Expected 'while' keyword after condition. Got '"
            ++ lexeme (hd rp c3) ++ str "' instead." ++ [nl])).
Proof.
  intros H Hl H1 Hlp H2 Hrp2 H3 Hk3 Hrp Hkw Hw.
  assert (E : lparen :: c1 ++ lp2 :: c2 ++ rp2 :: c3 ++ rp :: kw :: rest
              = lparen :: (c1 ++ lp2 :: c2 ++ rp2 :: c3) ++ rp :: kw :: rest).
  { f_equal. rewrite <- app_assoc. cbn [app]. rewrite <- app_assoc.
    reflexivity. }
  assert (Hin : inside_parens 1 (c1 ++ lp2 :: c2 ++ rp2 :: c3) = true).
  { rewrite (inside_parens_plain 1 c1) by (try lia; exact H1).
    cbn [inside_parens]. unfold level_after.
    rewrite Hlp. cbn [TokenType_eqb negb andb Z.add Z.ltb Z.compare
                      Pos.add Pos.succ].
    rewrite (inside_parens_plain 2 c2) by (try lia; exact H2).
    cbn [inside_parens]. unfold level_after.
    rewrite Hrp2. cbn [TokenType_eqb negb andb Z.sub Z.add Z.opp Z.pos_sub
                       Pos.pred_double Z.ltb Z.compare Z.succ_double
                       Z.pred_double Z.double].
    rewrite <- (app_nil_r c3).
    rewrite (inside_parens_plain 1 c3) by (try lia; exact H3).
    reflexivity. }
  pose proof (proj1 H) as Hat. rewrite E in Hat.
  rewrite (parse_statement_control _ _ _ _ _ _ _ Hat Hl Hin Hrp Hkw), Hw.
  cbn [cstring_eqb str list_ascii_of_string Ascii.eqb Bool.eqb andb].
  destruct c3 as [|y c3].
  - cbn [app hd] in *.
    apply (parse_while_loop_nested _ _ _ _ _ _ _ _ _ _ H Hl H1 Hlp H2 Hrp2).
    rewrite Hrp. discriminate.
  - cbn [app hd] in *. inversion Hk3.
    apply (parse_while_loop_nested _ _ _ _ _ _ _ _ _ _ H Hl H1 Hlp H2 Hrp2).
    assumption.
Qed.

Lemma nested_condition_rejected_witness :
  parse_statement 1 (start example_nested)
  = Ret false
      (print (advance_by (start example_nested)
                (length (@nil Token) + length [tok TOKEN_IDENTIFIER "i"] + 3))
         (str "Parser Error: Expected 'while' keyword after condition. Got '"
            ++ lexeme (hd (tok TOKEN_RPAREN ")")
                          [tok TOKEN_IDENTIFIER "<"; tok TOKEN_NUMBER "3"])
            ++ str "' instead." ++ [nl])).
Proof.
  apply (nested_condition_rejected 0 (start example_nested)
           (tok TOKEN_LPAREN "(") []
           (tok TOKEN_LPAREN "(") [tok TOKEN_IDENTIFIER "i"]
           (tok TOKEN_RPAREN ")")
           [tok TOKEN_IDENTIFIER "<"; tok TOKEN_NUMBER "3"]
           (tok TOKEN_RPAREN ")") (tok TOKEN_KEYWORD "while")
           (skipn 8 example_nested));
    try reflexivity.
  - apply ready_start.
    exists (removelast example_nested), eof_token. split; reflexivity.
  - constructor.
  - repeat (constructor; [repeat split; discriminate|]). constructor.
  - repeat (constructor; [repeat split; discriminate|]). constructor.
  - repeat (constructor; [discriminate|]). constructor.
Defined.

(* ------------------------------------------------------------------ *)

(** X19.  At the top level a token that is neither EOF, a preprocessor
    line nor an opening parenthesis makes [parse] return NULL after
    printing [Parser Error: Only preprocessor directives or function
    definitions allowed at top level. Found 'lexeme'.]; nothing is
    written. *)
Theorem top_level_token_rejected fuel t rest :
  type t <> TOKEN_EOF -> type t <> TOKEN_PREPROCESSOR ->
  type t <> TOKEN_LPAREN ->
  parse (S fuel) (t :: rest)
  = Ret None
      (mkParser (t :: rest) 0 []
         (str "Parser Error: Only preprocessor directives or function definitions allowed at top level. Found '"
            ++ lexeme t ++ str "'." ++ [nl])).
Proof.
  intros H1 H2 H3. unfold parse.
  apply (parse_loop_stray (S fuel) fuel (mkParser (t :: rest) 0 [] []) t rest);
    try assumption.
  exists []. split; reflexivity.
Qed.

Lemma top_level_token_rejected_witness :
  parse 1 [tok TOKEN_KEYWORD "int"; eof_token]
  = Ret None
      (mkParser [tok TOKEN_KEYWORD "int"; eof_token] 0 []
         (str "Parser Error: Only preprocessor directives or function definitions allowed at top level. Found '"
            ++ lexeme (tok TOKEN_KEYWORD "int") ++ str "'." ++ [nl])).
Proof.
  apply (top_level_token_rejected 0 (tok TOKEN_KEYWORD "int") [eof_token]);
    discriminate.
Defined.

(* ------------------------------------------------------------------ *)

(** X20.  Preprocessor lines at the top level are copied to the output as
    they are, each followed by a newline, in their order. *)
Theorem directives_copied fuel ds :
  Forall (fun t => type t = TOKEN_PREPROCESSOR) ds ->
  (length ds < fuel)%nat ->
  parse fuel (ds ++ [eof_token])
  = Ret (Some (directive_lines ds))
        (mkParser (ds ++ [eof_token]) (Z.of_nat (length ds))
           (directive_lines ds) []).
Proof.
  intros Hf Hn. unfold parse.
  rewrite (parse_loop_directives fuel fuel _ ds eof_token [] ); auto.
  apply ready_start. exists ds, eof_token. auto.
Qed.

Lemma directives_copied_witness :
  parse 3 ([tok TOKEN_PREPROCESSOR "#include <stdio.h>";
            tok TOKEN_PREPROCESSOR "#define N 3"] ++ [eof_token])
  = Ret (Some (directive_lines [tok TOKEN_PREPROCESSOR "#include <stdio.h>";
                                tok TOKEN_PREPROCESSOR "#define N 3"]))
        (mkParser ([tok TOKEN_PREPROCESSOR "#include <stdio.h>";
                    tok TOKEN_PREPROCESSOR "#define N 3"] ++ [eof_token])
           (Z.of_nat (length [tok TOKEN_PREPROCESSOR "#include <stdio.h>";
                              tok TOKEN_PREPROCESSOR "#define N 3"]))
           (directive_lines [tok TOKEN_PREPROCESSOR "#include <stdio.h>";
                             tok TOKEN_PREPROCESSOR "#define N 3"]) []).
Proof.
  apply (directives_copied 3 [tok TOKEN_PREPROCESSOR "#include <stdio.h>";
                              tok TOKEN_PREPROCESSOR "#define N 3"]).
  - repeat constructor.
  - cbn [length]. lia.
Defined.

(* ------------------------------------------------------------------ *)

(** X21.  In the parameter list of a function definition, after any
    number of parameters that are each followed by a comma, a parameter
    that is followed by neither a comma nor a closing parenthesis makes
    [parse_function_declaration] print
    [Parser Error: Expected ',' or ')' in argument list.] and fail, with
    nothing written and the cursor on the token after that parameter;
    the text of the parameters up to it fits the 1024 characters of its
    buffer. *)
Theorem parameter_separator_required fuel p lparen toks ps n t x rest :
  ready p (lparen :: toks ++ n :: t :: x :: rest) ->
  type lparen = TOKEN_LPAREN -> param_prefix toks ps ->
  type n = TOKEN_IDENTIFIER -> type t = TOKEN_KEYWORD ->
  type x <> TOKEN_COMMA -> type x <> TOKEN_RPAREN ->
  (length (join_with (str ", ") (map param_text (ps ++ [(n, t)]))) < 1024)%nat ->
  parse_function_declaration fuel p
  = Ret false
      (mkParser (tokens p)
         (current_token_pos p + Z.of_nat (length toks) + 3) (output p)
         (stdout p
            ++ str "Parser Error: Expected ',' or ')' in argument list."
            ++ [nl])).
Proof.
  intros H Hl Hps Hn Ht Hx1 Hx2 Hlen. rewrite <- args_text_join in Hlen.
  rewrite (parse_function_declaration_unseparated fuel _ _ _ _ _ _ _ _
             H Hl Hps Hn Ht Hx1 Hx2 Hlen).
  unfold print, advance_by. cbn [tokens current_token_pos output stdout].
  f_equal. f_equal. lia.
Qed.

Lemma parameter_separator_required_witness :
  parse_function_declaration 1 (start example_parameters)
  = Ret false
      (mkParser example_parameters 6 []
         (str "Parser Error: Expected ',' or ')' in argument list."
            ++ [nl])).
Proof.
  apply (parameter_separator_required 1 (start example_parameters)
           (tok TOKEN_LPAREN "(")
           (firstn 3 (skipn 1 example_parameters))
           [(tok TOKEN_IDENTIFIER "x", tok TOKEN_KEYWORD "int")]
           (tok TOKEN_IDENTIFIER "y") (tok TOKEN_KEYWORD "char")
           (tok TOKEN_IDENTIFIER "z") (skipn 7 example_parameters));
    try reflexivity; try discriminate.
  - apply ready_start.
    exists (removelast example_parameters), eof_token. split; reflexivity.
  - apply prefix_more; try reflexivity. apply prefix_none.
  - cbn. lia.
Defined.

(* ------------------------------------------------------------------ *)

(** X22.  A function definition [( parameters ) name type {] with an
    empty body, whose parameter text fits the 1024 characters of its
    buffer and whose header fits the 2048 of its own, is accepted when
    [}] follows: the output gains [type name(parameters) {], a newline,
    [}] and two newlines, each parameter as [type name], joined by [, ].
    When the input ends instead, the header is written all the same and
    [parse_function_declaration] fails with
    [Parser Error: Expected '}' after function body. Got 'lexeme'
    instead.] *)
Theorem empty_function_translated
        fuel p lparen toks ps rparen name rtype lbrace x rest :
  ready p (lparen :: toks ++ rparen :: name :: rtype :: lbrace :: x :: rest) ->
  type lparen = TOKEN_LPAREN -> param_list toks ps ->
  type rparen = TOKEN_RPAREN -> type name = TOKEN_IDENTIFIER ->
  type rtype = TOKEN_KEYWORD -> type lbrace = TOKEN_LBRACE ->
  type x = TOKEN_RBRACE \/ type x = TOKEN_EOF ->
  let args := join_with (str ", ") (map param_text ps) in
  (length args < 1024)%nat ->
  (length (header_text rtype name args) < 2048)%nat ->
  parse_function_declaration (S fuel) p
  = if TokenType_eqb (type x) TOKEN_RBRACE
    then Ret true
           (mkParser (tokens p)
              (current_token_pos p + Z.of_nat (length toks) + 6)
              (output p ++ header_text rtype name args ++ str "}" ++ [nl; nl])
              (stdout p))
    else Ret false
           (mkParser (tokens p)
              (current_token_pos p + Z.of_nat (length toks) + 5)
              (output p ++ header_text rtype name args)
              (stdout p
                 ++ str "Parser Error: Expected '}' after function body"
                 ++ str ". Got '" ++ lexeme x ++ str "' instead." ++ [nl])).
Proof.
  intros H Hl Hps Hrp Hname Hrt Hlb Hx args. subst args.
  rewrite <- args_text_join. intros Hargs Hlen.
  rewrite (parse_function_declaration_empty fuel _ _ _ _ _ _ _ _ _ _
             H Hl Hps Hrp Hname Hrt Hlb Hx Hargs Hlen).
  destruct (TokenType_eqb (type x) TOKEN_RBRACE).
  - unfold emit, advance_by. cbn [tokens current_token_pos output stdout].
    f_equal. f_equal. lia.
  - unfold failed, print, emit, advance_by.
    cbn [tokens current_token_pos output stdout].
    replace (Z.of_nat (length toks + 5)) with (Z.of_nat (length toks) + 5)
      by lia.
    rewrite Z.add_assoc. reflexivity.
Qed.

Lemma empty_function_translated_witness :
  parse_function_declaration 1 (start example_definition)
  = Ret true
      (mkParser example_definition 11
         (str "int f(int x, char y) {" ++ [nl] ++ str "}" ++ [nl; nl]) []).
Proof.
  apply (empty_function_translated 0 (start example_definition)
           (tok TOKEN_LPAREN "(")
           (firstn 5 (skipn 1 example_definition))
           [(tok TOKEN_IDENTIFIER "x", tok TOKEN_KEYWORD "int");
            (tok TOKEN_IDENTIFIER "y", tok TOKEN_KEYWORD "char")]
           (tok TOKEN_RPAREN ")") (tok TOKEN_IDENTIFIER "f")
           (tok TOKEN_KEYWORD "int") (tok TOKEN_LBRACE "{")
           (tok TOKEN_RBRACE "}") [eof_token]);
    try reflexivity.
  - apply ready_start.
    exists (removelast example_definition), eof_token. split; reflexivity.
  - apply params_more; try reflexivity; [|discriminate].
    apply params_last; reflexivity.
  - left. reflexivity.
  - cbn. lia.
  - cbn. lia.
Defined.

(* ------------------------------------------------------------------ *)

(** X23.  A comma after the last parameter of a function definition is
    accepted and leaves no trace: [( parameters , ) name type { }], under
    the same bounds, is written as the definition without that comma. *)
Theorem trailing_comma_accepted
        fuel p lparen toks ps comma rparen name rtype lbrace rbrace rest :
  ready p (lparen :: toks ++ comma :: rparen :: name :: rtype :: lbrace
             :: rbrace :: rest) ->
  type lparen = TOKEN_LPAREN -> param_list toks ps -> ps <> [] ->
  type comma = TOKEN_COMMA ->
  type rparen = TOKEN_RPAREN -> type name = TOKEN_IDENTIFIER ->
  type rtype = TOKEN_KEYWORD -> type lbrace = TOKEN_LBRACE ->
  type rbrace = TOKEN_RBRACE ->
  let args := join_with (str ", ") (map param_text ps) in
  (length args < 1024)%nat ->
  (length (header_text rtype name args) < 2048)%nat ->
  parse_function_declaration (S fuel) p
  = Ret true
      (mkParser (tokens p)
         (current_token_pos p + Z.of_nat (length toks) + 7)
         (output p ++ header_text rtype name args ++ str "}" ++ [nl; nl])
         (stdout p)).
Proof.
  intros H Hl Hps Hne Hc Hrp Hname Hrt Hlb Hx args. subst args.
  rewrite <- args_text_join. intros Hargs Hlen.
  rewrite (parse_function_declaration_trailing_comma fuel _ _ _ _ _ _ _ _ _
             _ _ H Hl Hps Hne Hc Hrp Hname Hrt Hlb Hx Hargs Hlen).
  unfold emit, advance_by. cbn [tokens current_token_pos output stdout].
  f_equal. f_equal. lia.
Qed.

Lemma trailing_comma_accepted_witness :
  parse_function_declaration 1 (start example_trailing_comma)
  = Ret true
      (mkParser example_trailing_comma 9
         (str "int f(int x) {" ++ [nl] ++ str "}" ++ [nl; nl]) []).
Proof.
  apply (trailing_comma_accepted 0 (start example_trailing_comma)
           (tok TOKEN_LPAREN "(")
           (firstn 2 (skipn 1 example_trailing_comma))
           [(tok TOKEN_IDENTIFIER "x", tok TOKEN_KEYWORD "int")]
           (tok TOKEN_COMMA ",")
           (tok TOKEN_RPAREN ")") (tok TOKEN_IDENTIFIER "f")
           (tok TOKEN_KEYWORD "int") (tok TOKEN_LBRACE "{")
           (tok TOKEN_RBRACE "}") [eof_token]);
    try reflexivity.
  - apply ready_start.
    exists (removelast example_trailing_comma), eof_token.
    split; reflexivity.
  - apply params_last; reflexivity.
  - discriminate.
  - cbn. lia.
  - cbn. lia.
Defined.

(* ------------------------------------------------------------------ *)

(** X24.  A statement that opens with a parenthesised group is a control
    structure or a call or nothing: when the token after the matching
    [)] is neither [for], [while] or [if] as a keyword, nor an
    identifier followed by [;], [parse_statement] prints
    [Parser Error: Unrecognized statement starting with '('] (the lexeme
    of the opening token) and fails, with the cursor and the output as
    they were. *)
Theorem parenthesised_statement_rejected fuel p lparen run rp y z rest :
  at_cursor p (lparen :: run ++ rp :: y :: z :: rest) ->
  type lparen = TOKEN_LPAREN -> inside_parens 1 run = true ->
  type rp = TOKEN_RPAREN ->
  (type y = TOKEN_KEYWORD ->
   lexeme y <> str "for" /\ lexeme y <> str "while" /\ lexeme y <> str "if") ->
  (type y = TOKEN_IDENTIFIER -> type z <> TOKEN_SEMICOLON) ->
  parse_statement (S fuel) p
  = Ret false
      (mkParser (tokens p) (current_token_pos p) (output p)
         (stdout p
            ++ str "Parser Error: Unrecognized statement starting with '"
            ++ lexeme lparen ++ str "'" ++ [nl])).
Proof. apply parse_statement_paren_rejected. Qed.

Lemma parenthesised_statement_rejected_witness :
  parse_statement 1 (start example_parenthesised)
  = Ret false
      (mkParser example_parenthesised 0 []
         (str "Parser Error: Unrecognized statement starting with '('"
            ++ [nl])).
Proof.
  apply (parenthesised_statement_rejected 0 (start example_parenthesised)
           (tok TOKEN_LPAREN "(") [tok TOKEN_IDENTIFIER "i"]
           (tok TOKEN_RPAREN ")") (tok TOKEN_NUMBER "3")
           (tok TOKEN_SEMICOLON ";") [eof_token]);
    try reflexivity; try discriminate.
  exists []. split; reflexivity.
Defined.
